(** * PII Shield: a shallow embedding of the detection / validation / masking core

    The development follows the Python sources module by module:
    [patterns.py] (PII types, the pattern registry, curated word lists),
    [validator.py] (format and checksum validators, context validators),
    [utils.py] (PIIMatch, overlap resolution, confidence adjustment,
    statistics, batch processing), [masking.py] (masking strategies and
    their configuration, the reversible masker) and [detector.py] (the
    orchestrator).

    Modelling conventions.
    - A Python [str] is a [list ascii]: a text of characters with code
      points below 256.  On this range the classification of characters is
      Python's: [str.isdigit] also accepts the superscripts two, three and
      one, which [int] refuses; [str.isspace], [str.split] and [\s] also
      accept U+0085 and U+00A0; [\w], [str.isupper], [str.islower] and
      [str.lower] know the letters of Latin-1; [\d] and the digits of
      [int] are [0-9].  [str.upper] is exact but for the micro sign and
      the y with diaeresis, whose upper-case forms lie beyond 255.  Text
      with code points beyond 255 is outside the model.
    - Python integers are [Z] (offsets, parsed numbers) or [nat] (counters);
      slices follow Python's clipping rules, negative bounds included.
    - Confidences and thresholds are rationals [Q].
    - An operation that can raise in Python ([int(..)], indexing,
      [list.remove]) returns a [result]; [Raise] is the error branch.
    - The two library modules the sources rely on are embedded as well:
      [re] as a backtracking matcher over a syntax of regular expressions
      (each pattern of the registry is written in that syntax), and
      [hashlib.sha256] as the hash function itself.
    - The only mutable state of a detector is threaded explicitly: the
      masker's token counter, the masking configuration and the optional
      statistics counters (wall-clock durations are left out). *)

From Stdlib Require Import List Ascii String ZArith QArith Lia Bool Arith.
From Stdlib Require Import Sorting.Sorted Sorting.Permutation.
From Stdlib Require Import DecimalString DecimalNat.
Import ListNotations.

Set Implicit Arguments.

Open Scope bool_scope.
Open Scope Z_scope.

(* ================================================================== *)
(** * Exceptions *)

Inductive exn := ValueError | IndexError.

Inductive result (A : Type) : Type :=
| Ok (a : A)
| Raise (e : exn).

Arguments Ok {A} a.
Arguments Raise {A} e.

Definition bind {A B : Type} (r : result A) (k : A -> result B) : result B :=
  match r with
  | Ok a => k a
  | Raise e => Raise e
  end.

Notation "x <- r ;; k" := (bind r (fun x => k))
  (at level 61, r at next level, right associativity).
Notation "' p <- r ;; k" := (bind r (fun x => match x with p => k end))
  (at level 61, p pattern, r at next level, right associativity).

(** [try: ... except ValueError: return d] *)
Definition except_ValueError {A : Type} (r : result A) (d : A) : result A :=
  match r with
  | Raise ValueError => Ok d
  | _ => r
  end.

(* ================================================================== *)
(** * Python strings *)

Definition str := list ascii.

Definition lit (s : string) : str := list_ascii_of_string s.

Definition len {A : Type} (l : list A) : Z := Z.of_nat (List.length l).

Definition code (c : ascii) : nat := nat_of_ascii c.

Definition in_range (lo hi : nat) (c : ascii) : bool :=
  (Nat.leb lo (code c) && Nat.leb (code c) hi)%bool.

Definition chr_eqb (a b : ascii) : bool := Ascii.eqb a b.

Definition is_code (n : nat) (c : ascii) : bool := Nat.eqb (code c) n.

(** [c.isdecimal()], the class [\d], and the digits [int] reads: [0-9]. *)
Definition isdecimal (c : ascii) : bool := in_range 48 57 c.

(** The superscripts two, three and one: digits for [str.isdigit], not for
    [int]. *)
Definition superscript (c : ascii) : bool :=
  in_range 178 179 c || is_code 185 c.

(** [c.isdigit()] *)
Definition isdigit (c : ascii) : bool := isdecimal c || superscript c.

(** [c.isnumeric()]: the digits and the fractions U+00BC..U+00BE. *)
Definition isnumeric (c : ascii) : bool := isdigit c || in_range 188 190 c.

(** The ranges [[A-Z]] and [[a-z]]. *)
Definition is_AZ (c : ascii) : bool := in_range 65 90 c.
Definition is_az (c : ascii) : bool := in_range 97 122 c.

(** [c.isupper()]: [A-Z] and the capital letters of Latin-1. *)
Definition isupper_chr (c : ascii) : bool :=
  is_AZ c || in_range 192 214 c || in_range 216 222 c.

(** [c.islower()]: [a-z], the small letters of Latin-1, the ordinal
    indicators and the micro sign. *)
Definition islower_chr (c : ascii) : bool :=
  is_az c || is_code 170 c || is_code 181 c || is_code 186 c
  || in_range 223 246 c || in_range 248 255 c.

Definition isalpha_chr (c : ascii) : bool := isupper_chr c || islower_chr c.

(** [str.isspace] on one character: TAB..CR, FS..US, the blank, U+0085 and
    U+00A0. *)
Definition isspace (c : ascii) : bool :=
  in_range 9 13 c || in_range 28 32 c || is_code 133 c || is_code 160 c.

(** The regular-expression class [\w]: [c.isalnum()], or the underscore. *)
Definition isword (c : ascii) : bool :=
  isalpha_chr c || isnumeric c || chr_eqb c "_"%char.

Definition lower_chr (c : ascii) : ascii :=
  if isupper_chr c then ascii_of_nat (code c + 32) else c.

(** The upper-case form of a character, where it is one character below
    256. *)
Definition upper_chr (c : ascii) : ascii :=
  if is_az c || in_range 224 246 c || in_range 248 254 c
  then ascii_of_nat (code c - 32) else c.

(** The characters whose upper-case form is a text of code points below
    256: all but the micro sign and the y with diaeresis. *)
Definition upper_in_range (c : ascii) : bool :=
  negb (is_code 181 c) && negb (is_code 255 c).

Definition lower (s : str) : str := map lower_chr s.

(** [s.upper()]: the sharp s becomes [SS].  (The micro sign and the y with
    diaeresis are left as they are: see [upper_in_range].) *)
Definition upper (s : str) : str :=
  flat_map (fun c => if is_code 223 c then lit "SS" else [upper_chr c]) s.

(** [s.isupper()]: some cased character, and no lower-case one. *)
Definition isupper (s : str) : bool :=
  existsb isalpha_chr s && negb (existsb islower_chr s).

(** [s.islower()]: some cased character, and no upper-case one. *)
Definition islower (s : str) : bool :=
  existsb isalpha_chr s && negb (existsb isupper_chr s).

(** [s.isdigit()]: non-empty and all digits. *)
Definition str_isdigit (s : str) : bool :=
  negb (Nat.eqb (List.length s) 0) && forallb isdigit s.

Fixpoint str_eqb (a b : str) : bool :=
  match a, b with
  | [], [] => true
  | x :: a', y :: b' => chr_eqb x y && str_eqb a' b'
  | _, _ => false
  end.

(** [x in xs] for a collection of strings. *)
Definition str_in (x : str) (xs : list str) : bool := existsb (str_eqb x) xs.

(** ** Slicing *)

Definition clip_index (n i : Z) : Z :=
  if i <? 0 then Z.max 0 (n + i) else Z.min i n.

(** [s[lo:hi]] *)
Definition slice {A : Type} (s : list A) (lo hi : Z) : list A :=
  let a := clip_index (len s) lo in
  let b := clip_index (len s) hi in
  firstn (Z.to_nat (b - a)) (skipn (Z.to_nat a) s).

(** [s[:hi]] *)
Definition slice_to {A : Type} (s : list A) (hi : Z) : list A := slice s 0 hi.

(** [s[lo:]] *)
Definition slice_from {A : Type} (s : list A) (lo : Z) : list A :=
  slice s lo (len s).

(** [s[i]], raising [IndexError] out of range. *)
Definition index {A : Type} (s : list A) (i : Z) : result A :=
  let j := if i <? 0 then len s + i else i in
  if (j <? 0) || (len s <=? j) then Raise IndexError
  else match nth_error s (Z.to_nat j) with
       | Some c => Ok c
       | None => Raise IndexError
       end.

(** ** Searching *)

Fixpoint startswith (s p : str) : bool :=
  match p, s with
  | [], _ => true
  | x :: p', y :: s' => chr_eqb x y && startswith s' p'
  | _ :: _, [] => false
  end.

Fixpoint find_from (s sub : str) (i : Z) : Z :=
  if startswith s sub then i
  else match s with
       | [] => -1
       | _ :: s' => find_from s' sub (i + 1)
       end.

(** [s.find(sub)] *)
Definition find (s sub : str) : Z := find_from s sub 0.

(** [sub in s] *)
Definition contains (s sub : str) : bool := negb (find s sub =? -1).

(** ** Splitting, stripping, joining *)

(** Split at every character satisfying [sep]; empty pieces are kept, so the
    result always has at least one element.  This is [s.split(c)] for a
    one-character separator and [re.split] for a one-character class. *)
Fixpoint split_on (sep : ascii -> bool) (s : str) : list str :=
  match s with
  | [] => [[]]
  | c :: s' =>
      if sep c then [] :: split_on sep s'
      else match split_on sep s' with
           | [] => [[c]]
           | w :: ws => (c :: w) :: ws
           end
  end.

(** [s.split()]: split at runs of white space, no empty piece. *)
Definition split (s : str) : list str :=
  filter (fun w => negb (Nat.eqb (List.length w) 0)) (split_on isspace s).

Fixpoint lstrip (chars : ascii -> bool) (s : str) : str :=
  match s with
  | [] => []
  | c :: s' => if chars c then lstrip chars s' else s
  end.

Definition rstrip (chars : ascii -> bool) (s : str) : str :=
  rev (lstrip chars (rev s)).

(** [s.strip(chars)] *)
Definition strip (chars : ascii -> bool) (s : str) : str :=
  rstrip chars (lstrip chars s).

Definition chr_in (cs : str) (c : ascii) : bool := existsb (chr_eqb c) cs.

(** [sep.join(parts)] *)
Fixpoint join (sep : str) (parts : list str) : str :=
  match parts with
  | [] => []
  | [p] => p
  | p :: ps => p ++ sep ++ join sep ps
  end.

(** [c * n] *)
Definition repeat_chr (c : ascii) (n : nat) : str := repeat c n.

(** ** Numbers *)

Definition digit_value (c : ascii) : Z := Z.of_nat (code c - 48).

(** [int(c)] for a single character. *)
Definition int_chr (c : ascii) : result Z :=
  if isdecimal c then Ok (digit_value c) else Raise ValueError.

(** The digits of an integer literal: digits with single underscores between
    them.  [acc] is the value read so far, [after_digit] tells whether the
    previous character was a digit. *)
Fixpoint int_digits (s : str) (acc : Z) (after_digit : bool) : result Z :=
  match s with
  | [] => if after_digit then Ok acc else Raise ValueError
  | c :: s' =>
      if isdecimal c then int_digits s' (10 * acc + digit_value c) true
      else if chr_eqb c "_"%char && after_digit then int_digits s' acc false
      else Raise ValueError
  end.

(** The white space [int] ignores around a number: TAB..CR, the blank,
    U+0085 and U+00A0 (the separators FS..US are white space for
    [str.isspace], not here). *)
Definition int_space (c : ascii) : bool :=
  in_range 9 13 c || chr_eqb c " "%char || is_code 133 c || is_code 160 c.

(** [sys.int_info.default_max_str_digits]: [int] refuses a text with more
    digits. *)
Definition int_max_str_digits : Z := 4300.

(** [int(s)]: surrounding white space is ignored, one sign is allowed, and
    the digits are no more than [int_max_str_digits]. *)
Definition int (s : str) : result Z :=
  match strip int_space s with
  | [] => Raise ValueError
  | c :: s' =>
      if len (filter isdecimal (c :: s')) >? int_max_str_digits
      then Raise ValueError
      else if chr_eqb c "-"%char then v <- int_digits s' 0 false ;; Ok (- v)
      else if chr_eqb c "+"%char then int_digits s' 0 false
      else int_digits (c :: s') 0 false
  end.

(** [str(n)] for a counter. *)
Definition str_of_nat (n : nat) : str :=
  list_ascii_of_string (NilZero.string_of_uint (Nat.to_uint n)).

(** [f"{n:04d}"] *)
Definition format_04d (n : nat) : str :=
  let d := str_of_nat n in
  repeat_chr "0"%char (4 - List.length d) ++ d.

(* ================================================================== *)
(** * Regular expressions ([re])

    A backtracking matcher with the semantics of Python's [re] for the
    constructs the sources use: ordered alternation, greedy repetition,
    negative look-ahead, word boundaries and anchors. *)

Inductive regex : Type :=
| Eps
| Chr (p : ascii -> bool)
| Seq (r1 r2 : regex)
| Alt (r1 r2 : regex)
| Star (r : regex)
| NotAhead (r : regex)
| WordB
| Bol
| Eol.

Definition word_at (s : str) (i : nat) : bool :=
  match nth_error s i with
  | Some c => isword c
  | None => false
  end.

(** [\b]: exactly one of the two neighbours is a word character. *)
Definition word_boundary (s : str) (i : nat) : bool :=
  xorb (match i with O => false | S j => word_at s j end) (word_at s i).

(** [$]: the end of the string, or just before a final newline. *)
Definition at_eol (s : str) (i : nat) : bool :=
  Nat.eqb i (List.length s) ||
  (Nat.eqb (S i) (List.length s) &&
   match nth_error s i with
   | Some c => chr_eqb c "010"%char
   | None => false
   end).

(** The greedy loop of [r*]: [body] matches one more [r], and the loop goes
    on from where it stopped, provided it advanced; when no further round
    leads to a match, the continuation [k] takes over.  A round consumes at
    least one character, so [fuel] above the number of characters left is
    never used up. *)
Fixpoint star_loop (body : nat -> (nat -> option nat) -> option nat)
    (k : nat -> option nat) (fuel i : nat) {struct fuel} : option nat :=
  match fuel with
  | O => k i
  | S fuel' =>
      match body i (fun j => if Nat.ltb i j then star_loop body k fuel' j
                             else None) with
      | Some e => Some e
      | None => k i
      end
  end.

(** [rmatch r s i k]: match [r] in [s] at offset [i]; [k] continues the
    match from the offset reached and yields the end of the whole match.
    [None] makes the matcher backtrack. *)
Fixpoint rmatch (r : regex) (s : str) (i : nat) (k : nat -> option nat)
  {struct r} : option nat :=
  match r with
  | Eps => k i
  | Chr p =>
      match nth_error s i with
      | Some c => if p c then k (S i) else None
      | None => None
      end
  | Seq r1 r2 => rmatch r1 s i (fun j => rmatch r2 s j k)
  | Alt r1 r2 =>
      match rmatch r1 s i k with
      | Some e => Some e
      | None => rmatch r2 s i k
      end
  | Star r' => star_loop (rmatch r' s) k (S (List.length s - i)) i
  | NotAhead r' =>
      match rmatch r' s i (fun j => Some j) with
      | Some _ => None
      | None => k i
      end
  | WordB => if word_boundary s i then k i else None
  | Bol => if Nat.eqb i 0 then k i else None
  | Eol => if at_eol s i then k i else None
  end.

(** Whether [r] can match the empty string, read off its syntax. *)
Fixpoint nullable (r : regex) : bool :=
  match r with
  | Chr _ => false
  | Seq r1 r2 => nullable r1 && nullable r2
  | Alt r1 r2 => nullable r1 || nullable r2
  | _ => true
  end.

(** Derived forms. *)
Definition cat (rs : list regex) : regex := fold_right Seq Eps rs.
Definition alts (rs : list regex) : regex :=
  match rs with
  | [] => NotAhead Eps
  | r :: rs' => fold_left Alt rs' r
  end.
Definition Opt (r : regex) : regex := Alt r Eps.
Definition Plus (r : regex) : regex := Seq r (Star r).
Fixpoint Rep (n : nat) (r : regex) : regex :=
  match n with
  | O => Eps
  | S n' => Seq r (Rep n' r)
  end.
(** At most [n] greedy repetitions. *)
Fixpoint UpTo (n : nat) (r : regex) : regex :=
  match n with
  | O => Eps
  | S n' => Opt (Seq r (UpTo n' r))
  end.
(** [r{lo,hi}] *)
Definition Range (lo hi : nat) (r : regex) : regex :=
  Seq (Rep lo r) (UpTo (hi - lo) r).
(** [r{lo,}] *)
Definition AtLeast (lo : nat) (r : regex) : regex := Seq (Rep lo r) (Star r).

Definition chr (c : ascii) : regex := Chr (chr_eqb c).
Definition word_str (w : str) : regex := cat (map chr w).
Definition word (w : string) : regex := word_str (lit w).

(** [re.IGNORECASE]: a class accepts a character when it accepts one of its
    case variants. *)
Fixpoint ignorecase (r : regex) : regex :=
  match r with
  | Chr p => Chr (fun c => p c || p (lower_chr c) || p (upper_chr c))
  | Seq a b => Seq (ignorecase a) (ignorecase b)
  | Alt a b => Alt (ignorecase a) (ignorecase b)
  | Star a => Star (ignorecase a)
  | NotAhead a => NotAhead (ignorecase a)
  | _ => r
  end.

(** A match object: the subject string and the span of the match. *)
Record Match := mkMatch {
  m_string : str;
  m_start : Z;
  m_end : Z
}.

(** [m.group(0)] *)
Definition group0 (m : Match) : str := slice (m_string m) (m_start m) (m_end m).

(** The leftmost match starting at [i] or later; [fuel] bounds the number of
    offsets still to try. *)
Fixpoint search_from (r : regex) (s : str) (fuel i : nat) : option (nat * nat) :=
  match rmatch r s i (fun j => Some j) with
  | Some e => Some (i, e)
  | None =>
      match fuel with
      | O => None
      | S fuel' => search_from r s fuel' (S i)
      end
  end.

Definition search (r : regex) (s : str) (pos : nat) : option (nat * nat) :=
  if Nat.ltb (List.length s) pos then None
  else search_from r s (List.length s - pos) pos.

(** Successive non-overlapping matches from [pos] on.  After an empty match
    the scan resumes one character further. *)
Fixpoint finditer_from (r : regex) (s : str) (fuel pos : nat) : list Match :=
  match fuel with
  | O => []
  | S fuel' =>
      match search r s pos with
      | None => []
      | Some (a, e) =>
          mkMatch s (Z.of_nat a) (Z.of_nat e)
            :: finditer_from r s fuel' (if Nat.ltb a e then e else S e)
      end
  end.

(** [r.finditer(s)] *)
Definition finditer (r : regex) (s : str) : list Match :=
  finditer_from r s (S (List.length s)) 0.

(** [re.match(r, s)] as a truth value. *)
Definition re_match (r : regex) (s : str) : bool :=
  match rmatch r s 0 (fun j => Some j) with
  | Some _ => true
  | None => false
  end.

(** [re.sub(class, '', s)] for a one-character class. *)
Definition re_sub_class (cls : ascii -> bool) (s : str) : str :=
  filter (fun c => negb (cls c)) s.

Definition digit : regex := Chr isdecimal.
Definition upper_az : regex := Chr is_AZ.
Definition lower_az : regex := Chr is_az.
(** The class [[\s\-]]. *)
Definition space_or_dash (c : ascii) : bool := isspace c || chr_eqb c "-"%char.
Definition sep : regex := Chr space_or_dash.


(* ================================================================== *)
(** * SHA-256 ([hashlib.sha256]) *)

Open Scope N_scope.

Definition w32 (x : N) : N := N.land x 0xffffffff.
Definition add32 (x y : N) : N := w32 (x + y).
Definition rotr (n x : N) : N := N.lor (N.shiftr x n) (w32 (N.shiftl x (32 - n))).
Definition not32 (x : N) : N := N.lxor x 0xffffffff.

Definition ch (x y z : N) : N := N.lxor (N.land x y) (N.land (not32 x) z).
Definition maj (x y z : N) : N :=
  N.lxor (N.lxor (N.land x y) (N.land x z)) (N.land y z).
Definition bsig0 (x : N) : N := N.lxor (N.lxor (rotr 2 x) (rotr 13 x)) (rotr 22 x).
Definition bsig1 (x : N) : N := N.lxor (N.lxor (rotr 6 x) (rotr 11 x)) (rotr 25 x).
Definition ssig0 (x : N) : N := N.lxor (N.lxor (rotr 7 x) (rotr 18 x)) (N.shiftr x 3).
Definition ssig1 (x : N) : N := N.lxor (N.lxor (rotr 17 x) (rotr 19 x)) (N.shiftr x 10).

(** The constants of the standard are fractional parts of roots of the
    first primes, 32 bits of them: cube roots for the round constants, square
    roots for the initial state. *)
Definition is_prime (n : nat) : bool :=
  forallb (fun d => negb (Nat.eqb (Nat.modulo n d) 0)) (seq 2 (n - 2)).

Definition first_primes (k : nat) : list N :=
  firstn k (map N.of_nat (filter is_prime (seq 2 400))).

(** The integer cube root of [n], built bit by bit from [bits] down. *)
Fixpoint icbrt (bits : nat) (n r : N) : N :=
  match bits with
  | O => r
  | S b =>
      let c := r + N.shiftl 1 (N.of_nat b) in
      icbrt b n (if c * c * c <=? n then c else r)
  end.

Definition sha_K : list N :=
  Eval vm_compute in
    map (fun p => w32 (icbrt 36 (N.shiftl p 96) 0)) (first_primes 64).

Definition sha_init : list N :=
  Eval vm_compute in
    map (fun p => w32 (N.sqrt (N.shiftl p 64))) (first_primes 8).

(** Big-endian bytes of [x], [n] of them. *)
Fixpoint be_bytes (n : nat) (x : N) : list N :=
  match n with
  | O => []
  | S n' => N.land (N.shiftr x (8 * N.of_nat n')) 0xff :: be_bytes n' x
  end.

(** Padding: the bit 1, zeros up to 56 modulo 64, the bit length on 8 bytes. *)
Definition sha_pad (msg : list N) : list N :=
  let l := List.length msg in
  let zeros := ((119 - Nat.modulo l 64) mod 64)%nat in
  msg ++ [0x80] ++ repeat 0 zeros ++ be_bytes 8 (8 * N.of_nat l).

Fixpoint be_words (fuel : nat) (bs : list N) : list N :=
  match fuel, bs with
  | S fuel', b0 :: b1 :: b2 :: b3 :: bs' =>
      (N.shiftl b0 24 + N.shiftl b1 16 + N.shiftl b2 8 + b3) :: be_words fuel' bs'
  | _, _ => []
  end.

(** The message schedule, most recent word first: [ws] holds
    [W(t-1), W(t-2), ...]. *)
Fixpoint sha_schedule (n : nat) (ws : list N) : list N :=
  match n with
  | O => ws
  | S n' =>
      let w := add32 (add32 (ssig1 (nth 1 ws 0)) (nth 6 ws 0))
                     (add32 (ssig0 (nth 14 ws 0)) (nth 15 ws 0)) in
      sha_schedule n' (w :: ws)
  end.

Definition sha_state := (N * N * N * N * N * N * N * N)%type.

Definition sha_round (st : sha_state) (kw : N * N) : sha_state :=
  let '(a, b, c, d, e, f, g, h) := st in
  let t1 := add32 (add32 (add32 h (bsig1 e)) (add32 (ch e f g) (fst kw))) (snd kw) in
  let t2 := add32 (bsig0 a) (maj a b c) in
  (add32 t1 t2, a, b, c, add32 d t1, e, f, g).

Definition sha_block (st : sha_state) (block : list N) : sha_state :=
  let ws := rev (sha_schedule 48 (rev (be_words 16 block))) in
  let '(a, b, c, d, e, f, g, h) := fold_left sha_round (combine sha_K ws) st in
  let '(a0, b0, c0, d0, e0, f0, g0, h0) := st in
  (add32 a0 a, add32 b0 b, add32 c0 c, add32 d0 d,
   add32 e0 e, add32 f0 f, add32 g0 g, add32 h0 h).

Fixpoint sha_blocks (fuel : nat) (st : sha_state) (bs : list N) : sha_state :=
  match fuel, bs with
  | S fuel', _ :: _ => sha_blocks fuel' (sha_block st (firstn 64 bs)) (skipn 64 bs)
  | _, _ => st
  end.

Definition sha256 (msg : list N) : list N :=
  let bs := sha_pad msg in
  let init :=
    match sha_init with
    | [a; b; c; d; e; f; g; h] => (a, b, c, d, e, f, g, h)
    | _ => (0, 0, 0, 0, 0, 0, 0, 0)
    end in
  let '(a, b, c, d, e, f, g, h) := sha_blocks (List.length bs) init bs in
  flat_map (be_bytes 4) [a; b; c; d; e; f; g; h].

Definition hex_digit (n : N) : ascii :=
  if n <? 10 then ascii_of_N (48 + n) else ascii_of_N (87 + n).

Definition hex_of_byte (b : N) : str := [hex_digit (b / 16); hex_digit (b mod 16)].

(** [s.encode()]: UTF-8, on code points below 256. *)
Definition encode (s : str) : list N :=
  flat_map (fun c => let n := N_of_ascii c in
                     if n <? 128 then [n]
                     else [N.lor 0xc0 (N.shiftr n 6); N.lor 0x80 (N.land n 0x3f)]) s.

(** [hashlib.sha256(b).hexdigest()] *)
Definition sha256_hexdigest (b : list N) : str := flat_map hex_of_byte (sha256 b).

Close Scope N_scope.


(* ================================================================== *)
(** * patterns.py *)

Inductive PIIType :=
| CREDIT_CARD | SSN | EMAIL | PHONE | PERSON_NAME | ADDRESS
| IP_ADDRESS | DATE_OF_BIRTH | PASSPORT | DRIVER_LICENSE | BANK_ACCOUNT | TAX_ID.

(** [list(PIIType)], in declaration order. *)
Definition PIIType_members : list PIIType :=
  [CREDIT_CARD; SSN; EMAIL; PHONE; PERSON_NAME; ADDRESS;
   IP_ADDRESS; DATE_OF_BIRTH; PASSPORT; DRIVER_LICENSE; BANK_ACCOUNT; TAX_ID].

(** [t.value] *)
Definition PIIType_value (t : PIIType) : str :=
  match t with
  | CREDIT_CARD => lit "CREDIT_CARD"
  | SSN => lit "SSN"
  | EMAIL => lit "EMAIL"
  | PHONE => lit "PHONE"
  | PERSON_NAME => lit "PERSON_NAME"
  | ADDRESS => lit "ADDRESS"
  | IP_ADDRESS => lit "IP_ADDRESS"
  | DATE_OF_BIRTH => lit "DATE_OF_BIRTH"
  | PASSPORT => lit "PASSPORT"
  | DRIVER_LICENSE => lit "DRIVER_LICENSE"
  | BANK_ACCOUNT => lit "BANK_ACCOUNT"
  | TAX_ID => lit "TAX_ID"
  end.

Definition PIIType_eqb (a b : PIIType) : bool :=
  match a, b with
  | CREDIT_CARD, CREDIT_CARD | SSN, SSN | EMAIL, EMAIL | PHONE, PHONE
  | PERSON_NAME, PERSON_NAME | ADDRESS, ADDRESS | IP_ADDRESS, IP_ADDRESS
  | DATE_OF_BIRTH, DATE_OF_BIRTH | PASSPORT, PASSPORT
  | DRIVER_LICENSE, DRIVER_LICENSE | BANK_ACCOUNT, BANK_ACCOUNT
  | TAX_ID, TAX_ID => true
  | _, _ => false
  end.

(** [t in ts] *)
Definition PIIType_in (t : PIIType) (ts : list PIIType) : bool :=
  existsb (PIIType_eqb t) ts.

Record PIIPattern := mkPIIPattern {
  pat_pii_type : PIIType;
  pat_pattern : regex;
  pat_confidence : Q;
  pat_description : string;
  pat_requires_validation : bool
}.

(** Pieces shared by the patterns. *)
Definition card_tail : list regex :=
  [Opt sep; Rep 4 digit; Opt sep; Rep 4 digit; Opt sep; Rep 4 digit; WordB].

Definition ssn_area_guard : regex :=
  NotAhead (alts [word "000"; word "666"; Seq (chr "9") (Rep 2 digit)]).

Definition ip_octet : regex :=
  alts [cat [word "25"; Chr (in_range 48 53)];
        cat [chr "2"; Chr (in_range 48 52); digit];
        cat [Opt (Chr (chr_in (lit "01"))); digit; Opt digit]].

Definition date_sep : regex := Chr (chr_in (lit "/-")).
Definition date_month : regex :=
  Alt (Seq (chr "0") (Chr (in_range 49 57))) (Seq (chr "1") (Chr (in_range 48 50))).
Definition date_day : regex :=
  alts [Seq (chr "0") (Chr (in_range 49 57));
        Seq (Chr (chr_in (lit "12"))) digit;
        Seq (chr "3") (Chr (chr_in (lit "01")))].
Definition date_year : regex := Seq (Alt (word "19") (word "20")) (Rep 2 digit).

Definition email_local (c : ascii) : bool :=
  is_AZ c || is_az c || isdecimal c || chr_in (lit "._%+-") c.
Definition email_domain (c : ascii) : bool :=
  is_AZ c || is_az c || isdecimal c || chr_in (lit ".-") c.
(** The class [[A-Z|a-z]]: the bar is a member. *)
Definition email_tld (c : ascii) : bool :=
  is_AZ c || chr_eqb c "|"%char || is_az c.

(** [PatternRegistry._initialize_patterns] *)
Definition _initialize_patterns : list PIIPattern :=
  [ mkPIIPattern CREDIT_CARD
      (cat ([WordB; chr "4"; Rep 3 digit] ++ card_tail))
      0.95 "Visa credit card" true;
    mkPIIPattern CREDIT_CARD
      (cat ([WordB; chr "5"; Chr (in_range 49 53); Rep 2 digit] ++ card_tail))
      0.95 "Mastercard" true;
    mkPIIPattern CREDIT_CARD
      (cat [WordB; chr "3"; Chr (chr_in (lit "47")); Rep 2 digit;
            Opt sep; Rep 6 digit; Opt sep; Rep 5 digit; WordB])
      0.95 "American Express" true;
    mkPIIPattern CREDIT_CARD
      (cat ([WordB; chr "6"; Alt (word "011") (Seq (chr "5") (Rep 2 digit))]
            ++ card_tail))
      0.95 "Discover card" true;
    mkPIIPattern SSN
      (cat [WordB; ssn_area_guard; Rep 3 digit; Opt sep;
            NotAhead (word "00"); Rep 2 digit; Opt sep;
            NotAhead (word "0000"); Rep 4 digit; WordB])
      0.98 "Social Security Number with separators" true;
    mkPIIPattern SSN
      (cat [WordB; ssn_area_guard; Rep 3 digit;
            NotAhead (word "00"); Rep 2 digit;
            NotAhead (word "0000"); Rep 4 digit; WordB])
      0.98 "Social Security Number without separators" true;
    mkPIIPattern EMAIL
      (cat [WordB; Plus (Chr email_local); chr "@"; Plus (Chr email_domain);
            chr "."; AtLeast 2 (Chr email_tld); WordB])
      0.99 "Email address" false;
    mkPIIPattern PHONE
      (cat [WordB; Opt (cat [Opt (chr "+"); chr "1"; Opt sep]);
            Opt (chr "("); Rep 3 digit; Opt (chr ")"); Opt sep;
            Rep 3 digit; Opt sep; Rep 4 digit; WordB])
      0.85 "US phone number" false;
    mkPIIPattern PHONE
      (cat [WordB; Opt (cat [chr "+"; Range 1 3 digit; Opt sep]);
            Range 2 4 digit; Opt sep; Range 3 4 digit; Opt sep;
            Range 3 4 digit; WordB])
      0.80 "International phone number" false;
    mkPIIPattern IP_ADDRESS
      (cat [WordB; Rep 3 (Seq ip_octet (chr ".")); ip_octet; WordB])
      0.90 "IPv4 address" false;
    mkPIIPattern DATE_OF_BIRTH
      (cat [WordB; date_month; date_sep; date_day; date_sep; date_year; WordB])
      0.75 "Date of birth MM/DD/YYYY" false;
    mkPIIPattern DATE_OF_BIRTH
      (cat [WordB; date_day; date_sep; date_month; date_sep; date_year; WordB])
      0.75 "Date of birth DD/MM/YYYY" false;
    mkPIIPattern PASSPORT
      (cat [WordB; Range 1 2 upper_az; Range 6 9 digit; WordB])
      0.70 "US Passport number" false;
    mkPIIPattern DRIVER_LICENSE
      (cat [WordB; upper_az; Range 7 8 digit; WordB])
      0.65 "Driver license (CA, TX, etc.)" false;
    mkPIIPattern DRIVER_LICENSE
      (cat [WordB; Rep 9 digit; WordB])
      0.60 "Driver license (FL, etc.)" false;
    mkPIIPattern BANK_ACCOUNT
      (cat [WordB; Range 8 17 digit; WordB])
      0.50 "Bank account number" false;
    mkPIIPattern TAX_ID
      (cat [WordB; Rep 2 digit; Opt (chr "-"); Rep 7 digit; WordB])
      0.75 "Tax identification number" false ].

(** [PATTERN_REGISTRY.get_patterns(pii_type)] *)
Definition get_patterns (pii_type : option PIIType) : list PIIPattern :=
  match pii_type with
  | Some t => filter (fun p => PIIType_eqb (pat_pii_type p) t) _initialize_patterns
  | None => _initialize_patterns
  end.

(** [PATTERN_REGISTRY.get_compiled_patterns(pii_type)]: a pattern paired with
    its matcher. *)
Definition get_compiled_patterns (pii_type : option PIIType)
  : list (PIIPattern * regex) :=
  map (fun p => (p, pat_pattern p)) (get_patterns pii_type).

(** [NamePatterns] *)
Definition PREFIXES : list str :=
  map lit ["mr"; "mrs"; "ms"; "miss"; "dr"; "prof"; "rev";
           "hon"; "sir"; "lord"; "lady"; "capt"; "col"; "gen";
           "lt"; "sgt"; "cpl"; "pvt"; "adm"; "cmdr"; "maj"]%string.

Definition SUFFIXES : list str :=
  map lit ["jr"; "sr"; "ii"; "iii"; "iv"; "v"; "esq"; "md"; "phd";
           "dds"; "jd"; "cpa"; "rn"; "dvm"; "do"; "od"; "pharmd"]%string.

Definition COMMON_FIRST_NAMES : list str :=
  map lit ["james"; "john"; "robert"; "michael"; "william"; "david";
           "richard"; "joseph"; "thomas"; "charles"; "christopher"; "daniel";
           "matthew"; "anthony"; "mark"; "donald"; "steven"; "paul";
           "andrew"; "joshua"; "kenneth"; "kevin"; "brian"; "george";
           "edward"; "ronald"; "timothy"; "jason"; "jeffrey"; "ryan";
           "mary"; "patricia"; "jennifer"; "linda"; "barbara"; "elizabeth";
           "susan"; "jessica"; "sarah"; "karen"; "nancy"; "lisa";
           "betty"; "margaret"; "sandra"; "ashley"; "kimberly"; "emily";
           "donna"; "michelle"; "dorothy"; "carol"; "amanda"; "melissa";
           "deborah"; "stephanie"; "rebecca"; "sharon"; "laura"; "cynthia";
           "kathleen"; "amy"; "angela"; "shirley"; "anna"; "brenda";
           "pamela"; "emma"; "nicole"; "helen"; "samantha"; "katherine"]%string.

(** [AddressPatterns.STREET_TYPES], in the order of the source text. *)
Definition STREET_TYPES : list string :=
  ["street"; "st"; "avenue"; "ave"; "road"; "rd"; "boulevard";
   "blvd"; "lane"; "ln"; "drive"; "dr"; "court"; "ct"; "circle";
   "cir"; "way"; "place"; "pl"; "terrace"; "ter"; "parkway"; "pkwy";
   "highway"; "hwy"; "trail"; "path"; "alley"; "walk"; "plaza";
   "square"; "loop"; "crescent"; "creek"; "crossing"; "bend"]%string.

(* ================================================================== *)
(** * validator.py *)

(** The Luhn loop over [enumerate(reversed(digits))]: [i] is the index of the
    head of [ds], [checksum] the running sum. *)
Fixpoint luhn_loop (ds : list Z) (i : Z) (checksum : Z) : Z :=
  match ds with
  | [] => checksum
  | digit :: ds' =>
      let digit :=
        if i mod 2 =? 1 then
          let digit := digit * 2 in
          if digit >? 9 then digit - 9 else digit
        else digit in
      luhn_loop ds' (i + 1) (checksum + digit)
  end.

(** [[int(d) for d in s if d.isdigit()]] *)
Fixpoint int_digits_of (s : str) : result (list Z) :=
  match s with
  | [] => Ok []
  | d :: s' =>
      if isdigit d then
        v <- int_chr d ;; vs <- int_digits_of s' ;; Ok (v :: vs)
      else int_digits_of s'
  end.

Definition validate_credit_card (card_number : str) : result bool :=
  digits <- int_digits_of card_number ;;
  if (len digits <? 13) || (len digits >? 19) then Ok false
  else
    let checksum := luhn_loop (rev digits) 0 0 in
    Ok (checksum mod 10 =? 0).

Definition validate_ssn (ssn : str) : result bool :=
  let clean_ssn := re_sub_class space_or_dash ssn in
  if negb (len clean_ssn =? 9) || negb (str_isdigit clean_ssn) then Ok false
  else
    area <- int (slice_to clean_ssn 3) ;;
    group <- int (slice clean_ssn 3 5) ;;
    serial <- int (slice_from clean_ssn 5) ;;
    if (area =? 0) || (area =? 666) || (area >=? 900) then Ok false
    else if (group =? 0) || (serial =? 0) then Ok false
    else if (734 <=? area) && (area <=? 749) then Ok false
    else Ok true.

Definition validate_email (email : str) : bool :=
  if len email >? 254 then false
  else
    let parts := split_on (chr_eqb "@") email in
    match parts with
    | [local; domain] =>
        if (len local =? 0) || (len local >? 64) then false
        else if (len domain =? 0) || (len domain >? 253) then false
        else if negb (contains domain (lit ".")) then false
        else
          let domain_parts := split_on (chr_eqb ".") domain in
          if existsb (fun part => len part =? 0) domain_parts then false
          else true
    | _ => false
    end.

Definition validate_phone (phone : str) : result bool :=
  let digits := filter isdigit phone in
  if len digits =? 10 then
    area_code <- int (slice_to digits 3) ;;
    if (area_code <? 200) || (area_code =? 911) || (area_code =? 988)
    then Ok false else Ok true
  else if (11 <=? len digits) && (len digits <=? 15) then Ok true
  else Ok false.

(** The loop over the four parts of an address; a part that does not parse
    makes the validator answer [False]. *)
Fixpoint ip_parts_ok (parts : list str) : result bool :=
  match parts with
  | [] => Ok true
  | part :: parts' =>
      match int part with
      | Ok num =>
          if (num <? 0) || (num >? 255) then Ok false else ip_parts_ok parts'
      | Raise ValueError => Ok false
      | Raise e => Raise e
      end
  end.

Definition validate_ip_address (ip : str) : result bool :=
  let parts := split_on (chr_eqb ".") ip in
  if negb (len parts =? 4) then Ok false
  else ip_parts_ok parts.

(** The first loop of [validate_date_of_birth]: the first part of length 4
    is read as the year. *)
Fixpoint dob_year (parts : list str) : result (option Z) :=
  match parts with
  | [] => Ok None
  | part :: parts' =>
      if len part =? 4 then year <- int part ;; Ok (Some year)
      else dob_year parts'
  end.

(** The second loop: every part of length at most 2 is a number in 1..31. *)
Fixpoint dob_month_day (parts : list str) : result bool :=
  match parts with
  | [] => Ok true
  | part :: parts' =>
      if len part <=? 2 then
        val <- int part ;;
        if (val <? 1) || (val >? 31) then Ok false else dob_month_day parts'
      else dob_month_day parts'
  end.

Definition validate_date_of_birth (dob : str) : result bool :=
  let parts := split_on (chr_in (lit "/-")) dob in
  if negb (len parts =? 3) then Ok false
  else
    except_ValueError
      (year <- dob_year parts ;;
       match year with
       | None => Ok false
       | Some year =>
           if (year <? 1900) || (year >? 2025) then Ok false
           else dob_month_day parts
       end)
      false.

Definition passport_re : regex :=
  cat [Bol; Range 1 2 upper_az; Range 6 9 digit; Eol].

Definition is_valid_passport (passport : str) : bool :=
  if re_match passport_re passport then true else false.

(** [ContextValidator] *)

Definition name_positive_keywords : list str :=
  map lit ["name"; "called"; "contact"; "from"; "by"; "to";
           "dear"; "sincerely"; "regards"; "attn"; "attention"]%string.

Definition name_negative_keywords : list str :=
  map lit ["file"; "folder"; "document"; "system"; "server";
           "application"; "program"; "code"; "variable"]%string.

Definition is_likely_name_context (text : str) (start end_ : Z) : bool :=
  let before := lower (slice text (Z.max 0 (start - 20)) start) in
  let after := lower (slice text end_ (Z.min (len text) (end_ + 20))) in
  let context := before ++ lit " " ++ after in
  let has_positive := existsb (contains context) name_positive_keywords in
  let has_negative := existsb (contains context) name_negative_keywords in
  if has_negative then false else true.

Definition address_keywords : list str :=
  map lit ["address"; "located"; "live"; "office"; "building";
           "suite"; "floor"; "unit"; "apt"; "apartment"]%string.

Definition is_likely_address_context (text : str) (start end_ : Z) : bool :=
  let before := lower (slice text (Z.max 0 (start - 30)) start) in
  let after := lower (slice text end_ (Z.min (len text) (end_ + 30))) in
  let context := before ++ lit " " ++ after in
  existsb (contains context) address_keywords.

(* ================================================================== *)
(** * utils.py *)

Definition Qlt_bool (a b : Q) : bool := negb (Qle_bool b a).

(** [min(a, b)] and [max(a, b)] as Python computes them: the first argument
    unless the second is strictly better. *)
Definition qmin (a b : Q) : Q := if Qlt_bool b a then b else a.
Definition qmax (a b : Q) : Q := if Qlt_bool a b then b else a.

Record PIIMatch := mkPIIMatch {
  pii_type : str;
  value : str;
  start : Z;
  end_ : Z;
  confidence : Q;
  masked_value : str;
  context : option str
}.

Definition option_eqb {A : Type} (eqb : A -> A -> bool) (a b : option A) : bool :=
  match a, b with
  | Some x, Some y => eqb x y
  | None, None => true
  | _, _ => false
  end.

(** The equality generated for the dataclass: field by field. *)
Definition PIIMatch_eqb (a b : PIIMatch) : bool :=
  str_eqb (pii_type a) (pii_type b) &&
  str_eqb (value a) (value b) &&
  (start a =? start b) &&
  (end_ a =? end_ b) &&
  Qeq_bool (confidence a) (confidence b) &&
  str_eqb (masked_value a) (masked_value b) &&
  option_eqb str_eqb (context a) (context b).

(** [TextProcessor.is_capitalized_word] *)
Definition is_capitalized_word (word : str) : bool :=
  if len word =? 0 then false
  else if len word =? 1 then isupper word
  else isupper (slice word 0 1) && islower (slice_from word 1).

(** ** Sorting

    [sorted] is stable; [le x y] tells that the key of [x] is not above the
    key of [y]. *)
Fixpoint insert_by {A : Type} (le : A -> A -> bool) (x : A) (l : list A) : list A :=
  match l with
  | [] => [x]
  | y :: l' => if le x y then x :: y :: l' else y :: insert_by le x l'
  end.

Fixpoint sorted {A : Type} (le : A -> A -> bool) (l : list A) : list A :=
  match l with
  | [] => []
  | x :: l' => insert_by le x (sorted le l')
  end.

(** [l.remove(x)]: drop the first element equal to [x], or raise. *)
Fixpoint list_remove {A : Type} (eqb : A -> A -> bool) (l : list A) (x : A)
  : result (list A) :=
  match l with
  | [] => Raise ValueError
  | y :: l' =>
      if eqb y x then Ok l'
      else l'' <- list_remove eqb l' x ;; Ok (y :: l'')
  end.

(** ** OverlapResolver *)

Definition _has_overlap (match1 match2 : PIIMatch) : bool :=
  (start match1 <? end_ match2) && (end_ match1 >? start match2).

(** The key [(x.start, -x.confidence)], compared as a tuple. *)
Definition overlap_key_le (a b : PIIMatch) : bool :=
  (start a <? start b) ||
  ((start a =? start b) && Qle_bool (- confidence a)%Q (- confidence b)%Q).

Definition start_le (a b : PIIMatch) : bool := start a <=? start b.

(** The inner loop [for existing in result]: [rest] is what remains to be
    visited of [result].  Falling off the end appends the match. *)
Fixpoint resolve_scan (match_ : PIIMatch) (result_ rest : list PIIMatch)
  : result (list PIIMatch) :=
  match rest with
  | [] => Ok (result_ ++ [match_])
  | existing :: rest' =>
      if _has_overlap match_ existing then
        if Qlt_bool (confidence existing) (confidence match_) then
          r <- list_remove PIIMatch_eqb result_ existing ;;
          Ok (r ++ [match_])
        else Ok result_
      else resolve_scan match_ result_ rest'
  end.

(** The outer loop [for match in sorted_matches]. *)
Fixpoint resolve_loop (sorted_matches result_ : list PIIMatch)
  : result (list PIIMatch) :=
  match sorted_matches with
  | [] => Ok result_
  | match_ :: ms =>
      r <- resolve_scan match_ result_ result_ ;;
      resolve_loop ms r
  end.

Definition resolve_overlaps (matches : list PIIMatch) : result (list PIIMatch) :=
  match matches with
  | [] => Ok []
  | _ :: _ =>
      let sorted_matches := sorted overlap_key_le matches in
      r <- resolve_loop sorted_matches [] ;;
      Ok (sorted start_le r)
  end.

(** ** ConfidenceCalculator *)

Definition adjust_confidence (base_confidence : Q)
    (context_match validation_passed length_appropriate : bool) : Q :=
  let confidence := base_confidence in
  let confidence :=
    if context_match then qmin 1%Q (confidence + 0.1)%Q else confidence in
  let confidence :=
    if negb validation_passed then (confidence * 0.5)%Q else confidence in
  let confidence :=
    if negb length_appropriate then (confidence * 0.7)%Q else confidence in
  qmax 0%Q (qmin 1%Q confidence).

(** ** Dictionaries

    A dictionary is an association list in insertion order. *)
Section Dict.
Variables (K V : Type) (eqb : K -> K -> bool).

Fixpoint dict_get (d : list (K * V)) (k : K) : option V :=
  match d with
  | [] => None
  | (k', v) :: d' => if eqb k' k then Some v else dict_get d' k
  end.

Fixpoint dict_set (d : list (K * V)) (k : K) (v : V) : list (K * V) :=
  match d with
  | [] => [(k, v)]
  | (k', v') :: d' =>
      if eqb k' k then (k', v) :: d' else (k', v') :: dict_set d' k v
  end.
End Dict.

(** ** StatisticsCollector (the cumulated processing time is not modelled) *)

Record StatisticsCollector := mkStatisticsCollector {
  total_detections : nat;
  detections_by_type : list (str * nat);
  total_texts_processed : nat
}.

Definition StatisticsCollector_init : StatisticsCollector :=
  mkStatisticsCollector 0 [] 0.

Definition record_detection (st : StatisticsCollector) (pii_type : str)
  : StatisticsCollector :=
  let n := match dict_get str_eqb (detections_by_type st) pii_type with
           | Some n => n
           | None => 0%nat
           end in
  mkStatisticsCollector
    (total_detections st + 1)
    (dict_set str_eqb (detections_by_type st) pii_type (n + 1)%nat)
    (total_texts_processed st).

Definition record_processing (st : StatisticsCollector) : StatisticsCollector :=
  mkStatisticsCollector
    (total_detections st) (detections_by_type st) (total_texts_processed st + 1).

Definition StatisticsCollector_reset (st : StatisticsCollector) : StatisticsCollector :=
  mkStatisticsCollector 0 [] 0.

(* ================================================================== *)
(** * masking.py *)

Inductive MaskingStrategy := FULL | PARTIAL | REDACT | HASH | TOKENIZE.

Record PIIMasker := mkPIIMasker {
  default_strategy : MaskingStrategy;
  _token_counter : nat
}.

(** [PIIMasker()] *)
Definition PIIMasker_init : PIIMasker := mkPIIMasker PARTIAL 0.

Definition _mask_full (value : str) (pii_type : PIIType) : str :=
  match pii_type with
  | CREDIT_CARD => lit "[CREDIT_CARD]"
  | SSN => lit "[SSN]"
  | EMAIL => lit "[EMAIL]"
  | PHONE => lit "[PHONE]"
  | PERSON_NAME => lit "[NAME]"
  | ADDRESS => lit "[ADDRESS]"
  | IP_ADDRESS => lit "[IP_ADDRESS]"
  | DATE_OF_BIRTH => lit "[DATE_OF_BIRTH]"
  | PASSPORT => lit "[PASSPORT]"
  | DRIVER_LICENSE => lit "[DRIVER_LICENSE]"
  | BANK_ACCOUNT => lit "[BANK_ACCOUNT]"
  | TAX_ID => lit "[TAX_ID]"
  end.

Definition _mask_credit_card (card : str) : str :=
  let clean := re_sub_class space_or_dash card in
  if len clean <? 4 then lit "****"
  else lit "****-****-****-" ++ slice_from clean (-4).

Definition _mask_ssn (ssn : str) : str :=
  let clean := re_sub_class space_or_dash ssn in
  if len clean <? 4 then lit "***-**-****"
  else lit "***-**-" ++ slice_from clean (-4).

Definition _mask_email (email : str) : result str :=
  let parts := split_on (chr_eqb "@") email in
  match parts with
  | [username; domain] =>
      masked_user <-
        (if len username <=? 2 then Ok (lit "***")
         else if len username <=? 4 then
           c <- index username 0 ;; Ok ([c] ++ lit "***")
         else
           c <- index username 0 ;;
           d <- index username (-1) ;;
           Ok ([c] ++ lit "***" ++ [d])) ;;
      Ok (masked_user ++ lit "@" ++ domain)
  | _ => Ok (lit "[EMAIL]")
  end.

Definition _mask_phone (phone : str) : str :=
  let digits := filter isdigit phone in
  if len digits <? 4 then lit "[PHONE]"
  else lit "***-***-" ++ slice_from digits (-4).

Definition name_titles : list str := map lit ["mr"; "mrs"; "ms"; "dr"; "prof"]%string.

(** The loop of [_mask_name] over the parts of the name. *)
Fixpoint mask_name_parts (parts : list str) : result (list str) :=
  match parts with
  | [] => Ok []
  | part :: parts' =>
      if len part >? 0 then
        masked <-
          (if str_in (lower part) name_titles then
             c <- index part 0 ;; Ok (upper [c] ++ lit "***")
           else
             c <- index part 0 ;; Ok (upper [c] ++ lit "***")) ;;
        rest <- mask_name_parts parts' ;;
        Ok (masked :: rest)
      else mask_name_parts parts'
  end.

Definition _mask_name (name : str) : result str :=
  let parts := split name in
  if len parts =? 0 then Ok (lit "[NAME]")
  else
    masked_parts <- mask_name_parts parts ;;
    Ok (join (lit " ") masked_parts).

Definition _mask_bank_account (account : str) : str :=
  let clean := filter isdigit account in
  if len clean <? 4 then lit "****"
  else lit "****" ++ slice_from clean (-4).

Definition _mask_partial (value : str) (pii_type : PIIType) : result str :=
  match pii_type with
  | CREDIT_CARD => Ok (_mask_credit_card value)
  | SSN => Ok (_mask_ssn value)
  | EMAIL => _mask_email value
  | PHONE => Ok (_mask_phone value)
  | PERSON_NAME => _mask_name value
  | BANK_ACCOUNT => Ok (_mask_bank_account value)
  | _ => Ok (_mask_full value pii_type)
  end.

Definition _mask_redact (value : str) : str :=
  repeat_chr "*" (List.length value).

Definition _mask_hash (value : str) (pii_type : PIIType) : str :=
  let hash_value := slice_to (sha256_hexdigest (encode value)) 12 in
  lit "[" ++ PIIType_value pii_type ++ lit ":" ++ hash_value ++ lit "]".

(** The counter is incremented before it is printed. *)
Definition _mask_tokenize (self : PIIMasker) (value : str) (pii_type : PIIType)
  : str * PIIMasker :=
  let self := mkPIIMasker (default_strategy self) (_token_counter self + 1) in
  (lit "[" ++ PIIType_value pii_type ++ lit "_TOKEN_"
     ++ format_04d (_token_counter self) ++ lit "]", self).

(** [PIIMasker.mask]: the result and the masker after the call. *)
Definition mask (self : PIIMasker) (value : str) (pii_type : PIIType)
    (strategy : option MaskingStrategy) : result (str * PIIMasker) :=
  let strategy := match strategy with
                  | Some s => s
                  | None => default_strategy self
                  end in
  match strategy with
  | FULL => Ok (_mask_full value pii_type, self)
  | PARTIAL => m <- _mask_partial value pii_type ;; Ok (m, self)
  | REDACT => Ok (_mask_redact value, self)
  | HASH => Ok (_mask_hash value pii_type, self)
  | TOKENIZE => Ok (_mask_tokenize self value pii_type)
  end.

(** [MaskingConfig]: the dictionary [strategies]. *)
Record MaskingConfig := mkMaskingConfig {
  strategies : list (PIIType * MaskingStrategy)
}.

Definition MaskingConfig_init : MaskingConfig :=
  mkMaskingConfig
    [(CREDIT_CARD, PARTIAL); (SSN, PARTIAL); (EMAIL, PARTIAL); (PHONE, PARTIAL);
     (PERSON_NAME, PARTIAL); (ADDRESS, FULL); (IP_ADDRESS, FULL);
     (DATE_OF_BIRTH, FULL); (PASSPORT, FULL); (DRIVER_LICENSE, FULL);
     (BANK_ACCOUNT, PARTIAL); (TAX_ID, FULL)].

Definition get_strategy (self : MaskingConfig) (pii_type : PIIType) : MaskingStrategy :=
  match dict_get PIIType_eqb (strategies self) pii_type with
  | Some s => s
  | None => FULL
  end.

Definition set_strategy (self : MaskingConfig) (pii_type : PIIType)
    (strategy : MaskingStrategy) : MaskingConfig :=
  mkMaskingConfig (dict_set PIIType_eqb (strategies self) pii_type strategy).

(** [for pii_type in PIIType: self.strategies[pii_type] = strategy] *)
Definition set_all_strategies (self : MaskingConfig) (strategy : MaskingStrategy)
  : MaskingConfig :=
  fold_left (fun cfg pii_type => set_strategy cfg pii_type strategy)
            PIIType_members self.

(* ================================================================== *)
(** * detector.py *)

Record PIIDetector := mkPIIDetector {
  masker : PIIMasker;
  masking_config : MaskingConfig;
  enable_context_validation : bool;
  enable_strict_validation : bool;
  statistics : option StatisticsCollector
}.

(** [PIIDetector(enable_context_validation, enable_strict_validation,
    collect_statistics)] *)
Definition PIIDetector_init (enable_context_validation
    enable_strict_validation collect_statistics : bool) : PIIDetector :=
  mkPIIDetector PIIMasker_init MaskingConfig_init
    enable_context_validation enable_strict_validation
    (if collect_statistics then Some StatisticsCollector_init else None).

Definition _compiled_patterns : list (PIIPattern * regex) :=
  get_compiled_patterns None.

Definition with_masker (self : PIIDetector) (m : PIIMasker) : PIIDetector :=
  mkPIIDetector m (masking_config self) (enable_context_validation self)
    (enable_strict_validation self) (statistics self).

Definition with_masking_config (self : PIIDetector) (c : MaskingConfig) : PIIDetector :=
  mkPIIDetector (masker self) c (enable_context_validation self)
    (enable_strict_validation self) (statistics self).

Definition with_statistics (self : PIIDetector) (st : option StatisticsCollector)
  : PIIDetector :=
  mkPIIDetector (masker self) (masking_config self)
    (enable_context_validation self) (enable_strict_validation self) st.

(** The truth value of an optional list: [None] and [[]] are false. *)
Definition truthy {A : Type} (l : option (list A)) : bool :=
  match l with
  | Some (_ :: _) => true
  | _ => false
  end.

Definition _validate_match (value : str) (pii_type : PIIType) : result bool :=
  match pii_type with
  | CREDIT_CARD => validate_credit_card value
  | SSN => validate_ssn value
  | EMAIL => Ok (validate_email value)
  | PHONE => validate_phone value
  | IP_ADDRESS => validate_ip_address value
  | DATE_OF_BIRTH => validate_date_of_birth value
  | PASSPORT => Ok (is_valid_passport value)
  | _ => Ok true
  end.

Definition _calculate_confidence (self : PIIDetector) (text value : str)
    (start end_ : Z) (pii_type : PIIType) (base_confidence : Q)
    (validation_passed : bool) : Q :=
  let context_match :=
    if enable_context_validation self then
      match pii_type with
      | PERSON_NAME => is_likely_name_context text start end_
      | ADDRESS => is_likely_address_context text start end_
      | _ => false
      end
    else false in
  let length_appropriate :=
    match pii_type with
    | CREDIT_CARD =>
        let clean_value := re_sub_class space_or_dash value in
        (13 <=? len clean_value) && (len clean_value <=? 19)
    | SSN =>
        let clean_value := re_sub_class space_or_dash value in
        len clean_value =? 9
    | _ => true
    end in
  adjust_confidence base_confidence context_match validation_passed
    length_appropriate.

(** The loop [for regex_match in compiled_regex.finditer(text)] of
    [_detect_pattern_based], for one pattern. *)
Fixpoint pattern_finditer_loop (self : PIIDetector) (text : str)
    (pattern_def : PIIPattern) (ms : list Match)
  : result (list PIIMatch * PIIDetector) :=
  match ms with
  | [] => Ok ([], self)
  | regex_match :: ms' =>
      let value := group0 regex_match in
      let start := m_start regex_match in
      let end_ := m_end regex_match in
      is_valid <-
        (if pat_requires_validation pattern_def && enable_strict_validation self
         then _validate_match value (pat_pii_type pattern_def)
         else Ok true) ;;
      if negb is_valid then pattern_finditer_loop self text pattern_def ms'
      else
        let confidence :=
          _calculate_confidence self text value start end_
            (pat_pii_type pattern_def) (pat_confidence pattern_def) is_valid in
        let strategy :=
          get_strategy (masking_config self) (pat_pii_type pattern_def) in
        '(masked_value, mk) <-
          mask (masker self) value (pat_pii_type pattern_def) (Some strategy) ;;
        let self := with_masker self mk in
        '(rest, self) <- pattern_finditer_loop self text pattern_def ms' ;;
        Ok (mkPIIMatch (PIIType_value (pat_pii_type pattern_def)) value
              start end_ confidence masked_value None :: rest, self)
  end.

(** The loop over the compiled patterns. *)
Fixpoint pattern_loop (self : PIIDetector) (text : str)
    (pii_types : option (list PIIType)) (pats : list (PIIPattern * regex))
  : result (list PIIMatch * PIIDetector) :=
  match pats with
  | [] => Ok ([], self)
  | (pattern_def, compiled_regex) :: pats' =>
      if truthy pii_types &&
         negb (PIIType_in (pat_pii_type pattern_def)
                 (match pii_types with Some ts => ts | None => [] end))
      then pattern_loop self text pii_types pats'
      else
        '(found, self) <-
          pattern_finditer_loop self text pattern_def
            (finditer compiled_regex text) ;;
        '(rest, self) <- pattern_loop self text pii_types pats' ;;
        Ok (found ++ rest, self)
  end.

Definition _detect_pattern_based (self : PIIDetector) (text : str)
    (pii_types : option (list PIIType)) : result (list PIIMatch * PIIDetector) :=
  pattern_loop self text pii_types _compiled_patterns.

(** The characters of [strip('.,!?;:()[]{}')]. *)
Definition punctuation : ascii -> bool := chr_in (lit ".,!?;:()[]{}").

(** The loop of [_extract_name_sequence]; it runs at most three times, which
    [fuel] bounds. *)
Fixpoint extract_loop (words : list str) (start_idx : Z) (fuel : nat)
    (name_parts : list str) (i : Z) : result (list str * Z) :=
  match fuel with
  | O => Ok (name_parts, i)
  | S fuel' =>
      if (i <? len words) && (i <? start_idx + 4) then
        w <- index words i ;;
        let word := strip punctuation w in
        let word_lower := lower word in
        if is_capitalized_word word || str_in word_lower SUFFIXES then
          w' <- index words i ;;
          extract_loop words start_idx fuel' (name_parts ++ [w']) (i + 1)
        else Ok (name_parts, i)
      else Ok (name_parts, i)
  end.

Definition _extract_name_sequence (words : list str) (start_idx : Z)
    (full_text : str) : result (list str * Z) :=
  w <- index words start_idx ;;
  extract_loop words start_idx 3 [w] (start_idx + 1).

(** A person-name match for [full_name], when the name is found in the text. *)
Definition name_match (self : PIIDetector) (text full_name : str)
    (conf_yes conf_no : Q) : result (list PIIMatch * PIIDetector) :=
  let start_pos := find text full_name in
  if negb (start_pos =? -1) then
    let context_valid :=
      if enable_context_validation self then
        is_likely_name_context text start_pos (start_pos + len full_name)
      else true in
    let confidence := if context_valid then conf_yes else conf_no in
    '(masked, mk) <- mask (masker self) full_name PERSON_NAME None ;;
    Ok ([mkPIIMatch (PIIType_value PERSON_NAME) full_name start_pos
           (start_pos + len full_name) confidence masked None],
        with_masker self mk)
  else Ok ([], self).

(** The loop [while i < len(words)] of [_detect_names]; the cursor advances
    at every turn, so [fuel = len(words)] turns are enough. *)
Fixpoint names_loop (self : PIIDetector) (text : str) (words : list str)
    (fuel : nat) (i : Z) : result (list PIIMatch * PIIDetector) :=
  match fuel with
  | O => Ok ([], self)
  | S fuel' =>
      if i <? len words then
        w <- index words i ;;
        let word := strip punctuation w in
        let word_lower := lower word in
        if str_in word_lower PREFIXES && (i + 1 <? len words) then
          '(name_parts, next_i) <- _extract_name_sequence words i text ;;
          '(found, self) <-
            (if negb (len name_parts =? 0) && (len name_parts >=? 2) then
               let full_name := join (lit " ") name_parts in
               name_match self text full_name 0.85%Q 0.70%Q
             else Ok ([], self)) ;;
          '(rest, self) <- names_loop self text words fuel' next_i ;;
          Ok (found ++ rest, self)
        else if str_in word_lower COMMON_FIRST_NAMES && (i + 1 <? len words) then
          w1 <- index words (i + 1) ;;
          let next_word := strip punctuation w1 in
          '(found, self) <-
            (if is_capitalized_word next_word && (len next_word >? 2) then
               w0 <- index words i ;;
               w1 <- index words (i + 1) ;;
               let full_name := w0 ++ lit " " ++ w1 in
               name_match self text full_name 0.75%Q 0.60%Q
             else Ok ([], self)) ;;
          '(rest, self) <- names_loop self text words fuel' (i + 2) ;;
          Ok (found ++ rest, self)
        else names_loop self text words fuel' (i + 1)
      else Ok ([], self)
  end.

Definition _detect_names (self : PIIDetector) (text : str)
  : result (list PIIMatch * PIIDetector) :=
  let words := split text in
  names_loop self text words (List.length words) 0.

(** The address pattern: a number, capitalised words, a street type; the
    alternatives are listed in the order of [STREET_TYPES]. *)
Definition address_re : regex :=
  ignorecase
    (cat [WordB; Plus digit; Plus (Chr isspace); upper_az; Plus lower_az;
          Star (cat [Plus (Chr isspace); upper_az; Plus lower_az]);
          Plus (Chr isspace); alts (map word STREET_TYPES); WordB]).

Fixpoint address_loop (self : PIIDetector) (text : str) (ms : list Match)
  : result (list PIIMatch * PIIDetector) :=
  match ms with
  | [] => Ok ([], self)
  | match_ :: ms' =>
      let address := group0 match_ in
      let start := m_start match_ in
      let end_ := m_end match_ in
      let context_valid :=
        if enable_context_validation self then
          is_likely_address_context text start end_
        else true in
      let confidence := if context_valid then 0.80%Q else 0.65%Q in
      '(masked, mk) <- mask (masker self) address ADDRESS None ;;
      let self := with_masker self mk in
      '(rest, self) <- address_loop self text ms' ;;
      Ok (mkPIIMatch (PIIType_value ADDRESS) address start end_ confidence
            masked None :: rest, self)
  end.

Definition _detect_addresses (self : PIIDetector) (text : str)
  : result (list PIIMatch * PIIDetector) :=
  address_loop self text (finditer address_re text).

(** [pii_types is None or t in pii_types] *)
Definition requested (pii_types : option (list PIIType)) (t : PIIType) : bool :=
  match pii_types with
  | None => true
  | Some ts => PIIType_in t ts
  end.

Definition record_statistics (self : PIIDetector) (final_matches : list PIIMatch)
  : PIIDetector :=
  match statistics self with
  | Some st =>
      let st := record_processing st in
      let st := fold_left (fun st m => record_detection st (pii_type m))
                          final_matches st in
      with_statistics self (Some st)
  | None => self
  end.

Definition detect_all (self : PIIDetector) (text : str)
    (confidence_threshold : Q) (pii_types : option (list PIIType))
  : result (list PIIMatch * PIIDetector) :=
  '(pattern_matches, self) <- _detect_pattern_based self text pii_types ;;
  '(name_matches, self) <-
    (if requested pii_types PERSON_NAME then _detect_names self text
     else Ok ([], self)) ;;
  '(address_matches, self) <-
    (if requested pii_types ADDRESS then _detect_addresses self text
     else Ok ([], self)) ;;
  let all_matches := pattern_matches ++ name_matches ++ address_matches in
  let filtered_matches :=
    filter (fun m => Qle_bool confidence_threshold (confidence m)) all_matches in
  final_matches <- resolve_overlaps filtered_matches ;;
  Ok (final_matches, record_statistics self final_matches).

(** [reverse=True] keeps equal keys in their original order. *)
Definition start_ge (a b : PIIMatch) : bool := start b <=? start a.

Definition mask_text (self : PIIDetector) (text : str)
    (matches : option (list PIIMatch)) (confidence_threshold : Q)
  : result (str * PIIDetector) :=
  '(matches, self) <-
    match matches with
    | None => detect_all self text confidence_threshold None
    | Some ms => Ok (ms, self)
    end ;;
  match matches with
  | [] => Ok (text, self)
  | _ :: _ =>
      let sorted_matches := sorted start_ge matches in
      Ok (fold_left
            (fun result_ match_ =>
               slice_to result_ (start match_) ++ masked_value match_
                 ++ slice_from result_ (end_ match_))
            sorted_matches text, self)
  end.

Definition set_masking_strategy (self : PIIDetector) (pii_type : PIIType)
    (strategy : MaskingStrategy) : PIIDetector :=
  with_masking_config self (set_strategy (masking_config self) pii_type strategy).

Definition set_all_masking_strategies (self : PIIDetector)
    (strategy : MaskingStrategy) : PIIDetector :=
  with_masking_config self (set_all_strategies (masking_config self) strategy).

(* ================================================================== *)
(** * masking.py: ReversibleMasker *)

(** [s.replace(old, new)] for a non-empty [old]: the occurrences of [old] are
    replaced from left to right, without overlap; [skip] counts the
    characters of an occurrence still to be passed over. *)
Fixpoint replace_from (s old new : str) (skip : nat) : str :=
  match s with
  | [] => []
  | c :: s' =>
      match skip with
      | S k => replace_from s' old new k
      | O =>
          if startswith s old
          then new ++ replace_from s' old new (List.length old - 1)
          else c :: replace_from s' old new 0
      end
  end.

(** [s.replace(old, new)]; an empty [old] matches before every character
    and at the end. *)
Definition replace (s old new : str) : str :=
  match old with
  | [] => new ++ flat_map (fun c => c :: new) s
  | _ :: _ => replace_from s old new 0
  end.

Module ReversibleMasker.

Record t := mk {
  _mapping : list (str * str);
  _counter : nat
}.

(** [ReversibleMasker()] *)
Definition init : t := mk [] 0.

(** The token and the masker after the call. *)
Definition mask (self : t) (value : str) (pii_type : PIIType) : str * t :=
  let counter := (_counter self + 1)%nat in
  let token :=
    lit "[" ++ PIIType_value pii_type ++ lit "_" ++ format_04d counter
      ++ lit "]" in
  (token, mk (dict_set str_eqb (_mapping self) token value) counter).

Definition unmask (self : t) (token : str) : option str :=
  dict_get str_eqb (_mapping self) token.

(** The entries are visited in insertion order. *)
Definition unmask_text (self : t) (text : str) : str :=
  fold_left (fun result_ entry => replace result_ (fst entry) (snd entry))
            (_mapping self) text.

Definition clear_mapping (self : t) : t := mk [] 0.

End ReversibleMasker.

(* ================================================================== *)
(** * utils.py: BatchProcessor *)

(** [process_batch]: the detector is the one the processor was built with;
    its state after each text is the state before the next. *)
Fixpoint process_batch (detector : PIIDetector) (texts : list str)
    (confidence_threshold : Q) : result (list (list PIIMatch) * PIIDetector) :=
  match texts with
  | [] => Ok ([], detector)
  | text :: texts' =>
      '(matches, detector) <-
        detect_all detector text confidence_threshold None ;;
      '(results, detector) <- process_batch detector texts' confidence_threshold ;;
      Ok (matches :: results, detector)
  end.

Unset Implicit Arguments.

(* ================================================================== *)
(** * The vocabulary of the statements *)

(** No character of [s] is a superscript digit: on [s], [str.isdigit]
    accepts what [int] reads and nothing else. *)
Definition plain_digits (s : str) : bool := negb (existsb superscript s).

(** The characters a match of [r] can hold: those its classes accept, the
    classes under a look-ahead apart. *)
Fixpoint consumes (r : regex) (c : ascii) : bool :=
  match r with
  | Chr p => p c
  | Seq r1 r2 | Alt r1 r2 => consumes r1 c || consumes r2 c
  | Star r' => consumes r' c
  | _ => false
  end.

(** The characters of [s] from offset [i] up to [j] are accepted by [q]. *)
Definition held (q : ascii -> bool) (s : str) (i j : nat) : Prop :=
  forall x c, (i <= x < j)%nat -> nth_error s x = Some c -> q c = true.

(** No match of the pattern holds a superscript digit. *)
Definition plain_pattern (r : regex) : bool :=
  forallb (fun n => implb (consumes r (ascii_of_nat n))
                          (negb (superscript (ascii_of_nat n))))
          (seq 0 256).

(** Two spans are disjoint when one ends before the other starts. *)
Definition disjoint (a b : PIIMatch) : Prop :=
  end_ a <= start b \/ end_ b <= start a.

Definition no_overlap (m e : PIIMatch) : Prop := _has_overlap m e = false.

(** The state of the outer loop: [res] is pairwise disjoint and none of its
    spans starts after [m]. *)
Definition resolver_inv (res : list PIIMatch) (m : PIIMatch) : Prop :=
  ForallOrdPairs disjoint res /\ Forall (fun e => start e <= start m) res.

(** One turn of the outer loop, by cases. *)
Inductive scan_outcome (m : PIIMatch) (res : list PIIMatch) : list PIIMatch -> Prop :=
| scan_append :
    Forall (no_overlap m) res ->
    scan_outcome m res (res ++ [m])
| scan_replace : forall pre e post,
    res = pre ++ e :: post ->
    Forall (no_overlap m) pre -> Forall (no_overlap m) post ->
    _has_overlap m e = true ->
    (confidence e < confidence m)%Q ->
    scan_outcome m res (pre ++ post ++ [m])
| scan_keep : forall pre e post,
    res = pre ++ e :: post ->
    Forall (no_overlap m) pre -> Forall (no_overlap m) post ->
    _has_overlap m e = true ->
    (confidence m <= confidence e)%Q ->
    scan_outcome m res res.

Definition start_le_prop (a b : PIIMatch) : Prop := start a <= start b.

(** The filter of [detect_all]. *)
Definition above (t : Q) (m : PIIMatch) : bool := Qle_bool t (confidence m).

(** The strategy [mask] works with. *)
Definition effective (mk : PIIMasker) (strategy : option MaskingStrategy)
  : MaskingStrategy :=
  match strategy with
  | Some s => s
  | None => default_strategy mk
  end.

(** A match object of [finditer] on [text]: its span lies in the text and is
    not empty. *)
Definition match_in (text : str) (m : Match) : Prop :=
  m_string m = text /\ 0 <= m_start m < m_end m /\ m_end m <= len text.

(** The span of a match lies in the text, is not empty, and reads there the
    value of the match. *)
Definition span_ok (text : str) (m : PIIMatch) : Prop :=
  0 <= start m < end_ m /\ end_ m <= len text /\
  slice text (start m) (end_ m) = value m.

(** The first half of [detect_all]: the candidates of the three scanners,
    before the threshold is applied. *)
Definition collect_matches (self : PIIDetector) (text : str)
    (pii_types : option (list PIIType)) : result (list PIIMatch * PIIDetector) :=
  '(pattern_matches, self) <- _detect_pattern_based self text pii_types ;;
  '(name_matches, self) <-
    (if requested pii_types PERSON_NAME then _detect_names self text
     else Ok ([], self)) ;;
  '(address_matches, self) <-
    (if requested pii_types ADDRESS then _detect_addresses self text
     else Ok ([], self)) ;;
  Ok (pattern_matches ++ name_matches ++ address_matches, self).

(** No strategy in force is TOKENIZE: neither the default of the masker nor
    an entry of the configuration. *)
Definition tokenize_free (self : PIIDetector) : Prop :=
  default_strategy (masker self) <> TOKENIZE /\
  forall t, get_strategy (masking_config self) t <> TOKENIZE.

(** The rule for the user part of an address: [***] up to two characters,
    the first character and [***] up to four, the first character, [***] and
    the last character beyond. *)
Definition email_user_rule (username : str) : str :=
  match username with
  | [] => lit "***"
  | first :: _ =>
      if len username <=? 2 then lit "***"
      else if len username <=? 4 then [first] ++ lit "***"
      else [first] ++ lit "***" ++ [last username first]
  end.

(** The Luhn check in the words of the specification: the digit at index [i]
    from the right counts double when [i] is odd, less 9 when the double
    exceeds 9. *)
Definition luhn_term (i : nat) (d : Z) : Z :=
  if Nat.odd i then (if 2 * d >? 9 then 2 * d - 9 else 2 * d) else d.

(** The sum of the terms of [ds], whose head has index [i]. *)
Fixpoint luhn_total (i : nat) (ds : list Z) : Z :=
  match ds with
  | [] => 0
  | d :: ds' => luhn_term i d + luhn_total (S i) ds'
  end.


(** [s] parses as an integer between [lo] and [hi]. *)
Definition int_between (lo hi : Z) (s : str) : bool :=
  match int s with
  | Ok v => (lo <=? v) && (v <=? hi)
  | Raise _ => false
  end.

(** The acceptance condition as worded in the specification: three parts,
    exactly one of length 4, which is a year in 1900..2025, and every other
    part of length at most 2 and a number in 1..31. *)
Definition dob_spec (dob : str) : bool :=
  let parts := split_on (chr_in (lit "/-")) dob in
  (len parts =? 3) &&
  (len (filter (fun part => len part =? 4) parts) =? 1) &&
  forallb (fun part =>
             if len part =? 4 then int_between 1900 2025 part
             else (len part <=? 2) && int_between 1 31 part) parts.

(** The acceptance condition of the code: three parts, a first part of
    length 4 that is a year in 1900..2025, and every part of length at most
    2 a number in 1..31.  Longer parts, and further parts of length 4, are
    not looked at. *)
Definition dob_rule (dob : str) : bool :=
  let parts := split_on (chr_in (lit "/-")) dob in
  (len parts =? 3) &&
  match List.find (fun part => len part =? 4) parts with
  | Some year => int_between 1900 2025 year
  | None => false
  end &&
  forallb (fun part => if len part <=? 2 then int_between 1 31 part else true)
          parts.

(** A match without its masked value. *)
Definition erase_masked (m : PIIMatch) : PIIMatch :=
  mkPIIMatch (pii_type m) (value m) (start m) (end_ m) (confidence m) []
    (context m).

(** Two detectors with the same validation switches; their maskers, masking
    configurations and statistics may differ. *)
Definition same_flags (self1 self2 : PIIDetector) : Prop :=
  enable_context_validation self1 = enable_context_validation self2 /\
  enable_strict_validation self1 = enable_strict_validation self2.

(** The text with the spans of [ms] replaced by their masked values; [ms]
    lists the matches from left to right and [cur] is the offset reached. *)
Fixpoint render (text : str) (cur : Z) (ms : list PIIMatch) : str :=
  match ms with
  | [] => slice_from text cur
  | m :: ms' =>
      slice text cur (start m) ++ masked_value m ++ render text (end_ m) ms'
  end.

(** The spans of [ms] follow one another from offset [cur] on: each is not
    empty, starts where the one before ended or later, and the last one ends
    in the text. *)
Fixpoint laid_out (text : str) (cur : Z) (ms : list PIIMatch) : Prop :=
  match ms with
  | [] => cur <= len text
  | m :: ms' => cur <= start m /\ start m < end_ m /\ laid_out text (end_ m) ms'
  end.

(** One replacement of [mask_text]. *)
Definition replace_span (result_ : str) (match_ : PIIMatch) : str :=
  slice_to result_ (start match_) ++ masked_value match_
    ++ slice_from result_ (end_ match_).

(** Every candidate a pattern can produce satisfies [P]: the candidate has
    the type of the pattern, a confidence that [adjust_confidence] gave, and
    a masked value that [mask] returned for its value under the strategy
    configured for the type, on a masker with the default strategy [ds]. *)
Definition pattern_candidates (P : PIIMatch -> Prop) (cfg : MaskingConfig)
    (ds : MaskingStrategy) (pd : PIIPattern) : Prop :=
  forall value s e context_match validation_passed length_appropriate
         masked mk mk',
    default_strategy mk = ds ->
    mask mk value (pat_pii_type pd)
      (Some (get_strategy cfg (pat_pii_type pd))) = Ok (masked, mk') ->
    P (mkPIIMatch (PIIType_value (pat_pii_type pd)) value s e
         (adjust_confidence (pat_confidence pd) context_match
            validation_passed length_appropriate) masked None).

(** Every candidate of type [t] with a confidence among [cs] and a masked
    value that [mask] returned under the default strategy satisfies [P]. *)
Definition constant_candidates (P : PIIMatch -> Prop) (ds : MaskingStrategy)
    (t : PIIType) (cs : list Q) : Prop :=
  forall value s e c masked mk mk',
    In c cs -> default_strategy mk = ds ->
    mask mk value t None = Ok (masked, mk') ->
    P (mkPIIMatch (PIIType_value t) value s e c masked None).

(** The pattern is skipped by the type filter of [_detect_pattern_based]. *)
Definition skipped (pii_types : option (list PIIType)) (pd : PIIPattern) : bool :=
  truthy pii_types &&
  negb (PIIType_in (pat_pii_type pd)
          (match pii_types with Some ts => ts | None => [] end)).

(** The detector has the masking configuration [cfg] and the default
    strategy [ds]. *)
Definition configured (cfg : MaskingConfig) (ds : MaskingStrategy)
    (self : PIIDetector) : Prop :=
  masking_config self = cfg /\ default_strategy (masker self) = ds.

(** The strategy [detect_all] masks a match of type [t] with: the default
    of the masker for names and addresses, the configured one otherwise. *)
Definition strategy_used (self : PIIDetector) (t : PIIType)
  : option MaskingStrategy :=
  match t with
  | PERSON_NAME | ADDRESS => None
  | _ => Some (get_strategy (masking_config self) t)
  end.

(** The result of a scanner, with the masking configuration of the detector
    it leaves replaced by [cfg]. *)
Definition with_config_after {A : Type} (cfg : MaskingConfig)
    (r : result (A * PIIDetector)) : result (A * PIIDetector) :=
  match r with
  | Ok (a, s) => Ok (a, with_masking_config s cfg)
  | Raise e => Raise e
  end.

(** [detections_by_type.get(ty, 0)] *)
Definition count_of (st : StatisticsCollector) (ty : str) : nat :=
  match dict_get str_eqb (detections_by_type st) ty with
  | Some n => n
  | None => 0%nat
  end.

(** The number of matches of type [ty]. *)
Definition count_type (ty : str) (ms : list PIIMatch) : nat :=
  List.length (filter (fun m => str_eqb (pii_type m) ty) ms).

(** [sum(d.values())] *)
Definition dict_total {K : Type} (d : list (K * nat)) : nat :=
  fold_right (fun kv n => (snd kv + n)%nat) 0%nat d.

(** The counters by type add up to the total. *)
Definition stats_consistent (st : StatisticsCollector) : Prop :=
  total_detections st = dict_total (detections_by_type st).

(** A character of the masked text is the character of the text at the same
    place, or a star. *)
Definition kept_or_star (c c' : ascii) : Prop := c' = c \/ c' = "*"%char.

(** The acceptance condition of [validate_ip_address]: four parts between
    dots, each of which [int] reads as a number between 0 and 255. *)
Definition ip_rule (ip : str) : bool :=
  let parts := split_on (chr_eqb ".") ip in
  (len parts =? 4) && forallb (int_between 0 255) parts.

(** The mask of one word of a name: its first character in upper case and
    three stars. *)
Definition initial_mask (part : str) : str :=
  upper (firstn 1 part) ++ lit "***".

(** The last four elements, for a list of at least four. *)
Definition last_four {A : Type} (s : list A) : list A :=
  skipn (List.length s - 4) s.

(** A lower-case hexadecimal digit. *)
Definition ishex (c : ascii) : bool := isdecimal c || in_range 97 102 c.

(** The number a string of decimal digits denotes. *)
Definition number (digits : str) : Z :=
  fold_left (fun acc c => 10 * acc + digit_value c) digits 0.

(** The rule of [validate_ssn] on the digits of a number: area, group and
    serial are the numbers its first three, next two and last four digits
    denote. *)
Definition ssn_rule (ssn : str) : bool :=
  match re_sub_class space_or_dash ssn with
  | [a1; a2; a3; g1; g2; s1; s2; s3; s4] =>
      let area := number [a1; a2; a3] in
      let group := number [g1; g2] in
      let serial := number [s1; s2; s3; s4] in
      forallb isdecimal [a1; a2; a3; g1; g2; s1; s2; s3; s4] &&
      negb (area =? 0) && negb (area =? 666) && (area <? 900) &&
      negb ((734 <=? area) && (area <=? 749)) &&
      negb (group =? 0) && negb (serial =? 0)
  | _ => false
  end.

(** The values on which [validate_ssn] raises: blanks and dashes apart,
    nine characters that [str.isdigit] accepts, a superscript among them. *)
Definition ssn_raises (ssn : str) : bool :=
  let clean := re_sub_class space_or_dash ssn in
  (len clean =? 9) && forallb isdigit clean && negb (plain_digits clean).

(** The values on which [validate_phone] raises: ten characters that
    [str.isdigit] accepts, a superscript among the first three. *)
Definition phone_raises (phone : str) : bool :=
  let digits := filter isdigit phone in
  (len digits =? 10) && negb (plain_digits (firstn 3 digits)).

(** The rule of [validate_phone] on the digits of a number. *)
Definition phone_rule (phone : str) : bool :=
  let digits := filter isdigit phone in
  if len digits =? 10 then
    let area_code := number (firstn 3 digits) in
    (200 <=? area_code) && negb (area_code =? 911) && negb (area_code =? 988)
  else (11 <=? len digits) && (len digits <=? 15).

(** The match [resolve_overlaps] keeps of two that overlap: the one of
    higher confidence; at equal confidence the one that starts first; at
    equal start too, the first of the two. *)
Definition pair_winner (a b : PIIMatch) : PIIMatch :=
  if Qlt_bool (confidence a) (confidence b) then b
  else if Qlt_bool (confidence b) (confidence a) then a
  else if start b <? start a then b else a.

(** The token [_mask_tokenize] prints for a type at a counter value. *)
Definition tokenize_token (pii_type : PIIType) (n : nat) : str :=
  lit "[" ++ PIIType_value pii_type ++ lit "_TOKEN_" ++ format_04d n ++ lit "]".

(** Successive calls of [mask] with the TOKENIZE strategy on one masker. *)
Fixpoint tokenize_all (self : PIIMasker) (items : list (str * PIIType))
  : result (list str * PIIMasker) :=
  match items with
  | [] => Ok ([], self)
  | (value, pii_type) :: items' =>
      '(token, self) <- mask self value pii_type (Some TOKENIZE) ;;
      '(tokens, self) <- tokenize_all self items' ;;
      Ok (token :: tokens, self)
  end.

(** The token [ReversibleMasker.mask] prints. *)
Definition reversible_token (pii_type : PIIType) (n : nat) : str :=
  lit "[" ++ PIIType_value pii_type ++ lit "_" ++ format_04d n ++ lit "]".

(** Successive calls of [ReversibleMasker.mask]. *)
Fixpoint mask_all (self : ReversibleMasker.t) (items : list (str * PIIType))
  : list str * ReversibleMasker.t :=
  match items with
  | [] => ([], self)
  | (value, pii_type) :: items' =>
      let '(token, self) := ReversibleMasker.mask self value pii_type in
      let '(tokens, self) := mask_all self items' in
      (token :: tokens, self)
  end.

(** No opening bracket occurs in the string. *)
Definition bracket_free (s : str) : Prop := ~ In "["%char s.

(** The entries of a mapping are tokens. *)
Definition token_keys (d : list (str * str)) : Prop :=
  Forall (fun entry => exists t n, fst entry = reversible_token t n) d.

(** The test of the loop of [_extract_name_sequence]: the word, without the
    punctuation around it, is capitalised or a name suffix. *)
Definition name_word (w : str) : bool :=
  is_capitalized_word (strip punctuation w)
  || str_in (lower (strip punctuation w)) SUFFIXES.

(** The matches of the list carry, in order, the tokens of the counter
    values that follow [c], up to [c']; each token names the type of its
    match. *)
Inductive issued : nat -> list PIIMatch -> nat -> Prop :=
| issued_nil : forall c, issued c [] c
| issued_cons : forall c m ms c' t,
    pii_type m = PIIType_value t ->
    masked_value m = tokenize_token t (c + 1) ->
    issued (c + 1) ms c' ->
    issued c (m :: ms) c'.

(** TOKENIZE is the default strategy of the masker and the strategy
    configured for every type. *)
Definition all_tokenize (self : PIIDetector) : Prop :=
  default_strategy (masker self) = TOKENIZE /\
  forall t, get_strategy (masking_config self) t = TOKENIZE.

(** The number of characters of the class [p] in a row at the start of [s]. *)
Fixpoint run (p : ascii -> bool) (s : str) : nat :=
  match s with
  | c :: s' => if p c then S (run p s') else 0%nat
  | [] => 0%nat
  end.

(** The strings [is_valid_passport] accepts: one or two letters A to Z, six
    to nine digits 0 to 9, and then nothing or one final newline. *)
Definition passport_shape (passport : str) : bool :=
  let letters := run is_AZ passport in
  let rest := skipn letters passport in
  let digits := run isdecimal rest in
  let tail := skipn digits rest in
  Nat.leb 1 letters && Nat.leb letters 2 &&
  Nat.leb 6 digits && Nat.leb digits 9 &&
  match tail with
  | [] => true
  | [c] => chr_eqb c "010"%char
  | _ => false
  end.

(* ================================================================== *)
(** * Proofs: characters and strings *)

Lemma chr_eqb_refl : forall c, chr_eqb c c = true.
Proof. intro c; apply Ascii.eqb_refl. Qed.

Lemma chr_eqb_eq : forall a b, chr_eqb a b = true <-> a = b.
Proof. intros; apply Ascii.eqb_eq. Qed.

Lemma str_eqb_refl : forall s, str_eqb s s = true.
Proof.
  induction s as [| c s IH]; simpl; [reflexivity |].
  now rewrite chr_eqb_refl, IH.
Qed.

Lemma str_eqb_eq : forall a b, str_eqb a b = true <-> a = b.
Proof.
  induction a as [| x a IH]; destruct b as [| y b]; simpl; split; intro H;
    try reflexivity; try discriminate.
  - apply andb_true_iff in H as [H1 H2].
    apply chr_eqb_eq in H1; apply IH in H2; now subst.
  - inversion H; subst. now rewrite chr_eqb_refl, str_eqb_refl.
Qed.

Lemma len_nonneg : forall (A : Type) (l : list A), 0 <= len l.
Proof. intros; unfold len; lia. Qed.

Lemma len_cons : forall (A : Type) (x : A) (l : list A), len (x :: l) = 1 + len l.
Proof. intros; unfold len; cbn [List.length]; lia. Qed.

(* ================================================================== *)
(** * Proofs: intervals and the order on confidences *)

Lemma disjoint_sym : forall a b, disjoint a b -> disjoint b a.
Proof. unfold disjoint; intros; tauto. Qed.

Lemma has_overlap_false : forall a b, _has_overlap a b = false <-> disjoint a b.
Proof.
  intros a b; unfold _has_overlap, disjoint.
  rewrite andb_false_iff, Z.ltb_ge, Z.gtb_ltb, Z.ltb_ge. tauto.
Qed.

Lemma has_overlap_true : forall a b,
  _has_overlap a b = true <-> start a < end_ b /\ start b < end_ a.
Proof.
  intros a b; unfold _has_overlap.
  rewrite andb_true_iff, Z.ltb_lt, Z.gtb_ltb, Z.ltb_lt. tauto.
Qed.

Lemma Qlt_bool_iff : forall a b, Qlt_bool a b = true <-> (a < b)%Q.
Proof.
  intros a b; unfold Qlt_bool. rewrite negb_true_iff.
  split; intro H.
  - apply Qnot_le_lt. intro Hle. apply Qle_bool_iff in Hle. congruence.
  - destruct (Qle_bool b a) eqn:E; [| reflexivity].
    apply Qle_bool_iff in E. exfalso. eapply Qlt_not_le; eauto.
Qed.

Lemma Qle_bool_false : forall a b, Qle_bool a b = false <-> (b < a)%Q.
Proof.
  intros a b. rewrite <- Qlt_bool_iff. unfold Qlt_bool.
  now rewrite negb_true_iff.
Qed.

Lemma PIIMatch_eqb_refl : forall m, PIIMatch_eqb m m = true.
Proof.
  intros m; unfold PIIMatch_eqb.
  rewrite !str_eqb_refl, !Z.eqb_refl. simpl.
  assert (Hq : Qeq_bool (confidence m) (confidence m) = true)
    by (apply Qeq_bool_iff; reflexivity).
  rewrite Hq. simpl.
  destruct (context m); simpl; [apply str_eqb_refl | reflexivity].
Qed.

Lemma PIIMatch_eqb_span : forall a b,
  PIIMatch_eqb a b = true -> start a = start b /\ end_ a = end_ b.
Proof.
  intros a b H; unfold PIIMatch_eqb in H.
  repeat (apply andb_true_iff in H as [H ?]).
  split; now apply Z.eqb_eq.
Qed.

Lemma PIIMatch_eqb_overlap : forall m a b,
  PIIMatch_eqb a b = true -> _has_overlap m a = _has_overlap m b.
Proof.
  intros m a b H. apply PIIMatch_eqb_span in H as [Hs He].
  unfold _has_overlap. now rewrite Hs, He.
Qed.

(* ================================================================== *)
(** * Proofs: [sorted] *)

Section SortedFacts.
Context {A : Type}.
Variable le : A -> A -> bool.

Lemma insert_by_In : forall x y l, In y (insert_by le x l) <-> y = x \/ In y l.
Proof.
  intros x y l; induction l as [| z l IH]; simpl.
  - intuition.
  - destruct (le x z); simpl; [intuition | rewrite IH; intuition].
Qed.

Lemma sorted_In : forall y l, In y (sorted le l) <-> In y l.
Proof.
  intros y l; induction l as [| x l IH]; simpl; [tauto |].
  rewrite insert_by_In, IH. intuition.
Qed.

Lemma insert_by_length : forall x l,
  List.length (insert_by le x l) = S (List.length l).
Proof.
  intros x l; induction l as [| z l IH]; simpl; [reflexivity |].
  destruct (le x z); simpl; [reflexivity | now rewrite IH].
Qed.

Lemma insert_by_Permutation : forall x l, Permutation (x :: l) (insert_by le x l).
Proof.
  intros x l; induction l as [| z l IH]; simpl; [reflexivity |].
  destruct (le x z); [reflexivity |].
  rewrite perm_swap. now apply perm_skip.
Qed.

Lemma sorted_Permutation : forall l, Permutation l (sorted le l).
Proof.
  induction l as [| x l IH]; simpl; [reflexivity |].
  rewrite <- insert_by_Permutation. now apply perm_skip.
Qed.

Hypothesis le_total : forall a b, le a b = true \/ le b a = true.
Hypothesis le_trans : forall a b c, le a b = true -> le b c = true -> le a c = true.

Lemma insert_by_sorted : forall x l,
  StronglySorted (fun a b => le a b = true) l ->
  StronglySorted (fun a b => le a b = true) (insert_by le x l).
Proof.
  intros x l; induction l as [| z l IH]; intro Hs; simpl.
  - constructor; constructor.
  - destruct (le x z) eqn:E.
    + constructor; [assumption |].
      constructor; [exact E |].
      inversion Hs; subst.
      eapply Forall_impl; [| eassumption].
      intros a Ha. cbv beta in *. eauto.
    + inversion Hs as [| ? ? Hs' Hall]; subst.
      constructor; [auto |].
      apply Forall_forall. intros a Ha.
      apply insert_by_In in Ha as [-> | Ha].
      * destruct (le_total x z) as [H | H]; [congruence | exact H].
      * rewrite Forall_forall in Hall. auto.
Qed.

Lemma sorted_StronglySorted : forall l, StronglySorted (fun a b => le a b = true) (sorted le l).
Proof.
  induction l as [| x l IH]; simpl; [constructor | now apply insert_by_sorted].
Qed.

(** Filtering commutes with a stable sort. *)
Lemma insert_by_filter_keep : forall (p : A -> bool) x l,
  StronglySorted (fun a b => le a b = true) l -> p x = true ->
  filter p (insert_by le x l) = insert_by le x (filter p l).
Proof.
  intros p x l; induction l as [| z l IH]; intros Hs Hp; simpl.
  - now rewrite Hp.
  - inversion Hs as [| ? ? Hs' Hall]; subst.
    destruct (le x z) eqn:E; simpl.
    + rewrite Hp. destruct (p z) eqn:Ez; simpl.
      * now rewrite E.
      * (* [x] is below every later element as well *)
        clear IH. assert (Hx : Forall (fun a => le x a = true) l).
        { eapply Forall_impl; [| exact Hall]. cbv beta. eauto. }
        clear Hall Hs Hs'. induction l as [| w l IHl]; simpl; [reflexivity |].
        inversion Hx; subst.
        destruct (p w); simpl; [now rewrite H1 | auto].
    + destruct (p z) eqn:Ez; simpl.
      * rewrite E. f_equal. auto.
      * auto.
Qed.

Lemma insert_by_filter_drop : forall (p : A -> bool) x l,
  p x = false -> filter p (insert_by le x l) = filter p l.
Proof.
  intros p x l Hp; induction l as [| z l IH]; simpl.
  - now rewrite Hp.
  - destruct (le x z); simpl; [now rewrite Hp | now rewrite IH].
Qed.

Lemma sorted_filter : forall (p : A -> bool) l,
  sorted le (filter p l) = filter p (sorted le l).
Proof.
  intros p l; induction l as [| x l IH]; simpl; [reflexivity |].
  destruct (p x) eqn:E; simpl.
  - rewrite insert_by_filter_keep; auto using sorted_StronglySorted.
    now rewrite IH.
  - now rewrite insert_by_filter_drop.
Qed.
End SortedFacts.

(** The two orders used by the resolver. *)

Lemma overlap_key_le_total : forall a b,
  overlap_key_le a b = true \/ overlap_key_le b a = true.
Proof.
  intros a b; unfold overlap_key_le.
  destruct (Z.lt_trichotomy (start a) (start b)) as [H | [H | H]].
  - left. apply orb_true_iff; left. now apply Z.ltb_lt.
  - destruct (Qle_bool (- confidence a) (- confidence b)) eqn:E.
    + left. apply orb_true_iff; right. now rewrite H, Z.eqb_refl.
    + right. apply orb_true_iff; right. rewrite H, Z.eqb_refl. simpl.
      apply Qle_bool_false in E. apply Qle_bool_iff. now apply Qlt_le_weak.
  - right. apply orb_true_iff; left. now apply Z.ltb_lt.
Qed.

Lemma overlap_key_le_spec : forall a b,
  overlap_key_le a b = true <->
  start a < start b \/ (start a = start b /\ (- confidence a <= - confidence b)%Q).
Proof.
  intros a b; unfold overlap_key_le.
  rewrite orb_true_iff, andb_true_iff, Z.ltb_lt, Z.eqb_eq, Qle_bool_iff. tauto.
Qed.

Lemma overlap_key_le_trans : forall a b c,
  overlap_key_le a b = true -> overlap_key_le b c = true ->
  overlap_key_le a c = true.
Proof.
  intros a b c H1 H2. rewrite overlap_key_le_spec in *.
  destruct H1 as [H1 | [H1 Q1]], H2 as [H2 | [H2 Q2]]; try (left; lia).
  right. split; [lia | eapply Qle_trans; eauto].
Qed.

Lemma overlap_key_le_start : forall a b,
  overlap_key_le a b = true -> start a <= start b.
Proof. intros a b H; apply overlap_key_le_spec in H; lia. Qed.

Lemma start_le_total : forall a b, start_le a b = true \/ start_le b a = true.
Proof. intros a b; unfold start_le; rewrite !Z.leb_le; lia. Qed.

Lemma start_le_trans : forall a b c,
  start_le a b = true -> start_le b c = true -> start_le a c = true.
Proof. intros a b c; unfold start_le; rewrite !Z.leb_le; lia. Qed.

(* ================================================================== *)
(** * Proofs: pairwise relations on lists *)

Section Pairwise.
Context {A : Type}.
Variable R : A -> A -> Prop.

Lemma FOP_cons_iff : forall x l,
  ForallOrdPairs R (x :: l) <-> Forall (R x) l /\ ForallOrdPairs R l.
Proof.
  intros x l; split; intro H.
  - inversion H; subst; auto.
  - destruct H; now constructor.
Qed.

Lemma FOP_app : forall l1 l2,
  ForallOrdPairs R (l1 ++ l2) <->
  ForallOrdPairs R l1 /\ ForallOrdPairs R l2 /\
  (forall a b, In a l1 -> In b l2 -> R a b).
Proof.
  induction l1 as [| x l1 IH]; intro l2; simpl.
  - split; [intro H; repeat split; [constructor | exact H | intros ? ? []]
           | intros (_ & H & _); exact H].
  - rewrite !FOP_cons_iff, IH, Forall_app, !Forall_forall. split.
    + intros ((H1 & H2) & H3 & H4 & H5). repeat split; auto.
      intros a b [<- | Ha] Hb; auto.
    + intros ((H1 & H2) & H3 & H4). repeat split; auto.
Qed.

Lemma FOP_nth : forall l i j a b,
  ForallOrdPairs R l -> (i < j)%nat ->
  nth_error l i = Some a -> nth_error l j = Some b -> R a b.
Proof.
  induction l as [| x l IH]; intros i j a b H Hij Hi Hj.
  - destruct i; discriminate.
  - apply FOP_cons_iff in H as [Hx Hl].
    destruct j as [| j]; [lia |]. simpl in Hj.
    destruct i as [| i]; simpl in Hi.
    + inversion Hi; subst. rewrite Forall_forall in Hx.
      apply Hx. eapply nth_error_In; eauto.
    + apply (IH i j a b Hl); [lia | assumption | assumption].
Qed.

Hypothesis R_sym : forall a b, R a b -> R b a.

Lemma FOP_Permutation : forall l l',
  Permutation l l' -> ForallOrdPairs R l -> ForallOrdPairs R l'.
Proof.
  induction 1 as [| x l l' Hp IH | x y l | l l' l'' H1 IH1 H2 IH2]; intro H.
  - exact H.
  - apply FOP_cons_iff in H as [Hx Hl]. apply FOP_cons_iff. split; auto.
    eapply Permutation_Forall; eauto.
  - apply FOP_cons_iff in H as [Hy H]. apply FOP_cons_iff in H as [Hx Hl].
    inversion Hy; subst.
    apply FOP_cons_iff. split; [constructor; auto |].
    apply FOP_cons_iff. split; auto.
  - auto.
Qed.

Lemma FOP_nth_sym : forall l i j a b,
  ForallOrdPairs R l -> i <> j ->
  nth_error l i = Some a -> nth_error l j = Some b -> R a b.
Proof.
  intros l i j a b H Hij Hi Hj.
  destruct (Nat.lt_ge_cases i j) as [Hlt | Hge].
  - eapply FOP_nth; eauto.
  - apply R_sym. eapply FOP_nth with (i := j) (j := i); eauto. lia.
Qed.
End Pairwise.

Lemma StronglySorted_nth : forall (A : Type) (R : A -> A -> Prop) l i j a b,
  StronglySorted R l -> (i < j)%nat ->
  nth_error l i = Some a -> nth_error l j = Some b -> R a b.
Proof.
  intros A R l; induction l as [| x l IH]; intros i j a b H Hij Hi Hj.
  - destruct i; discriminate.
  - inversion H as [| ? ? Hl Hx]; subst.
    destruct j as [| j]; [lia |]. simpl in Hj.
    destruct i as [| i]; simpl in Hi.
    + inversion Hi; subst. rewrite Forall_forall in Hx.
      apply Hx. eapply nth_error_In; eauto.
    + apply (IH i j a b Hl); [lia | assumption | assumption].
Qed.

(* ================================================================== *)
(** * Proofs: [list.remove] *)

Lemma list_remove_app : forall (A : Type) (eqb : A -> A -> bool) pre x post,
  Forall (fun p => eqb p x = false) pre -> eqb x x = true ->
  list_remove eqb (pre ++ x :: post) x = Ok (pre ++ post).
Proof.
  intros A eqb pre x post Hpre Hx.
  induction pre as [| p pre IH]; simpl.
  - now rewrite Hx.
  - inversion Hpre; subst. rewrite H1, IH by assumption. reflexivity.
Qed.

(* ================================================================== *)
(** * Proofs: the overlap resolver *)

(** Either nothing accepted overlaps [m], or there is a first element that does. *)
Lemma first_overlap : forall m res,
  Forall (no_overlap m) res \/
  exists pre e post, res = pre ++ e :: post /\
                     Forall (no_overlap m) pre /\ _has_overlap m e = true.
Proof.
  intros m res; induction res as [| x res IH].
  - left; constructor.
  - destruct (_has_overlap m x) eqn:E.
    + right. exists [], x, res. repeat split; auto.
    + destruct IH as [IH | (pre & e & post & -> & Hpre & He)].
      * left. now constructor.
      * right. exists (x :: pre), e, post. repeat split; auto.
Qed.

Lemma resolve_scan_skip : forall m res pre rest,
  Forall (no_overlap m) pre ->
  resolve_scan m res (pre ++ rest) = resolve_scan m res rest.
Proof.
  intros m res pre rest H; induction H as [| p pre Hp _ IH]; simpl; [reflexivity |].
  unfold no_overlap in Hp. now rewrite Hp.
Qed.

Lemma resolve_scan_miss : forall m res,
  Forall (no_overlap m) res -> resolve_scan m res res = Ok (res ++ [m]).
Proof.
  intros m res H.
  rewrite <- (app_nil_r res) at 2. now rewrite resolve_scan_skip.
Qed.

Lemma resolve_scan_hit : forall m pre e post,
  Forall (no_overlap m) pre -> _has_overlap m e = true ->
  resolve_scan m (pre ++ e :: post) (pre ++ e :: post) =
  Ok (if Qlt_bool (confidence e) (confidence m)
      then pre ++ post ++ [m] else pre ++ e :: post).
Proof.
  intros m pre e post Hpre He.
  rewrite resolve_scan_skip by assumption. simpl. rewrite He.
  destruct (Qlt_bool (confidence e) (confidence m)); [| reflexivity].
  rewrite list_remove_app.
  - simpl. now rewrite <- app_assoc.
  - eapply Forall_impl; [| exact Hpre]. intros p Hp.
    destruct (PIIMatch_eqb p e) eqn:E; [| reflexivity].
    apply (PIIMatch_eqb_overlap m) in E. unfold no_overlap in Hp. congruence.
  - apply PIIMatch_eqb_refl.
Qed.

(** Among pairwise disjoint spans that start no later than [m], at most one
    overlaps [m]. *)
Lemma overlap_unique : forall m e x,
  disjoint e x -> start e <= start m -> start x <= start m ->
  _has_overlap m e = true -> no_overlap m x.
Proof.
  intros m e x Hd He Hx Ho. apply has_overlap_true in Ho.
  apply has_overlap_false. unfold disjoint in *. lia.
Qed.

Lemma first_overlap_unique : forall m pre e post,
  resolver_inv (pre ++ e :: post) m -> _has_overlap m e = true ->
  Forall (no_overlap m) post.
Proof.
  intros m pre e post [Hd Hs] Ho.
  apply FOP_app in Hd as (_ & Hd & _). apply FOP_cons_iff in Hd as [Hd _].
  apply Forall_app in Hs as [_ Hs]. inversion Hs; subst.
  rewrite Forall_forall in *. intros x Hx.
  eapply overlap_unique; eauto.
Qed.

Lemma resolve_scan_outcome : forall m res,
  resolver_inv res m ->
  exists r, resolve_scan m res res = Ok r /\ scan_outcome m res r.
Proof.
  intros m res Hinv.
  destruct (first_overlap m res) as [H | (pre & e & post & -> & Hpre & He)].
  - exists (res ++ [m]). split; [now apply resolve_scan_miss | now constructor].
  - pose proof (@first_overlap_unique m pre e post Hinv He) as Hpost.
    rewrite resolve_scan_hit by assumption.
    destruct (Qlt_bool (confidence e) (confidence m)) eqn:E; eexists; split;
      try reflexivity.
    + apply Qlt_bool_iff in E. eapply scan_replace; eauto.
    + eapply scan_keep; eauto.
      unfold Qlt_bool in E. apply negb_false_iff in E.
      now apply Qle_bool_iff.
Qed.

Lemma scan_outcome_disjoint : forall m res r,
  ForallOrdPairs disjoint res -> scan_outcome m res r ->
  ForallOrdPairs disjoint r.
Proof.
  intros m res r Hd Ho.
  destruct Ho as [H | pre e post Heq Hpre Hpost _ _ | pre e post _ _ _ _ _].
  - apply FOP_app. repeat split; auto.
    + constructor; constructor.
    + intros a b Ha [<- | []]. rewrite Forall_forall in H.
      apply disjoint_sym, has_overlap_false, H, Ha.
  - subst res. rewrite app_assoc. apply FOP_app. repeat split.
    + apply FOP_app in Hd as (H1 & H2 & H3). apply FOP_cons_iff in H2 as [_ H2].
      apply FOP_app. repeat split; auto. intros a b Ha Hb. apply H3; simpl; auto.
    + constructor; constructor.
    + intros a b Ha [<- | []]. apply disjoint_sym, has_overlap_false.
      rewrite Forall_forall in Hpre, Hpost.
      apply in_app_iff in Ha as [Ha | Ha]; [apply Hpre | apply Hpost]; exact Ha.
  - assumption.
Qed.

Lemma scan_outcome_incl : forall m res r x,
  scan_outcome m res r -> In x r -> In x res \/ x = m.
Proof.
  intros m res r x Ho Hx.
  destruct Ho as [H | pre e post Heq _ _ _ _ | pre e post _ _ _ _ _].
  - apply in_app_iff in Hx as [Hx | [<- | []]]; auto.
  - subst res. rewrite app_assoc in Hx.
    apply in_app_iff in Hx as [Hx | [<- | []]]; auto.
    left. apply in_app_iff in Hx as [Hx | Hx]; apply in_app_iff; simpl; auto.
  - auto.
Qed.

Lemma resolve_loop_ok : forall ms res,
  StronglySorted start_le_prop ms ->
  (forall e m, In e res -> In m ms -> start e <= start m) ->
  ForallOrdPairs disjoint res ->
  exists r, resolve_loop ms res = Ok r /\
            ForallOrdPairs disjoint r /\
            (forall x, In x r -> In x res \/ In x ms).
Proof.
  induction ms as [| m ms IH]; intros res Hs Hb Hd; simpl.
  - exists res. auto.
  - inversion Hs as [| ? ? Hs' Hm]; subst.
    destruct (@resolve_scan_outcome m res) as (r & Hr & Ho).
    { split; [assumption |]. apply Forall_forall. intros e He.
      apply Hb; simpl; auto. }
    rewrite Hr. simpl.
    destruct (IH r) as (r' & Hr' & Hd' & Hin').
    + assumption.
    + intros e m' He Hm'.
      destruct (@scan_outcome_incl m res r e Ho He) as [He' | ->].
      * apply Hb; simpl; auto.
      * rewrite Forall_forall in Hm. now apply Hm.
    + eapply scan_outcome_disjoint; eauto.
    + exists r'. repeat split; auto.
      intros x Hx. destruct (Hin' x Hx) as [Hx' | Hx']; simpl; auto.
      destruct (@scan_outcome_incl m res r x Ho Hx'); auto.
Qed.

Lemma sorted_key_start : forall l,
  StronglySorted start_le_prop (sorted overlap_key_le l).
Proof.
  intro l.
  pose proof (sorted_StronglySorted overlap_key_le overlap_key_le_total
                overlap_key_le_trans l) as H.
  induction H; constructor; auto.
  eapply Forall_impl; [| eassumption].
  intros b Hb. now apply overlap_key_le_start.
Qed.

Lemma sorted_start_sorted : forall l,
  StronglySorted start_le_prop (sorted start_le l).
Proof.
  intro l.
  pose proof (sorted_StronglySorted start_le start_le_total start_le_trans l) as H.
  induction H; constructor; auto.
  eapply Forall_impl; [| eassumption].
  intros b Hb. now apply Z.leb_le.
Qed.

(** The resolver returns, and what it returns is pairwise disjoint, sorted by
    [start] and drawn from its input. *)
Lemma resolve_overlaps_ok : forall matches,
  exists r, resolve_overlaps matches = Ok r /\
            ForallOrdPairs disjoint r /\
            StronglySorted start_le_prop r /\
            (forall x, In x r -> In x matches).
Proof.
  intros [| m0 ms].
  - exists []. repeat split; try constructor. intros x [].
  - unfold resolve_overlaps.
    destruct (@resolve_loop_ok (sorted overlap_key_le (m0 :: ms)) [])
      as (r & Hr & Hd & Hin).
    + apply sorted_key_start.
    + intros e m [].
    + constructor.
    + rewrite Hr. simpl. exists (sorted start_le r). repeat split.
      * eapply FOP_Permutation; [exact disjoint_sym | apply sorted_Permutation | exact Hd].
      * apply sorted_start_sorted.
      * intros x Hx. apply sorted_In in Hx.
        destruct (Hin x Hx) as [[] | Hx']. now apply sorted_In in Hx'.
Qed.

(* ================================================================== *)
(** * Proofs: the resolver and the confidence threshold *)

Lemma above_mono : forall t1 t2 m,
  (t1 <= t2)%Q -> above t2 m = true -> above t1 m = true.
Proof.
  unfold above; intros t1 t2 m Ht H.
  apply Qle_bool_iff in H. apply Qle_bool_iff. eapply Qle_trans; eauto.
Qed.

Lemma filter_above_above : forall t1 t2 l,
  (t1 <= t2)%Q -> filter (above t2) (filter (above t1) l) = filter (above t2) l.
Proof.
  intros t1 t2 l Ht; induction l as [| m l IH]; simpl; [reflexivity |].
  destruct (above t1 m) eqn:E1; simpl.
  - now rewrite IH.
  - destruct (above t2 m) eqn:E2; [| exact IH].
    apply (above_mono t1 t2 m Ht) in E2. congruence.
Qed.

Lemma Forall_filter : forall (A : Type) (P : A -> Prop) (p : A -> bool) l,
  Forall P l -> Forall P (filter p l).
Proof.
  intros A P p l H; induction H; simpl; [constructor |].
  destruct (p x); [constructor |]; assumption.
Qed.

Section Threshold.
Variable t : Q.

(** One turn of the outer loop, seen through the filter: a match above the
    threshold is processed against the accepted matches above it exactly
    as against all of them; a match below it leaves them alone. *)
Lemma scan_outcome_filter : forall m res r,
  scan_outcome m res r ->
  if above t m
  then resolve_scan m (filter (above t) res) (filter (above t) res)
       = Ok (filter (above t) r)
  else filter (above t) r = filter (above t) res.
Proof.
  intros m res r Ho.
  destruct Ho as [H | pre e post Heq Hpre Hpost He Hc | pre e post Heq Hpre Hpost He Hc].
  - destruct (above t m) eqn:Em.
    + rewrite filter_app. simpl. rewrite Em.
      apply resolve_scan_miss. now apply Forall_filter.
    + rewrite filter_app. simpl. rewrite Em. apply app_nil_r.
  - subst res. rewrite !filter_app. simpl.
    destruct (above t m) eqn:Em; simpl.
    + destruct (above t e) eqn:Ee.
      * rewrite resolve_scan_hit; auto using Forall_filter.
        apply Qlt_bool_iff in Hc. now rewrite Hc.
      * rewrite <- filter_app, resolve_scan_miss.
        -- now rewrite filter_app, <- app_assoc.
        -- apply Forall_filter, Forall_app; auto.
    + destruct (above t e) eqn:Ee; [| now rewrite app_nil_r].
      exfalso. unfold above in *. apply Qle_bool_iff in Ee.
      apply Qle_bool_false in Em.
      apply (Qlt_irrefl t). eapply Qle_lt_trans; [exact Ee |].
      eapply Qlt_trans; eauto.
  - destruct (above t m) eqn:Em; [| reflexivity].
    subst res. rewrite filter_app. simpl.
    assert (Ee : above t e = true).
    { unfold above in *. apply Qle_bool_iff in Em. apply Qle_bool_iff.
      eapply Qle_trans; eauto. }
    rewrite Ee, resolve_scan_hit; auto using Forall_filter.
    assert (Hn : Qlt_bool (confidence e) (confidence m) = false).
    { unfold Qlt_bool. apply negb_false_iff. now apply Qle_bool_iff. }
    now rewrite Hn.
Qed.

Lemma resolve_loop_filter : forall ms res r,
  StronglySorted start_le_prop ms ->
  (forall e m, In e res -> In m ms -> start e <= start m) ->
  ForallOrdPairs disjoint res ->
  resolve_loop ms res = Ok r ->
  resolve_loop (filter (above t) ms) (filter (above t) res)
  = Ok (filter (above t) r).
Proof.
  induction ms as [| m ms IH]; intros res r Hs Hb Hd Hr; simpl in *.
  - now inversion Hr.
  - inversion Hs as [| ? ? Hs' Hm]; subst.
    destruct (@resolve_scan_outcome m res) as (r1 & Hr1 & Ho).
    { split; [assumption |]. apply Forall_forall. intros e He.
      apply Hb; simpl; auto. }
    rewrite Hr1 in Hr. simpl in Hr.
    assert (IH' : resolve_loop (filter (above t) ms) (filter (above t) r1)
                  = Ok (filter (above t) r)).
    { apply IH; auto.
      - intros e m' He Hm'.
        destruct (@scan_outcome_incl m res r1 e Ho He) as [He' | ->].
        + apply Hb; simpl; auto.
        + rewrite Forall_forall in Hm. now apply Hm.
      - eapply scan_outcome_disjoint; eauto. }
    pose proof (scan_outcome_filter m res r1 Ho) as Hf.
    destruct (above t m); simpl.
    + rewrite Hf. simpl. exact IH'.
    + now rewrite <- Hf.
Qed.

(** Resolving what passes a further filter gives the part of the resolved
    list that passes it. *)
Lemma resolve_overlaps_filter : forall matches,
  exists r, resolve_overlaps matches = Ok r /\
            resolve_overlaps (filter (above t) matches)
            = Ok (filter (above t) r).
Proof.
  intros matches.
  destruct matches as [| m0 ms]; [exists []; split; reflexivity |].
  remember (m0 :: ms) as l eqn:El.
  destruct (@resolve_loop_ok (sorted overlap_key_le l) [])
    as (r & Hr & Hd & Hin).
  { apply sorted_key_start. } { intros e m []. } { constructor. }
  exists (sorted start_le r). split.
  - rewrite El. unfold resolve_overlaps. rewrite <- El, Hr. reflexivity.
  - assert (Hf : resolve_loop (filter (above t) (sorted overlap_key_le l))
                   (filter (above t) []) = Ok (filter (above t) r)).
    { apply resolve_loop_filter; auto.
      - apply sorted_key_start.
      - intros e m [].
      - constructor. }
    change (filter (above t) []) with (@nil PIIMatch) in Hf.
    rewrite <- sorted_filter in Hf
      by (apply overlap_key_le_total || apply overlap_key_le_trans).
    rewrite <- sorted_filter
      by (apply start_le_total || apply start_le_trans).
    unfold resolve_overlaps.
    destruct (filter (above t) l) as [| x xs] eqn:Ef.
    + simpl in Hf. inversion Hf as [Hnil]. reflexivity.
    + rewrite Hf. reflexivity.
Qed.
End Threshold.

(* ================================================================== *)
(** * Proofs: indexing, slicing, searching, parsing *)

Lemma In_firstn : forall (A : Type) n (l : list A) x, In x (firstn n l) -> In x l.
Proof.
  intros A n l x H. rewrite <- (firstn_skipn n l). apply in_or_app; auto.
Qed.

Lemma In_skipn : forall (A : Type) n (l : list A) x, In x (skipn n l) -> In x l.
Proof.
  intros A n l x H. rewrite <- (firstn_skipn n l). apply in_or_app; auto.
Qed.

Lemma In_slice : forall (A : Type) (s : list A) lo hi x, In x (slice s lo hi) -> In x s.
Proof.
  intros A s lo hi x H. unfold slice in H.
  apply In_firstn in H. now apply In_skipn in H.
Qed.

Lemma index_ok : forall (A : Type) (s : list A) i,
  - len s <= i < len s -> exists c, index s i = Ok c.
Proof.
  intros A s i Hi. unfold index.
  set (j := if i <? 0 then len s + i else i).
  assert (Hj : 0 <= j < len s).
  { subst j. destruct (i <? 0) eqn:E; [apply Z.ltb_lt in E | apply Z.ltb_ge in E]; lia. }
  assert (E1 : (j <? 0) = false) by (apply Z.ltb_ge; lia).
  assert (E2 : (len s <=? j) = false) by (apply Z.leb_gt; lia).
  rewrite E1, E2. simpl.
  destruct (nth_error s (Z.to_nat j)) eqn:E; [eauto |].
  apply nth_error_None in E. unfold len in Hj. lia.
Qed.

Lemma startswith_firstn : forall sub s,
  startswith s sub = true -> firstn (List.length sub) s = sub.
Proof.
  induction sub as [| x sub IH]; intros s H; simpl in *; [reflexivity |].
  destruct s as [| y s]; [discriminate |].
  apply andb_true_iff in H as [H1 H2].
  apply chr_eqb_eq in H1. subst. f_equal. auto.
Qed.

Lemma startswith_length : forall sub s,
  startswith s sub = true -> (List.length sub <= List.length s)%nat.
Proof.
  induction sub as [| x sub IH]; intros s H; simpl in *; [lia |].
  destruct s as [| y s]; [discriminate |].
  apply andb_true_iff in H as [_ H2]. apply IH in H2. simpl. lia.
Qed.

Lemma find_from_spec : forall sub s i p,
  find_from s sub i = p -> p <> -1 -> 0 <= i ->
  exists k, p = i + Z.of_nat k /\ (k <= List.length s)%nat /\
            startswith (skipn k s) sub = true.
Proof.
  intros sub s; induction s as [| c s IH]; intros i p Hf Hp Hi.
  - change (find_from [] sub i)
      with (if startswith [] sub then i else -1) in Hf.
    destruct (startswith [] sub) eqn:E.
    + subst p. exists 0%nat. split; [lia | split; [simpl; lia | exact E]].
    + congruence.
  - change (find_from (c :: s) sub i)
      with (if startswith (c :: s) sub then i else find_from s sub (i + 1)) in Hf.
    destruct (startswith (c :: s) sub) eqn:E.
    + subst p. exists 0%nat. split; [lia | split; [simpl; lia | exact E]].
    + destruct (IH (i + 1) p Hf Hp) as (k & -> & Hk & Hs); [lia |].
      exists (S k). split; [lia | split; [simpl; lia | exact Hs]].
Qed.

(** What [find] returns is an offset at which the text reads [sub]. *)
Lemma find_slice : forall s sub p,
  find s sub = p -> p <> -1 ->
  0 <= p /\ p + len sub <= len s /\ slice s p (p + len sub) = sub.
Proof.
  intros s sub p Hf Hp. unfold find in Hf.
  destruct (find_from_spec sub s 0 p Hf Hp) as (k & -> & Hk & Hs); [lia |].
  pose proof (startswith_length _ _ Hs) as Hl.
  rewrite length_skipn in Hl.
  split; [lia |]. split; [unfold len; lia |].
  unfold slice, clip_index, len.
  assert (E1 : (0 + Z.of_nat k <? 0) = false) by (apply Z.ltb_ge; lia).
  assert (E2 : (0 + Z.of_nat k + Z.of_nat (List.length sub) <? 0) = false)
    by (apply Z.ltb_ge; lia).
  rewrite E1, E2.
  rewrite !Z.min_l by lia.
  replace (Z.to_nat (0 + Z.of_nat k + Z.of_nat (List.length sub) - (0 + Z.of_nat k)))
    with (List.length sub) by lia.
  replace (Z.to_nat (0 + Z.of_nat k)) with k by lia.
  now apply startswith_firstn.
Qed.

Lemma finditer_from_string : forall r s fuel pos,
  Forall (fun m => m_string m = s) (finditer_from r s fuel pos).
Proof.
  intros r s fuel; induction fuel as [| fuel IH]; intro pos; simpl.
  - constructor.
  - destruct (search r s pos) as [[a e] |]; constructor; auto.
Qed.

Lemma finditer_string : forall r s, Forall (fun m => m_string m = s) (finditer r s).
Proof. intros; apply finditer_from_string. Qed.

(** A property of characters that holds of the 256 of them holds of
    every one. *)
Lemma all_ascii : forall p : ascii -> bool,
  forallb (fun n => p (ascii_of_nat n)) (seq 0 256) = true ->
  forall c, p c = true.
Proof.
  intros p H c. rewrite forallb_forall in H.
  rewrite <- (ascii_nat_embedding c). apply H.
  apply in_seq. pose proof (nat_ascii_bounded c). lia.
Qed.

(** A digit of [int] is neither white space, nor a sign, nor an underscore. *)
Lemma isdecimal_plain : forall c,
  isdecimal c = true ->
  int_space c = false /\ chr_eqb c "-" = false /\ chr_eqb c "+" = false.
Proof.
  intros c H.
  pose proof (all_ascii
    (fun c => implb (isdecimal c)
                (negb (int_space c) && negb (chr_eqb c "-")
                 && negb (chr_eqb c "+"))) eq_refl c) as E.
  cbv beta in E. rewrite H in E. cbn [implb] in E.
  apply andb_true_iff in E as [E E3]. apply andb_true_iff in E as [E1 E2].
  now rewrite negb_true_iff in E1, E2, E3.
Qed.

(** [str.isdigit] accepts the digits of [int] and the superscripts. *)
Lemma isdigit_cases : forall c,
  isdigit c = true -> superscript c = false -> isdecimal c = true.
Proof.
  intros c H E. unfold isdigit in H. rewrite E, orb_false_r in H. exact H.
Qed.

Lemma superscript_not_decimal : forall c,
  superscript c = true -> isdecimal c = false.
Proof.
  intros c H.
  pose proof (all_ascii (fun c => implb (superscript c) (negb (isdecimal c)))
                eq_refl c) as E.
  cbv beta in E. rewrite H in E. now apply negb_true_iff in E.
Qed.

Lemma plain_digits_forall : forall s,
  plain_digits s = true <-> (forall c, In c s -> superscript c = false).
Proof.
  intro s. unfold plain_digits. rewrite negb_true_iff. split.
  - intros H c Hc. destruct (superscript c) eqn:E; [| reflexivity].
    rewrite <- H. symmetry. apply existsb_exists. eauto.
  - intro H. destruct (existsb superscript s) eqn:E; [| reflexivity].
    apply existsb_exists in E as (c & Hc & Hs). rewrite (H c Hc) in Hs.
    discriminate.
Qed.

Lemma plain_digits_filter : forall p s,
  plain_digits s = true -> plain_digits (filter p s) = true.
Proof.
  intros p s H. rewrite plain_digits_forall in *.
  intros c Hc. apply filter_In in Hc as [Hc _]. auto.
Qed.

(** Without superscripts, the digits of [str.isdigit] are those of [int]. *)
Lemma filter_isdigit_plain : forall s,
  plain_digits s = true -> filter isdigit s = filter isdecimal s.
Proof.
  intros s H. rewrite plain_digits_forall in H.
  induction s as [| c s IH]; [reflexivity |].
  cbn [filter]. rewrite IH by (intros; apply H; now right).
  unfold isdigit. rewrite (H c (or_introl eq_refl)), orb_false_r. reflexivity.
Qed.

Lemma forallb_isdigit_plain : forall s,
  plain_digits s = true -> forallb isdigit s = true ->
  forallb isdecimal s = true.
Proof.
  intros s H Hd. rewrite plain_digits_forall in H.
  rewrite forallb_forall in *. intros c Hc.
  apply isdigit_cases; auto.
Qed.

Lemma lstrip_id : forall p s,
  (forall c, In c s -> p c = false) -> lstrip p s = s.
Proof.
  intros p [| c s] H; simpl; [reflexivity |].
  now rewrite (H c (or_introl eq_refl)).
Qed.

Lemma strip_id : forall p s,
  (forall c, In c s -> p c = false) -> strip p s = s.
Proof.
  intros p s H. unfold strip, rstrip.
  rewrite (lstrip_id p s H), lstrip_id, rev_involutive; auto.
  intros c Hc. apply H. now apply in_rev.
Qed.

Lemma int_digits_raises : forall s acc b e,
  int_digits s acc b = Raise e -> e = ValueError.
Proof.
  induction s as [| c s IH]; intros acc b e H; simpl in H.
  - destruct b; congruence.
  - destruct (isdecimal c); [eauto |].
    destruct (chr_eqb c "_" && b); [eauto | congruence].
Qed.

(** [int] raises nothing but [ValueError]. *)
Lemma int_raises : forall s e, int s = Raise e -> e = ValueError.
Proof.
  intros s e H. unfold int in H.
  destruct (strip int_space s) as [| c s']; [congruence |].
  destruct (len (filter isdecimal (c :: s')) >? int_max_str_digits);
    [congruence |].
  destruct (chr_eqb c "-").
  - destruct (int_digits s' 0 false) eqn:E; simpl in H; [discriminate |].
    inversion H; subst. eapply int_digits_raises; eauto.
  - destruct (chr_eqb c "+"); eapply int_digits_raises; eauto.
Qed.

Lemma int_digits_ok : forall s acc b,
  forallb isdecimal s = true -> s <> [] \/ b = true ->
  exists v, int_digits s acc b = Ok v.
Proof.
  induction s as [| c s IH]; intros acc b Hs Hb; simpl.
  - destruct Hb as [Hb | ->]; [congruence | eauto].
  - simpl in Hs. apply andb_true_iff in Hs as [Hc Hs]. rewrite Hc.
    apply IH; auto.
Qed.

Lemma len_filter_le : forall (A : Type) (p : A -> bool) l,
  len (filter p l) <= len l.
Proof.
  intros A p l. unfold len. apply inj_le.
  induction l as [| x l IH]; simpl; [lia |].
  destruct (p x); simpl; lia.
Qed.

(** A short text is within the limit on the digits of [int]. *)
Lemma int_limit_short : forall s,
  len s <= int_max_str_digits ->
  (len (filter isdecimal s) >? int_max_str_digits) = false.
Proof.
  intros s H. rewrite Z.gtb_ltb. apply Z.ltb_ge.
  pose proof (len_filter_le _ isdecimal s). lia.
Qed.

(** A non-empty string of digits, no longer than the limit, parses. *)
Lemma int_ok : forall s,
  s <> [] -> forallb isdecimal s = true -> len s <= int_max_str_digits ->
  exists v, int s = Ok v.
Proof.
  intros s Hne Hs Hl. unfold int.
  rewrite strip_id.
  - destruct s as [| c s']; [congruence |].
    rewrite (int_limit_short _ Hl).
    simpl in Hs. pose proof Hs as Hs'. apply andb_true_iff in Hs' as [Hc _].
    destruct (isdecimal_plain c Hc) as (_ & E1 & E2). rewrite E1, E2.
    apply int_digits_ok; auto.
  - intros c Hc. rewrite forallb_forall in Hs.
    now destruct (isdecimal_plain c (Hs c Hc)).
Qed.

Lemma forallb_slice : forall (p : ascii -> bool) s lo hi,
  forallb p s = true -> forallb p (slice s lo hi) = true.
Proof.
  intros p s lo hi H. rewrite forallb_forall in *.
  intros c Hc. apply H. eapply In_slice; eauto.
Qed.

Lemma slice_nonempty : forall (A : Type) (s : list A) lo hi,
  0 <= lo < hi -> lo < len s -> slice s lo hi <> [].
Proof.
  intros A s lo hi H1 H2 E.
  apply (f_equal (@List.length A)) in E. unfold slice, clip_index in E.
  assert (E1 : (lo <? 0) = false) by (apply Z.ltb_ge; lia).
  assert (E2 : (hi <? 0) = false) by (apply Z.ltb_ge; lia).
  rewrite E1, E2, length_firstn, length_skipn in E.
  unfold len in *. simpl in E. lia.
Qed.

(* ================================================================== *)
(** * Proofs: the validators return, superscript digits apart *)

(** The comprehension [[int(d) for d in s if d.isdigit()]] raises on the
    first superscript digit, and reads the digits otherwise. *)
Lemma int_digits_of_eq : forall s,
  int_digits_of s =
  if plain_digits s then Ok (map digit_value (filter isdecimal s))
  else Raise ValueError.
Proof.
  induction s as [| d s IH]; [reflexivity |].
  cbn [int_digits_of filter]. unfold plain_digits in *. cbn [existsb].
  unfold isdigit, int_chr.
  destruct (superscript d) eqn:Es.
  - rewrite (superscript_not_decimal d Es). reflexivity.
  - rewrite orb_false_r. cbn [orb].
    destruct (isdecimal d); [| exact IH].
    cbn [bind]. rewrite IH.
    now destruct (negb (existsb superscript s)).
Qed.

Lemma validate_credit_card_eq : forall s,
  validate_credit_card s =
  if plain_digits s then
    Ok (let digits := map digit_value (filter isdecimal s) in
        if (len digits <? 13) || (len digits >? 19) then false
        else luhn_loop (rev digits) 0 0 mod 10 =? 0)
  else Raise ValueError.
Proof.
  intro s. unfold validate_credit_card. rewrite int_digits_of_eq.
  destruct (plain_digits s); [| reflexivity]. cbn [bind]. cbv zeta.
  destruct ((len (map digit_value (filter isdecimal s)) <? 13)
            || (len (map digit_value (filter isdecimal s)) >? 19)); reflexivity.
Qed.

Lemma len_slice_le : forall (A : Type) (s : list A) lo hi,
  len (slice s lo hi) <= len s.
Proof.
  intros A s lo hi. unfold slice, len.
  rewrite length_firstn, length_skipn. lia.
Qed.

Lemma int_slice_ok : forall s lo hi,
  forallb isdecimal s = true -> 0 <= lo < hi -> lo < len s ->
  len s <= int_max_str_digits ->
  exists v, int (slice s lo hi) = Ok v.
Proof.
  intros s lo hi Hs H1 H2 H3. apply int_ok.
  - now apply slice_nonempty.
  - now apply forallb_slice.
  - pose proof (len_slice_le _ s lo hi). lia.
Qed.

Lemma validate_ssn_ok : forall ssn,
  plain_digits ssn = true -> exists b, validate_ssn ssn = Ok b.
Proof.
  intros ssn Hp. unfold validate_ssn.
  set (clean := re_sub_class space_or_dash ssn).
  assert (Hc : plain_digits clean = true) by now apply plain_digits_filter.
  destruct (negb (len clean =? 9) || negb (str_isdigit clean)) eqn:E; [eauto |].
  apply orb_false_iff in E as [E1 E2].
  apply negb_false_iff in E1, E2. apply Z.eqb_eq in E1.
  unfold str_isdigit in E2. apply andb_true_iff in E2 as [_ E2].
  apply (forallb_isdigit_plain _ Hc) in E2.
  assert (Hl : len clean <= int_max_str_digits)
    by (rewrite E1; unfold int_max_str_digits; lia).
  destruct (int_slice_ok clean 0 3 E2) as (area & Ha); [lia | lia | exact Hl |].
  destruct (int_slice_ok clean 3 5 E2) as (group & Hg); [lia | lia | exact Hl |].
  destruct (int_slice_ok clean 5 (len clean) E2) as (serial & Hs);
    [lia | lia | exact Hl |].
  unfold slice_to, slice_from. rewrite Ha, Hg, Hs. simpl.
  destruct ((area =? 0) || (area =? 666) || (area >=? 900)); [eauto |].
  destruct ((group =? 0) || (serial =? 0)); [eauto |].
  destruct ((734 <=? area) && (area <=? 749)); eauto.
Qed.

Lemma validate_phone_ok : forall phone,
  plain_digits phone = true -> exists b, validate_phone phone = Ok b.
Proof.
  intros phone Hp. unfold validate_phone.
  rewrite (filter_isdigit_plain _ Hp).
  set (digits := filter isdecimal phone).
  assert (Hd : forallb isdecimal digits = true).
  { apply forallb_forall. intros c Hc. now apply filter_In in Hc. }
  destruct (len digits =? 10) eqn:E.
  - apply Z.eqb_eq in E.
    destruct (int_slice_ok digits 0 3 Hd) as (a & Ha);
      [lia | lia | rewrite E; unfold int_max_str_digits; lia |].
    unfold slice_to. rewrite Ha. simpl.
    destruct ((a <? 200) || (a =? 911) || (a =? 988)); eauto.
  - destruct ((11 <=? len digits) && (len digits <=? 15)); eauto.
Qed.

Lemma ip_parts_ok_total : forall parts, exists b, ip_parts_ok parts = Ok b.
Proof.
  induction parts as [| part parts IH]; simpl; [eauto |].
  destruct (int part) as [num | e] eqn:E.
  - destruct ((num <? 0) || (num >? 255)); eauto.
  - apply int_raises in E. subst. eauto.
Qed.

Lemma validate_ip_address_total : forall ip, exists b, validate_ip_address ip = Ok b.
Proof.
  intro ip. unfold validate_ip_address.
  destruct (negb (len (split_on (chr_eqb ".") ip) =? 4)); [eauto |].
  apply ip_parts_ok_total.
Qed.

Lemma dob_year_raises : forall parts e, dob_year parts = Raise e -> e = ValueError.
Proof.
  induction parts as [| part parts IH]; intros e H; simpl in H; [discriminate |].
  destruct (len part =? 4); [| eauto].
  destruct (int part) eqn:E; simpl in H; [discriminate |].
  inversion H; subst. eapply int_raises; eauto.
Qed.

Lemma dob_month_day_raises : forall parts e,
  dob_month_day parts = Raise e -> e = ValueError.
Proof.
  induction parts as [| part parts IH]; intros e H; simpl in H; [discriminate |].
  destruct (len part <=? 2); [| eauto].
  destruct (int part) as [v | e'] eqn:E; simpl in H.
  - destruct ((v <? 1) || (v >? 31)); [discriminate | eauto].
  - inversion H; subst. eapply int_raises; eauto.
Qed.

Lemma except_ValueError_total : forall (A : Type) (r : result A) d,
  (forall e, r = Raise e -> e = ValueError) ->
  exists a, except_ValueError r d = Ok a.
Proof.
  intros A [a | e] d H; simpl; [eauto |].
  rewrite (H e eq_refl). eauto.
Qed.

Lemma validate_date_of_birth_total : forall dob,
  exists b, validate_date_of_birth dob = Ok b.
Proof.
  intro dob. unfold validate_date_of_birth.
  set (parts := split_on (chr_in (lit "/-")) dob).
  destruct (negb (len parts =? 3)); [eauto |].
  apply except_ValueError_total. intros e H.
  destruct (dob_year parts) as [[year |] | e'] eqn:Ey; simpl in H.
  - destruct ((year <? 1900) || (year >? 2025)); [discriminate |].
    eapply dob_month_day_raises; eauto.
  - discriminate.
  - inversion H; subst. eapply dob_year_raises; eauto.
Qed.

(** On a value without superscript digits, every validator returns. *)
Lemma _validate_match_ok : forall value pii_type,
  plain_digits value = true ->
  exists b, _validate_match value pii_type = Ok b.
Proof.
  intros value t Hp; destruct t; simpl;
    eauto using validate_ssn_ok, validate_phone_ok,
      validate_ip_address_total, validate_date_of_birth_total.
  rewrite validate_credit_card_eq, Hp. eauto.
Qed.

(* ================================================================== *)
(** * Proofs: the masker returns *)

Lemma _mask_email_total : forall email, exists r, _mask_email email = Ok r.
Proof.
  intro email. unfold _mask_email.
  destruct (split_on (chr_eqb "@") email) as [| username [| domain [| ? ?]]];
    try (eexists; reflexivity).
  destruct (len username <=? 2) eqn:E2; [simpl; eauto |].
  apply Z.leb_gt in E2.
  destruct (index_ok _ username 0) as (c & Hc); [lia |].
  destruct (index_ok _ username (-1)) as (d & Hd); [lia |].
  rewrite Hc. simpl.
  destruct (len username <=? 4); simpl; [eauto |].
  rewrite Hd. simpl. eauto.
Qed.

Lemma mask_name_parts_total : forall parts, exists r, mask_name_parts parts = Ok r.
Proof.
  induction parts as [| part parts (r & IH)]; cbn [mask_name_parts]; [eauto |].
  destruct (len part >? 0) eqn:E; [| eauto].
  rewrite Z.gtb_ltb in E. apply Z.ltb_lt in E.
  destruct (index_ok _ part 0) as (c & Hc); [lia |].
  destruct (str_in (lower part) name_titles);
    rewrite Hc; cbn [bind]; rewrite IH; cbn [bind]; eauto.
Qed.

Lemma _mask_name_total : forall name, exists r, _mask_name name = Ok r.
Proof.
  intro name. unfold _mask_name.
  destruct (len (split name) =? 0); [eauto |].
  destruct (mask_name_parts_total (split name)) as (r & Hr).
  rewrite Hr. simpl. eauto.
Qed.

Lemma _mask_partial_total : forall value pii_type,
  exists r, _mask_partial value pii_type = Ok r.
Proof.
  intros value []; simpl; eauto using _mask_email_total, _mask_name_total.
Qed.

(** [mask] returns; it keeps the default strategy, and it leaves the masker
    as it is unless it tokenizes. *)
Lemma mask_ok : forall mk value pii_type strategy,
  exists r mk',
    mask mk value pii_type strategy = Ok (r, mk') /\
    default_strategy mk' = default_strategy mk /\
    (effective mk strategy <> TOKENIZE -> mk' = mk).
Proof.
  intros mk value pii_type strategy. unfold mask.
  fold (effective mk strategy).
  destruct (effective mk strategy); try (do 2 eexists; repeat split; reflexivity).
  - destruct (_mask_partial_total value pii_type) as (r & Hr). rewrite Hr.
    simpl. do 2 eexists; repeat split; reflexivity.
  - do 2 eexists. split; [reflexivity |]. split; [reflexivity | congruence].
Qed.

(* ================================================================== *)
(** * The matcher: reach, extensionality, and the greedy loop *)

Lemma star_loop_reach : forall body k (s : str),
  (forall i k e, (i <= List.length s)%nat -> body i k = Some e ->
     exists j, (i <= j <= List.length s)%nat /\ k j = Some e) ->
  forall fuel i e, (i <= List.length s)%nat ->
    star_loop body k fuel i = Some e ->
    exists j, (i <= j <= List.length s)%nat /\ k j = Some e.
Proof.
  intros body k s Hbody; induction fuel as [| fuel IH]; intros i e Hi H;
    cbn [star_loop] in H.
  - exists i. split; [lia | exact H].
  - destruct (body i (fun j => if Nat.ltb i j then star_loop body k fuel j
                               else None)) as [e' |] eqn:E.
    + inversion H; subst e'.
      destruct (Hbody _ _ _ Hi E) as (j & Hj & Hk).
      destruct (Nat.ltb i j) eqn:Elt; [| discriminate].
      destruct (IH j e) as (j' & Hj' & Hk'); [lia | exact Hk |].
      exists j'. split; [lia | exact Hk'].
    + exists i. split; [lia | exact H].
Qed.

(** A match ends inside the string, at or after the offset where it began,
    and strictly after it when the expression is not nullable. *)
Lemma rmatch_reach : forall r s i k e,
  (i <= List.length s)%nat -> rmatch r s i k = Some e ->
  exists j, (i <= j <= List.length s)%nat /\
            (nullable r = false -> (i < j)%nat) /\
            k j = Some e.
Proof.
  induction r as [| p | r1 IH1 r2 IH2 | r1 IH1 r2 IH2 | r IH | r IH | | |];
    intros s i k e Hi H; cbn [rmatch nullable] in *.
  - exists i. repeat split; [lia | lia | discriminate | exact H].
  - destruct (nth_error s i) as [c |] eqn:E; [| discriminate].
    assert (Hlt : (i < List.length s)%nat)
      by (apply nth_error_Some; congruence).
    destruct (p c); [| discriminate].
    exists (S i). repeat split; [lia | lia | lia | exact H].
  - destruct (IH1 _ _ _ _ Hi H) as (j1 & Hj1 & Hn1 & H1).
    destruct (IH2 s j1 k e) as (j2 & Hj2 & Hn2 & H2); [lia | exact H1 |].
    exists j2. repeat split; [lia | lia | | exact H2].
    intro Hn. apply andb_false_iff in Hn as [Hn | Hn];
      [specialize (Hn1 Hn) | specialize (Hn2 Hn)]; lia.
  - destruct (rmatch r1 s i k) as [e1 |] eqn:E1.
    + inversion H; subst e1.
      destruct (IH1 _ _ _ _ Hi E1) as (j & Hj & Hn & Hk).
      exists j. repeat split; [lia | lia | | exact Hk].
      intro Hf. apply orb_false_iff in Hf as [Hf _]. auto.
    + destruct (IH2 _ _ _ _ Hi H) as (j & Hj & Hn & Hk).
      exists j. repeat split; [lia | lia | | exact Hk].
      intro Hf. apply orb_false_iff in Hf as [_ Hf]. auto.
  - destruct (star_loop_reach (rmatch r s) k s) with (fuel := S (List.length s - i))
      (i := i) (e := e) as (j & Hj & Hk); auto.
    + intros i' k' e' Hi' H'.
      destruct (IH _ _ _ _ Hi' H') as (j & Hj & _ & Hk). eauto.
    + exists j. repeat split; [lia | lia | discriminate | exact Hk].
  - destruct (rmatch r s i (fun j => Some j)); [discriminate |].
    exists i. repeat split; [lia | lia | discriminate | exact H].
  - destruct (word_boundary s i); [| discriminate].
    exists i. repeat split; [lia | lia | discriminate | exact H].
  - destruct (Nat.eqb i 0); [| discriminate].
    exists i. repeat split; [lia | lia | discriminate | exact H].
  - destruct (at_eol s i); [| discriminate].
    exists i. repeat split; [lia | lia | discriminate | exact H].
Qed.

Lemma star_loop_ext : forall body k1 k2 (s : str),
  (forall i c1 c2, (i <= List.length s)%nat ->
     (forall j, (i <= j <= List.length s)%nat -> c1 j = c2 j) ->
     body i c1 = body i c2) ->
  forall f1 f2 i, (i <= List.length s)%nat ->
    (List.length s - i < f1)%nat -> (List.length s - i < f2)%nat ->
    (forall j, (i <= j <= List.length s)%nat -> k1 j = k2 j) ->
    star_loop body k1 f1 i = star_loop body k2 f2 i.
Proof.
  intros body k1 k2 s Hbody; induction f1 as [| f1 IH];
    intros f2 i Hi H1 H2 Hk; [lia |].
  destruct f2 as [| f2]; [lia |]. cbn [star_loop].
  rewrite (Hbody i
             (fun j => if Nat.ltb i j then star_loop body k1 f1 j else None)
             (fun j => if Nat.ltb i j then star_loop body k2 f2 j else None) Hi).
  - rewrite (Hk i) by lia. reflexivity.
  - intros j Hj. destruct (Nat.ltb i j) eqn:E; [| reflexivity].
    apply Nat.ltb_lt in E. apply IH; try lia.
    intros j' Hj'. apply Hk. lia.
Qed.

(** The matcher only consults its continuation at offsets of the string, at
    or after the current one. *)
Lemma rmatch_ext : forall r s i k1 k2,
  (i <= List.length s)%nat ->
  (forall j, (i <= j <= List.length s)%nat -> k1 j = k2 j) ->
  rmatch r s i k1 = rmatch r s i k2.
Proof.
  induction r as [| p | r1 IH1 r2 IH2 | r1 IH1 r2 IH2 | r IH | r IH | | |];
    intros s i k1 k2 Hi Hk; cbn [rmatch].
  - apply Hk. lia.
  - destruct (nth_error s i) as [c |] eqn:E; [| reflexivity].
    assert (Hlt : (i < List.length s)%nat)
      by (apply nth_error_Some; congruence).
    destruct (p c); [apply Hk; lia | reflexivity].
  - apply IH1; [exact Hi |]. intros j Hj.
    apply IH2; [lia |]. intros j' Hj'. apply Hk. lia.
  - rewrite (IH1 s i k1 k2 Hi Hk), (IH2 s i k1 k2 Hi Hk). reflexivity.
  - apply star_loop_ext with (s := s); auto; try lia.
  - rewrite (Hk i) by lia. reflexivity.
  - rewrite (Hk i) by lia. reflexivity.
  - rewrite (Hk i) by lia. reflexivity.
  - rewrite (Hk i) by lia. reflexivity.
Qed.

(** The fuel of the greedy loop is never used up: [r*] satisfies the
    equation of greedy repetition. *)
Lemma rmatch_Star_eq : forall r s i k,
  (i <= List.length s)%nat ->
  rmatch (Star r) s i k =
  match rmatch r s i (fun j => if Nat.ltb i j then rmatch (Star r) s j k
                               else None) with
  | Some e => Some e
  | None => k i
  end.
Proof.
  intros r s i k Hi. cbn [rmatch star_loop].
  rewrite (rmatch_ext r s i
    (fun j => if Nat.ltb i j
              then star_loop (rmatch r s) k (List.length s - i) j else None)
    (fun j => if Nat.ltb i j
              then star_loop (rmatch r s) k (S (List.length s - j)) j else None)
    Hi); [reflexivity |].
  intros j Hj. destruct (Nat.ltb i j) eqn:E; [| reflexivity].
  apply Nat.ltb_lt in E.
  apply star_loop_ext with (s := s); auto; try lia.
  intros i' c1 c2 Hi' Hc. now apply rmatch_ext.
Qed.

(* ================================================================== *)
(** * The scans of [finditer]: spans, and enough fuel *)

Lemma search_from_spec : forall r s fuel i a e,
  (i + fuel <= List.length s)%nat ->
  search_from r s fuel i = Some (a, e) ->
  (i <= a <= e)%nat /\ (e <= List.length s)%nat /\
  (nullable r = false -> (a < e)%nat).
Proof.
  intros r s fuel; induction fuel as [| fuel IH]; intros i a e Hi H;
    cbn [search_from] in H;
    destruct (rmatch r s i (fun j => Some j)) as [e' |] eqn:E;
    try discriminate.
  - inversion H; subst.
    destruct (rmatch_reach r s a (fun j => Some j) e) as (j & Hj & Hn & Hk);
      [lia | exact E |].
    inversion Hk; subst. repeat split; try lia. exact Hn.
  - inversion H; subst.
    destruct (rmatch_reach r s a (fun j => Some j) e) as (j & Hj & Hn & Hk);
      [lia | exact E |].
    inversion Hk; subst. repeat split; try lia. exact Hn.
  - destruct (IH (S i) a e) as (H1 & H2 & H3); [lia | exact H |].
    repeat split; try lia. exact H3.
Qed.

Lemma search_spec : forall r s pos a e,
  search r s pos = Some (a, e) ->
  (pos <= a <= e)%nat /\ (e <= List.length s)%nat /\
  (nullable r = false -> (a < e)%nat).
Proof.
  intros r s pos a e H. unfold search in H.
  destruct (Nat.ltb (List.length s) pos) eqn:E; [discriminate |].
  apply Nat.ltb_ge in E. eapply search_from_spec; [| exact H]. lia.
Qed.

(** [finditer] stops for want of matches, not for want of fuel. *)
Lemma finditer_from_enough : forall r s f1 f2 pos,
  (List.length s + 1 - pos <= f1)%nat -> (List.length s + 1 - pos <= f2)%nat ->
  finditer_from r s f1 pos = finditer_from r s f2 pos.
Proof.
  intros r s; induction f1 as [| f1 IH]; intros f2 pos H1 H2.
  - assert (Hs : search r s pos = None).
    { unfold search. assert (E : Nat.ltb (List.length s) pos = true)
        by (apply Nat.ltb_lt; lia). now rewrite E. }
    destruct f2; cbn [finditer_from]; [reflexivity | now rewrite Hs].
  - destruct f2 as [| f2].
    + assert (Hs : search r s pos = None).
      { unfold search. assert (E : Nat.ltb (List.length s) pos = true)
          by (apply Nat.ltb_lt; lia). now rewrite E. }
      cbn [finditer_from]. now rewrite Hs.
    + cbn [finditer_from].
      destruct (search r s pos) as [[a e] |] eqn:Es; [| reflexivity].
      apply search_spec in Es as (Ha & He & _).
      f_equal. apply IH; destruct (Nat.ltb_spec a e); lia.
Qed.

Lemma finditer_enough : forall r s extra,
  finditer_from r s (S (List.length s) + extra) 0 = finditer r s.
Proof.
  intros r s extra. unfold finditer. apply finditer_from_enough; lia.
Qed.

(** The spans of [finditer]: inside the text, and non-empty for an
    expression that is not nullable. *)
Lemma finditer_from_spans : forall r s fuel pos,
  Forall (fun m => 0 <= m_start m <= m_end m /\ m_end m <= len s /\
                   (nullable r = false -> m_start m < m_end m))
         (finditer_from r s fuel pos).
Proof.
  intros r s fuel; induction fuel as [| fuel IH]; intro pos;
    cbn [finditer_from]; [constructor |].
  destruct (search r s pos) as [[a e] |] eqn:Es; [| constructor].
  apply search_spec in Es as (Ha & He & Hn).
  constructor; [| apply IH].
  cbn [m_start m_end]. unfold len. repeat split; try lia.
  intro H. specialize (Hn H). lia.
Qed.

Lemma finditer_matches : forall r s,
  nullable r = false -> Forall (match_in s) (finditer r s).
Proof.
  intros r s Hn. apply Forall_forall. intros m Hm.
  pose proof (finditer_string r s) as H1.
  pose proof (finditer_from_spans r s (S (List.length s)) 0) as H2.
  rewrite Forall_forall in H1, H2.
  specialize (H1 m Hm). destruct (H2 m Hm) as (Ha & Hb & Hc).
  specialize (Hc Hn). unfold match_in. repeat split; auto; lia.
Qed.

(* ================================================================== *)
(** * What a match holds *)

Lemma held_app : forall (q1 q2 q : ascii -> bool) s i j1 j2,
  held q1 s i j1 -> held q2 s j1 j2 ->
  (forall c, q1 c = true -> q c = true) ->
  (forall c, q2 c = true -> q c = true) ->
  held q s i j2.
Proof.
  intros q1 q2 q s i j1 j2 H1 H2 Q1 Q2 x c Hx Hc.
  destruct (Nat.lt_ge_cases x j1) as [Hlt | Hge].
  - apply Q1. apply (H1 x c); [lia | exact Hc].
  - apply Q2. apply (H2 x c); [lia | exact Hc].
Qed.

Lemma held_empty : forall q s i, held q s i i.
Proof. intros q s i x c Hx. lia. Qed.

Lemma star_loop_held : forall body k (s : str) q,
  (forall i k e, (i <= List.length s)%nat -> body i k = Some e ->
     exists j, (i <= j <= List.length s)%nat /\ held q s i j /\ k j = Some e) ->
  forall fuel i e, (i <= List.length s)%nat ->
    star_loop body k fuel i = Some e ->
    exists j, (i <= j <= List.length s)%nat /\ held q s i j /\ k j = Some e.
Proof.
  intros body k s q Hbody; induction fuel as [| fuel IH]; intros i e Hi H;
    cbn [star_loop] in H.
  - exists i. split; [lia | split; [apply held_empty | exact H]].
  - destruct (body i (fun j => if Nat.ltb i j then star_loop body k fuel j
                               else None)) as [e' |] eqn:E.
    + inversion H; subst e'.
      destruct (Hbody _ _ _ Hi E) as (j & Hj & Hh & Hk).
      destruct (Nat.ltb i j) eqn:Elt; [| discriminate].
      destruct (IH j e) as (j' & Hj' & Hh' & Hk'); [lia | exact Hk |].
      exists j'. split; [lia | split; [| exact Hk']].
      apply (held_app q q q s i j j'); auto.
    + exists i. split; [lia | split; [apply held_empty | exact H]].
Qed.

(** The characters a match passes over are accepted by the classes of the
    expression. *)
Lemma rmatch_held : forall r s i k e,
  (i <= List.length s)%nat -> rmatch r s i k = Some e ->
  exists j, (i <= j <= List.length s)%nat /\
            held (consumes r) s i j /\ k j = Some e.
Proof.
  induction r as [| p | r1 IH1 r2 IH2 | r1 IH1 r2 IH2 | r IH | r IH | | |];
    intros s i k e Hi H; cbn [rmatch] in H.
  - exists i. split; [lia | split; [apply held_empty | exact H]].
  - destruct (nth_error s i) as [c |] eqn:E; [| discriminate].
    assert (Hlt : (i < List.length s)%nat)
      by (apply nth_error_Some; congruence).
    destruct (p c) eqn:Ep; [| discriminate].
    exists (S i). split; [lia | split; [| exact H]].
    intros x c' Hx Hc'. assert (x = i) by lia. subst x.
    cbn [consumes]. congruence.
  - destruct (IH1 _ _ _ _ Hi H) as (j1 & Hj1 & Hh1 & H1).
    destruct (IH2 s j1 k e) as (j2 & Hj2 & Hh2 & H2); [lia | exact H1 |].
    exists j2. split; [lia | split; [| exact H2]].
    apply (held_app (consumes r1) (consumes r2) _ s i j1 j2); auto;
      intros c Hc; cbn [consumes]; rewrite Hc; auto using orb_true_r.
  - destruct (rmatch r1 s i k) as [e1 |] eqn:E1.
    + inversion H; subst e1.
      destruct (IH1 _ _ _ _ Hi E1) as (j & Hj & Hh & Hk).
      exists j. split; [lia | split; [| exact Hk]].
      intros x c Hx Hc. cbn [consumes]. now rewrite (Hh x c Hx Hc).
    + destruct (IH2 _ _ _ _ Hi H) as (j & Hj & Hh & Hk).
      exists j. split; [lia | split; [| exact Hk]].
      intros x c Hx Hc. cbn [consumes]. rewrite (Hh x c Hx Hc).
      apply orb_true_r.
  - destruct (star_loop_held (rmatch r s) k s (consumes r))
      with (fuel := S (List.length s - i)) (i := i) (e := e)
      as (j & Hj & Hh & Hk); auto.
    exists j. split; [lia | split; [exact Hh | exact Hk]].
  - destruct (rmatch r s i (fun j => Some j)); [discriminate |].
    exists i. split; [lia | split; [apply held_empty | exact H]].
  - destruct (word_boundary s i); [| discriminate].
    exists i. split; [lia | split; [apply held_empty | exact H]].
  - destruct (Nat.eqb i 0); [| discriminate].
    exists i. split; [lia | split; [apply held_empty | exact H]].
  - destruct (at_eol s i); [| discriminate].
    exists i. split; [lia | split; [apply held_empty | exact H]].
Qed.

Lemma search_from_held : forall r s fuel i a e,
  (i + fuel <= List.length s)%nat ->
  search_from r s fuel i = Some (a, e) ->
  held (consumes r) s a e.
Proof.
  intros r s fuel; induction fuel as [| fuel IH]; intros i a e Hi H;
    cbn [search_from] in H;
    destruct (rmatch r s i (fun j => Some j)) as [e' |] eqn:E;
    try discriminate.
  - inversion H; subst.
    destruct (rmatch_held r s a (fun j => Some j) e) as (j & Hj & Hh & Hk);
      [lia | exact E |].
    now inversion Hk; subst.
  - inversion H; subst.
    destruct (rmatch_held r s a (fun j => Some j) e) as (j & Hj & Hh & Hk);
      [lia | exact E |].
    now inversion Hk; subst.
  - apply (IH (S i)); [lia | exact H].
Qed.

Lemma slice_nat : forall (s : str) a e,
  (a <= e <= List.length s)%nat ->
  slice s (Z.of_nat a) (Z.of_nat e) = firstn (e - a) (skipn a s).
Proof.
  intros s a e H. unfold slice, clip_index, len.
  assert (E1 : (Z.of_nat a <? 0) = false) by (apply Z.ltb_ge; lia).
  assert (E2 : (Z.of_nat e <? 0) = false) by (apply Z.ltb_ge; lia).
  rewrite E1, E2, !Z.min_l by lia.
  f_equal; [lia | f_equal; lia].
Qed.

Lemma In_slice_held : forall q (s : str) a e c,
  (a <= e <= List.length s)%nat -> held q s a e ->
  In c (slice s (Z.of_nat a) (Z.of_nat e)) -> q c = true.
Proof.
  intros q s a e c H Hh Hc. rewrite slice_nat in Hc by exact H.
  apply In_nth_error in Hc as (n & Hn).
  rewrite nth_error_firstn in Hn.
  destruct (Nat.ltb_spec n (e - a)) as [Hlt | Hge]; [| discriminate].
  rewrite nth_error_skipn in Hn.
  apply (Hh (a + n)%nat c); [lia | exact Hn].
Qed.

(** The value of every match of [finditer] is made of characters the
    classes of the expression accept. *)
Lemma finditer_from_held : forall r s fuel pos,
  Forall (fun m => forall c, In c (group0 m) -> consumes r c = true)
         (finditer_from r s fuel pos).
Proof.
  intros r s fuel; induction fuel as [| fuel IH]; intro pos;
    cbn [finditer_from]; [constructor |].
  destruct (search r s pos) as [[a e] |] eqn:Es; [| constructor].
  constructor; [| apply IH].
  pose proof (search_spec _ _ _ _ _ Es) as (Ha & He & _).
  unfold search in Es.
  destruct (Nat.ltb (List.length s) pos) eqn:E; [discriminate |].
  apply Nat.ltb_ge in E.
  apply search_from_held in Es; [| lia].
  intros c Hc. unfold group0 in Hc. cbn [m_string m_start m_end] in Hc.
  apply (In_slice_held _ s a e c); auto; lia.
Qed.

Lemma plain_pattern_spec : forall r,
  plain_pattern r = true ->
  forall c, consumes r c = true -> superscript c = false.
Proof.
  intros r H c Hc.
  pose proof (all_ascii
    (fun c => implb (consumes r c) (negb (superscript c))) H c) as E.
  cbv beta in E. rewrite Hc in E. now apply negb_true_iff in E.
Qed.

(** No match of a plain pattern holds a superscript digit. *)
Lemma finditer_plain : forall r s,
  plain_pattern r = true ->
  Forall (fun m => plain_digits (group0 m) = true) (finditer r s).
Proof.
  intros r s H.
  eapply Forall_impl; [| apply finditer_from_held].
  intros m Hm. apply plain_digits_forall. intros c Hc.
  apply (plain_pattern_spec r H). now apply Hm.
Qed.

(** The patterns of the registry are plain. *)
Lemma _compiled_patterns_plain :
  Forall (fun pr => plain_pattern (snd pr) = true) _compiled_patterns.
Proof.
  apply Forall_forall. intros pr Hin.
  assert (E : forallb (fun pr => plain_pattern (snd pr)) _compiled_patterns
              = true) by (vm_compute; reflexivity).
  rewrite forallb_forall in E. now apply E.
Qed.

(* ================================================================== *)
(** * Proofs: the scanners of the detector *)

Ltac proj_simpl :=
  cbn [masker masking_config enable_context_validation
       enable_strict_validation statistics with_masker with_statistics
       with_masking_config] in *.

(** Each scanner is described in the same way: it returns; its matches have
    the span property and the expected type; it changes nothing of the
    detector but the masker's counter, and not even that unless a match is
    tokenized; and the statistics play no part. *)
Lemma pattern_finditer_loop_ok : forall text pd ms mk cfg ecv esv,
  Forall (match_in text) ms ->
  Forall (fun m => plain_digits (group0 m) = true) ms ->
  exists out mk',
    (forall st, pattern_finditer_loop (mkPIIDetector mk cfg ecv esv st) text pd ms
                = Ok (out, mkPIIDetector mk' cfg ecv esv st)) /\
    Forall (span_ok text) out /\
    Forall (fun m => pii_type m = PIIType_value (pat_pii_type pd)) out /\
    default_strategy mk' = default_strategy mk /\
    (get_strategy cfg (pat_pii_type pd) <> TOKENIZE -> mk' = mk).
Proof.
  intros text pd ms; induction ms as [| m ms IH];
    intros mk cfg ecv esv Hms Hpl.
  - exists [], mk. repeat split; auto.
  - inversion Hms as [| ? ? (Hstr & Hb & He) Hms']; subst.
    inversion Hpl as [| ? ? Hpm Hpl']; subst.
    assert (Hv : exists b,
      (if pat_requires_validation pd && esv
       then _validate_match (group0 m) (pat_pii_type pd) else Ok true) = Ok b).
    { destruct (pat_requires_validation pd && esv); [| eauto].
      now apply _validate_match_ok. }
    destruct Hv as ([|] & Hv).
    + destruct (mask_ok mk (group0 m) (pat_pii_type pd)
                  (Some (get_strategy cfg (pat_pii_type pd))))
        as (r & mk1 & Hmask & Hd1 & Ht1).
      destruct (IH mk1 cfg ecv esv Hms' Hpl')
        as (out & mk2 & Hloop & Hspan & Hty & Hd2 & Ht2).
      exists (mkPIIMatch (PIIType_value (pat_pii_type pd)) (group0 m)
                (m_start m) (m_end m)
                (_calculate_confidence (mkPIIDetector mk cfg ecv esv None)
                   (m_string m) (group0 m) (m_start m) (m_end m)
                   (pat_pii_type pd) (pat_confidence pd) true)
                r None :: out), mk2.
      split; [| repeat split].
      * intro st. cbn [pattern_finditer_loop]. proj_simpl.
        rewrite Hv. cbn [bind negb]. rewrite Hmask. cbn [bind].
        unfold with_masker. proj_simpl. rewrite Hloop. reflexivity.
      * constructor; [| assumption].
        unfold span_ok. cbn [start end_ value]. repeat split; auto; lia.
      * constructor; [reflexivity | assumption].
      * congruence.
      * intro H. rewrite Ht2, Ht1; auto.
    + destruct (IH mk cfg ecv esv Hms' Hpl')
        as (out & mk2 & Hloop & Hspan & Hty & Hd2 & Ht2).
      exists out, mk2. split; [| repeat split; auto].
      intro st. cbn [pattern_finditer_loop]. proj_simpl.
      rewrite Hv. cbn [bind negb]. apply Hloop.
Qed.

Lemma pattern_loop_ok : forall text pii_types pats mk cfg ecv esv,
  Forall (fun pr => nullable (snd pr) = false) pats ->
  Forall (fun pr => plain_pattern (snd pr) = true) pats ->
  exists out mk',
    (forall st, pattern_loop (mkPIIDetector mk cfg ecv esv st) text pii_types pats
                = Ok (out, mkPIIDetector mk' cfg ecv esv st)) /\
    Forall (span_ok text) out /\
    Forall (fun m => exists pr, In pr pats /\
                                pii_type m = PIIType_value (pat_pii_type (fst pr))) out /\
    default_strategy mk' = default_strategy mk /\
    ((forall t, get_strategy cfg t <> TOKENIZE) -> mk' = mk).
Proof.
  intros text pii_types pats; induction pats as [| [pd re] pats IH];
    intros mk cfg ecv esv Hnull Hplain.
  - exists [], mk. repeat split; auto.
  - inversion Hnull as [| ? ? Hre Hnull']; subst. cbn [snd] in Hre.
    inversion Hplain as [| ? ? Hpr Hplain']; subst. cbn [snd] in Hpr.
    destruct (truthy pii_types &&
              negb (PIIType_in (pat_pii_type pd)
                      (match pii_types with Some ts => ts | None => [] end))) eqn:E.
    + destruct (IH mk cfg ecv esv Hnull' Hplain')
        as (out & mk' & Hloop & Hspan & Hty & Hd & Ht).
      exists out, mk'. split; [| repeat split; auto].
      * intro st. cbn [pattern_loop]. rewrite E. apply Hloop.
      * eapply Forall_impl; [| exact Hty].
        intros m (pr & Hin & Hm). exists pr. simpl; auto.
    + destruct (pattern_finditer_loop_ok text pd (finditer re text) mk cfg ecv esv
                  (finditer_matches re text Hre) (finditer_plain re text Hpr))
        as (out1 & mk1 & Hl1 & Hs1 & Hy1 & Hd1 & Ht1).
      destruct (IH mk1 cfg ecv esv Hnull' Hplain')
        as (out2 & mk2 & Hl2 & Hs2 & Hy2 & Hd2 & Ht2).
      exists (out1 ++ out2), mk2. split; [| repeat split].
      * intro st. cbn [pattern_loop]. rewrite E, Hl1. cbn [bind].
        rewrite Hl2. reflexivity.
      * apply Forall_app; auto.
      * apply Forall_app; split.
        -- eapply Forall_impl; [| exact Hy1].
           intros m Hm. exists (pd, re). simpl; auto.
        -- eapply Forall_impl; [| exact Hy2].
           intros m (pr & Hin & Hm). exists pr. simpl; auto.
      * congruence.
      * intro H. rewrite Ht2, Ht1; auto.
Qed.

(** An empty list of types restricts the pattern scan no more than no list. *)
Lemma pattern_loop_empty_filter : forall self text pats,
  pattern_loop self text (Some []) pats = pattern_loop self text None pats.
Proof.
  intros self text pats; revert self.
  induction pats as [| [pd re] pats IH]; intro self; cbn [pattern_loop truthy andb].
  - reflexivity.
  - destruct (pattern_finditer_loop self text pd (finditer re text))
      as [[found self1] | e]; cbn [bind]; [| reflexivity].
    now rewrite IH.
Qed.

Lemma extract_loop_ok : forall words start_idx fuel name_parts i,
  0 <= i ->
  exists parts j,
    extract_loop words start_idx fuel name_parts i = Ok (parts, j) /\ i <= j.
Proof.
  intros words start_idx fuel; induction fuel as [| fuel IH];
    intros name_parts i Hi; cbn [extract_loop].
  - exists name_parts, i. split; [reflexivity | lia].
  - destruct ((i <? len words) && (i <? start_idx + 4)) eqn:E.
    + apply andb_true_iff in E as [E _]. apply Z.ltb_lt in E.
      destruct (index_ok _ words i) as (w & Hw); [lia |].
      rewrite Hw. cbn [bind].
      destruct (is_capitalized_word (strip punctuation w)
                || str_in (lower (strip punctuation w)) SUFFIXES).
      * destruct (IH (name_parts ++ [w]) (i + 1)) as (parts & j & Hl & Hj); [lia |].
        exists parts, j. split; [exact Hl | lia].
      * exists name_parts, i. split; [reflexivity | lia].
    + exists name_parts, i. split; [reflexivity | lia].
Qed.

Lemma _extract_name_sequence_ok : forall words start_idx full_text,
  0 <= start_idx < len words ->
  exists parts j,
    _extract_name_sequence words start_idx full_text = Ok (parts, j) /\
    start_idx + 1 <= j.
Proof.
  intros words start_idx full_text H. unfold _extract_name_sequence.
  destruct (index_ok _ words start_idx) as (w & Hw); [lia |].
  rewrite Hw. cbn [bind].
  destruct (extract_loop_ok words start_idx 3 [w] (start_idx + 1))
    as (parts & j & Hl & Hj); [lia |].
  eauto.
Qed.

Lemma name_match_ok : forall text full_name conf_yes conf_no mk cfg ecv esv,
  full_name <> [] ->
  exists out mk',
    (forall st, name_match (mkPIIDetector mk cfg ecv esv st) text full_name
                  conf_yes conf_no
                = Ok (out, mkPIIDetector mk' cfg ecv esv st)) /\
    Forall (span_ok text) out /\
    Forall (fun m => pii_type m = PIIType_value PERSON_NAME) out /\
    default_strategy mk' = default_strategy mk /\
    (default_strategy mk <> TOKENIZE -> mk' = mk).
Proof.
  intros text full_name conf_yes conf_no mk cfg ecv esv Hne. unfold name_match.
  destruct (negb (find text full_name =? -1)) eqn:E.
  - destruct (mask_ok mk full_name PERSON_NAME None) as (r & mk1 & Hmask & Hd & Ht).
    exists [mkPIIMatch (PIIType_value PERSON_NAME) full_name (find text full_name)
              (find text full_name + len full_name)
              (if (if ecv
                   then is_likely_name_context text (find text full_name)
                          (find text full_name + len full_name)
                   else true)
               then conf_yes else conf_no) r None], mk1.
    split; [| repeat split; auto].
    + intro st. proj_simpl. rewrite Hmask. reflexivity.
    + constructor; [| constructor]. unfold span_ok. cbn [start end_ value].
      apply negb_true_iff, Z.eqb_neq in E.
      destruct (find_slice text full_name _ eq_refl E) as (H0 & H1 & H2).
      assert (0 < len full_name).
      { destruct full_name; [congruence |]. rewrite len_cons.
        pose proof (len_nonneg _ full_name). lia. }
      repeat split; auto; lia.
  - exists [], mk. repeat split; auto.
Qed.

Lemma join_two_nonempty : forall parts,
  2 <= len parts -> join (lit " ") parts <> [].
Proof.
  intros [| p [| q parts]] H; unfold len in H; cbn [List.length] in H; try lia.
  cbn [join]. intro Hnil.
  apply app_eq_nil in Hnil as [_ Hnil]. discriminate Hnil.
Qed.

Lemma names_loop_ok : forall text words fuel i mk cfg ecv esv,
  0 <= i ->
  exists out mk',
    (forall st, names_loop (mkPIIDetector mk cfg ecv esv st) text words fuel i
                = Ok (out, mkPIIDetector mk' cfg ecv esv st)) /\
    Forall (span_ok text) out /\
    Forall (fun m => pii_type m = PIIType_value PERSON_NAME) out /\
    default_strategy mk' = default_strategy mk /\
    (default_strategy mk <> TOKENIZE -> mk' = mk).
Proof.
  intros text words fuel; induction fuel as [| fuel IH];
    intros i mk cfg ecv esv Hi.
  - exists [], mk. repeat split; auto.
  - destruct (i <? len words) eqn:Ei.
    2:{ exists [], mk. split; [| repeat split; auto].
        intro st. cbn [names_loop]. now rewrite Ei. }
    apply Z.ltb_lt in Ei.
    destruct (index_ok _ words i) as (w & Hw); [lia |].
    destruct (str_in (lower (strip punctuation w)) PREFIXES && (i + 1 <? len words))
      eqn:Ep.
    + (* an honorific *)
      destruct (_extract_name_sequence_ok words i text) as (parts & j & Hx & Hj);
        [lia |].
      assert (Hf : exists out1 mk1,
        (forall st,
           (if negb (len parts =? 0) && (len parts >=? 2)
            then name_match (mkPIIDetector mk cfg ecv esv st) text
                   (join (lit " ") parts) 0.85%Q 0.70%Q
            else Ok ([], mkPIIDetector mk cfg ecv esv st))
           = Ok (out1, mkPIIDetector mk1 cfg ecv esv st)) /\
        Forall (span_ok text) out1 /\
        Forall (fun m => pii_type m = PIIType_value PERSON_NAME) out1 /\
        default_strategy mk1 = default_strategy mk /\
        (default_strategy mk <> TOKENIZE -> mk1 = mk)).
      { destruct (negb (len parts =? 0) && (len parts >=? 2)) eqn:E2.
        - apply name_match_ok. apply join_two_nonempty.
          apply andb_true_iff in E2 as [_ E2].
          rewrite Z.geb_leb in E2. now apply Z.leb_le.
        - exists [], mk. repeat split; auto. }
      destruct Hf as (out1 & mk1 & Hl1 & Hs1 & Hy1 & Hd1 & Ht1).
      destruct (IH j mk1 cfg ecv esv) as (out2 & mk2 & Hl2 & Hs2 & Hy2 & Hd2 & Ht2);
        [lia |].
      exists (out1 ++ out2), mk2. split; [| repeat split].
      * intro st. cbn [names_loop].
        apply Z.ltb_lt in Ei. rewrite Ei, Hw. cbn [bind]. rewrite Ep, Hx.
        cbn [bind]. rewrite Hl1. cbn [bind]. rewrite Hl2. reflexivity.
      * apply Forall_app; auto.
      * apply Forall_app; auto.
      * congruence.
      * intro H. rewrite Ht2, Ht1; auto. congruence.
    + destruct (str_in (lower (strip punctuation w)) COMMON_FIRST_NAMES
                && (i + 1 <? len words)) eqn:Ec.
      * (* a common first name *)
        pose proof Ec as Ec'. apply andb_true_iff in Ec' as [_ Ei1].
        apply Z.ltb_lt in Ei1.
        destruct (index_ok _ words (i + 1)) as (w1 & Hw1); [lia |].
        assert (Hf : exists out1 mk1,
          (forall st,
             (if is_capitalized_word (strip punctuation w1)
                 && (len (strip punctuation w1) >? 2)
              then name_match (mkPIIDetector mk cfg ecv esv st) text
                     (w ++ lit " " ++ w1) 0.75%Q 0.60%Q
              else Ok ([], mkPIIDetector mk cfg ecv esv st))
             = Ok (out1, mkPIIDetector mk1 cfg ecv esv st)) /\
          Forall (span_ok text) out1 /\
          Forall (fun m => pii_type m = PIIType_value PERSON_NAME) out1 /\
          default_strategy mk1 = default_strategy mk /\
          (default_strategy mk <> TOKENIZE -> mk1 = mk)).
        { destruct (is_capitalized_word (strip punctuation w1)
                    && (len (strip punctuation w1) >? 2)).
          - apply name_match_ok. intro Hnil.
            apply app_eq_nil in Hnil as [_ Hnil]. discriminate Hnil.
          - exists [], mk. repeat split; auto. }
        destruct Hf as (out1 & mk1 & Hl1 & Hs1 & Hy1 & Hd1 & Ht1).
        destruct (IH (i + 2) mk1 cfg ecv esv)
          as (out2 & mk2 & Hl2 & Hs2 & Hy2 & Hd2 & Ht2); [lia |].
        exists (out1 ++ out2), mk2. split; [| repeat split].
        -- intro st. cbn [names_loop].
           apply Z.ltb_lt in Ei. rewrite Ei, Hw. cbn [bind]. rewrite Ep, Ec, Hw1.
           cbn [bind]. rewrite Hl1. cbn [bind]. rewrite Hl2. reflexivity.
        -- apply Forall_app; auto.
        -- apply Forall_app; auto.
        -- congruence.
        -- intro H. rewrite Ht2, Ht1; auto. congruence.
      * destruct (IH (i + 1) mk cfg ecv esv)
          as (out & mk' & Hl & Hs & Hy & Hd & Ht); [lia |].
        exists out, mk'. split; [| repeat split; auto].
        intro st. cbn [names_loop].
        apply Z.ltb_lt in Ei. rewrite Ei, Hw. cbn [bind]. rewrite Ep, Ec.
        apply Hl.
Qed.

Lemma address_loop_ok : forall text ms mk cfg ecv esv,
  Forall (match_in text) ms ->
  exists out mk',
    (forall st, address_loop (mkPIIDetector mk cfg ecv esv st) text ms
                = Ok (out, mkPIIDetector mk' cfg ecv esv st)) /\
    Forall (span_ok text) out /\
    Forall (fun m => pii_type m = PIIType_value ADDRESS) out /\
    default_strategy mk' = default_strategy mk /\
    (default_strategy mk <> TOKENIZE -> mk' = mk).
Proof.
  intros text ms; induction ms as [| m ms IH]; intros mk cfg ecv esv Hms.
  - exists [], mk. repeat split; auto.
  - inversion Hms as [| ? ? (Hstr & Hb & He) Hms']; subst.
    destruct (mask_ok mk (group0 m) ADDRESS None) as (r & mk1 & Hmask & Hd1 & Ht1).
    destruct (IH mk1 cfg ecv esv Hms') as (out & mk2 & Hloop & Hspan & Hty & Hd2 & Ht2).
    exists (mkPIIMatch (PIIType_value ADDRESS) (group0 m) (m_start m) (m_end m)
              (if (if ecv
                   then is_likely_address_context (m_string m) (m_start m) (m_end m)
                   else true)
               then 0.80%Q else 0.65%Q) r None :: out), mk2.
    split; [| repeat split].
    + intro st. cbn [address_loop]. proj_simpl.
      rewrite Hmask. cbn [bind]. unfold with_masker. proj_simpl.
      rewrite Hloop. reflexivity.
    + constructor; [| assumption].
      unfold span_ok. cbn [start end_ value]. repeat split; auto; lia.
    + constructor; [reflexivity | assumption].
    + congruence.
    + intro H. rewrite Ht2, Ht1; auto. congruence.
Qed.

(* ================================================================== *)
(** * Proofs: [detect_all] as collection, filter and resolution *)

Lemma detect_all_collect : forall self text thr pii_types,
  detect_all self text thr pii_types =
  '(all_matches, self) <- collect_matches self text pii_types ;;
  final_matches <- resolve_overlaps (filter (above thr) all_matches) ;;
  Ok (final_matches, record_statistics self final_matches).
Proof.
  intros self text thr pii_types. unfold detect_all, collect_matches.
  destruct (_detect_pattern_based self text pii_types) as [[pm self1] | e];
    cbn [bind]; [| reflexivity].
  destruct (if requested pii_types PERSON_NAME then _detect_names self1 text
            else Ok ([], self1)) as [[nm self2] | e]; cbn [bind]; [| reflexivity].
  destruct (if requested pii_types ADDRESS then _detect_addresses self2 text
            else Ok ([], self2)) as [[am self3] | e]; cbn [bind]; reflexivity.
Qed.

Lemma registry_not_nullable :
  Forall (fun pr => nullable (snd pr) = false) _compiled_patterns.
Proof.
  unfold _compiled_patterns, get_compiled_patterns, get_patterns,
    _initialize_patterns.
  repeat (constructor; [reflexivity |]). constructor.
Qed.

Lemma address_re_not_nullable : nullable address_re = false.
Proof. reflexivity. Qed.

Lemma collect_matches_ok : forall text pii_types mk cfg ecv esv,
  exists all mk',
    (forall st, collect_matches (mkPIIDetector mk cfg ecv esv st) text pii_types
                = Ok (all, mkPIIDetector mk' cfg ecv esv st)) /\
    Forall (span_ok text) all /\
    default_strategy mk' = default_strategy mk /\
    (default_strategy mk <> TOKENIZE ->
     (forall t, get_strategy cfg t <> TOKENIZE) -> mk' = mk).
Proof.
  intros text pii_types mk cfg ecv esv.
  destruct (pattern_loop_ok text pii_types _compiled_patterns mk cfg ecv esv
              registry_not_nullable _compiled_patterns_plain)
    as (pm & mk1 & Hl1 & Hs1 & _ & Hd1 & Ht1).
  assert (Hn : exists nm mk2,
    (forall st,
       (if requested pii_types PERSON_NAME
        then _detect_names (mkPIIDetector mk1 cfg ecv esv st) text
        else Ok ([], mkPIIDetector mk1 cfg ecv esv st))
       = Ok (nm, mkPIIDetector mk2 cfg ecv esv st)) /\
    Forall (span_ok text) nm /\
    default_strategy mk2 = default_strategy mk1 /\
    (default_strategy mk1 <> TOKENIZE -> mk2 = mk1)).
  { destruct (requested pii_types PERSON_NAME).
    - destruct (names_loop_ok text (split text) (List.length (split text)) 0
                  mk1 cfg ecv esv) as (nm & mk2 & H1 & H2 & _ & H3 & H4); [lia |].
      exists nm, mk2. auto.
    - exists [], mk1. auto. }
  destruct Hn as (nm & mk2 & Hl2 & Hs2 & Hd2 & Ht2).
  assert (Ha : exists am mk3,
    (forall st,
       (if requested pii_types ADDRESS
        then _detect_addresses (mkPIIDetector mk2 cfg ecv esv st) text
        else Ok ([], mkPIIDetector mk2 cfg ecv esv st))
       = Ok (am, mkPIIDetector mk3 cfg ecv esv st)) /\
    Forall (span_ok text) am /\
    default_strategy mk3 = default_strategy mk2 /\
    (default_strategy mk2 <> TOKENIZE -> mk3 = mk2)).
  { destruct (requested pii_types ADDRESS).
    - destruct (address_loop_ok text (finditer address_re text) mk2 cfg ecv esv
                  (finditer_matches address_re text address_re_not_nullable))
        as (am & mk3 & H1 & H2 & _ & H3 & H4).
      exists am, mk3. auto.
    - exists [], mk2. auto. }
  destruct Ha as (am & mk3 & Hl3 & Hs3 & Hd3 & Ht3).
  exists (pm ++ nm ++ am), mk3. split; [| repeat split].
  - intro st. unfold collect_matches, _detect_pattern_based.
    rewrite Hl1. cbn [bind]. rewrite Hl2. cbn [bind]. rewrite Hl3. reflexivity.
  - repeat (apply Forall_app; split); auto.
  - congruence.
  - intros H1 H2. rewrite Ht3, Ht2, Ht1; congruence.
Qed.

Lemma record_statistics_frame : forall mk cfg ecv esv st final,
  exists st', record_statistics (mkPIIDetector mk cfg ecv esv st) final
              = mkPIIDetector mk cfg ecv esv st'.
Proof.
  intros mk cfg ecv esv [st |] final; unfold record_statistics; proj_simpl;
    eexists; reflexivity.
Qed.

(** [detect_all] returns, for every detector, text, threshold and type
    list; its result is the resolution of the candidates above the
    threshold, and the candidates depend neither on the threshold nor on the
    statistics. *)
Lemma detect_all_ok : forall text pii_types mk cfg ecv esv,
  exists all mk',
    Forall (span_ok text) all /\
    default_strategy mk' = default_strategy mk /\
    (default_strategy mk <> TOKENIZE ->
     (forall t, get_strategy cfg t <> TOKENIZE) -> mk' = mk) /\
    forall thr st,
      exists final,
        resolve_overlaps (filter (above thr) all) = Ok final /\
        detect_all (mkPIIDetector mk cfg ecv esv st) text thr pii_types
        = Ok (final, record_statistics (mkPIIDetector mk' cfg ecv esv st) final).
Proof.
  intros text pii_types mk cfg ecv esv.
  destruct (collect_matches_ok text pii_types mk cfg ecv esv)
    as (all & mk' & Hc & Hs & Hd & Ht).
  exists all, mk'. repeat split; auto.
  intros thr st.
  destruct (resolve_overlaps_ok (filter (above thr) all)) as (final & Hr & _).
  exists final. split; [exact Hr |].
  rewrite detect_all_collect, Hc. cbn [bind]. rewrite Hr. reflexivity.
Qed.

(* ================================================================== *)
(** * The name scan has enough fuel *)

Lemma extract_loop_enough : forall words start_idx f1 f2 name_parts i,
  start_idx + 4 - i <= Z.of_nat f1 -> start_idx + 4 - i <= Z.of_nat f2 ->
  extract_loop words start_idx f1 name_parts i
  = extract_loop words start_idx f2 name_parts i.
Proof.
  intros words start_idx; induction f1 as [| f1 IH];
    intros f2 name_parts i H1 H2.
  - assert (E : (i <? start_idx + 4) = false) by (apply Z.ltb_ge; lia).
    destruct f2; cbn [extract_loop]; [reflexivity |].
    now rewrite E, andb_false_r.
  - destruct f2 as [| f2].
    + assert (E : (i <? start_idx + 4) = false) by (apply Z.ltb_ge; lia).
      cbn [extract_loop]. now rewrite E, andb_false_r.
    + cbn [extract_loop].
      destruct ((i <? len words) && (i <? start_idx + 4)); [| reflexivity].
      destruct (index words i) as [w | e]; cbn [bind]; [| reflexivity].
      destruct (is_capitalized_word (strip punctuation w)
                || str_in (lower (strip punctuation w)) SUFFIXES);
        [| reflexivity].
      apply IH; lia.
Qed.

(** The name scan stops at the end of the words, not for want of fuel. *)
Lemma names_loop_enough : forall text words f1 f2 i self,
  0 <= i ->
  len words - i <= Z.of_nat f1 -> len words - i <= Z.of_nat f2 ->
  names_loop self text words f1 i = names_loop self text words f2 i.
Proof.
  intros text words; induction f1 as [| f1 IH]; intros f2 i self Hi H1 H2.
  - assert (E : (i <? len words) = false) by (apply Z.ltb_ge; lia).
    destruct f2; cbn [names_loop]; [reflexivity | now rewrite E].
  - destruct f2 as [| f2].
    + assert (E : (i <? len words) = false) by (apply Z.ltb_ge; lia).
      cbn [names_loop]. now rewrite E.
    + cbn [names_loop].
      destruct (i <? len words) eqn:Ei; [| reflexivity].
      apply Z.ltb_lt in Ei.
      destruct (index words i) as [w | e]; cbn [bind]; [| reflexivity].
      destruct (str_in (lower (strip punctuation w)) PREFIXES
                && (i + 1 <? len words)).
      * destruct (_extract_name_sequence_ok words i text) as (parts & j & Hx & Hj);
          [lia |].
        rewrite Hx. cbn [bind].
        destruct (if negb (len parts =? 0) && (len parts >=? 2)
                  then name_match self text (join (lit " ") parts) 0.85%Q 0.70%Q
                  else Ok ([], self)) as [[found self1] | e]; cbn [bind];
          [| reflexivity].
        rewrite (IH f2 j self1); [reflexivity | lia | lia | lia].
      * destruct (str_in (lower (strip punctuation w)) COMMON_FIRST_NAMES
                  && (i + 1 <? len words)).
        -- destruct (index words (i + 1)) as [w1 | e]; cbn [bind]; [| reflexivity].
           destruct (if is_capitalized_word (strip punctuation w1)
                        && (len (strip punctuation w1) >? 2)
                     then name_match self text (w ++ lit " " ++ w1) 0.75%Q 0.60%Q
                     else Ok ([], self)) as [[found self1] | e]; cbn [bind];
             [| reflexivity].
           rewrite (IH f2 (i + 2) self1); [reflexivity | lia | lia | lia].
        -- apply IH; lia.
Qed.

Lemma _extract_name_sequence_enough : forall words start_idx extra name_parts,
  extract_loop words start_idx (3 + extra) name_parts (start_idx + 1)
  = extract_loop words start_idx 3 name_parts (start_idx + 1).
Proof. intros. apply extract_loop_enough; lia. Qed.

Lemma _detect_names_enough : forall self text extra,
  names_loop self text (split text) (List.length (split text) + extra) 0
  = _detect_names self text.
Proof.
  intros self text extra. unfold _detect_names.
  apply names_loop_enough; unfold len; lia.
Qed.

(* ================================================================== *)
(** * The resolver sees spans and confidences only *)

Section ResolveMap.
Variable f : PIIMatch -> PIIMatch.
Hypothesis f_start : forall m, start (f m) = start m.
Hypothesis f_end : forall m, end_ (f m) = end_ m.
Hypothesis f_confidence : forall m, confidence (f m) = confidence m.

Lemma has_overlap_map : forall a b, _has_overlap (f a) (f b) = _has_overlap a b.
Proof. intros a b. unfold _has_overlap. now rewrite !f_start, !f_end. Qed.

Lemma overlap_key_le_map : forall a b,
  overlap_key_le (f a) (f b) = overlap_key_le a b.
Proof. intros a b. unfold overlap_key_le. now rewrite !f_start, !f_confidence. Qed.

Lemma start_le_map : forall a b, start_le (f a) (f b) = start_le a b.
Proof. intros a b. unfold start_le. now rewrite !f_start. Qed.

Lemma above_map : forall t m, above t (f m) = above t m.
Proof. intros t m. unfold above. now rewrite f_confidence. Qed.

Lemma filter_above_map : forall t l,
  filter (above t) (map f l) = map f (filter (above t) l).
Proof.
  intros t l; induction l as [| m l IH]; simpl; [reflexivity |].
  rewrite above_map. destruct (above t m); simpl; now rewrite IH.
Qed.

Lemma insert_by_map : forall (le : PIIMatch -> PIIMatch -> bool),
  (forall a b, le (f a) (f b) = le a b) ->
  forall x l, insert_by le (f x) (map f l) = map f (insert_by le x l).
Proof.
  intros le Hle x l; induction l as [| y l IH]; simpl; [reflexivity |].
  rewrite Hle. destruct (le x y); simpl; [reflexivity | now rewrite IH].
Qed.

Lemma sorted_map : forall (le : PIIMatch -> PIIMatch -> bool),
  (forall a b, le (f a) (f b) = le a b) ->
  forall l, sorted le (map f l) = map f (sorted le l).
Proof.
  intros le Hle l; induction l as [| x l IH]; simpl; [reflexivity |].
  now rewrite IH, insert_by_map.
Qed.

Lemma no_overlap_map : forall m l,
  Forall (no_overlap m) l -> Forall (no_overlap (f m)) (map f l).
Proof.
  intros m l H; induction H; simpl; constructor; auto.
  unfold no_overlap in *. now rewrite has_overlap_map.
Qed.

Lemma scan_outcome_map : forall m res r,
  scan_outcome m res r ->
  resolve_scan (f m) (map f res) (map f res) = Ok (map f r).
Proof.
  intros m res r Ho.
  destruct Ho as [H | pre e post Heq Hpre Hpost He Hc | pre e post Heq Hpre Hpost He Hc].
  - rewrite map_app. simpl. apply resolve_scan_miss. now apply no_overlap_map.
  - subst res. rewrite !map_app. simpl.
    rewrite resolve_scan_hit; auto using no_overlap_map.
    + rewrite !f_confidence. apply Qlt_bool_iff in Hc. now rewrite Hc.
    + now rewrite has_overlap_map.
  - subst res. rewrite !map_app. simpl.
    rewrite resolve_scan_hit; auto using no_overlap_map.
    + rewrite !f_confidence.
      assert (Hn : Qlt_bool (confidence e) (confidence m) = false).
      { unfold Qlt_bool. apply negb_false_iff. now apply Qle_bool_iff. }
      now rewrite Hn.
    + now rewrite has_overlap_map.
Qed.

Lemma resolve_loop_map : forall ms res r,
  StronglySorted start_le_prop ms ->
  (forall e m, In e res -> In m ms -> start e <= start m) ->
  ForallOrdPairs disjoint res ->
  resolve_loop ms res = Ok r ->
  resolve_loop (map f ms) (map f res) = Ok (map f r).
Proof.
  induction ms as [| m ms IH]; intros res r Hs Hb Hd Hr; simpl in *.
  - now inversion Hr.
  - inversion Hs as [| ? ? Hs' Hm]; subst.
    destruct (resolve_scan_outcome m res) as (r1 & Hr1 & Ho).
    { split; [assumption |]. apply Forall_forall. intros e He.
      apply Hb; simpl; auto. }
    rewrite Hr1 in Hr. simpl in Hr.
    rewrite (scan_outcome_map m res r1 Ho). simpl.
    apply IH; auto.
    + intros e m' He Hm'.
      destruct (scan_outcome_incl m res r1 e Ho He) as [He' | ->].
      * apply Hb; simpl; auto.
      * rewrite Forall_forall in Hm. now apply Hm.
    + eapply scan_outcome_disjoint; eauto.
Qed.

(** Resolution commutes with a change of the matches that keeps spans and
    confidences. *)
Lemma resolve_overlaps_map : forall matches,
  exists r, resolve_overlaps matches = Ok r /\
            resolve_overlaps (map f matches) = Ok (map f r).
Proof.
  intros matches.
  destruct matches as [| m0 ms]; [exists []; split; reflexivity |].
  remember (m0 :: ms) as l eqn:El.
  destruct (resolve_loop_ok (sorted overlap_key_le l) [])
    as (r & Hr & Hd & Hin).
  { apply sorted_key_start. } { intros e m []. } { constructor. }
  exists (sorted start_le r). split.
  - rewrite El. unfold resolve_overlaps. rewrite <- El, Hr. reflexivity.
  - assert (Hf : resolve_loop (map f (sorted overlap_key_le l)) (map f [])
                 = Ok (map f r)).
    { apply resolve_loop_map; auto.
      - apply sorted_key_start.
      - intros e m [].
      - constructor. }
    rewrite <- sorted_map in Hf by apply overlap_key_le_map.
    rewrite <- sorted_map by apply start_le_map.
    rewrite El in *. simpl map in *. unfold resolve_overlaps.
    rewrite Hf. reflexivity.
Qed.
End ResolveMap.

Lemma resolve_overlaps_erase : forall matches,
  exists r, resolve_overlaps matches = Ok r /\
            resolve_overlaps (map erase_masked matches) = Ok (map erase_masked r).
Proof. apply resolve_overlaps_map; reflexivity. Qed.

Lemma filter_above_erase : forall t l,
  filter (above t) (map erase_masked l) = map erase_masked (filter (above t) l).
Proof. apply filter_above_map; reflexivity. Qed.

(* ================================================================== *)
(** * The candidates depend on the detector through its switches only,
      masked values apart *)

Lemma same_flags_with_masker : forall self1 self2 m1 m2,
  same_flags self1 self2 -> same_flags (with_masker self1 m1) (with_masker self2 m2).
Proof. intros self1 self2 m1 m2 [H1 H2]. split; assumption. Qed.

Lemma _calculate_confidence_flags : forall self1 self2 text value s e t c v,
  same_flags self1 self2 ->
  _calculate_confidence self1 text value s e t c v
  = _calculate_confidence self2 text value s e t c v.
Proof.
  intros self1 self2 text value s e t c v [H _].
  unfold _calculate_confidence. now rewrite H.
Qed.

Ltac ok_inv H :=
  match type of H with
  | Ok _ = Ok _ => inversion H; subst; clear H
  | Raise _ = Ok _ => discriminate H
  end.

Lemma pattern_finditer_loop_erase : forall text pd ms self1 self2 o1 s1 o2 s2,
  same_flags self1 self2 ->
  pattern_finditer_loop self1 text pd ms = Ok (o1, s1) ->
  pattern_finditer_loop self2 text pd ms = Ok (o2, s2) ->
  map erase_masked o1 = map erase_masked o2 /\ same_flags s1 s2.
Proof.
  intros text pd ms; induction ms as [| m ms IH];
    intros self1 self2 o1 s1 o2 s2 Hf H1 H2; cbn [pattern_finditer_loop] in *.
  - ok_inv H1. ok_inv H2. auto.
  - pose proof Hf as [_ Hstrict]. rewrite <- Hstrict in H2.
    destruct (if pat_requires_validation pd && enable_strict_validation self1
              then _validate_match (group0 m) (pat_pii_type pd)
              else Ok true) as [[|] | e]; cbn [bind negb] in *;
      [| eauto | discriminate].
    rewrite <- (_calculate_confidence_flags self1 self2) in H2 by exact Hf.
    destruct (mask (masker self1) (group0 m) (pat_pii_type pd)
                (Some (get_strategy (masking_config self1) (pat_pii_type pd))))
      as [[r1 mk1] | e]; cbn [bind] in H1; [| discriminate].
    destruct (mask (masker self2) (group0 m) (pat_pii_type pd)
                (Some (get_strategy (masking_config self2) (pat_pii_type pd))))
      as [[r2 mk2] | e]; cbn [bind] in H2; [| discriminate].
    destruct (pattern_finditer_loop (with_masker self1 mk1) text pd ms)
      as [[rest1 t1] | e] eqn:E1; cbn [bind] in H1; [| discriminate].
    destruct (pattern_finditer_loop (with_masker self2 mk2) text pd ms)
      as [[rest2 t2] | e] eqn:E2; cbn [bind] in H2; [| discriminate].
    ok_inv H1. ok_inv H2.
    destruct (IH _ _ _ _ _ _ (same_flags_with_masker _ _ mk1 mk2 Hf) E1 E2)
      as [Hm Hs].
    split; [| exact Hs]. cbn [map]. rewrite Hm. reflexivity.
Qed.

Lemma pattern_loop_erase : forall text pii_types pats self1 self2 o1 s1 o2 s2,
  same_flags self1 self2 ->
  pattern_loop self1 text pii_types pats = Ok (o1, s1) ->
  pattern_loop self2 text pii_types pats = Ok (o2, s2) ->
  map erase_masked o1 = map erase_masked o2 /\ same_flags s1 s2.
Proof.
  intros text pii_types pats; induction pats as [| [pd re] pats IH];
    intros self1 self2 o1 s1 o2 s2 Hf H1 H2; cbn [pattern_loop] in *.
  - ok_inv H1. ok_inv H2. auto.
  - destruct (truthy pii_types &&
              negb (PIIType_in (pat_pii_type pd)
                      (match pii_types with Some ts => ts | None => [] end)));
      [eauto |].
    destruct (pattern_finditer_loop self1 text pd (finditer re text))
      as [[f1 t1] | e] eqn:E1; cbn [bind] in H1; [| discriminate].
    destruct (pattern_finditer_loop self2 text pd (finditer re text))
      as [[f2 t2] | e] eqn:E2; cbn [bind] in H2; [| discriminate].
    destruct (pattern_finditer_loop_erase _ _ _ _ _ _ _ _ _ Hf E1 E2) as [Hm Hs].
    destruct (pattern_loop t1 text pii_types pats) as [[r1 u1] | e] eqn:L1;
      cbn [bind] in H1; [| discriminate].
    destruct (pattern_loop t2 text pii_types pats) as [[r2 u2] | e] eqn:L2;
      cbn [bind] in H2; [| discriminate].
    ok_inv H1. ok_inv H2.
    destruct (IH _ _ _ _ _ _ Hs L1 L2) as [Hm' Hs'].
    split; [| exact Hs']. rewrite !map_app. congruence.
Qed.

Lemma name_match_erase : forall text full_name cy cn self1 self2 o1 s1 o2 s2,
  same_flags self1 self2 ->
  name_match self1 text full_name cy cn = Ok (o1, s1) ->
  name_match self2 text full_name cy cn = Ok (o2, s2) ->
  map erase_masked o1 = map erase_masked o2 /\ same_flags s1 s2.
Proof.
  intros text full_name cy cn self1 self2 o1 s1 o2 s2 Hf H1 H2.
  unfold name_match in *. pose proof Hf as [Hctx _]. rewrite <- Hctx in H2.
  destruct (negb (find text full_name =? -1)).
  - destruct (mask (masker self1) full_name PERSON_NAME None)
      as [[r1 mk1] | e]; cbn [bind] in H1; [| discriminate].
    destruct (mask (masker self2) full_name PERSON_NAME None)
      as [[r2 mk2] | e]; cbn [bind] in H2; [| discriminate].
    ok_inv H1. ok_inv H2. split; [reflexivity |].
    now apply same_flags_with_masker.
  - ok_inv H1. ok_inv H2. auto.
Qed.

Lemma names_loop_erase : forall text words fuel i self1 self2 o1 s1 o2 s2,
  same_flags self1 self2 ->
  names_loop self1 text words fuel i = Ok (o1, s1) ->
  names_loop self2 text words fuel i = Ok (o2, s2) ->
  map erase_masked o1 = map erase_masked o2 /\ same_flags s1 s2.
Proof.
  intros text words fuel; induction fuel as [| fuel IH];
    intros i self1 self2 o1 s1 o2 s2 Hf H1 H2; cbn [names_loop] in *.
  - ok_inv H1. ok_inv H2. auto.
  - destruct (i <? len words); [| ok_inv H1; ok_inv H2; auto].
    destruct (index words i) as [w | e]; cbn [bind] in *; [| discriminate].
    destruct (str_in (lower (strip punctuation w)) PREFIXES
              && (i + 1 <? len words)).
    + destruct (_extract_name_sequence words i text) as [[parts j] | e];
        cbn [bind] in *; [| discriminate].
      destruct (if negb (len parts =? 0) && (len parts >=? 2)
                then name_match self1 text (join (lit " ") parts) 0.85%Q 0.70%Q
                else Ok ([], self1)) as [[f1 t1] | e] eqn:E1;
        cbn [bind] in H1; [| discriminate].
      destruct (if negb (len parts =? 0) && (len parts >=? 2)
                then name_match self2 text (join (lit " ") parts) 0.85%Q 0.70%Q
                else Ok ([], self2)) as [[f2 t2] | e] eqn:E2;
        cbn [bind] in H2; [| discriminate].
      assert (Hm : map erase_masked f1 = map erase_masked f2 /\ same_flags t1 t2).
      { destruct (negb (len parts =? 0) && (len parts >=? 2)).
        - eapply name_match_erase; eauto.
        - ok_inv E1. ok_inv E2. auto. }
      destruct Hm as [Hm Hs].
      destruct (names_loop t1 text words fuel j) as [[r1 u1] | e] eqn:L1;
        cbn [bind] in H1; [| discriminate].
      destruct (names_loop t2 text words fuel j) as [[r2 u2] | e] eqn:L2;
        cbn [bind] in H2; [| discriminate].
      ok_inv H1. ok_inv H2.
      destruct (IH _ _ _ _ _ _ _ Hs L1 L2) as [Hm' Hs'].
      split; [| exact Hs']. rewrite !map_app. congruence.
    + destruct (str_in (lower (strip punctuation w)) COMMON_FIRST_NAMES
                && (i + 1 <? len words)); [| eauto].
      destruct (index words (i + 1)) as [w1 | e]; cbn [bind] in *;
        [| discriminate].
      destruct (if is_capitalized_word (strip punctuation w1)
                   && (len (strip punctuation w1) >? 2)
                then name_match self1 text (w ++ lit " " ++ w1) 0.75%Q 0.60%Q
                else Ok ([], self1)) as [[f1 t1] | e] eqn:E1;
        cbn [bind] in H1; [| discriminate].
      destruct (if is_capitalized_word (strip punctuation w1)
                   && (len (strip punctuation w1) >? 2)
                then name_match self2 text (w ++ lit " " ++ w1) 0.75%Q 0.60%Q
                else Ok ([], self2)) as [[f2 t2] | e] eqn:E2;
        cbn [bind] in H2; [| discriminate].
      assert (Hm : map erase_masked f1 = map erase_masked f2 /\ same_flags t1 t2).
      { destruct (is_capitalized_word (strip punctuation w1)
                  && (len (strip punctuation w1) >? 2)).
        - eapply name_match_erase; eauto.
        - ok_inv E1. ok_inv E2. auto. }
      destruct Hm as [Hm Hs].
      destruct (names_loop t1 text words fuel (i + 2)) as [[r1 u1] | e] eqn:L1;
        cbn [bind] in H1; [| discriminate].
      destruct (names_loop t2 text words fuel (i + 2)) as [[r2 u2] | e] eqn:L2;
        cbn [bind] in H2; [| discriminate].
      ok_inv H1. ok_inv H2.
      destruct (IH _ _ _ _ _ _ _ Hs L1 L2) as [Hm' Hs'].
      split; [| exact Hs']. rewrite !map_app. congruence.
Qed.

Lemma address_loop_erase : forall text ms self1 self2 o1 s1 o2 s2,
  same_flags self1 self2 ->
  address_loop self1 text ms = Ok (o1, s1) ->
  address_loop self2 text ms = Ok (o2, s2) ->
  map erase_masked o1 = map erase_masked o2 /\ same_flags s1 s2.
Proof.
  intros text ms; induction ms as [| m ms IH];
    intros self1 self2 o1 s1 o2 s2 Hf H1 H2; cbn [address_loop] in *.
  - ok_inv H1. ok_inv H2. auto.
  - pose proof Hf as [Hctx _]. rewrite <- Hctx in H2.
    destruct (mask (masker self1) (group0 m) ADDRESS None)
      as [[r1 mk1] | e]; cbn [bind] in H1; [| discriminate].
    destruct (mask (masker self2) (group0 m) ADDRESS None)
      as [[r2 mk2] | e]; cbn [bind] in H2; [| discriminate].
    destruct (address_loop (with_masker self1 mk1) text ms)
      as [[rest1 t1] | e] eqn:E1; cbn [bind] in H1; [| discriminate].
    destruct (address_loop (with_masker self2 mk2) text ms)
      as [[rest2 t2] | e] eqn:E2; cbn [bind] in H2; [| discriminate].
    ok_inv H1. ok_inv H2.
    destruct (IH _ _ _ _ _ _ (same_flags_with_masker _ _ mk1 mk2 Hf) E1 E2)
      as [Hm Hs].
    split; [| exact Hs]. cbn [map]. rewrite Hm. reflexivity.
Qed.

Lemma collect_matches_erase : forall text pii_types self1 self2 o1 s1 o2 s2,
  same_flags self1 self2 ->
  collect_matches self1 text pii_types = Ok (o1, s1) ->
  collect_matches self2 text pii_types = Ok (o2, s2) ->
  map erase_masked o1 = map erase_masked o2.
Proof.
  intros text pii_types self1 self2 o1 s1 o2 s2 Hf H1 H2.
  unfold collect_matches, _detect_pattern_based in *.
  destruct (pattern_loop self1 text pii_types _compiled_patterns)
    as [[p1 t1] | e] eqn:P1; cbn [bind] in H1; [| discriminate].
  destruct (pattern_loop self2 text pii_types _compiled_patterns)
    as [[p2 t2] | e] eqn:P2; cbn [bind] in H2; [| discriminate].
  destruct (pattern_loop_erase _ _ _ _ _ _ _ _ _ Hf P1 P2) as [Hp Hs].
  destruct (if requested pii_types PERSON_NAME then _detect_names t1 text
            else Ok ([], t1)) as [[n1 u1] | e] eqn:N1; cbn [bind] in H1;
    [| discriminate].
  destruct (if requested pii_types PERSON_NAME then _detect_names t2 text
            else Ok ([], t2)) as [[n2 u2] | e] eqn:N2; cbn [bind] in H2;
    [| discriminate].
  assert (Hn : map erase_masked n1 = map erase_masked n2 /\ same_flags u1 u2).
  { destruct (requested pii_types PERSON_NAME).
    - eapply names_loop_erase; eauto.
    - ok_inv N1. ok_inv N2. auto. }
  destruct Hn as [Hn Hs'].
  destruct (if requested pii_types ADDRESS then _detect_addresses u1 text
            else Ok ([], u1)) as [[a1 v1] | e] eqn:A1; cbn [bind] in H1;
    [| discriminate].
  destruct (if requested pii_types ADDRESS then _detect_addresses u2 text
            else Ok ([], u2)) as [[a2 v2] | e] eqn:A2; cbn [bind] in H2;
    [| discriminate].
  assert (Ha : map erase_masked a1 = map erase_masked a2 /\ same_flags v1 v2).
  { destruct (requested pii_types ADDRESS).
    - eapply address_loop_erase; eauto.
    - ok_inv A1. ok_inv A2. auto. }
  destruct Ha as [Ha _].
  ok_inv H1. ok_inv H2. rewrite !map_app. congruence.
Qed.

(** Two detectors with the same switches find the same matches, masked
    values apart, whatever their maskers, configurations and statistics. *)
Lemma detect_all_erase : forall self1 self2 text thr pii_types,
  same_flags self1 self2 ->
  exists m1 s1 m2 s2,
    detect_all self1 text thr pii_types = Ok (m1, s1) /\
    detect_all self2 text thr pii_types = Ok (m2, s2) /\
    map erase_masked m1 = map erase_masked m2 /\
    same_flags self1 s1.
Proof.
  intros [mk1 cfg1 ecv1 esv1 st1] [mk2 cfg2 ecv2 esv2 st2] text thr pii_types Hf.
  destruct (collect_matches_ok text pii_types mk1 cfg1 ecv1 esv1)
    as (all1 & mk1' & Hc1 & _).
  destruct (collect_matches_ok text pii_types mk2 cfg2 ecv2 esv2)
    as (all2 & mk2' & Hc2 & _).
  pose proof (collect_matches_erase _ _ _ _ _ _ _ _ Hf (Hc1 st1) (Hc2 st2)) as He.
  destruct (resolve_overlaps_erase (filter (above thr) all1)) as (r1 & Hr1 & He1).
  destruct (resolve_overlaps_erase (filter (above thr) all2)) as (r2 & Hr2 & He2).
  rewrite <- filter_above_erase in He1, He2. rewrite He in He1.
  exists r1, (record_statistics (mkPIIDetector mk1' cfg1 ecv1 esv1 st1) r1),
         r2, (record_statistics (mkPIIDetector mk2' cfg2 ecv2 esv2 st2) r2).
  repeat split.
  - rewrite detect_all_collect, Hc1. cbn [bind]. now rewrite Hr1.
  - rewrite detect_all_collect, Hc2. cbn [bind]. now rewrite Hr2.
  - congruence.
  - destruct (record_statistics_frame mk1' cfg1 ecv1 esv1 st1 r1) as (st' & ->).
    reflexivity.
  - destruct (record_statistics_frame mk1' cfg1 ecv1 esv1 st1 r1) as (st' & ->).
    reflexivity.
Qed.

(* ================================================================== *)
(** * The detector: span, order, totality, thresholds *)

(** C1. For every detector, text, confidence threshold and type list,
    [detect_all] returns a sequence of matches whose spans are pairwise
    disjoint (of two matches at different positions, one ends where or before
    the other starts) and which is sorted ascending by [start]. *)
Theorem detect_all_disjoint_sorted :
  forall self text confidence_threshold pii_types,
  exists matches self',
    detect_all self text confidence_threshold pii_types = Ok (matches, self') /\
    (forall i j a b, i <> j ->
       nth_error matches i = Some a -> nth_error matches j = Some b ->
       end_ a <= start b \/ end_ b <= start a) /\
    (forall i j a b, (i < j)%nat ->
       nth_error matches i = Some a -> nth_error matches j = Some b ->
       start a <= start b).
Proof.
  intros [mk cfg ecv esv st] text thr pii_types.
  destruct (detect_all_ok text pii_types mk cfg ecv esv) as (all & mk' & _ & _ & _ & H).
  destruct (H thr st) as (final & Hr & Hd).
  destruct (resolve_overlaps_ok (filter (above thr) all))
    as (final' & Hr' & Hdis & Hsort & _).
  assert (final' = final) by congruence. subst final'.
  exists final, (record_statistics (mkPIIDetector mk' cfg ecv esv st) final).
  split; [exact Hd | split].
  - intros i j a b Hij Ha Hb.
    exact (FOP_nth_sym disjoint disjoint_sym final i j a b Hdis Hij Ha Hb).
  - intros i j a b Hij Ha Hb.
    exact (StronglySorted_nth _ start_le_prop final i j a b Hsort Hij Ha Hb).
Qed.

(** C2. For every detector, text, confidence threshold and type list, every
    match returned by [detect_all] satisfies [text[start:end] == value]; its
    span is a non-empty span of the text. *)
Theorem detect_all_span_value :
  forall self text confidence_threshold pii_types,
  exists matches self',
    detect_all self text confidence_threshold pii_types = Ok (matches, self') /\
    Forall (fun m => 0 <= start m < end_ m /\ end_ m <= len text /\
                     slice text (start m) (end_ m) = value m) matches.
Proof.
  intros [mk cfg ecv esv st] text thr pii_types.
  destruct (detect_all_ok text pii_types mk cfg ecv esv) as (all & mk' & Hs & _ & _ & H).
  destruct (H thr st) as (final & Hr & Hd).
  destruct (resolve_overlaps_ok (filter (above thr) all))
    as (final' & Hr' & _ & _ & Hin).
  assert (final' = final) by congruence. subst final'.
  exists final, (record_statistics (mkPIIDetector mk' cfg ecv esv st) final).
  split; [exact Hd |].
  apply Forall_forall. intros m Hm.
  apply Hin, filter_In in Hm as [Hm _].
  rewrite Forall_forall in Hs. exact (Hs m Hm).
Qed.

(** C4. Raising the threshold never adds a match.  For thresholds
    [t1 <= t2], what [detect_all] returns at [t2] is no longer than what it
    returns at [t1]; masked values apart, it is the part above [t2] of it.
    The two calls may be made on the same detector or on two states of it
    (before and after an earlier call, or after a change of strategy):
    [self1] and [self2] need only agree on the validation switches. *)
Theorem detect_all_threshold_monotone :
  forall self1 self2 text pii_types t1 t2,
  same_flags self1 self2 ->
  (t1 <= t2)%Q ->
  exists matches1 self1' matches2 self2',
    detect_all self1 text t1 pii_types = Ok (matches1, self1') /\
    detect_all self2 text t2 pii_types = Ok (matches2, self2') /\
    map erase_masked matches2
    = filter (fun m => Qle_bool t2 (confidence m)) (map erase_masked matches1) /\
    (List.length matches2 <= List.length matches1)%nat.
Proof.
  intros self1 self2 text pii_types t1 t2 Hf Ht.
  destruct (detect_all_erase self1 self2 text t2 pii_types Hf)
    as (m2' & s2' & m2 & s2 & Hd2' & Hd2 & He & _).
  destruct self1 as [mk cfg ecv esv st].
  destruct (detect_all_ok text pii_types mk cfg ecv esv) as (all & mk' & _ & _ & _ & H).
  destruct (H t1 st) as (final1 & Hr1 & Hd1).
  destruct (H t2 st) as (final2 & Hr2 & Hd2'').
  destruct (resolve_overlaps_filter t2 (filter (above t1) all)) as (r & Hr & Hfl).
  rewrite filter_above_above in Hfl by exact Ht.
  assert (r = final1) by congruence. subst r.
  assert (Heq : final2 = filter (above t2) final1) by congruence.
  assert (m2' = final2) by congruence. subst m2'.
  assert (Hm : map erase_masked m2 = filter (above t2) (map erase_masked final1)).
  { rewrite <- He, Heq. symmetry. apply filter_above_erase. }
  do 4 eexists. split; [exact Hd1 | split; [exact Hd2 | split; [exact Hm |]]].
  rewrite <- (length_map erase_masked m2), Hm, filter_above_erase, length_map.
  apply filter_length_le.
Qed.

Lemma detect_all_threshold_monotone_witness :
  same_flags (PIIDetector_init true true false)
    (set_masking_strategy (PIIDetector_init true true true) EMAIL TOKENIZE) /\
  (0.5 <= 0.9)%Q /\
  exists matches1 self1' matches2 self2',
    detect_all (PIIDetector_init true true false)
      (lit "Contact John Smith at john@example.com") 0.5 None
      = Ok (matches1, self1') /\
    detect_all (set_masking_strategy (PIIDetector_init true true true)
                  EMAIL TOKENIZE)
      (lit "Contact John Smith at john@example.com") 0.9 None
      = Ok (matches2, self2') /\
    map erase_masked matches2
    = filter (fun m => Qle_bool 0.9 (confidence m)) (map erase_masked matches1) /\
    (List.length matches2 <= List.length matches1)%nat.
Proof.
  assert (H1 : same_flags (PIIDetector_init true true false)
                 (set_masking_strategy (PIIDetector_init true true true)
                    EMAIL TOKENIZE))
    by (split; reflexivity).
  assert (H2 : (0.5 <= 0.9)%Q) by (vm_compute; discriminate).
  split; [exact H1 | split; [exact H2 |]].
  exact (detect_all_threshold_monotone _ _ _ None 0.5%Q 0.9%Q H1 H2).
Defined.


(* ================================================================== *)
(** * The detector: repeated calls, type lists, strategies *)

(** C3, as stated, fails: with the EMAIL strategy set to TOKENIZE, two
    successive calls on the same text return different [masked_value]s, the
    token counter having advanced in between. *)
Lemma detect_all_tokenize_changes :
  exists matches1 self1 matches2 self2,
    let self := set_masking_strategy (PIIDetector_init true true false)
                  EMAIL TOKENIZE in
    let text := lit "Email john@example.com" in
    detect_all self text 0.7 None = Ok (matches1, self1) /\
    detect_all self1 text 0.7 None = Ok (matches2, self2) /\
    map masked_value matches1 = [lit "[EMAIL_TOKEN_0001]"] /\
    map masked_value matches2 = [lit "[EMAIL_TOKEN_0002]"] /\
    matches1 <> matches2.
Proof.
  do 4 eexists. cbv zeta.
  split; [vm_compute; reflexivity |].
  split; [vm_compute; reflexivity |].
  split; [reflexivity |]. split; [reflexivity |].
  intro H. discriminate H.
Qed.

(** C3, amended. Two successive calls of [detect_all] with the same text,
    threshold and type list return sequences that agree in every field but
    [masked_value], whatever the configuration; and for a detector none of
    whose strategies in force is TOKENIZE they return the same sequence,
    [masked_value] included. *)
Theorem detect_all_deterministic :
  forall self text confidence_threshold pii_types,
  exists matches1 self1 matches2 self2,
    detect_all self text confidence_threshold pii_types = Ok (matches1, self1) /\
    detect_all self1 text confidence_threshold pii_types = Ok (matches2, self2) /\
    map erase_masked matches1 = map erase_masked matches2 /\
    (tokenize_free self -> matches1 = matches2).
Proof.
  intros [mk cfg ecv esv st] text thr pii_types.
  destruct (detect_all_ok text pii_types mk cfg ecv esv)
    as (all & mk' & _ & _ & Htok & H).
  destruct (H thr st) as (final1 & Hr1 & Hd1).
  destruct (record_statistics_frame mk' cfg ecv esv st final1) as (st' & Hst).
  rewrite Hst in Hd1.
  destruct (detect_all_erase (mkPIIDetector mk cfg ecv esv st)
              (mkPIIDetector mk' cfg ecv esv st') text thr pii_types)
    as (m1 & s1 & m2 & s2 & E1 & E2 & Heq & _); [split; reflexivity |].
  assert (m1 = final1) by congruence. subst m1.
  exists final1, (mkPIIDetector mk' cfg ecv esv st'), m2, s2.
  split; [exact Hd1 | split; [exact E2 | split; [exact Heq |]]].
  intros [Hdef Hcfg]. proj_simpl.
  rewrite (Htok Hdef Hcfg) in E2.
  destruct (H thr st') as (final2 & Hr2 & Hd2).
  congruence.
Qed.

Lemma detect_all_deterministic_witness :
  tokenize_free (PIIDetector_init true true false) /\
  exists matches self1 self2,
    detect_all (PIIDetector_init true true false)
      (lit "Email john@example.com") 0.7 None = Ok (matches, self1) /\
    detect_all self1 (lit "Email john@example.com") 0.7 None
      = Ok (matches, self2).
Proof.
  assert (H : tokenize_free (PIIDetector_init true true false)).
  { split; [vm_compute; discriminate |]. intros []; vm_compute; discriminate. }
  split; [exact H |].
  destruct (detect_all_deterministic (PIIDetector_init true true false)
              (lit "Email john@example.com") 0.7%Q None)
    as (m1 & s1 & m2 & s2 & H1 & H2 & _ & Ht).
  exists m1, s1, s2. split; [exact H1 |].
  rewrite (Ht H). exact H2.
Defined.

Lemma registry_types :
  Forall (fun pr => pat_pii_type (fst pr) <> PERSON_NAME /\
                    pat_pii_type (fst pr) <> ADDRESS) _compiled_patterns.
Proof.
  unfold _compiled_patterns, get_compiled_patterns, get_patterns,
    _initialize_patterns.
  repeat (constructor; [split; discriminate |]). constructor.
Qed.

Lemma PIIType_value_inj : forall a b, PIIType_value a = PIIType_value b -> a = b.
Proof. intros [] [] H; try reflexivity; vm_compute in H; discriminate H. Qed.

(** C9. When [detect_all] is given an empty list of types, the pattern scan
    is not restricted (it is the scan made when no list is given), and name
    and address detection are skipped: the result is the resolution of the
    pattern-based candidates alone, and it holds no PERSON_NAME and no ADDRESS
    match. *)
Theorem detect_all_empty_type_list :
  forall self text confidence_threshold,
  _detect_pattern_based self text (Some []) = _detect_pattern_based self text None /\
  detect_all self text confidence_threshold (Some []) =
    ('(pattern_matches, self') <- _detect_pattern_based self text None ;;
     final_matches <-
       resolve_overlaps
         (filter (fun m => Qle_bool confidence_threshold (confidence m))
                 pattern_matches) ;;
     Ok (final_matches, record_statistics self' final_matches)) /\
  exists matches self',
    detect_all self text confidence_threshold (Some []) = Ok (matches, self') /\
    Forall (fun m => pii_type m <> PIIType_value PERSON_NAME /\
                     pii_type m <> PIIType_value ADDRESS) matches.
Proof.
  intros self text thr.
  assert (H1 : _detect_pattern_based self text (Some [])
               = _detect_pattern_based self text None)
    by apply pattern_loop_empty_filter.
  assert (H2 : detect_all self text thr (Some []) =
    ('(pattern_matches, self') <- _detect_pattern_based self text None ;;
     final_matches <-
       resolve_overlaps
         (filter (fun m => Qle_bool thr (confidence m)) pattern_matches) ;;
     Ok (final_matches, record_statistics self' final_matches))).
  { unfold detect_all. rewrite H1.
    destruct (_detect_pattern_based self text None) as [[pm self1] | e];
      cbn [bind requested PIIType_in existsb]; [| reflexivity].
    now rewrite !app_nil_r. }
  split; [exact H1 | split; [exact H2 |]].
  rewrite H2. destruct self as [mk cfg ecv esv st].
  destruct (pattern_loop_ok text None _compiled_patterns mk cfg ecv esv
              registry_not_nullable _compiled_patterns_plain)
    as (pm & mk1 & Hl & _ & Hty & _).
  unfold _detect_pattern_based. rewrite Hl. cbn [bind].
  destruct (resolve_overlaps_ok
              (filter (fun m => Qle_bool thr (confidence m)) pm))
    as (final & Hr & _ & _ & Hin).
  rewrite Hr. cbn [bind]. do 2 eexists. split; [reflexivity |].
  apply Forall_forall. intros m Hm.
  apply Hin, filter_In in Hm as [Hm _].
  rewrite Forall_forall in Hty. destruct (Hty m Hm) as (pr & Hpr & Heq).
  pose proof registry_types as Hreg. rewrite Forall_forall in Hreg.
  destruct (Hreg pr Hpr) as [Hn Ha].
  rewrite Heq. split; intro E; apply PIIType_value_inj in E; congruence.
Qed.

Lemma PIIType_eqb_eq : forall a b, PIIType_eqb a b = true <-> a = b.
Proof. intros [] []; simpl; split; intro H; congruence. Qed.

Lemma PIIType_members_all : forall t, In t PIIType_members.
Proof. intros []; simpl; tauto. Qed.

Section DictFacts.
Context {V : Type}.

Lemma dict_get_set_same : forall (d : list (PIIType * V)) k v,
  dict_get PIIType_eqb (dict_set PIIType_eqb d k v) k = Some v.
Proof.
  induction d as [| [k' v'] d IH]; intros k v; simpl.
  - assert (E : PIIType_eqb k k = true) by now apply PIIType_eqb_eq.
    now rewrite E.
  - destruct (PIIType_eqb k' k) eqn:E; simpl; rewrite E; auto.
Qed.

Lemma dict_get_set_other : forall (d : list (PIIType * V)) k k' v,
  k' <> k ->
  dict_get PIIType_eqb (dict_set PIIType_eqb d k v) k'
  = dict_get PIIType_eqb d k'.
Proof.
  induction d as [| [k0 v0] d IH]; intros k k' v Hk; simpl.
  - destruct (PIIType_eqb k k') eqn:E; [| reflexivity].
    apply PIIType_eqb_eq in E. congruence.
  - destruct (PIIType_eqb k0 k) eqn:E; simpl.
    + apply PIIType_eqb_eq in E. subst k0.
      destruct (PIIType_eqb k k') eqn:E'; [| reflexivity].
      apply PIIType_eqb_eq in E'. congruence.
    + destruct (PIIType_eqb k0 k'); auto.
Qed.
End DictFacts.

Lemma get_strategy_set_same : forall cfg t s,
  get_strategy (set_strategy cfg t s) t = s.
Proof.
  intros cfg t s. unfold get_strategy, set_strategy. simpl.
  now rewrite dict_get_set_same.
Qed.

Lemma get_strategy_set_other : forall cfg t t' s,
  t' <> t -> get_strategy (set_strategy cfg t s) t' = get_strategy cfg t'.
Proof.
  intros cfg t t' s H. unfold get_strategy, set_strategy. simpl.
  now rewrite dict_get_set_other.
Qed.

Lemma set_all_fold : forall ts cfg s t,
  get_strategy
    (fold_left (fun cfg pii_type => set_strategy cfg pii_type s) ts cfg) t
  = if PIIType_in t ts then s else get_strategy cfg t.
Proof.
  induction ts as [| t0 ts IH]; intros cfg s t; simpl; [reflexivity |].
  rewrite IH. destruct (PIIType_in t ts) eqn:E.
  - now rewrite orb_true_r.
  - rewrite orb_false_r. destruct (PIIType_eqb t t0) eqn:E0.
    + apply PIIType_eqb_eq in E0. subst. apply get_strategy_set_same.
    + apply get_strategy_set_other. intro H. subst.
      assert (PIIType_eqb t0 t0 = true) by now apply PIIType_eqb_eq.
      congruence.
Qed.

(** C10. [set_masking_strategy t s] changes the strategy of [t] and of no
    other type, and leaves the rest of the detector as it is;
    [set_all_masking_strategies s] makes [s] the strategy of every PII type. *)
Theorem set_masking_strategy_frame :
  forall self t s,
  (forall t', t' <> t ->
     get_strategy (masking_config (set_masking_strategy self t s)) t'
     = get_strategy (masking_config self) t') /\
  get_strategy (masking_config (set_masking_strategy self t s)) t = s /\
  masker (set_masking_strategy self t s) = masker self /\
  enable_context_validation (set_masking_strategy self t s)
    = enable_context_validation self /\
  enable_strict_validation (set_masking_strategy self t s)
    = enable_strict_validation self /\
  statistics (set_masking_strategy self t s) = statistics self /\
  (forall t', get_strategy (masking_config (set_all_masking_strategies self s)) t' = s).
Proof.
  intros self t s. unfold set_masking_strategy, set_all_masking_strategies.
  proj_simpl. repeat split.
  - intros t' H. now apply get_strategy_set_other.
  - apply get_strategy_set_same.
  - intro t'. unfold set_all_strategies. rewrite set_all_fold.
    assert (E : PIIType_in t' PIIType_members = true).
    { unfold PIIType_in. apply existsb_exists. exists t'.
      split; [apply PIIType_members_all | now apply PIIType_eqb_eq]. }
    now rewrite E.
Qed.

Lemma set_masking_strategy_frame_witness :
  SSN <> EMAIL /\
  get_strategy
    (masking_config
       (set_masking_strategy (PIIDetector_init true true false) EMAIL HASH)) SSN
  = get_strategy (masking_config (PIIDetector_init true true false)) SSN.
Proof.
  split; [discriminate |].
  apply (proj1 (set_masking_strategy_frame
                  (PIIDetector_init true true false) EMAIL HASH)).
  discriminate.
Defined.

(* ================================================================== *)
(** * The masker: PARTIAL on e-mail addresses and card numbers *)

Lemma split_on_sep : forall sep u x rest,
  (forall c, In c u -> sep c = false) -> sep x = true ->
  split_on sep (u ++ x :: rest) = u :: split_on sep rest.
Proof.
  intros sep u x rest Hu Hx; induction u as [| c u IH]; simpl.
  - now rewrite Hx.
  - rewrite (Hu c (or_introl eq_refl)), IH; [reflexivity |].
    intros d Hd. apply Hu. now right.
Qed.

Lemma split_on_none : forall sep u,
  (forall c, In c u -> sep c = false) -> split_on sep u = [u].
Proof.
  intros sep u Hu; induction u as [| c u IH]; simpl; [reflexivity |].
  rewrite (Hu c (or_introl eq_refl)), IH; [reflexivity |].
  intros d Hd. apply Hu. now right.
Qed.

Lemma index_first : forall (A : Type) (c : A) s, index (c :: s) 0 = Ok c.
Proof.
  intros A c s. unfold index. cbn [Z.ltb Z.compare orb].
  assert (E : (len (c :: s) <=? 0) = false)
    by (apply Z.leb_gt; rewrite len_cons; pose proof (len_nonneg A s); lia).
  rewrite E. reflexivity.
Qed.

Lemma nth_error_last : forall (A : Type) (s : list A) c d,
  nth_error (c :: s) (List.length s) = Some (last (c :: s) d).
Proof.
  intros A s; induction s as [| x s IH]; intros c d; [reflexivity |].
  change (nth_error (x :: s) (List.length s) = Some (last (x :: s) d)).
  apply IH.
Qed.

Lemma index_last : forall (A : Type) (c : A) s, index (c :: s) (-1) = Ok (last (c :: s) c).
Proof.
  intros A c s. unfold index. cbn [Z.ltb Z.compare].
  pose proof (len_nonneg A s) as Hs. rewrite len_cons.
  assert (E1 : (1 + len s + -1 <? 0) = false) by (apply Z.ltb_ge; lia).
  assert (E2 : (1 + len s <=? 1 + len s + -1) = false) by (apply Z.leb_gt; lia).
  rewrite E1, E2. cbn [orb].
  replace (Z.to_nat (1 + len s + -1)) with (List.length s) by (unfold len; lia).
  now rewrite (nth_error_last A s c c).
Qed.

Lemma _mask_email_rule : forall username domain,
  (forall c, In c username -> c <> "@"%char) ->
  (forall c, In c domain -> c <> "@"%char) ->
  _mask_email (username ++ lit "@" ++ domain)
  = Ok (email_user_rule username ++ lit "@" ++ domain).
Proof.
  intros username domain Hu Hd. unfold _mask_email.
  assert (Hsep : forall s, (forall c, In c s -> c <> "@"%char) ->
                           forall c, In c s -> chr_eqb "@" c = false).
  { intros s Hs c Hc. destruct (chr_eqb "@" c) eqn:E; [| reflexivity].
    apply chr_eqb_eq in E. subst. now elim (Hs _ Hc). }
  change (lit "@" ++ domain) with ("@"%char :: domain).
  rewrite split_on_sep, split_on_none;
    [| now apply Hsep | now apply Hsep | apply chr_eqb_refl].
  destruct username as [| c u]; [reflexivity |].
  unfold email_user_rule.
  destruct (len (c :: u) <=? 2); [reflexivity |].
  rewrite index_first. cbn [bind].
  destruct (len (c :: u) <=? 4); [reflexivity |].
  rewrite index_last. reflexivity.
Qed.

(** C5, as stated, fails on the e-mail example: the user part [john] has
    four characters, so its last character is not shown. *)
Lemma mask_partial_john_differs :
  mask PIIMasker_init (lit "john@example.com") EMAIL (Some PARTIAL)
    = Ok (lit "j***@example.com", PIIMasker_init) /\
  lit "j***@example.com" <> lit "j***n@example.com".
Proof. split; [reflexivity | discriminate]. Qed.

(** C5, amended. PARTIAL masking of ["john@example.com"] yields
    ["j***@example.com"] and PARTIAL masking of the card number
    ["4532-1488-0343-6467"] yields ["****-****-****-6467"]; for every
    address [username@domain], the user part is masked by the rule above and
    the domain is kept as it is. *)
Theorem mask_partial_email_card :
  mask PIIMasker_init (lit "john@example.com") EMAIL (Some PARTIAL)
    = Ok (lit "j***@example.com", PIIMasker_init) /\
  mask PIIMasker_init (lit "4532-1488-0343-6467") CREDIT_CARD (Some PARTIAL)
    = Ok (lit "****-****-****-6467", PIIMasker_init) /\
  forall mk username domain,
    (forall c, In c username -> c <> "@"%char) ->
    (forall c, In c domain -> c <> "@"%char) ->
    mask mk (username ++ lit "@" ++ domain) EMAIL (Some PARTIAL)
    = Ok (email_user_rule username ++ lit "@" ++ domain, mk).
Proof.
  split; [reflexivity | split; [reflexivity |]].
  intros mk username domain Hu Hd. unfold mask. cbn [_mask_partial].
  rewrite _mask_email_rule by assumption. reflexivity.
Qed.

Lemma mask_partial_email_card_witness :
  (forall c, In c (lit "verylongemail") -> c <> "@"%char) /\
  (forall c, In c (lit "example.com") -> c <> "@"%char) /\
  mask PIIMasker_init (lit "verylongemail" ++ lit "@" ++ lit "example.com")
    EMAIL (Some PARTIAL)
  = Ok (lit "v***l" ++ lit "@" ++ lit "example.com", PIIMasker_init).
Proof.
  assert (H1 : forall c, In c (lit "verylongemail") -> c <> "@"%char)
    by (intros c Hc; simpl in Hc; intuition (subst; discriminate)).
  assert (H2 : forall c, In c (lit "example.com") -> c <> "@"%char)
    by (intros c Hc; simpl in Hc; intuition (subst; discriminate)).
  split; [exact H1 | split; [exact H2 |]].
  exact (proj2 (proj2 mask_partial_email_card) PIIMasker_init
           (lit "verylongemail") (lit "example.com") H1 H2).
Defined.

(* ================================================================== *)
(** * The validators: Luhn and dates of birth *)

Lemma luhn_loop_total : forall ds i checksum,
  luhn_loop ds (Z.of_nat i) checksum = checksum + luhn_total i ds.
Proof.
  induction ds as [| d ds IH]; intros i checksum; simpl; [lia |].
  replace (Z.of_nat i + 1) with (Z.of_nat (S i)) by lia.
  rewrite IH. unfold luhn_term.
  assert (E : (Z.of_nat i mod 2 =? 1) = Nat.odd i).
  { rewrite <- Nat.negb_even.
    destruct (Nat.even i) eqn:Ev; simpl.
    - apply Nat.even_spec in Ev. destruct Ev as [k ->].
      apply Z.eqb_neq. rewrite Nat2Z.inj_mul. change (Z.of_nat 2) with 2.
      rewrite Z.mul_comm, Z.mod_mul; lia.
    - apply Z.eqb_eq.
      assert (Ho : Nat.odd i = true) by (rewrite <- Nat.negb_even, Ev; reflexivity).
      apply Nat.odd_spec in Ho. destruct Ho as [k ->].
      replace (Z.of_nat (2 * k + 1)) with (1 + Z.of_nat k * 2) by lia.
      now rewrite Z.mod_add. }
  rewrite E. replace (d * 2) with (2 * d) by lia.
  destruct (Nat.odd i); [destruct (2 * d >? 9) |]; lia.
Qed.



Lemma dob_year_find : forall parts,
  dob_year parts =
  match List.find (fun part => len part =? 4) parts with
  | Some part => year <- int part ;; Ok (Some year)
  | None => Ok None
  end.
Proof.
  induction parts as [| part parts IH]; simpl; [reflexivity |].
  destruct (len part =? 4); [reflexivity | exact IH].
Qed.

Lemma not_between : forall lo hi v,
  (lo <=? v) && (v <=? hi) = negb ((v <? lo) || (v >? hi)).
Proof.
  intros lo hi v. rewrite negb_orb, Z.gtb_ltb, <- !Z.leb_antisym. reflexivity.
Qed.

Lemma dob_month_day_forallb : forall parts,
  except_ValueError (dob_month_day parts) false =
  Ok (forallb (fun part => if len part <=? 2 then int_between 1 31 part else true)
              parts).
Proof.
  induction parts as [| part parts IH]; cbn [dob_month_day forallb]; [reflexivity |].
  destruct (len part <=? 2); [| exact IH].
  unfold int_between. destruct (int part) as [v | e] eqn:E; cbn [bind].
  - rewrite not_between.
    destruct ((v <? 1) || (v >? 31)); [reflexivity | exact IH].
  - apply int_raises in E. subst e. reflexivity.
Qed.

(** C7, as stated, fails: a second part of length 4, or a part of length 3,
    is not examined, and the date is accepted. *)
Lemma validate_date_of_birth_accepts_more :
  validate_date_of_birth (lit "1990/2000/01") = Ok true /\
  dob_spec (lit "1990/2000/01") = false /\
  validate_date_of_birth (lit "1990/123/01") = Ok true /\
  dob_spec (lit "1990/123/01") = false.
Proof. repeat split; reflexivity. Qed.

(** C7, amended. [validate_date_of_birth] accepts a string exactly when:
    splitting it at [/] and [-] gives 3 parts; some part has length 4 and
    the first such part parses as a year in 1900..2025; and every part of
    length at most 2 parses as an integer in 1..31.  Every string that meets
    the condition of the specification is accepted. *)
Theorem validate_date_of_birth_rule :
  (forall dob, validate_date_of_birth dob = Ok (dob_rule dob)) /\
  (forall dob, dob_spec dob = true -> validate_date_of_birth dob = Ok true).
Proof.
  assert (H : forall dob, validate_date_of_birth dob = Ok (dob_rule dob)).
  { intro dob. unfold validate_date_of_birth, dob_rule. cbv zeta.
    set (parts := split_on (chr_in (lit "/-")) dob).
    destruct (len parts =? 3); [| reflexivity]. cbn [negb andb].
    rewrite dob_year_find.
    destruct (List.find (fun part => len part =? 4) parts) as [y |];
      [| reflexivity].
    unfold int_between at 1.
    destruct (int y) as [v | e] eqn:E; cbn [bind].
    - rewrite not_between.
      destruct ((v <? 1900) || (v >? 2025)); [reflexivity |].
      apply dob_month_day_forallb.
    - apply int_raises in E. subst e. reflexivity. }
  split; [exact H |].
  intros dob Hs. rewrite H. f_equal.
  unfold dob_spec, dob_rule in *. cbv zeta in *.
  set (parts := split_on (chr_in (lit "/-")) dob) in *.
  apply andb_true_iff in Hs as [Hs Hall].
  apply andb_true_iff in Hs as [H3 H1]. rewrite H3. cbn [andb].
  rewrite forallb_forall in Hall.
  apply andb_true_iff. split.
  - destruct (List.find (fun part => len part =? 4) parts) as [y |] eqn:Ef.
    + apply find_some in Ef as [Hy Hl]. specialize (Hall y Hy).
      now rewrite Hl in Hall.
    + exfalso.
      assert (Hnil : filter (fun part => len part =? 4) parts = []).
      { clear -Ef. induction parts as [| p ps IH]; simpl in *; [reflexivity |].
        destruct (len p =? 4); [discriminate | auto]. }
      rewrite Hnil in H1. discriminate.
  - apply forallb_forall. intros p Hp. specialize (Hall p Hp).
    destruct (len p <=? 2) eqn:E2; [| reflexivity].
    destruct (len p =? 4) eqn:E4.
    + apply Z.eqb_eq in E4. apply Z.leb_le in E2. lia.
    + now apply andb_true_iff in Hall as [_ Hall].
Qed.

Lemma validate_date_of_birth_rule_witness :
  dob_spec (lit "05/15/1985") = true /\
  validate_date_of_birth (lit "05/15/1985") = Ok true.
Proof.
  split; [reflexivity |].
  apply (proj2 validate_date_of_birth_rule). reflexivity.
Defined.

(* ================================================================== *)
(** * Proofs: [mask_text] *)

Lemma slice_firstn_skipn : forall (A : Type) (s : list A) lo hi,
  0 <= lo -> 0 <= hi ->
  slice s lo hi
  = firstn (Z.to_nat (Z.min hi (len s) - Z.min lo (len s)))
      (skipn (Z.to_nat (Z.min lo (len s))) s).
Proof.
  intros A s lo hi Hlo Hhi. unfold slice, clip_index.
  assert (E1 : (lo <? 0) = false) by (apply Z.ltb_ge; lia).
  assert (E2 : (hi <? 0) = false) by (apply Z.ltb_ge; lia).
  now rewrite E1, E2.
Qed.

Lemma slice_to_firstn : forall (A : Type) (s : list A) hi,
  0 <= hi -> slice_to s hi = firstn (Z.to_nat hi) s.
Proof.
  intros A s hi H. unfold slice_to. rewrite slice_firstn_skipn by lia.
  pose proof (len_nonneg _ s) as Hl.
  rewrite (Z.min_l 0) by lia. simpl. rewrite Z.sub_0_r.
  destruct (Z.le_gt_cases hi (len s)).
  - now rewrite Z.min_l by lia.
  - rewrite Z.min_r by lia. unfold len. rewrite Nat2Z.id.
    rewrite !firstn_all2; auto. unfold len in *. lia.
Qed.

Lemma slice_from_skipn : forall (A : Type) (s : list A) lo,
  0 <= lo -> slice_from s lo = skipn (Z.to_nat lo) s.
Proof.
  intros A s lo H. unfold slice_from. rewrite slice_firstn_skipn.
  2: lia. 2: apply len_nonneg.
  pose proof (len_nonneg _ s) as Hl. rewrite (Z.min_l (len s)) by lia.
  destruct (Z.le_gt_cases lo (len s)).
  - rewrite Z.min_l by lia. rewrite firstn_all2; auto.
    rewrite length_skipn. unfold len. lia.
  - rewrite Z.min_r by lia. rewrite Z.sub_diag.
    rewrite !skipn_all2 by (unfold len in *; lia). reflexivity.
Qed.

Lemma slice_between : forall (A : Type) (s : list A) lo hi,
  0 <= lo <= hi -> hi <= len s ->
  slice s lo hi = firstn (Z.to_nat hi - Z.to_nat lo) (skipn (Z.to_nat lo) s).
Proof.
  intros A s lo hi H1 H2. rewrite slice_firstn_skipn by lia.
  rewrite !Z.min_l by lia. f_equal. lia.
Qed.

(** A prefix and the slice that follows it make the longer prefix. *)
Lemma slice_to_slice : forall (A : Type) (s : list A) lo hi,
  0 <= lo <= hi -> hi <= len s ->
  slice_to s lo ++ slice s lo hi = slice_to s hi.
Proof.
  intros A s lo hi H1 H2.
  rewrite !slice_to_firstn, slice_between by lia.
  rewrite <- (firstn_skipn (Z.to_nat lo) (firstn (Z.to_nat hi) s)).
  rewrite firstn_firstn, skipn_firstn_comm.
  now rewrite Nat.min_l by lia.
Qed.

Lemma laid_out_bound : forall text ms cur,
  laid_out text cur ms -> cur <= len text.
Proof.
  intros text ms. induction ms as [| m ms IH]; intros cur H; simpl in H.
  - exact H.
  - destruct H as (H1 & H2 & H3). apply IH in H3. lia.
Qed.

Lemma insert_by_last : forall (A : Type) (le : A -> A -> bool) x l,
  Forall (fun y => le x y = false) l -> insert_by le x l = l ++ [x].
Proof.
  intros A le x l H. induction H as [| y l Hy _ IH]; simpl.
  - reflexivity.
  - now rewrite Hy, IH.
Qed.

Lemma laid_out_starts : forall text ms cur,
  laid_out text cur ms -> Forall (fun m => cur <= start m) ms.
Proof.
  intros text ms. induction ms as [| m ms IH]; intros cur H; simpl in H.
  - constructor.
  - destruct H as (H1 & H2 & H3). constructor; [exact H1 |].
    apply IH in H3. eapply Forall_impl; [| exact H3]. simpl. intros; lia.
Qed.

(** Spans laid out from left to right are visited from right to left. *)
Lemma sorted_start_ge_rev : forall text ms cur,
  laid_out text cur ms -> sorted start_ge ms = rev ms.
Proof.
  intros text ms. induction ms as [| m ms IH]; intros cur H; simpl in *.
  - reflexivity.
  - destruct H as (H1 & H2 & H3). rewrite (IH _ H3).
    apply insert_by_last. apply Forall_rev.
    apply laid_out_starts in H3. eapply Forall_impl; [| exact H3].
    intros y Hy. unfold start_ge. apply Z.leb_gt. simpl in Hy. lia.
Qed.

Lemma replace_spans_render : forall text ms cur,
  0 <= cur -> laid_out text cur ms ->
  fold_right (fun m acc => replace_span acc m) text ms
  = slice_to text cur ++ render text cur ms.
Proof.
  intros text ms. induction ms as [| m ms IH]; intros cur Hc H; simpl in *.
  - rewrite slice_to_firstn, slice_from_skipn by lia.
    symmetry. apply firstn_skipn.
  - destruct H as (H1 & H2 & H3).
    pose proof (laid_out_bound _ _ _ H3) as Hb.
    rewrite (IH (end_ m)) by (lia || assumption).
    unfold replace_span.
    rewrite (app_assoc (slice_to text cur)), slice_to_slice by lia.
    assert (Hlen : List.length (slice_to text (end_ m)) = Z.to_nat (end_ m)).
    { rewrite slice_to_firstn by lia. rewrite length_firstn.
      unfold len in Hb. lia. }
    f_equal; [| f_equal].
    + rewrite (slice_to_firstn _ _ (start m)) by lia.
      rewrite firstn_app, Hlen.
      replace (Z.to_nat (start m) - Z.to_nat (end_ m))%nat with 0%nat by lia.
      simpl. rewrite app_nil_r.
      rewrite !slice_to_firstn by lia. rewrite firstn_firstn.
      now rewrite Nat.min_l by lia.
    + rewrite slice_from_skipn by lia.
      rewrite skipn_app, Hlen, Nat.sub_diag. simpl.
      rewrite skipn_all2 by lia. reflexivity.
Qed.

(** Matches sorted by start, pairwise disjoint and with proper spans are laid
    out from left to right. *)
Lemma sorted_disjoint_laid_out : forall text ms cur,
  StronglySorted start_le_prop ms ->
  ForallOrdPairs disjoint ms ->
  Forall (span_ok text) ms ->
  Forall (fun m => cur <= start m) ms -> cur <= len text ->
  laid_out text cur ms.
Proof.
  intros text ms. induction ms as [| m ms IH]; intros cur Hs Hd Ho Hc Hl; simpl.
  - exact Hl.
  - inversion Hs as [| ? ? Hs' Hm]; subst.
    apply FOP_cons_iff in Hd as [Hd1 Hd'].
    inversion Ho as [| ? ? (Ho1 & Ho2 & _) Ho']; subst.
    inversion Hc as [| ? ? Hc1 _]; subst.
    repeat split; try lia.
    apply IH; [assumption | assumption | assumption | | lia].
    rewrite Forall_forall in *. intros x Hx.
    specialize (Hm x Hx). specialize (Hd1 x Hx). specialize (Ho' x Hx).
    destruct Ho' as (Hx1 & _). unfold start_le_prop, disjoint in *. lia.
Qed.

(** The replacements of [mask_text], made from right to left, give the
    rendering from left to right. *)
Lemma replace_all_render : forall text matches,
  laid_out text 0 matches ->
  fold_left
    (fun result_ match_ =>
       slice_to result_ (start match_) ++ masked_value match_
         ++ slice_from result_ (end_ match_))
    (sorted start_ge matches) text
  = render text 0 matches.
Proof.
  intros text ms H.
  rewrite (sorted_start_ge_rev _ _ _ H).
  rewrite <- fold_left_rev_right, rev_involutive.
  pose proof (replace_spans_render text ms 0 (Z.le_refl 0) H) as E.
  replace (render text 0 ms) with (slice_to text 0 ++ render text 0 ms)
    by (rewrite slice_to_firstn by lia; reflexivity).
  rewrite <- E. reflexivity.
Qed.

(** X1.  [mask_text] given matches that lie in the text from left to right,
    each span non-empty and none reaching into the next: the result is the
    text with every span replaced by the masked value of its match and every
    character outside the spans kept in place; the detector is unchanged. *)
Theorem mask_text_render : forall self text matches confidence_threshold,
  laid_out text 0 matches ->
  mask_text self text (Some matches) confidence_threshold
  = Ok (render text 0 matches, self).
Proof.
  intros self text ms thr H. unfold mask_text. cbn [bind].
  destruct ms as [| m ms].
  - simpl. rewrite slice_from_skipn by lia. reflexivity.
  - now rewrite (replace_all_render _ _ H).
Qed.

Lemma mask_text_render_witness :
  laid_out (lit "call 555 now") 0
    [mkPIIMatch (lit "PHONE") (lit "555") 5 8 1 (lit "[PHONE]") None] /\
  mask_text (PIIDetector_init true true false) (lit "call 555 now")
    (Some [mkPIIMatch (lit "PHONE") (lit "555") 5 8 1 (lit "[PHONE]") None]) 0
  = Ok (lit "call [PHONE] now", PIIDetector_init true true false).
Proof.
  split; [simpl; unfold len; simpl; lia |].
  apply (mask_text_render (PIIDetector_init true true false)
           (lit "call 555 now")
           [mkPIIMatch (lit "PHONE") (lit "555") 5 8 1 (lit "[PHONE]") None] 0).
  simpl; unfold len; simpl; lia.
Defined.

(** X2.  [mask_text] without matches detects them itself: the matches of
    [detect_all] lie in the text from left to right, and the result is the
    text with exactly their spans replaced by their masked values. *)
Theorem mask_text_detected : forall self text confidence_threshold,
  exists matches self',
    detect_all self text confidence_threshold None = Ok (matches, self') /\
    laid_out text 0 matches /\
    mask_text self text None confidence_threshold
    = Ok (render text 0 matches, self').
Proof.
  intros [mk cfg ecv esv st] text thr.
  destruct (detect_all_ok text None mk cfg ecv esv) as (all & mk' & Hs & _ & _ & H).
  destruct (H thr st) as (final & Hr & Hd).
  destruct (resolve_overlaps_ok (filter (above thr) all))
    as (r & Hr' & Hdis & Hsort & Hin).
  rewrite Hr in Hr'. inversion Hr'; subst r. clear Hr'.
  assert (Hl : laid_out text 0 final).
  { apply sorted_disjoint_laid_out; auto.
    - apply Forall_forall. intros x Hx. apply Hin, filter_In in Hx as [Hx _].
      rewrite Forall_forall in Hs. now apply Hs.
    - apply Forall_forall. intros x Hx. apply Hin, filter_In in Hx as [Hx _].
      rewrite Forall_forall in Hs. apply Hs in Hx. destruct Hx as (Hx & _). lia.
    - apply len_nonneg. }
  eexists _, _. split; [exact Hd |]. split; [exact Hl |].
  unfold mask_text. rewrite Hd. cbn [bind].
  destruct final as [| m ms].
  - simpl. rewrite slice_from_skipn by lia. reflexivity.
  - now rewrite (replace_all_render _ _ Hl).
Qed.

(* ================================================================== *)
(** * Proofs: what the resolver keeps *)

Lemma no_overlap_sym : forall a b, no_overlap a b -> no_overlap b a.
Proof.
  intros a b H. apply has_overlap_false. apply disjoint_sym.
  now apply has_overlap_false.
Qed.

(** An accepted match stays accepted while the matches that follow do not
    overlap it. *)
Lemma resolve_loop_keeps : forall x ms res r,
  StronglySorted start_le_prop ms ->
  (forall e m, In e res -> In m ms -> start e <= start m) ->
  ForallOrdPairs disjoint res ->
  resolve_loop ms res = Ok r ->
  In x res -> Forall (fun m => no_overlap m x) ms -> In x r.
Proof.
  intros x ms. induction ms as [| m ms IH]; intros res r Hs Hb Hd Hr Hx Hn.
  - simpl in Hr. inversion Hr; subst. exact Hx.
  - inversion Hs as [| ? ? Hs' Hm]; subst.
    inversion Hn as [| ? ? Hn1 Hn']; subst.
    destruct (resolve_scan_outcome m res) as (r1 & Hr1 & Ho).
    { split; [assumption |]. apply Forall_forall. intros e He.
      apply Hb; simpl; auto. }
    cbn [resolve_loop] in Hr. rewrite Hr1 in Hr. cbn [bind] in Hr.
    apply (IH r1 r); auto.
    + intros e m' He Hm'.
      destruct (scan_outcome_incl m res r1 e Ho He) as [He' | ->].
      * apply Hb; simpl; auto.
      * rewrite Forall_forall in Hm. now apply Hm.
    + eapply scan_outcome_disjoint; eauto.
    + destruct Ho as [_ | pre e post Heq _ _ He _ | pre e post _ _ _ _ _].
      * apply in_app_iff. now left.
      * subst res. apply in_app_iff in Hx as [Hx | [Hx | Hx]].
        -- apply in_app_iff. now left.
        -- subst e. unfold no_overlap in Hn1. congruence.
        -- apply in_app_iff. right. apply in_app_iff. now left.
      * exact Hx.
Qed.

(** A match that overlaps nothing accepted before it, nothing processed
    before it and nothing processed after it is in the result. *)
Lemma resolve_loop_isolated : forall x s1 s2 res r,
  StronglySorted start_le_prop (s1 ++ x :: s2) ->
  (forall e m, In e res -> In m (s1 ++ x :: s2) -> start e <= start m) ->
  ForallOrdPairs disjoint res ->
  resolve_loop (s1 ++ x :: s2) res = Ok r ->
  Forall (no_overlap x) res -> Forall (no_overlap x) s1 ->
  Forall (no_overlap x) s2 -> In x r.
Proof.
  intros x s1. induction s1 as [| m s1 IH];
    intros s2 res r Hs Hb Hd Hr Hres H1 H2.
  - simpl in *. inversion Hs as [| ? ? Hs' Hm]; subst.
    rewrite (resolve_scan_miss x res Hres) in Hr. cbn [bind] in Hr.
    apply (resolve_loop_keeps x s2 (res ++ [x]) r); auto.
    + intros e m' He Hm'. apply in_app_iff in He as [He | [<- | []]].
      * apply Hb; auto.
      * rewrite Forall_forall in Hm. now apply Hm.
    + eapply scan_outcome_disjoint; [exact Hd |]. now apply scan_append.
    + apply in_app_iff. right. now left.
    + eapply Forall_impl; [| exact H2]. intros a Ha. now apply no_overlap_sym.
  - simpl in Hs, Hr. inversion Hs as [| ? ? Hs' Hm]; subst.
    inversion H1 as [| ? ? H1m H1']; subst.
    destruct (resolve_scan_outcome m res) as (r1 & Hr1 & Ho).
    { split; [assumption |]. apply Forall_forall. intros e He.
      apply Hb; simpl; auto. }
    rewrite Hr1 in Hr. cbn [bind] in Hr.
    apply (IH s2 r1 r); auto.
    + intros e m' He Hm'.
      destruct (scan_outcome_incl m res r1 e Ho He) as [He' | ->].
      * apply Hb; simpl; auto.
      * rewrite Forall_forall in Hm. now apply Hm.
    + eapply scan_outcome_disjoint; eauto.
    + apply Forall_forall. intros e He.
      destruct (scan_outcome_incl m res r1 e Ho He) as [He' | ->].
      * rewrite Forall_forall in Hres. now apply Hres.
      * exact H1m.
Qed.

(** Without overlaps every turn of the outer loop appends. *)
Lemma resolve_loop_append : forall ms res,
  Forall (fun m => Forall (no_overlap m) res) ms ->
  ForallOrdPairs (fun a b => no_overlap b a) ms ->
  resolve_loop ms res = Ok (res ++ ms).
Proof.
  intros ms. induction ms as [| m ms IH]; intros res H1 H2; simpl.
  - now rewrite app_nil_r.
  - inversion H1 as [| ? ? Hm H1']; subst.
    apply FOP_cons_iff in H2 as [H2m H2'].
    rewrite (resolve_scan_miss m res Hm). cbn [bind].
    rewrite IH; auto.
    + now rewrite <- app_assoc.
    + rewrite Forall_forall in *. intros m' Hm'. apply Forall_app. split.
      * now apply H1'.
      * constructor; [| constructor]. now apply H2m.
Qed.

Lemma FOP_impl : forall (A : Type) (R S : A -> A -> Prop) l,
  (forall a b, R a b -> S a b) -> ForallOrdPairs R l -> ForallOrdPairs S l.
Proof.
  intros A R S l H. induction 1 as [| x l Hx _ IH]; constructor; auto.
  eapply Forall_impl; [| exact Hx]. auto.
Qed.

Lemma resolve_overlaps_all : forall matches,
  ForallOrdPairs no_overlap matches ->
  resolve_overlaps matches
  = Ok (sorted start_le (sorted overlap_key_le matches)).
Proof.
  intros [| m0 ms] H; [reflexivity |].
  unfold resolve_overlaps.
  rewrite (resolve_loop_append (sorted overlap_key_le (m0 :: ms)) []).
  - reflexivity.
  - apply Forall_forall. intros; constructor.
  - apply (FOP_impl _ no_overlap); [exact no_overlap_sym |].
    eapply FOP_Permutation; [exact no_overlap_sym | apply sorted_Permutation |].
    exact H.
Qed.

(** A list already in order is left as it is by the insertion sort. *)
Lemma sorted_fixed : forall (A : Type) (le : A -> A -> bool) l,
  StronglySorted (fun a b => le a b = true) l -> sorted le l = l.
Proof.
  intros A le l H. induction H as [| x l _ IH Hx]; simpl.
  - reflexivity.
  - rewrite IH. destruct Hx as [| y l Hy _]; simpl; [reflexivity |].
    now rewrite Hy.
Qed.

Lemma StronglySorted_impl : forall (A : Type) (R S : A -> A -> Prop) l,
  (forall a b, In a l -> In b l -> R a b -> S a b) ->
  StronglySorted R l -> StronglySorted S l.
Proof.
  intros A R S l H Hs. induction Hs as [| x l _ IH Hx]; constructor.
  - apply IH. intros a b Ha Hb. apply H; simpl; auto.
  - rewrite Forall_forall in *. intros y Hy. apply H; simpl; auto.
Qed.

Lemma SS_FOP_and : forall (A : Type) (R S : A -> A -> Prop) l,
  StronglySorted R l -> ForallOrdPairs S l ->
  StronglySorted (fun a b => R a b /\ S a b) l.
Proof.
  intros A R S l H. induction H as [| x l _ IH Hx]; intro Hf; constructor.
  - apply IH. now apply FOP_cons_iff in Hf.
  - apply FOP_cons_iff in Hf as [Hf _]. rewrite Forall_forall in *. auto.
Qed.

(** X3.  [resolve_overlaps] never drops a match that overlaps no other
    candidate: such a match is in the result, whatever its confidence and
    whatever happens to the other candidates. *)
Theorem resolve_overlaps_keeps_isolated : forall before x after,
  Forall (no_overlap x) before -> Forall (no_overlap x) after ->
  exists r, resolve_overlaps (before ++ x :: after) = Ok r /\ In x r.
Proof.
  intros l1 x l2 H1 H2.
  destruct (resolve_overlaps_ok (l1 ++ x :: l2)) as (r & Hr & _).
  exists r. split; [exact Hr |].
  unfold resolve_overlaps in Hr.
  destruct (l1 ++ x :: l2) as [| m0 ms] eqn:El; [now destruct l1 |].
  rewrite <- El in *. clear El m0 ms.
  set (s := sorted overlap_key_le (l1 ++ x :: l2)) in *.
  assert (Hp : Permutation (l1 ++ x :: l2) s) by apply sorted_Permutation.
  assert (Hx : In x s).
  { apply (Permutation_in x Hp). apply in_app_iff. right. now left. }
  apply in_split in Hx as (s1 & s2 & Es).
  assert (Hs : StronglySorted start_le_prop s) by apply sorted_key_start.
  rewrite Es in Hp, Hs, Hr.
  apply Permutation_app_inv in Hp.
  assert (Hn : Forall (no_overlap x) (s1 ++ s2)).
  { eapply Permutation_Forall; [exact Hp |]. apply Forall_app. now split. }
  apply Forall_app in Hn as [Hn1 Hn2].
  destruct (resolve_loop (s1 ++ x :: s2) []) as [r0 | e] eqn:E;
    cbn [bind] in Hr; [| discriminate].
  inversion Hr; subst r. apply sorted_In.
  apply (resolve_loop_isolated x s1 s2 [] r0); auto.
  - intros e m [].
  - constructor.
Qed.

Lemma resolve_overlaps_keeps_isolated_witness :
  exists r,
    resolve_overlaps
      ([mkPIIMatch (lit "A") (lit "ab") 0 2 1 [] None]
         ++ mkPIIMatch (lit "B") (lit "c") 5 6 0 [] None
         :: [mkPIIMatch (lit "C") (lit "bc") 1 3 1 [] None]) = Ok r /\
    In (mkPIIMatch (lit "B") (lit "c") 5 6 0 [] None) r.
Proof.
  apply (resolve_overlaps_keeps_isolated
           [mkPIIMatch (lit "A") (lit "ab") 0 2 1 [] None]
           (mkPIIMatch (lit "B") (lit "c") 5 6 0 [] None)
           [mkPIIMatch (lit "C") (lit "bc") 1 3 1 [] None]);
    repeat constructor.
Defined.

(** X4.  When no two candidates overlap, [resolve_overlaps] returns all of
    them: the result is the input sorted by start, spans with equal starts
    by decreasing confidence. *)
Theorem resolve_overlaps_no_overlap : forall matches,
  ForallOrdPairs no_overlap matches ->
  exists r,
    resolve_overlaps matches = Ok r /\
    r = sorted start_le (sorted overlap_key_le matches) /\
    Permutation matches r /\
    List.length r = List.length matches.
Proof.
  intros l H. eexists. split; [apply (resolve_overlaps_all l H) |].
  split; [reflexivity |].
  assert (Hp : Permutation l (sorted start_le (sorted overlap_key_le l))).
  { eapply Permutation_trans; apply sorted_Permutation. }
  split; [exact Hp |]. symmetry. now apply Permutation_length.
Qed.

Lemma resolve_overlaps_no_overlap_witness :
  exists r,
    resolve_overlaps
      [mkPIIMatch (lit "B") (lit "c") 5 6 0 [] None;
       mkPIIMatch (lit "A") (lit "ab") 0 2 1 [] None] = Ok r /\
    r = sorted start_le (sorted overlap_key_le
          [mkPIIMatch (lit "B") (lit "c") 5 6 0 [] None;
           mkPIIMatch (lit "A") (lit "ab") 0 2 1 [] None]) /\
    Permutation [mkPIIMatch (lit "B") (lit "c") 5 6 0 [] None;
                 mkPIIMatch (lit "A") (lit "ab") 0 2 1 [] None] r /\
    List.length r = 2%nat.
Proof.
  apply (resolve_overlaps_no_overlap
           [mkPIIMatch (lit "B") (lit "c") 5 6 0 [] None;
            mkPIIMatch (lit "A") (lit "ab") 0 2 1 [] None]).
  repeat constructor.
Defined.

(** X5.  [resolve_overlaps] is idempotent on matches with non-empty spans:
    resolving its own result returns that result unchanged. *)
Theorem resolve_overlaps_idempotent : forall matches r,
  Forall (fun m => start m < end_ m) matches ->
  resolve_overlaps matches = Ok r ->
  resolve_overlaps r = Ok r.
Proof.
  intros l r Hne Hr.
  destruct (resolve_overlaps_ok l) as (r' & Hr' & Hd & Hs & Hin).
  rewrite Hr in Hr'. inversion Hr'; subst r'. clear Hr'.
  assert (Hlt : StronglySorted (fun a b => start a < start b) r).
  { apply (StronglySorted_impl _ (fun a b => start_le_prop a b /\ disjoint a b)).
    - intros a b Ha Hb [H1 H2]. rewrite Forall_forall in Hne.
      pose proof (Hne a (Hin a Ha)). pose proof (Hne b (Hin b Hb)).
      unfold start_le_prop, disjoint in *. lia.
    - now apply SS_FOP_and. }
  rewrite resolve_overlaps_all.
  - rewrite (sorted_fixed _ overlap_key_le r).
    + rewrite (sorted_fixed _ start_le r); [reflexivity |].
      eapply StronglySorted_impl; [| exact Hlt].
      intros a b _ _ H. unfold start_le. apply Z.leb_le. simpl in H. lia.
    + eapply StronglySorted_impl; [| exact Hlt].
      intros a b _ _ H. apply overlap_key_le_spec. simpl in H. lia.
  - eapply FOP_impl; [| exact Hd]. intros a b. apply has_overlap_false.
Qed.

Lemma resolve_overlaps_idempotent_witness :
  resolve_overlaps [mkPIIMatch (lit "A") (lit "ab") 0 2 1 [] None]
  = Ok [mkPIIMatch (lit "A") (lit "ab") 0 2 1 [] None].
Proof.
  apply (resolve_overlaps_idempotent
           [mkPIIMatch (lit "A") (lit "ab") 0 2 1 [] None;
            mkPIIMatch (lit "C") (lit "bc") 1 3 1 [] None]).
  - repeat constructor.
  - vm_compute. reflexivity.
Defined.

(* ================================================================== *)
(** * Proofs: two overlapping matches *)

Lemma list_remove_single : forall e, list_remove PIIMatch_eqb [e] e = Ok [].
Proof. intro e. simpl. now rewrite PIIMatch_eqb_refl. Qed.

Lemma resolve_two : forall x y,
  _has_overlap y x = true ->
  resolve_loop [x; y] []
  = Ok [if Qlt_bool (confidence x) (confidence y) then y else x].
Proof.
  intros x y H. cbn [resolve_loop resolve_scan app bind]. rewrite H.
  destruct (Qlt_bool (confidence x) (confidence y)); [| reflexivity].
  rewrite list_remove_single. reflexivity.
Qed.

(** X6.  Of two matches that overlap, [resolve_overlaps] keeps exactly
    one: the one of strictly higher confidence, else the one that starts
    first, else the first of the two. *)
Theorem resolve_overlaps_pair : forall a b,
  _has_overlap a b = true ->
  resolve_overlaps [a; b] = Ok [pair_winner a b].
Proof.
  intros a b H. unfold resolve_overlaps, pair_winner.
  assert (H' : _has_overlap b a = true).
  { apply has_overlap_true. apply has_overlap_true in H. tauto. }
  cbn [sorted insert_by].
  destruct (overlap_key_le a b) eqn:Ek.
  - rewrite (resolve_two a b H'). cbn [bind sorted insert_by].
    apply overlap_key_le_spec in Ek.
    destruct (Qlt_bool (confidence a) (confidence b)) eqn:Eab; [reflexivity |].
    destruct (Qlt_bool (confidence b) (confidence a)) eqn:Eba; [reflexivity |].
    assert (E : (start b <? start a) = false) by (apply Z.ltb_ge; lia).
    now rewrite E.
  - rewrite (resolve_two b a H). cbn [bind sorted insert_by].
    destruct (overlap_key_le_total a b) as [Et | Et]; [congruence |].
    apply overlap_key_le_spec in Et.
    assert (Hn : ~ (start a < start b \/
                    start a = start b /\ (confidence b <= confidence a)%Q)).
    { intro Hc. assert (Hk : overlap_key_le a b = true); [| congruence].
      apply overlap_key_le_spec. destruct Hc as [Hc | [Hc1 Hc2]]; [now left |].
      right. split; [exact Hc1 |]. now apply Qopp_le_compat. }
    destruct (Qlt_bool (confidence b) (confidence a)) eqn:Eba.
    + assert (Eab : Qlt_bool (confidence a) (confidence b) = false).
      { unfold Qlt_bool in *. apply negb_true_iff in Eba.
        apply negb_false_iff. apply Qle_bool_iff.
        apply Qle_bool_false in Eba. now apply Qlt_le_weak. }
      now rewrite Eab.
    + destruct (Qlt_bool (confidence a) (confidence b)) eqn:Eab; [reflexivity |].
      assert (E : (start b <? start a) = true).
      { apply Z.ltb_lt. unfold Qlt_bool in Eba. apply negb_false_iff in Eba.
        apply Qle_bool_iff in Eba.
        destruct Et as [Et | [Et _]]; [exact Et |]. exfalso. apply Hn.
        right. split; [lia |]. unfold Qlt_bool in Eab.
        apply negb_false_iff in Eab. now apply Qle_bool_iff. }
      now rewrite E.
Qed.

Lemma resolve_overlaps_pair_witness :
  resolve_overlaps
    [mkPIIMatch (lit "A") (lit "ab") 0 2 (1 # 2) [] None;
     mkPIIMatch (lit "B") (lit "bc") 1 3 (1 # 2) [] None]
  = Ok [mkPIIMatch (lit "A") (lit "ab") 0 2 (1 # 2) [] None].
Proof.
  apply (resolve_overlaps_pair
           (mkPIIMatch (lit "A") (lit "ab") 0 2 (1 # 2) [] None)
           (mkPIIMatch (lit "B") (lit "bc") 1 3 (1 # 2) [] None)).
  reflexivity.
Defined.

(* ================================================================== *)
(** * Proofs: what the scanners produce *)

Lemma mask_default : forall mk value pii_type strategy r mk',
  mask mk value pii_type strategy = Ok (r, mk') ->
  default_strategy mk' = default_strategy mk.
Proof.
  intros mk v t st r mk' H.
  destruct (mask_ok mk v t st) as (r0 & mk0 & E & Hd & _).
  rewrite E in H. inversion H; subst. exact Hd.
Qed.

Section Candidates.
Variable P : PIIMatch -> Prop.
Variable cfg : MaskingConfig.
Variable ds : MaskingStrategy.

Lemma configured_with_masker : forall self value pii_type strategy r mk',
  configured cfg ds self ->
  mask (masker self) value pii_type strategy = Ok (r, mk') ->
  configured cfg ds (with_masker self mk').
Proof.
  intros self v t st r mk' [Hc Hd] H. split; [exact Hc |].
  unfold with_masker. cbn [masker]. rewrite (mask_default _ _ _ _ _ _ H).
  exact Hd.
Qed.

Lemma pattern_finditer_loop_all : forall text pd ms self o s,
  configured cfg ds self -> pattern_candidates P cfg ds pd ->
  pattern_finditer_loop self text pd ms = Ok (o, s) ->
  Forall P o /\ configured cfg ds s.
Proof.
  intros text pd ms; induction ms as [| m ms IH]; intros self o s Hi HP H;
    cbn [pattern_finditer_loop] in H.
  - ok_inv H. split; [constructor | exact Hi].
  - destruct (if pat_requires_validation pd && enable_strict_validation self
              then _validate_match (group0 m) (pat_pii_type pd)
              else Ok true) as [[|] | e]; cbn [bind negb] in H;
      [| eauto | discriminate].
    destruct (mask (masker self) (group0 m) (pat_pii_type pd)
                (Some (get_strategy (masking_config self) (pat_pii_type pd))))
      as [[r1 mk1] | e] eqn:Em; cbn [bind] in H; [| discriminate].
    destruct (pattern_finditer_loop (with_masker self mk1) text pd ms)
      as [[rest1 t1] | e] eqn:E1; cbn [bind] in H; [| discriminate].
    ok_inv H.
    destruct (IH _ _ _ (configured_with_masker _ _ _ _ _ _ Hi Em) HP E1)
      as [Hrest Hs].
    split; [| exact Hs]. constructor; [| exact Hrest].
    unfold _calculate_confidence. destruct Hi as [Hc Hd]. rewrite Hc in Em.
    exact (HP _ _ _ _ _ _ _ _ _ Hd Em).
Qed.

Lemma pattern_loop_all : forall text pii_types pats self o s,
  configured cfg ds self ->
  (forall pr, In pr pats -> skipped pii_types (fst pr) = false ->
              pattern_candidates P cfg ds (fst pr)) ->
  pattern_loop self text pii_types pats = Ok (o, s) ->
  Forall P o /\ configured cfg ds s.
Proof.
  intros text pii_types pats; induction pats as [| [pd re] pats IH];
    intros self o s Hi HP H; cbn [pattern_loop] in H.
  - ok_inv H. split; [constructor | exact Hi].
  - fold (skipped pii_types pd) in H.
    destruct (skipped pii_types pd) eqn:Es.
    + apply (IH self o s Hi); [| exact H]. intros pr Hpr. apply HP. now right.
    + destruct (pattern_finditer_loop self text pd (finditer re text))
        as [[f1 t1] | e] eqn:E1; cbn [bind] in H; [| discriminate].
      destruct (pattern_loop t1 text pii_types pats)
        as [[f2 t2] | e] eqn:E2; cbn [bind] in H; [| discriminate].
      ok_inv H.
      destruct (pattern_finditer_loop_all _ _ _ _ _ _ Hi
                  (HP (pd, re) (or_introl eq_refl) Es) E1) as [Hf1 Hi1].
      destruct (IH t1 f2 s Hi1) as [Hf2 Hi2]; [| exact E2 |].
      * intros pr Hpr. apply HP. now right.
      * split; [| exact Hi2]. apply Forall_app. now split.
Qed.

Lemma name_match_all : forall self text full_name conf_yes conf_no o s,
  configured cfg ds self ->
  constant_candidates P ds PERSON_NAME [conf_yes; conf_no] ->
  name_match self text full_name conf_yes conf_no = Ok (o, s) ->
  Forall P o /\ configured cfg ds s.
Proof.
  intros self text full_name cy cn o s Hi HP H. unfold name_match in H.
  destruct (negb (find text full_name =? -1)).
  - destruct (mask (masker self) full_name PERSON_NAME None)
      as [[r1 mk1] | e] eqn:Em; cbn [bind] in H; [| discriminate].
    ok_inv H. split; [| exact (configured_with_masker _ _ _ _ _ _ Hi Em)].
    constructor; [| constructor].
    apply (HP _ _ _ _ _ _ _) with (3 := Em); [| apply Hi].
    destruct (if enable_context_validation self
              then is_likely_name_context text (find text full_name)
                     (find text full_name + len full_name)
              else true); simpl; auto.
  - ok_inv H. split; [constructor | exact Hi].
Qed.

Lemma names_loop_all : forall text words fuel self i o s,
  configured cfg ds self ->
  constant_candidates P ds PERSON_NAME [0.85; 0.70; 0.75; 0.60]%Q ->
  names_loop self text words fuel i = Ok (o, s) ->
  Forall P o /\ configured cfg ds s.
Proof.
  intros text words fuel; induction fuel as [| fuel IH];
    intros self i o s Hi HP H; cbn [names_loop] in H.
  - ok_inv H. split; [constructor | exact Hi].
  - destruct (i <? len words); [| ok_inv H; split; [constructor | exact Hi]].
    destruct (index words i) as [w | e]; cbn [bind] in H; [| discriminate].
    destruct (str_in (lower (strip punctuation w)) PREFIXES
              && (i + 1 <? len words)).
    + destruct (_extract_name_sequence words i text) as [[parts next_i] | e];
        cbn [bind] in H; [| discriminate].
      destruct (if negb (len parts =? 0) && (len parts >=? 2)
                then name_match self text (join (lit " ") parts) 0.85 0.70
                else Ok ([], self)) as [[f1 t1] | e] eqn:E1;
        cbn [bind] in H; [| discriminate].
      destruct (names_loop t1 text words fuel next_i)
        as [[f2 t2] | e] eqn:E2; cbn [bind] in H; [| discriminate].
      ok_inv H.
      assert (H1 : Forall P f1 /\ configured cfg ds t1).
      { destruct (negb (len parts =? 0) && (len parts >=? 2)).
        - apply (name_match_all _ _ _ _ _ _ _ Hi) in E1; [exact E1 |].
          intros v a b c mv mk mk' [<- | [<- | []]]; apply HP; simpl; auto.
        - ok_inv E1. split; [constructor | exact Hi]. }
      destruct H1 as [Hf1 Hi1].
      destruct (IH _ _ _ _ Hi1 HP E2) as [Hf2 Hi2].
      split; [| exact Hi2]. apply Forall_app. now split.
    + destruct (str_in (lower (strip punctuation w)) COMMON_FIRST_NAMES
                && (i + 1 <? len words)); [| eauto].
      destruct (index words (i + 1)) as [w1 | e]; cbn [bind] in H;
        [| discriminate].
      destruct (if is_capitalized_word (strip punctuation w1)
                   && (len (strip punctuation w1) >? 2)
                then name_match self text (w ++ lit " " ++ w1) 0.75 0.60
                else Ok ([], self)) as [[f1 t1] | e] eqn:E1;
        cbn [bind] in H; [| discriminate].
      destruct (names_loop t1 text words fuel (i + 2))
        as [[f2 t2] | e] eqn:E2; cbn [bind] in H; [| discriminate].
      ok_inv H.
      assert (H1 : Forall P f1 /\ configured cfg ds t1).
      { destruct (is_capitalized_word (strip punctuation w1)
                  && (len (strip punctuation w1) >? 2)).
        - apply (name_match_all _ _ _ _ _ _ _ Hi) in E1; [exact E1 |].
          intros v a b c mv mk mk' [<- | [<- | []]]; apply HP; simpl; auto.
        - ok_inv E1. split; [constructor | exact Hi]. }
      destruct H1 as [Hf1 Hi1].
      destruct (IH _ _ _ _ Hi1 HP E2) as [Hf2 Hi2].
      split; [| exact Hi2]. apply Forall_app. now split.
Qed.

Lemma address_loop_all : forall text ms self o s,
  configured cfg ds self ->
  constant_candidates P ds ADDRESS [0.80; 0.65]%Q ->
  address_loop self text ms = Ok (o, s) ->
  Forall P o /\ configured cfg ds s.
Proof.
  intros text ms; induction ms as [| m ms IH]; intros self o s Hi HP H;
    cbn [address_loop] in H.
  - ok_inv H. split; [constructor | exact Hi].
  - destruct (mask (masker self) (group0 m) ADDRESS None)
      as [[r1 mk1] | e] eqn:Em; cbn [bind] in H; [| discriminate].
    destruct (address_loop (with_masker self mk1) text ms)
      as [[rest1 t1] | e] eqn:E1; cbn [bind] in H; [| discriminate].
    ok_inv H.
    destruct (IH _ _ _ (configured_with_masker _ _ _ _ _ _ Hi Em) HP E1)
      as [Hrest Hs].
    split; [| exact Hs]. constructor; [| exact Hrest].
    apply (HP _ _ _ _ _ _ _) with (3 := Em); [| apply Hi].
    destruct (if enable_context_validation self
              then is_likely_address_context text (m_start m) (m_end m)
              else true); simpl; auto.
Qed.

(** What holds of every candidate holds of every match returned, which
    moreover passed the threshold. *)
Lemma detect_all_all : forall self text thr pii_types ms s,
  configured cfg ds self ->
  (forall pr, In pr _compiled_patterns -> skipped pii_types (fst pr) = false ->
              pattern_candidates P cfg ds (fst pr)) ->
  (requested pii_types PERSON_NAME = true ->
   constant_candidates P ds PERSON_NAME [0.85; 0.70; 0.75; 0.60]%Q) ->
  (requested pii_types ADDRESS = true ->
   constant_candidates P ds ADDRESS [0.80; 0.65]%Q) ->
  detect_all self text thr pii_types = Ok (ms, s) ->
  Forall (fun m => P m /\ above thr m = true) ms.
Proof.
  intros self text thr pii_types ms s Hi H1 H2 H3 H.
  rewrite detect_all_collect in H. unfold collect_matches in H.
  destruct (_detect_pattern_based self text pii_types) as [[pm s1] | e] eqn:E1;
    cbn [bind] in H; [| discriminate].
  destruct (if requested pii_types PERSON_NAME then _detect_names s1 text
            else Ok ([], s1)) as [[nm s2] | e] eqn:E2;
    cbn [bind] in H; [| discriminate].
  destruct (if requested pii_types ADDRESS then _detect_addresses s2 text
            else Ok ([], s2)) as [[am s3] | e] eqn:E3;
    cbn [bind] in H; [| discriminate].
  destruct (pattern_loop_all _ _ _ _ _ _ Hi H1 E1) as [Hpm Hi1].
  assert (Hn : Forall P nm /\ configured cfg ds s2).
  { destruct (requested pii_types PERSON_NAME).
    - apply (names_loop_all _ _ _ _ _ _ _ Hi1 (H2 eq_refl) E2).
    - ok_inv E2. split; [constructor | exact Hi1]. }
  destruct Hn as [Hnm Hi2].
  assert (Ha : Forall P am).
  { destruct (requested pii_types ADDRESS).
    - apply (address_loop_all _ _ _ _ _ Hi2 (H3 eq_refl) E3).
    - ok_inv E3. constructor. }
  assert (Hall : Forall P (pm ++ nm ++ am)).
  { repeat (apply Forall_app; split); assumption. }
  destruct (resolve_overlaps_ok (filter (above thr) (pm ++ nm ++ am)))
    as (r & Hr & _ & _ & Hin).
  rewrite Hr in H. cbn [bind] in H. ok_inv H.
  apply Forall_forall. intros x Hx. apply Hin, filter_In in Hx as [Hx Ha'].
  split; [| exact Ha']. rewrite Forall_forall in Hall. now apply Hall.
Qed.
End Candidates.

Lemma qmin_le_l : forall a b, (qmin a b <= a)%Q.
Proof.
  intros a b. unfold qmin. destruct (Qlt_bool b a) eqn:E.
  - apply Qlt_bool_iff in E. now apply Qlt_le_weak.
  - apply Qle_refl.
Qed.

Lemma qmax_ge_l : forall a b, (a <= qmax a b)%Q.
Proof.
  intros a b. unfold qmax. destruct (Qlt_bool a b) eqn:E.
  - apply Qlt_bool_iff in E. now apply Qlt_le_weak.
  - apply Qle_refl.
Qed.

Lemma qmax_le : forall a b c, (a <= c)%Q -> (b <= c)%Q -> (qmax a b <= c)%Q.
Proof. intros a b c Ha Hb. unfold qmax. now destruct (Qlt_bool a b). Qed.

Lemma adjust_confidence_range : forall base cm vp la,
  (0 <= adjust_confidence base cm vp la <= 1)%Q.
Proof.
  intros base cm vp la. unfold adjust_confidence. split.
  - apply qmax_ge_l.
  - apply qmax_le; [discriminate | apply qmin_le_l].
Qed.

Lemma PIIType_in_In : forall t ts, PIIType_in t ts = true -> In t ts.
Proof.
  intros t ts H. unfold PIIType_in in H. apply existsb_exists in H as (x & Hx & E).
  apply PIIType_eqb_eq in E. now subst.
Qed.

(** X7.  Every match [detect_all] returns has a confidence between 0 and 1
    that reaches the threshold; a threshold above 1 leaves no match. *)
Theorem detect_all_confidence : forall self text confidence_threshold pii_types,
  exists matches self',
    detect_all self text confidence_threshold pii_types = Ok (matches, self') /\
    Forall (fun m => (confidence_threshold <= confidence m)%Q /\
                     (0 <= confidence m <= 1)%Q) matches /\
    ((1 < confidence_threshold)%Q -> matches = []).
Proof.
  intros [mk cfg ecv esv st] text thr pii_types.
  destruct (detect_all_ok text pii_types mk cfg ecv esv) as (all & mk' & _ & _ & _ & H).
  destruct (H thr st) as (final & _ & Hd).
  exists final, (record_statistics (mkPIIDetector mk' cfg ecv esv st) final).
  split; [exact Hd |].
  assert (Hall : Forall (fun m => (thr <= confidence m)%Q /\
                                  (0 <= confidence m <= 1)%Q) final).
  { eapply Forall_impl;
      [| apply (detect_all_all (fun m => (0 <= confidence m <= 1)%Q)
                  cfg (default_strategy mk) _ _ _ _ _ _)
           with (5 := Hd)].
    - intros m [Hm Ha]. split; [| exact Hm]. now apply Qle_bool_iff.
    - split; reflexivity.
    - intros pr _ _ v s e cm vp la mv mk0 mk0' _ _.
      apply adjust_confidence_range.
    - intros _ v s e c mv mk0 mk0' Hc _ _. cbn [confidence].
      destruct Hc as [<- | [<- | [<- | [<- | []]]]]; split; discriminate.
    - intros _ v s e c mv mk0 mk0' Hc _ _. cbn [confidence].
      destruct Hc as [<- | [<- | []]]; split; discriminate. }
  split; [exact Hall |].
  intro Hthr. destruct final as [| m ms]; [reflexivity |].
  inversion Hall as [| ? ? (H1 & _ & H2) _]; subst. exfalso.
  apply (Qlt_irrefl 1). eapply Qlt_le_trans; [exact Hthr |].
  eapply Qle_trans; eauto.
Qed.

(** X8.  With a non-empty list of types, [detect_all] returns only matches
    of the listed types. *)
Theorem detect_all_listed_types : forall self text confidence_threshold ts,
  ts <> [] ->
  exists matches self',
    detect_all self text confidence_threshold (Some ts) = Ok (matches, self') /\
    Forall (fun m => exists t, In t ts /\ pii_type m = PIIType_value t) matches.
Proof.
  intros [mk cfg ecv esv st] text thr ts Hts.
  destruct (detect_all_ok text (Some ts) mk cfg ecv esv)
    as (all & mk' & _ & _ & _ & H).
  destruct (H thr st) as (final & _ & Hd).
  exists final, (record_statistics (mkPIIDetector mk' cfg ecv esv st) final).
  split; [exact Hd |].
  eapply Forall_impl;
    [| apply (detect_all_all
                (fun m => exists t, In t ts /\ pii_type m = PIIType_value t)
                cfg (default_strategy mk) _ _ _ _ _ _) with (5 := Hd)].
  - intros m [Hm _]. exact Hm.
  - split; reflexivity.
  - intros [pd re] _ Hs v s e cm vp la mv mk0 mk0' _ _. exists (pat_pii_type pd).
    split; [| reflexivity]. apply PIIType_in_In.
    unfold skipped in Hs. cbn [fst] in Hs.
    destruct ts as [| t0 ts']; [congruence |]. cbn [truthy andb] in Hs.
    now apply negb_false_iff in Hs.
  - intros Hr v s e c mv mk0 mk0' _ _ _. exists PERSON_NAME.
    split; [| reflexivity]. now apply PIIType_in_In.
  - intros Hr v s e c mv mk0 mk0' _ _ _. exists ADDRESS.
    split; [| reflexivity]. now apply PIIType_in_In.
Qed.

Lemma detect_all_listed_types_witness :
  exists matches self',
    detect_all (PIIDetector_init true true false) (lit "a@b.co") 0 (Some [EMAIL])
    = Ok (matches, self') /\
    Forall (fun m => exists t, In t [EMAIL] /\ pii_type m = PIIType_value t)
           matches.
Proof.
  apply (detect_all_listed_types (PIIDetector_init true true false)
           (lit "a@b.co") 0 [EMAIL]).
  discriminate.
Defined.

(** Away from TOKENIZE, [mask] does not depend on the counter of the masker
    and leaves the masker as it is. *)
Lemma mask_counter_free : forall mk mk0 value pii_type strategy r mk',
  default_strategy mk = default_strategy mk0 ->
  effective mk0 strategy <> TOKENIZE ->
  mask mk value pii_type strategy = Ok (r, mk') ->
  mask mk0 value pii_type strategy = Ok (r, mk0).
Proof.
  intros mk mk0 v t st r mk' Hd He H. unfold mask in *.
  assert (E : effective mk st = effective mk0 st)
    by (unfold effective; destruct st; congruence).
  fold (effective mk st) in H. fold (effective mk0 st). rewrite E in H.
  destruct (effective mk0 st); try congruence.
  destruct (_mask_partial v t); cbn [bind] in *; congruence.
Qed.

(** X9.  When no strategy in force is TOKENIZE, the masked value of every
    match [detect_all] returns is what [mask] gives for the value of the
    match, its type and the strategy in force for the type: the configured
    one, or the default of the masker for names and addresses. *)
Theorem detect_all_masked_value :
  forall self text confidence_threshold pii_types,
  tokenize_free self ->
  exists matches self',
    detect_all self text confidence_threshold pii_types = Ok (matches, self') /\
    Forall (fun m => exists t,
              pii_type m = PIIType_value t /\
              mask (masker self) (value m) t (strategy_used self t)
              = Ok (masked_value m, masker self)) matches.
Proof.
  intros [mk cfg ecv esv st] text thr pii_types [Hfd Hfc].
  cbn [masker masking_config] in Hfd, Hfc.
  destruct (detect_all_ok text pii_types mk cfg ecv esv)
    as (all & mk' & _ & _ & _ & H).
  destruct (H thr st) as (final & _ & Hd).
  exists final, (record_statistics (mkPIIDetector mk' cfg ecv esv st) final).
  split; [exact Hd |].
  eapply Forall_impl;
    [| apply (detect_all_all
                (fun m => exists t,
                   pii_type m = PIIType_value t /\
                   mask mk (value m) t
                     (strategy_used (mkPIIDetector mk cfg ecv esv st) t)
                   = Ok (masked_value m, mk))
                cfg (default_strategy mk) _ _ _ _ _ _) with (5 := Hd)].
  - intros m [Hm _]. exact Hm.
  - split; reflexivity.
  - intros [pd re] Hpr _ v s e cm vp la mv mk0 mk0' Hd0 Hm.
    pose proof registry_types as Hreg. rewrite Forall_forall in Hreg.
    destruct (Hreg _ Hpr) as [Hn Ha]. cbn [fst] in *.
    exists (pat_pii_type pd). split; [reflexivity |].
    cbn [value masked_value].
    replace (strategy_used (mkPIIDetector mk cfg ecv esv st) (pat_pii_type pd))
      with (Some (get_strategy cfg (pat_pii_type pd)))
      by (destruct (pat_pii_type pd); try reflexivity; congruence).
    apply (mask_counter_free mk0 mk _ _ _ _ mk0' Hd0); [apply Hfc | exact Hm].
  - intros _ v s e c mv mk0 mk0' _ Hd0 Hm. exists PERSON_NAME.
    split; [reflexivity |]. cbn [value masked_value strategy_used].
    apply (mask_counter_free mk0 mk _ _ _ _ mk0' Hd0); [exact Hfd | exact Hm].
  - intros _ v s e c mv mk0 mk0' _ Hd0 Hm. exists ADDRESS.
    split; [reflexivity |]. cbn [value masked_value strategy_used].
    apply (mask_counter_free mk0 mk _ _ _ _ mk0' Hd0); [exact Hfd | exact Hm].
Qed.

Lemma detect_all_masked_value_witness :
  exists matches self',
    detect_all (PIIDetector_init true true false) (lit "a@b.co") 0 None
    = Ok (matches, self') /\
    Forall (fun m => exists t,
              pii_type m = PIIType_value t /\
              mask (masker (PIIDetector_init true true false)) (value m) t
                (strategy_used (PIIDetector_init true true false) t)
              = Ok (masked_value m, masker (PIIDetector_init true true false)))
           matches.
Proof.
  apply (detect_all_masked_value (PIIDetector_init true true false)
           (lit "a@b.co") 0 None).
  split; [discriminate |]. intros []; discriminate.
Defined.

(* ================================================================== *)
(** * Proofs: what [detect_all] leaves alone *)

(** X10.  [detect_all] does not reconfigure the detector: the masking
    configuration, the two validation switches and the default strategy of
    the masker are the same after the call; without a TOKENIZE strategy in
    force the masker is unchanged, and a detector without statistics stays
    without. *)
Theorem detect_all_frame : forall self text confidence_threshold pii_types,
  exists matches self',
    detect_all self text confidence_threshold pii_types = Ok (matches, self') /\
    masking_config self' = masking_config self /\
    same_flags self self' /\
    default_strategy (masker self') = default_strategy (masker self) /\
    (tokenize_free self -> masker self' = masker self) /\
    (statistics self = None -> statistics self' = None).
Proof.
  intros [mk cfg ecv esv st] text thr pii_types.
  destruct (detect_all_ok text pii_types mk cfg ecv esv)
    as (all & mk' & _ & Hds & Hmk & H).
  destruct (H thr st) as (final & _ & Hd).
  destruct (record_statistics_frame mk' cfg ecv esv st final) as [st' E].
  eexists _, _. split; [exact Hd |]. rewrite E.
  cbn [masking_config masker statistics].
  split; [reflexivity |]. split; [split; reflexivity |].
  split; [exact Hds |]. split.
  - intros [H1 H2]. now apply Hmk.
  - intro Hst. subst st. unfold record_statistics in E. cbn in E.
    now inversion E.
Qed.

(* ================================================================== *)
(** * Proofs: the part the masking configuration plays *)

Section Reconfigure.
Variable cfg : MaskingConfig.

Lemma pattern_finditer_loop_config : forall text pd ms self,
  get_strategy cfg (pat_pii_type pd)
  = get_strategy (masking_config self) (pat_pii_type pd) ->
  pattern_finditer_loop (with_masking_config self cfg) text pd ms
  = with_config_after cfg (pattern_finditer_loop self text pd ms).
Proof.
  intros text pd ms; induction ms as [| m ms IH]; intros self Hs;
    cbn [pattern_finditer_loop].
  - reflexivity.
  - change (enable_strict_validation (with_masking_config self cfg))
      with (enable_strict_validation self).
    change (masker (with_masking_config self cfg)) with (masker self).
    change (masking_config (with_masking_config self cfg)) with cfg.
    change (_calculate_confidence (with_masking_config self cfg))
      with (_calculate_confidence self).
    destruct (if pat_requires_validation pd && enable_strict_validation self
              then _validate_match (group0 m) (pat_pii_type pd)
              else Ok true) as [[|] | e]; cbn [bind negb];
      [| apply IH; exact Hs | reflexivity].
    rewrite Hs.
    destruct (mask (masker self) (group0 m) (pat_pii_type pd)
                (Some (get_strategy (masking_config self) (pat_pii_type pd))))
      as [[r1 mk1] | e]; cbn [bind]; [| reflexivity].
    change (with_masker (with_masking_config self cfg) mk1)
      with (with_masking_config (with_masker self mk1) cfg).
    rewrite IH by exact Hs.
    destruct (pattern_finditer_loop (with_masker self mk1) text pd ms)
      as [[rest s] | e]; reflexivity.
Qed.

Lemma pattern_finditer_loop_keeps_config : forall text pd ms self o s,
  pattern_finditer_loop self text pd ms = Ok (o, s) ->
  masking_config s = masking_config self.
Proof.
  intros text pd ms self o s H.
  destruct (pattern_finditer_loop_all (fun _ => True) (masking_config self)
              (default_strategy (masker self)) text pd ms self o s)
    as [_ [Hc _]]; auto.
  - split; reflexivity.
  - intros v a b cm vp la mv mk mk' _ _. exact I.
Qed.

Lemma pattern_loop_config : forall text pii_types pats self,
  Forall (fun pr => get_strategy cfg (pat_pii_type (fst pr))
                    = get_strategy (masking_config self) (pat_pii_type (fst pr)))
         pats ->
  pattern_loop (with_masking_config self cfg) text pii_types pats
  = with_config_after cfg (pattern_loop self text pii_types pats).
Proof.
  intros text pii_types pats; induction pats as [| [pd re] pats IH];
    intros self Hs; cbn [pattern_loop].
  - reflexivity.
  - inversion Hs as [| ? ? Hpd Hs']; subst. cbn [fst] in Hpd.
    destruct (truthy pii_types &&
              negb (PIIType_in (pat_pii_type pd)
                      (match pii_types with Some ts => ts | None => [] end)));
      [apply IH; exact Hs' |].
    rewrite pattern_finditer_loop_config by exact Hpd.
    destruct (pattern_finditer_loop self text pd (finditer re text))
      as [[f1 t1] | e] eqn:E1; cbn [with_config_after bind]; [| reflexivity].
    rewrite IH.
    + destruct (pattern_loop t1 text pii_types pats) as [[f2 t2] | e];
        reflexivity.
    + rewrite (pattern_finditer_loop_keeps_config _ _ _ _ _ _ E1). exact Hs'.
Qed.

Lemma name_match_config : forall self text full_name conf_yes conf_no,
  name_match (with_masking_config self cfg) text full_name conf_yes conf_no
  = with_config_after cfg (name_match self text full_name conf_yes conf_no).
Proof.
  intros self text full_name cy cn. unfold name_match.
  change (enable_context_validation (with_masking_config self cfg))
    with (enable_context_validation self).
  change (masker (with_masking_config self cfg)) with (masker self).
  destruct (negb (find text full_name =? -1)); [| reflexivity].
  destruct (mask (masker self) full_name PERSON_NAME None) as [[r1 mk1] | e];
    reflexivity.
Qed.

Lemma names_loop_config : forall text words fuel self i,
  names_loop (with_masking_config self cfg) text words fuel i
  = with_config_after cfg (names_loop self text words fuel i).
Proof.
  intros text words fuel; induction fuel as [| fuel IH]; intros self i;
    cbn [names_loop].
  - reflexivity.
  - destruct (i <? len words); [| reflexivity].
    destruct (index words i) as [w | e]; cbn [bind]; [| reflexivity].
    destruct (str_in (lower (strip punctuation w)) PREFIXES
              && (i + 1 <? len words)).
    + destruct (_extract_name_sequence words i text) as [[parts next_i] | e];
        cbn [bind]; [| reflexivity].
      destruct (negb (len parts =? 0) && (len parts >=? 2)).
      * rewrite name_match_config.
        destruct (name_match self text (join (lit " ") parts) 0.85 0.70)
          as [[f1 t1] | e]; cbn [with_config_after bind]; [| reflexivity].
        rewrite IH.
        destruct (names_loop t1 text words fuel next_i) as [[f2 t2] | e];
          reflexivity.
      * cbn [bind]. rewrite IH.
        destruct (names_loop self text words fuel next_i) as [[f2 t2] | e];
          reflexivity.
    + destruct (str_in (lower (strip punctuation w)) COMMON_FIRST_NAMES
                && (i + 1 <? len words)); [| apply IH].
      destruct (index words (i + 1)) as [w1 | e]; cbn [bind]; [| reflexivity].
      destruct (is_capitalized_word (strip punctuation w1)
                && (len (strip punctuation w1) >? 2)).
      * rewrite name_match_config.
        destruct (name_match self text (w ++ lit " " ++ w1) 0.75 0.60)
          as [[f1 t1] | e]; cbn [with_config_after bind]; [| reflexivity].
        rewrite IH.
        destruct (names_loop t1 text words fuel (i + 2)) as [[f2 t2] | e];
          reflexivity.
      * cbn [bind]. rewrite IH.
        destruct (names_loop self text words fuel (i + 2)) as [[f2 t2] | e];
          reflexivity.
Qed.

Lemma address_loop_config : forall text ms self,
  address_loop (with_masking_config self cfg) text ms
  = with_config_after cfg (address_loop self text ms).
Proof.
  intros text ms; induction ms as [| m ms IH]; intro self; cbn [address_loop].
  - reflexivity.
  - change (enable_context_validation (with_masking_config self cfg))
      with (enable_context_validation self).
    change (masker (with_masking_config self cfg)) with (masker self).
    destruct (mask (masker self) (group0 m) ADDRESS None) as [[r1 mk1] | e];
      cbn [bind]; [| reflexivity].
    change (with_masker (with_masking_config self cfg) mk1)
      with (with_masking_config (with_masker self mk1) cfg).
    rewrite IH.
    destruct (address_loop (with_masker self mk1) text ms) as [[rest s] | e];
      reflexivity.
Qed.

Lemma record_statistics_config : forall self final,
  record_statistics (with_masking_config self cfg) final
  = with_masking_config (record_statistics self final) cfg.
Proof.
  intros [mk c ecv esv [st |]] final; reflexivity.
Qed.

(** A configuration that agrees with the detector's on the types of the
    registry can take its place: [detect_all] returns the same matches. *)
Lemma detect_all_config : forall self text thr pii_types,
  Forall (fun pr => get_strategy cfg (pat_pii_type (fst pr))
                    = get_strategy (masking_config self) (pat_pii_type (fst pr)))
         _compiled_patterns ->
  detect_all (with_masking_config self cfg) text thr pii_types
  = with_config_after cfg (detect_all self text thr pii_types).
Proof.
  intros self text thr pii_types Hs. unfold detect_all, _detect_pattern_based.
  rewrite pattern_loop_config by exact Hs.
  destruct (pattern_loop self text pii_types _compiled_patterns)
    as [[pm s1] | e]; cbn [with_config_after bind]; [| reflexivity].
  assert (E2 : (if requested pii_types PERSON_NAME
                then _detect_names (with_masking_config s1 cfg) text
                else Ok ([], with_masking_config s1 cfg))
               = with_config_after cfg
                   (if requested pii_types PERSON_NAME
                    then _detect_names s1 text else Ok ([], s1))).
  { destruct (requested pii_types PERSON_NAME); [| reflexivity].
    apply names_loop_config. }
  rewrite E2.
  destruct (if requested pii_types PERSON_NAME then _detect_names s1 text
            else Ok ([], s1)) as [[nm s2] | e];
    cbn [with_config_after bind]; [| reflexivity].
  assert (E3 : (if requested pii_types ADDRESS
                then _detect_addresses (with_masking_config s2 cfg) text
                else Ok ([], with_masking_config s2 cfg))
               = with_config_after cfg
                   (if requested pii_types ADDRESS
                    then _detect_addresses s2 text else Ok ([], s2))).
  { destruct (requested pii_types ADDRESS); [| reflexivity].
    apply address_loop_config. }
  rewrite E3.
  destruct (if requested pii_types ADDRESS then _detect_addresses s2 text
            else Ok ([], s2)) as [[am s3] | e];
    cbn [with_config_after bind]; [| reflexivity].
  destruct (resolve_overlaps
              (filter (fun m => Qle_bool thr (confidence m)) (pm ++ nm ++ am)))
    as [final | e]; cbn [bind]; [| reflexivity].
  now rewrite record_statistics_config.
Qed.
End Reconfigure.

(** X11.  The strategy configured for names or for addresses plays no part
    in [detect_all]: after [set_masking_strategy] for PERSON_NAME or ADDRESS
    the detector returns the same matches, masked values included, as
    before it. *)
Theorem detect_all_name_address_strategy :
  forall self text confidence_threshold pii_types t strategy,
  t = PERSON_NAME \/ t = ADDRESS ->
  exists matches self',
    detect_all self text confidence_threshold pii_types = Ok (matches, self') /\
    detect_all (set_masking_strategy self t strategy) text confidence_threshold
      pii_types
    = Ok (matches, set_masking_strategy self' t strategy).
Proof.
  intros self text thr pii_types t strategy Ht.
  destruct self as [mk cfg ecv esv st].
  destruct (detect_all_ok text pii_types mk cfg ecv esv)
    as (all & mk' & _ & _ & _ & H).
  destruct (H thr st) as (final & _ & Hd).
  eexists _, _. split; [exact Hd |].
  unfold set_masking_strategy at 1.
  rewrite detect_all_config.
  - rewrite Hd. cbn [with_config_after]. f_equal. f_equal.
    unfold set_masking_strategy.
    destruct (record_statistics_frame mk' cfg ecv esv st final) as [st' ->].
    reflexivity.
  - pose proof registry_types as Hreg.
    eapply Forall_impl; [| exact Hreg].
    intros pr [Hn Ha]. cbn [masking_config].
    apply get_strategy_set_other. destruct Ht; congruence.
Qed.

Lemma detect_all_name_address_strategy_witness :
  exists matches self',
    detect_all (PIIDetector_init true true false) (lit "a@b.co") 0 None
    = Ok (matches, self') /\
    detect_all (set_masking_strategy (PIIDetector_init true true false)
                  PERSON_NAME REDACT) (lit "a@b.co") 0 None
    = Ok (matches, set_masking_strategy self' PERSON_NAME REDACT).
Proof.
  apply (detect_all_name_address_strategy (PIIDetector_init true true false)
           (lit "a@b.co") 0 None PERSON_NAME REDACT).
  now left.
Defined.

(* ================================================================== *)
(** * Proofs: dictionaries and the statistics *)

Section DictLaws.
Context {K V : Type}.
Variable eqb : K -> K -> bool.
Hypothesis eqb_eq : forall a b, eqb a b = true <-> a = b.

Lemma dict_get_dict_set : forall (d : list (K * V)) k v k',
  dict_get eqb (dict_set eqb d k v) k'
  = if eqb k k' then Some v else dict_get eqb d k'.
Proof.
  induction d as [| [k0 v0] d IH]; intros k v k'; simpl.
  - reflexivity.
  - destruct (eqb k0 k) eqn:E; simpl.
    + apply eqb_eq in E. subst k0. now destruct (eqb k k').
    + destruct (eqb k0 k') eqn:E'.
      * destruct (eqb k k') eqn:E''; [| reflexivity].
        apply eqb_eq in E', E''. subst. 
        rewrite (proj2 (eqb_eq k' k') eq_refl) in E. discriminate.
      * apply IH.
Qed.
End DictLaws.

Lemma dict_total_incr : forall (K : Type) (eqb : K -> K -> bool)
    (d : list (K * nat)) k,
  dict_total
    (dict_set eqb d k
       (match dict_get eqb d k with Some n => n | None => 0 end + 1)%nat)
  = (dict_total d + 1)%nat.
Proof.
  intros K eqb d k. induction d as [| [k0 v0] d IH]; simpl.
  - reflexivity.
  - destruct (eqb k0 k); simpl; [lia |]. rewrite IH. lia.
Qed.

Lemma record_detection_count : forall st ty ty',
  count_of (record_detection st ty) ty'
  = (count_of st ty' + if str_eqb ty ty' then 1 else 0)%nat.
Proof.
  intros st ty ty'. unfold count_of, record_detection.
  cbn [detections_by_type]. rewrite (dict_get_dict_set str_eqb str_eqb_eq).
  destruct (str_eqb ty ty') eqn:E.
  - apply str_eqb_eq in E. subst ty'. reflexivity.
  - lia.
Qed.

Lemma record_detections_fold : forall ms st,
  let st' := fold_left (fun st m => record_detection st (pii_type m)) ms st in
  total_detections st' = (total_detections st + List.length ms)%nat /\
  total_texts_processed st' = total_texts_processed st /\
  (forall ty, count_of st' ty = (count_of st ty + count_type ty ms)%nat) /\
  (stats_consistent st -> stats_consistent st').
Proof.
  induction ms as [| m ms IH]; intro st; simpl.
  - split; [lia |]. split; [reflexivity |]. split; [| auto].
    intro ty. unfold count_type. simpl. lia.
  - destruct (IH (record_detection st (pii_type m))) as (H1 & H2 & H3 & H4).
    repeat split.
    + rewrite H1. simpl. lia.
    + rewrite H2. reflexivity.
    + intro ty. rewrite H3, record_detection_count. unfold count_type. simpl.
      destruct (str_eqb (pii_type m) ty); simpl; lia.
    + intro Hc. apply H4. unfold stats_consistent, record_detection in *.
      cbn [total_detections detections_by_type].
      rewrite dict_total_incr. lia.
Qed.

(** X12.  A detector that collects statistics counts what it returns: one
    call of [detect_all] adds one to the number of texts, the number of
    returned matches to the number of detections, and for every type the
    number of returned matches of that type to the counter of the type. *)
Theorem detect_all_statistics : forall self st text confidence_threshold pii_types,
  statistics self = Some st ->
  exists matches self' st',
    detect_all self text confidence_threshold pii_types = Ok (matches, self') /\
    statistics self' = Some st' /\
    total_texts_processed st' = (total_texts_processed st + 1)%nat /\
    total_detections st' = (total_detections st + List.length matches)%nat /\
    (forall ty, count_of st' ty = (count_of st ty + count_type ty matches)%nat).
Proof.
  intros [mk cfg ecv esv st0] st text thr pii_types Hst. simpl in Hst. subst st0.
  destruct (detect_all_ok text pii_types mk cfg ecv esv) as (all & mk' & _ & _ & _ & H).
  destruct (H thr (Some st)) as (final & _ & Hd).
  destruct (record_detections_fold final (record_processing st))
    as (H1 & H2 & H3 & _).
  eexists _, _, _. split; [exact Hd |].
  unfold record_statistics. proj_simpl. split; [reflexivity |].
  repeat split.
  - rewrite H2. reflexivity.
  - rewrite H1. reflexivity.
  - intro ty. rewrite H3. reflexivity.
Qed.

Lemma detect_all_statistics_witness :
  exists matches self' st',
    detect_all (PIIDetector_init true true true) (lit "a@b.co") 0 None
    = Ok (matches, self') /\
    statistics self' = Some st' /\
    total_texts_processed st' = 1%nat /\
    total_detections st' = List.length matches /\
    (forall ty, count_of st' ty = count_type ty matches).
Proof.
  apply (detect_all_statistics (PIIDetector_init true true true)
           StatisticsCollector_init (lit "a@b.co") 0 None).
  reflexivity.
Defined.

(** X13.  The statistics stay consistent: if the counters by type add up to
    [total_detections] before a call of [detect_all], they do so after it;
    they do for a new collector and after a reset. *)
Theorem detect_all_statistics_consistent :
  forall self st text confidence_threshold pii_types,
  statistics self = Some st -> stats_consistent st ->
  stats_consistent StatisticsCollector_init /\
  stats_consistent (StatisticsCollector_reset st) /\
  exists matches self' st',
    detect_all self text confidence_threshold pii_types = Ok (matches, self') /\
    statistics self' = Some st' /\ stats_consistent st'.
Proof.
  intros [mk cfg ecv esv st0] st text thr pii_types Hst Hc. simpl in Hst.
  subst st0. split; [reflexivity |]. split; [reflexivity |].
  destruct (detect_all_ok text pii_types mk cfg ecv esv) as (all & mk' & _ & _ & _ & H).
  destruct (H thr (Some st)) as (final & _ & Hd).
  destruct (record_detections_fold final (record_processing st))
    as (_ & _ & _ & H4).
  eexists _, _, _. split; [exact Hd |].
  unfold record_statistics. proj_simpl. split; [reflexivity |].
  apply H4. exact Hc.
Qed.

Lemma detect_all_statistics_consistent_witness :
  stats_consistent StatisticsCollector_init /\
  stats_consistent (StatisticsCollector_reset StatisticsCollector_init) /\
  exists matches self' st',
    detect_all (PIIDetector_init true true true) (lit "a@b.co") 0 None
    = Ok (matches, self') /\
    statistics self' = Some st' /\ stats_consistent st'.
Proof.
  apply (detect_all_statistics_consistent (PIIDetector_init true true true)
           StatisticsCollector_init (lit "a@b.co") 0 None);
    reflexivity.
Defined.

(* ================================================================== *)
(** * Proofs: [process_batch] *)

Lemma same_flags_trans : forall a b c,
  same_flags a b -> same_flags b c -> same_flags a c.
Proof. unfold same_flags. intros a b c [H1 H2] [H3 H4]. split; congruence. Qed.

Lemma same_flags_sym : forall a b, same_flags a b -> same_flags b a.
Proof. unfold same_flags. intros a b [H1 H2]. split; congruence. Qed.

(** Without tokens, a call of [detect_all] depends on the statistics of the
    detector for nothing but the statistics it leaves. *)
Lemma detect_all_tokenize_free : forall mk cfg ecv esv st st0 text thr pii_types,
  default_strategy mk <> TOKENIZE ->
  (forall t, get_strategy cfg t <> TOKENIZE) ->
  exists ms st' st0',
    detect_all (mkPIIDetector mk cfg ecv esv st) text thr pii_types
    = Ok (ms, mkPIIDetector mk cfg ecv esv st') /\
    detect_all (mkPIIDetector mk cfg ecv esv st0) text thr pii_types
    = Ok (ms, mkPIIDetector mk cfg ecv esv st0').
Proof.
  intros mk cfg ecv esv st st0 text thr pii_types Hd Hc.
  destruct (detect_all_ok text pii_types mk cfg ecv esv)
    as (all & mk' & _ & _ & Hmk & H).
  rewrite (Hmk Hd Hc) in H.
  destruct (H thr st) as (final & Hr & H1).
  destruct (H thr st0) as (final0 & Hr0 & H2).
  rewrite Hr in Hr0. inversion Hr0; subst final0.
  destruct (record_statistics_frame mk cfg ecv esv st final) as [st' E1].
  destruct (record_statistics_frame mk cfg ecv esv st0 final) as [st0' E2].
  exists final, st', st0'. rewrite <- E1, <- E2. now split.
Qed.

Lemma process_batch_sim : forall thr texts d0 d,
  same_flags d d0 ->
  (tokenize_free d0 ->
   masker d = masker d0 /\ masking_config d = masking_config d0) ->
  exists results d',
    process_batch d texts thr = Ok (results, d') /\
    same_flags d' d0 /\
    Forall2 (fun text ms =>
               exists ms0 s0,
                 detect_all d0 text thr None = Ok (ms0, s0) /\
                 map erase_masked ms = map erase_masked ms0 /\
                 (tokenize_free d0 -> ms = ms0)) texts results.
Proof.
  intros thr texts. induction texts as [| text texts IH]; intros d0 d Hf Ht.
  - exists [], d. repeat split; try apply Hf. constructor.
  - destruct (detect_all_erase d d0 text thr None Hf)
      as (m1 & s1 & m2 & s2 & H1 & H2 & He & Hs).
    assert (Hf1 : same_flags s1 d0).
    { eapply same_flags_trans; [apply same_flags_sym; exact Hs | exact Hf]. }
    assert (Hexact : tokenize_free d0 ->
              m1 = m2 /\ masker s1 = masker d0 /\
              masking_config s1 = masking_config d0).
    { intro Hfree. destruct (Ht Hfree) as [Em Ec].
      destruct d as [mk cfg ecv esv st]. destruct d0 as [mk0 cfg0 ecv0 esv0 st0].
      destruct Hf as [Hf_c Hf_s]. simpl in Em, Ec, Hf_c, Hf_s. subst.
      destruct Hfree as [Hd Hc]. simpl in Hd, Hc.
      destruct (detect_all_tokenize_free mk0 cfg0 ecv0 esv0 st st0 text thr None
                  Hd Hc) as (ms & st' & st0' & E1 & E2).
      rewrite E1 in H1. rewrite E2 in H2.
      inversion H1; subst. inversion H2; subst. auto. }
    destruct (IH d0 s1 Hf1) as (results & d' & Hb & Hf' & Hall).
    { intro Hfree. now destruct (Hexact Hfree) as (_ & Em & Ec). }
    exists (m1 :: results), d'. split; [| split].
    + cbn [process_batch]. rewrite H1. cbn [bind]. rewrite Hb. reflexivity.
    + exact Hf'.
    + constructor; [| exact Hall].
      exists m2, s2. split; [exact H2 |]. split; [exact He |].
      intro Hfree. now destruct (Hexact Hfree).
Qed.

(** X14.  [process_batch] returns one list of matches for each text, in
    order; each list is what [detect_all] on the detector as it was before
    the batch returns for that text, masked values apart, and exactly that
    when no strategy in force is TOKENIZE. *)
Theorem process_batch_detect_all : forall detector texts confidence_threshold,
  exists results detector',
    process_batch detector texts confidence_threshold = Ok (results, detector') /\
    List.length results = List.length texts /\
    Forall2 (fun text ms =>
               exists ms0 s0,
                 detect_all detector text confidence_threshold None
                 = Ok (ms0, s0) /\
                 map erase_masked ms = map erase_masked ms0 /\
                 (tokenize_free detector -> ms = ms0)) texts results.
Proof.
  intros detector texts thr.
  destruct (process_batch_sim thr texts detector detector)
    as (results & d' & H & _ & Hall).
  - split; reflexivity.
  - intros _. split; reflexivity.
  - exists results, d'. split; [exact H |]. split; [| exact Hall].
    symmetry. eapply Forall2_length; eauto.
Qed.

(* ================================================================== *)
(** * Proofs: masking a text with REDACT *)

Lemma Forall2_kept : forall s, Forall2 kept_or_star s s.
Proof. induction s; constructor; auto. now left. Qed.

Lemma Forall2_stars : forall s, Forall2 kept_or_star s (_mask_redact s).
Proof.
  induction s as [| c s IH]; simpl; constructor; auto. now right.
Qed.

Lemma slice_from_slice : forall (A : Type) (s : list A) lo hi,
  0 <= lo <= hi -> hi <= len s ->
  slice_from s lo = slice s lo hi ++ slice_from s hi.
Proof.
  intros A s lo hi H1 H2.
  rewrite !slice_from_skipn, slice_between by lia.
  rewrite <- (firstn_skipn (Z.to_nat hi - Z.to_nat lo) (skipn (Z.to_nat lo) s))
    at 1.
  f_equal. rewrite skipn_skipn. f_equal. lia.
Qed.

Lemma render_redact : forall text ms cur,
  0 <= cur -> laid_out text cur ms ->
  Forall (fun m => masked_value m
                   = _mask_redact (slice text (start m) (end_ m))) ms ->
  Forall2 kept_or_star (slice_from text cur) (render text cur ms).
Proof.
  intros text ms. induction ms as [| m ms IH]; intros cur Hc Hl Hm; simpl.
  - apply Forall2_kept.
  - destruct Hl as (H1 & H2 & H3). inversion Hm as [| ? ? Em Hm']; subst.
    pose proof (laid_out_bound _ _ _ H3) as Hb.
    rewrite (slice_from_slice _ text cur (start m)) by lia.
    rewrite (slice_from_slice _ text (start m) (end_ m)) by lia.
    apply Forall2_app; [apply Forall2_kept |].
    apply Forall2_app; [rewrite Em; apply Forall2_stars |].
    apply IH; auto. lia.
Qed.

(** X15.  With REDACT as the default strategy and for every type,
    [mask_text] keeps the length of the text: every character of the result
    is the character of the text at the same place, or a star. *)
Theorem mask_text_redact : forall self text confidence_threshold,
  default_strategy (masker self) = REDACT ->
  (forall t, get_strategy (masking_config self) t = REDACT) ->
  exists masked self',
    mask_text self text None confidence_threshold = Ok (masked, self') /\
    Forall2 kept_or_star text masked.
Proof.
  intros [mk cfg ecv esv st] text thr Hd Hc. cbn [masker masking_config] in *.
  destruct (detect_all_ok text None mk cfg ecv esv) as (all & mk' & Hs & _ & _ & H).
  destruct (H thr st) as (final & Hr & Hdet).
  destruct (resolve_overlaps_ok (filter (above thr) all))
    as (r & Hr' & Hdis & Hsort & Hin).
  rewrite Hr in Hr'. inversion Hr'; subst r. clear Hr'.
  assert (Hspan : Forall (span_ok text) final).
  { apply Forall_forall. intros x Hx. apply Hin, filter_In in Hx as [Hx _].
    rewrite Forall_forall in Hs. now apply Hs. }
  assert (Hl : laid_out text 0 final).
  { apply sorted_disjoint_laid_out; auto.
    - eapply Forall_impl; [| exact Hspan]. intros x (Hx & _). lia.
    - apply len_nonneg. }
  assert (Hm : Forall (fun m => masked_value m = _mask_redact (value m)) final).
  { eapply Forall_impl;
      [| apply (detect_all_all
                  (fun m => masked_value m = _mask_redact (value m))
                  cfg REDACT _ _ _ _ _ _) with (5 := Hdet)].
    - intros m [Hm _]. exact Hm.
    - split; [reflexivity | exact Hd].
    - intros pr _ _ v s e cm vp la mv mk0 mk0' _ Hmask.
      rewrite Hc in Hmask. cbn in Hmask. now inversion Hmask.
    - intros _ v s e c mv mk0 mk0' _ Hd0 Hmask.
      unfold mask in Hmask. rewrite Hd0 in Hmask. now inversion Hmask.
    - intros _ v s e c mv mk0 mk0' _ Hd0 Hmask.
      unfold mask in Hmask. rewrite Hd0 in Hmask. now inversion Hmask. }
  exists (render text 0 final),
         (record_statistics (mkPIIDetector mk' cfg ecv esv st) final).
  split.
  - unfold mask_text. rewrite Hdet. cbn [bind].
    destruct final as [| m ms].
    + simpl. rewrite slice_from_skipn by lia. reflexivity.
    + now rewrite (replace_all_render _ _ Hl).
  - assert (E : Forall2 kept_or_star (slice_from text 0) (render text 0 final)).
    { apply render_redact; [lia | exact Hl |].
      rewrite Forall_forall in *. intros m Hin'.
      rewrite (Hm m Hin'). destruct (Hspan m Hin') as (_ & _ & Ev).
      now rewrite Ev. }
    rewrite slice_from_skipn in E by lia. exact E.
Qed.

Lemma mask_text_redact_witness :
  exists masked self',
    mask_text
      (set_all_masking_strategies
         (with_masker (PIIDetector_init true true false) (mkPIIMasker REDACT 0))
         REDACT) (lit "a@b.co") None 0
    = Ok (masked, self') /\
    Forall2 kept_or_star (lit "a@b.co") masked.
Proof.
  apply (mask_text_redact
           (set_all_masking_strategies
              (with_masker (PIIDetector_init true true false)
                 (mkPIIMasker REDACT 0)) REDACT) (lit "a@b.co") 0).
  - reflexivity.
  - intros []; reflexivity.
Defined.

(* ================================================================== *)
(** * Proofs: what the Luhn check detects *)

Lemma isdecimal_code : forall c,
  isdecimal c = true <-> (48 <= code c <= 57)%nat.
Proof.
  intro c. unfold isdecimal, in_range.
  rewrite andb_true_iff, !Nat.leb_le. tauto.
Qed.

Lemma digit_value_range : forall c,
  isdecimal c = true -> 0 <= digit_value c <= 9.
Proof.
  intros c H. apply isdecimal_code in H. unfold digit_value. lia.
Qed.

Lemma digit_value_inj : forall c c',
  isdecimal c = true -> isdecimal c' = true ->
  digit_value c = digit_value c' -> c = c'.
Proof.
  intros c c' H H' E. apply isdecimal_code in H, H'. unfold digit_value in E.
  assert (Ec : code c = code c') by lia.
  unfold code in Ec.
  rewrite <- (ascii_nat_embedding c), <- (ascii_nat_embedding c').
  now rewrite Ec.
Qed.

Lemma digit_value_of_digit : forall d,
  0 <= d <= 9 ->
  isdecimal (ascii_of_nat (48 + Z.to_nat d)) = true /\
  digit_value (ascii_of_nat (48 + Z.to_nat d)) = d.
Proof.
  intros d H.
  assert (E : code (ascii_of_nat (48 + Z.to_nat d)) = (48 + Z.to_nat d)%nat).
  { unfold code. apply nat_ascii_embedding. lia. }
  split.
  - apply isdecimal_code. rewrite E. lia.
  - unfold digit_value. rewrite E. lia.
Qed.

Lemma luhn_term_range : forall i d, 0 <= d <= 9 -> 0 <= luhn_term i d <= 9.
Proof.
  intros i d H. unfold luhn_term.
  destruct (Nat.odd i); [| lia].
  destruct (Z.gtb_spec (2 * d) 9); lia.
Qed.

(** At a given position, different digits contribute different terms. *)
Lemma luhn_term_inj : forall i d d',
  0 <= d <= 9 -> 0 <= d' <= 9 -> luhn_term i d = luhn_term i d' -> d = d'.
Proof.
  intros i d d' H H'. unfold luhn_term.
  destruct (Nat.odd i); [| lia].
  destruct (Z.gtb_spec (2 * d) 9); destruct (Z.gtb_spec (2 * d') 9); lia.
Qed.

Lemma luhn_total_app : forall l1 l2 i,
  luhn_total i (l1 ++ l2)
  = luhn_total i l1 + luhn_total (i + List.length l1) l2.
Proof.
  induction l1 as [| x l1 IH]; intros l2 i; simpl.
  - now rewrite Nat.add_0_r.
  - rewrite IH. replace (S i + List.length l1)%nat
      with (i + S (List.length l1))%nat by lia. lia.
Qed.

(** Changing one digit changes the Luhn sum modulo 10. *)
Lemma luhn_total_change : forall l1 l2 x x' i,
  0 <= x <= 9 -> 0 <= x' <= 9 -> x <> x' ->
  luhn_total i (l1 ++ x :: l2) mod 10 = 0 ->
  luhn_total i (l1 ++ x' :: l2) mod 10 <> 0.
Proof.
  intros l1 l2 x x' i Hx Hx' Hne H H'.
  rewrite luhn_total_app in H, H'. simpl in H, H'.
  set (k := (i + List.length l1)%nat) in *.
  pose proof (luhn_term_range k x Hx) as R.
  pose proof (luhn_term_range k x' Hx') as R'.
  assert (Hd : luhn_term k x <> luhn_term k x').
  { intro E. apply Hne. exact (luhn_term_inj k x x' Hx Hx' E). }
  apply Z.mod_divide in H; [| lia]. apply Z.mod_divide in H'; [| lia].
  destruct H as [q Hq]. destruct H' as [q' Hq']. lia.
Qed.

Lemma card_digits_app : forall before c after,
  isdecimal c = true ->
  rev (map digit_value (filter isdecimal (before ++ c :: after)))
  = rev (map digit_value (filter isdecimal after))
      ++ digit_value c :: rev (map digit_value (filter isdecimal before)).
Proof.
  intros before c after H.
  rewrite filter_app. simpl. rewrite H.
  rewrite map_app, rev_app_distr. simpl. now rewrite <- app_assoc.
Qed.

Lemma card_digits_len : forall before c c' after,
  isdecimal c = true -> isdecimal c' = true ->
  len (map digit_value (filter isdecimal (before ++ c :: after)))
  = len (map digit_value (filter isdecimal (before ++ c' :: after))).
Proof.
  intros before c c' after H H'. unfold len.
  rewrite !length_map, !filter_app. simpl. rewrite H, H'.
  rewrite !length_app. reflexivity.
Qed.

Lemma decimal_not_superscript : forall c,
  isdecimal c = true -> superscript c = false.
Proof.
  intros c H. destruct (superscript c) eqn:E; [| reflexivity].
  apply superscript_not_decimal in E. congruence.
Qed.

Lemma plain_digits_app : forall s1 s2,
  plain_digits (s1 ++ s2) = plain_digits s1 && plain_digits s2.
Proof.
  intros s1 s2. unfold plain_digits.
  now rewrite existsb_app, negb_orb.
Qed.

Lemma plain_digits_cons : forall c s,
  plain_digits (c :: s) = negb (superscript c) && plain_digits s.
Proof.
  intros c s. unfold plain_digits. cbn [existsb]. now rewrite negb_orb.
Qed.

(** Replacing a character that is no superscript digit by another one keeps
    a text plain. *)
Lemma plain_digits_replace : forall before c c' after,
  superscript c' = false ->
  plain_digits (before ++ c :: after) = true ->
  plain_digits (before ++ c' :: after) = true.
Proof.
  intros before c c' after Hc' H.
  rewrite plain_digits_app, plain_digits_cons in *.
  apply andb_true_iff in H as [H1 H2]. apply andb_true_iff in H2 as [_ H2].
  now rewrite H1, H2, Hc'.
Qed.

(** X16.  On text of code points below 256, the Luhn check of
    [validate_credit_card] detects every single-digit error: if a number is
    accepted, replacing any one of its digits 0 to 9 by another of these
    digits gives a number that is rejected. *)
Theorem validate_credit_card_single_digit : forall before c c' after,
  isdecimal c = true -> isdecimal c' = true -> c <> c' ->
  validate_credit_card (before ++ c :: after) = Ok true ->
  validate_credit_card (before ++ c' :: after) = Ok false.
Proof.
  intros before c c' after Hc Hc' Hne H.
  rewrite validate_credit_card_eq in *.
  destruct (plain_digits (before ++ c :: after)) eqn:Hp; [| discriminate].
  rewrite (plain_digits_replace before c c' after
             (decimal_not_superscript c' Hc') Hp).
  cbv zeta in *.
  rewrite <- (card_digits_len before c c' after Hc Hc').
  set (n := len (map digit_value (filter isdecimal (before ++ c :: after)))) in *.
  destruct ((n <? 13) || (n >? 19)); [discriminate |].
  inversion H as [E]. apply Z.eqb_eq in E. f_equal.
  apply Z.eqb_neq.
  pose proof (luhn_loop_total
                (rev (map digit_value (filter isdecimal (before ++ c :: after))))
                0 0) as T.
  pose proof (luhn_loop_total
                (rev (map digit_value (filter isdecimal (before ++ c' :: after))))
                0 0) as T'.
  change (Z.of_nat 0) with 0 in T, T'. rewrite T in E. rewrite T'.
  rewrite card_digits_app in * by assumption.
  simpl in E |- *.
  apply (luhn_total_change _ _ (digit_value c) (digit_value c') 0%nat);
    auto using digit_value_range.
  intro Ed. apply Hne. now apply digit_value_inj.
Qed.

Lemma validate_credit_card_single_digit_witness :
  validate_credit_card (lit "453201511283036" ++ "6"%char :: [])= Ok true /\
  validate_credit_card (lit "453201511283036" ++ "7"%char :: []) = Ok false.
Proof.
  split; [reflexivity |].
  apply (validate_credit_card_single_digit (lit "453201511283036")
           "6"%char "7"%char []);
    [reflexivity | reflexivity | discriminate | reflexivity].
Defined.

(** X17.  On text of code points below 256, every number with 12 to 18
    digits, none of them a superscript, has exactly one check digit: of the
    characters [str.isdigit] accepts, one and only one, which is among 0 to
    9, gives when appended a number that [validate_credit_card] accepts. *)
Theorem validate_credit_card_check_digit : forall body,
  plain_digits body = true ->
  12 <= len (filter isdecimal body) <= 18 ->
  exists c,
    isdecimal c = true /\
    validate_credit_card (body ++ [c]) = Ok true /\
    forall c', isdigit c' = true ->
               validate_credit_card (body ++ [c']) = Ok true -> c' = c.
Proof.
  intros body Hp Hlen.
  set (K := luhn_total 1 (rev (map digit_value (filter isdecimal body)))).
  assert (Hv : forall c, isdecimal c = true ->
             validate_credit_card (body ++ [c])
             = Ok ((digit_value c + K) mod 10 =? 0)).
  { intros c Hc. rewrite validate_credit_card_eq.
    rewrite plain_digits_app, plain_digits_cons, Hp,
      (decimal_not_superscript c Hc).
    cbn [negb andb plain_digits existsb]. cbv zeta.
    assert (El : len (map digit_value (filter isdecimal (body ++ [c])))
                 = len (filter isdecimal body) + 1).
    { unfold len. rewrite length_map, filter_app. simpl. rewrite Hc.
      rewrite length_app. simpl. lia. }
    rewrite El.
    assert (E1 : (len (filter isdecimal body) + 1 <? 13) = false)
      by (apply Z.ltb_ge; lia).
    assert (E2 : (len (filter isdecimal body) + 1 >? 19) = false)
      by (rewrite Z.gtb_ltb; apply Z.ltb_ge; lia).
    rewrite E1, E2. simpl orb. cbv iota.
    pose proof (luhn_loop_total
                  (rev (map digit_value (filter isdecimal (body ++ [c])))) 0 0) as T.
    change (Z.of_nat 0) with 0 in T. rewrite T.
    rewrite (card_digits_app body c [] Hc). simpl. reflexivity. }
  assert (Hs : forall c, superscript c = true ->
             validate_credit_card (body ++ [c]) = Raise ValueError).
  { intros c Hc. rewrite validate_credit_card_eq.
    rewrite plain_digits_app, plain_digits_cons, Hc.
    cbn [negb andb]. now rewrite andb_false_r. }
  set (d := (- K) mod 10).
  assert (Hd : 0 <= d <= 9) by (pose proof (Z.mod_pos_bound (- K) 10); lia).
  destruct (digit_value_of_digit d Hd) as [Hc Ec].
  exists (ascii_of_nat (48 + Z.to_nat d)). split; [exact Hc |]. split.
  - rewrite (Hv _ Hc), Ec. f_equal. apply Z.eqb_eq. unfold d.
    rewrite Z.add_mod_idemp_l by lia.
    replace (- K + K) with 0 by lia. reflexivity.
  - intros c' Hd' H'.
    assert (Hc' : isdecimal c' = true).
    { destruct (superscript c') eqn:Es; [| now apply isdigit_cases].
      rewrite (Hs c' Es) in H'. discriminate. }
    rewrite (Hv _ Hc') in H'. inversion H' as [E].
    apply Z.eqb_eq in E. apply digit_value_inj; auto. rewrite Ec.
    pose proof (digit_value_range c' Hc') as R.
    assert (E0 : (d + K) mod 10 = 0).
    { unfold d. rewrite Z.add_mod_idemp_l by lia.
      replace (- K + K) with 0 by lia. reflexivity. }
    apply Z.mod_divide in E; [| lia]. apply Z.mod_divide in E0; [| lia].
    destruct E as [q Hq]. destruct E0 as [q0 Hq0]. lia.
Qed.

Lemma validate_credit_card_check_digit_witness :
  exists c,
    isdecimal c = true /\
    validate_credit_card (lit "4532 0151 1283 036" ++ [c]) = Ok true /\
    forall c', isdigit c' = true ->
               validate_credit_card (lit "4532 0151 1283 036" ++ [c']) = Ok true ->
               c' = c.
Proof.
  apply (validate_credit_card_check_digit (lit "4532 0151 1283 036"));
    [reflexivity | vm_compute; split; discriminate].
Defined.

(* ================================================================== *)
(** * Proofs: validators and masks in closed form *)

Lemma ip_parts_ok_forallb : forall parts,
  ip_parts_ok parts = Ok (forallb (int_between 0 255) parts).
Proof.
  induction parts as [| part parts IH]; simpl; [reflexivity |].
  unfold int_between at 1.
  destruct (int part) as [num | e] eqn:E.
  - rewrite Z.gtb_ltb, !Z.ltb_antisym.
    destruct (0 <=? num); destruct (num <=? 255); simpl; auto.
  - apply int_raises in E. subst. reflexivity.
Qed.

(* ================================================================== *)
(** * Proofs: numbers in the validators *)

Lemma forallb_firstn : forall (A : Type) (p : A -> bool) n l,
  forallb p l = true -> forallb p (firstn n l) = true.
Proof.
  intros A p n l H. rewrite forallb_forall in *. intros x Hx.
  apply H. eapply In_firstn; eauto.
Qed.

Lemma int_digits_number : forall s acc b,
  forallb isdecimal s = true -> s <> [] \/ b = true ->
  int_digits s acc b
  = Ok (fold_left (fun acc c => 10 * acc + digit_value c) s acc).
Proof.
  induction s as [| c s IH]; intros acc b Hs Hb; simpl.
  - destruct Hb as [Hb | ->]; [congruence | reflexivity].
  - simpl in Hs. apply andb_true_iff in Hs as [Hc Hs]. rewrite Hc.
    apply IH; auto.
Qed.

(** [int] reads a non-empty string of digits, no longer than the limit, as
    the number it denotes. *)
Lemma int_number : forall s,
  s <> [] -> forallb isdecimal s = true -> len s <= int_max_str_digits ->
  int s = Ok (number s).
Proof.
  intros s Hne Hs Hl. unfold int. rewrite strip_id.
  - destruct s as [| c s']; [congruence |].
    rewrite (int_limit_short _ Hl).
    pose proof Hs as Hs'. simpl in Hs'. apply andb_true_iff in Hs' as [Hc _].
    destruct (isdecimal_plain c Hc) as (_ & E1 & E2). rewrite E1, E2.
    apply int_digits_number; auto.
  - intros c Hc. rewrite forallb_forall in Hs.
    now destruct (isdecimal_plain c (Hs c Hc)).
Qed.

(** A superscript digit is neither white space, nor a sign, nor an
    underscore, nor a digit of [int]. *)
Lemma superscript_plain : forall c,
  superscript c = true ->
  int_space c = false /\ chr_eqb c "-" = false /\ chr_eqb c "+" = false /\
  chr_eqb c "_" = false /\ isdecimal c = false.
Proof.
  intros c H.
  pose proof (all_ascii
    (fun c => implb (superscript c)
                (negb (int_space c) && negb (chr_eqb c "-")
                 && negb (chr_eqb c "+") && negb (chr_eqb c "_")
                 && negb (isdecimal c))) eq_refl c) as E.
  cbv beta in E. rewrite H in E. cbn [implb] in E.
  apply andb_true_iff in E as [E E5]. apply andb_true_iff in E as [E E4].
  apply andb_true_iff in E as [E E3]. apply andb_true_iff in E as [E1 E2].
  now rewrite negb_true_iff in E1, E2, E3, E4, E5.
Qed.

Lemma int_digits_superscript : forall s acc b,
  existsb superscript s = true -> int_digits s acc b = Raise ValueError.
Proof.
  induction s as [| c s IH]; intros acc b H; [discriminate |].
  cbn [existsb] in H. cbn [int_digits].
  destruct (superscript c) eqn:Es.
  - destruct (superscript_plain c Es) as (_ & _ & _ & E1 & E2).
    now rewrite E2, E1.
  - cbn [orb] in H. destruct (isdecimal c); [now apply IH |].
    destruct (chr_eqb c "_" && b); [now apply IH | reflexivity].
Qed.

Lemma existsb_lstrip : forall (p q : ascii -> bool) s,
  (forall c, q c = true -> p c = false) ->
  existsb q (lstrip p s) = existsb q s.
Proof.
  intros p q s H. induction s as [| c s IH]; [reflexivity |].
  cbn [lstrip]. destruct (p c) eqn:Ep; [| reflexivity].
  rewrite IH. cbn [existsb]. destruct (q c) eqn:Eq; [| reflexivity].
  rewrite (H c Eq) in Ep. discriminate.
Qed.

Lemma existsb_rev : forall (q : ascii -> bool) s,
  existsb q (rev s) = existsb q s.
Proof.
  intros q s. induction s as [| c s IH]; [reflexivity |].
  cbn [rev existsb]. rewrite existsb_app, IH. cbn [existsb].
  rewrite orb_false_r. apply orb_comm.
Qed.

Lemma existsb_strip : forall (p q : ascii -> bool) s,
  (forall c, q c = true -> p c = false) ->
  existsb q (strip p s) = existsb q s.
Proof.
  intros p q s H. unfold strip, rstrip.
  now rewrite existsb_rev, existsb_lstrip, existsb_rev, existsb_lstrip.
Qed.

(** [int] refuses a text that holds a superscript digit. *)
Lemma int_superscript : forall s,
  plain_digits s = false -> int s = Raise ValueError.
Proof.
  intros s H. apply negb_false_iff in H. unfold int.
  rewrite <- (existsb_strip int_space superscript s) in H
    by (intros c Hc; now destruct (superscript_plain c Hc)).
  destruct (strip int_space s) as [| c s']; [reflexivity |].
  destruct (len (filter isdecimal (c :: s')) >? int_max_str_digits);
    [reflexivity |].
  cbn [existsb] in H.
  destruct (chr_eqb c "-") eqn:E1; [| destruct (chr_eqb c "+") eqn:E2].
  - destruct (superscript c) eqn:Es.
    + destruct (superscript_plain c Es) as (_ & E & _). congruence.
    + cbn [orb] in H. now rewrite int_digits_superscript.
  - destruct (superscript c) eqn:Es.
    + destruct (superscript_plain c Es) as (_ & _ & E & _). congruence.
    + cbn [orb] in H. now rewrite int_digits_superscript.
  - now apply int_digits_superscript.
Qed.

(** On a short non-empty text that [str.isdigit] accepts, [int] returns the
    number the text denotes, or raises when a digit is a superscript. *)
Lemma int_isdigit : forall s,
  s <> [] -> forallb isdigit s = true -> len s <= int_max_str_digits ->
  int s = if plain_digits s then Ok (number s) else Raise ValueError.
Proof.
  intros s Hne Hd Hl. destruct (plain_digits s) eqn:Hp.
  - apply int_number; auto. now apply forallb_isdigit_plain.
  - now apply int_superscript.
Qed.

Lemma filter_lstrip : forall (p q : ascii -> bool) s,
  (forall c, q c = true -> p c = false) ->
  filter q (lstrip p s) = filter q s.
Proof.
  intros p q s H. induction s as [| c s IH]; [reflexivity |].
  cbn [lstrip]. destruct (p c) eqn:Ep; [| reflexivity].
  rewrite IH. cbn [filter]. destruct (q c) eqn:Eq; [| reflexivity].
  rewrite (H c Eq) in Ep. discriminate.
Qed.

Lemma filter_strip : forall (p q : ascii -> bool) s,
  (forall c, q c = true -> p c = false) ->
  filter q (strip p s) = filter q s.
Proof.
  intros p q s H. unfold strip, rstrip.
  rewrite filter_rev, filter_lstrip, filter_rev, rev_involutive by exact H.
  now apply filter_lstrip.
Qed.

(** [int] refuses a text with more digits than the limit. *)
Lemma int_limit : forall s,
  int_max_str_digits < len (filter isdecimal s) -> int s = Raise ValueError.
Proof.
  intros s H. unfold int.
  rewrite <- (filter_strip int_space isdecimal s) in H
    by (intros c Hc; now destruct (isdecimal_plain c Hc)).
  destruct (strip int_space s) as [| c s'].
  - reflexivity.
  - assert (E : (len (filter isdecimal (c :: s')) >? int_max_str_digits) = true)
      by (rewrite Z.gtb_ltb; now apply Z.ltb_lt).
    now rewrite E.
Qed.

Lemma number_nonneg : forall s, forallb isdecimal s = true -> 0 <= number s.
Proof.
  intros s H. unfold number.
  assert (G : forall acc, 0 <= acc ->
            0 <= fold_left (fun acc c => 10 * acc + digit_value c) s acc).
  { induction s as [| c s IH]; intros acc Hacc; [exact Hacc |].
    cbn [forallb] in H. apply andb_true_iff in H as [Hc Hs].
    cbn [fold_left]. apply IH; [exact Hs |].
    pose proof (digit_value_range c Hc). lia. }
  apply G. lia.
Qed.

(** X18.  On text of code points below 256, [validate_ip_address] never
    raises, and accepts exactly the strings made of four parts between dots
    each of which [int] reads as a number from 0 to 255.  A part of one to
    4300 digits 0 to 9 is read as
    the number it denotes; a part with more than 4300 digits is refused by
    [int] whatever it denotes, and the address is rejected. *)
Theorem validate_ip_address_rule :
  (forall ip, validate_ip_address ip = Ok (ip_rule ip)) /\
  (forall part,
     part <> [] -> forallb isdecimal part = true ->
     len part <= int_max_str_digits ->
     int_between 0 255 part = (number part <=? 255)) /\
  (forall part,
     int_max_str_digits < len (filter isdecimal part) ->
     int_between 0 255 part = false).
Proof.
  split; [| split].
  - intro ip. unfold validate_ip_address, ip_rule. cbv zeta.
    destruct (len (split_on (chr_eqb ".") ip) =? 4); simpl; [| reflexivity].
    apply ip_parts_ok_forallb.
  - intros part Hne Hd Hl. unfold int_between.
    rewrite (int_number part Hne Hd Hl).
    pose proof (number_nonneg part Hd) as Hn.
    assert (E : (0 <=? number part) = true) by now apply Z.leb_le.
    now rewrite E.
  - intros part H. unfold int_between. now rewrite (int_limit part H).
Qed.

(** X19.  On text of code points below 256, [validate_ssn] looks at the
    characters other than white space and dashes.  When these are nine
    characters that [str.isdigit] accepts and one of them is a superscript
    digit, it raises [ValueError]; otherwise it returns, and accepts exactly
    nine digits 0 to 9 with an area (first three) other than 000 and 666,
    below 900 and outside 734..749, a group (next two) other than 00 and a
    serial (last four) other than 0000. *)
Theorem validate_ssn_rule : forall ssn,
  validate_ssn ssn =
  if ssn_raises ssn then Raise ValueError else Ok (ssn_rule ssn).
Proof.
  intro ssn. unfold validate_ssn, ssn_raises, ssn_rule. cbv zeta.
  destruct (re_sub_class space_or_dash ssn)
    as [| a1 [| a2 [| a3 [| g1 [| g2 [| s1 [| s2 [| s3 [| s4 [| x rest]]]]]]]]]];
    try reflexivity.
  - change (len [a1; a2; a3; g1; g2; s1; s2; s3; s4] =? 9) with true.
    cbn [negb orb andb]. unfold str_isdigit.
    change (negb (Nat.eqb (List.length [a1; a2; a3; g1; g2; s1; s2; s3; s4]) 0))
      with true.
    cbn [andb].
    destruct (forallb isdigit [a1; a2; a3; g1; g2; s1; s2; s3; s4]) eqn:Hd.
    2:{ cbn [negb]. replace (forallb isdecimal [a1; a2; a3; g1; g2; s1; s2; s3; s4])
          with false; [reflexivity |].
        symmetry. apply not_true_is_false. intro Hdec.
        assert (Hd' : forallb isdigit [a1; a2; a3; g1; g2; s1; s2; s3; s4] = true).
        { rewrite forallb_forall in *. intros c Hc.
          unfold isdigit. now rewrite (Hdec c Hc). }
        congruence. }
    cbn [negb].
    change (slice_to [a1; a2; a3; g1; g2; s1; s2; s3; s4] 3) with [a1; a2; a3].
    change (slice [a1; a2; a3; g1; g2; s1; s2; s3; s4] 3 5) with [g1; g2].
    change (slice_from [a1; a2; a3; g1; g2; s1; s2; s3; s4] 5)
      with [s1; s2; s3; s4].
    change [a1; a2; a3; g1; g2; s1; s2; s3; s4]
      with ([a1; a2; a3] ++ [g1; g2] ++ [s1; s2; s3; s4]) at 1.
    rewrite !plain_digits_app.
    assert (Hl : forall s : str,
              (List.length s <= 4)%nat -> len s <= int_max_str_digits).
    { intros s Hs. unfold len, int_max_str_digits. lia. }
    pose proof Hd as Hd9. cbn [forallb] in Hd9.
    repeat (apply andb_true_iff in Hd9 as [? Hd9]).
    rewrite !int_isdigit
      by (try discriminate; try (apply Hl; cbn [List.length]; lia);
          cbn [forallb];
          repeat match goal with
                 | Hc : isdigit ?c = true |- context [isdigit ?c] => rewrite Hc
                 end; reflexivity).
    destruct (plain_digits [a1; a2; a3]) eqn:P1; [| reflexivity].
    cbn [bind andb].
    destruct (plain_digits [g1; g2]) eqn:P2; [| reflexivity].
    cbn [bind andb].
    destruct (plain_digits [s1; s2; s3; s4]) eqn:P3; [| reflexivity].
    cbn [bind andb negb].
    assert (Hdec : forallb isdecimal [a1; a2; a3; g1; g2; s1; s2; s3; s4] = true).
    { apply forallb_isdigit_plain; [| exact Hd].
      change [a1; a2; a3; g1; g2; s1; s2; s3; s4]
        with ([a1; a2; a3] ++ [g1; g2] ++ [s1; s2; s3; s4]).
      now rewrite !plain_digits_app, P1, P2, P3. }
    rewrite Hdec. cbn [andb].
    set (area := number [a1; a2; a3]).
    set (group := number [g1; g2]).
    set (serial := number [s1; s2; s3; s4]).
    rewrite (Z.geb_leb area 900), (Z.ltb_antisym 900 area).
    destruct (area =? 0); [reflexivity |].
    destruct (area =? 666); [reflexivity |].
    destruct (900 <=? area); [reflexivity |].
    cbn [orb negb andb].
    destruct (group =? 0); cbn [orb negb andb].
    + now rewrite andb_false_r.
    + destruct (serial =? 0); cbn [orb negb andb].
      * now rewrite andb_false_r.
      * destruct ((734 <=? area) && (area <=? 749)); reflexivity.
  - assert (E : (len (a1 :: a2 :: a3 :: g1 :: g2 :: s1 :: s2 :: s3 :: s4 :: x :: rest)
                 =? 9) = false).
    { apply Z.eqb_neq. unfold len. simpl. lia. }
    rewrite E. reflexivity.
Qed.

(** X20.  On text of code points below 256, [validate_phone] looks at the
    characters [str.isdigit] accepts.  With ten of them it raises
    [ValueError] when one of the first three is a superscript digit;
    otherwise the area code, the number the first three denote, must be at
    least 200 and neither 911 nor 988.  With eleven to fifteen the number
    is accepted; otherwise it is rejected. *)
Theorem validate_phone_rule : forall phone,
  validate_phone phone =
  if phone_raises phone then Raise ValueError else Ok (phone_rule phone).
Proof.
  intro phone. unfold validate_phone, phone_raises, phone_rule. cbv zeta.
  set (digits := filter isdigit phone).
  assert (Hd : forallb isdigit digits = true).
  { apply forallb_forall. intros c Hc. now apply filter_In in Hc. }
  destruct (len digits =? 10) eqn:E;
    [| now destruct ((11 <=? len digits) && (len digits <=? 15))].
  apply Z.eqb_eq in E. rewrite slice_to_firstn by lia.
  change (Z.to_nat 3) with 3%nat. cbn [andb].
  rewrite int_isdigit.
  - destruct (plain_digits (firstn 3 digits)); [| reflexivity].
    cbn [bind negb]. set (a := number (firstn 3 digits)).
    rewrite (Z.ltb_antisym 200 a).
    destruct (200 <=? a); destruct (a =? 911); destruct (a =? 988); reflexivity.
  - destruct digits as [| c ds]; [discriminate | discriminate].
  - now apply forallb_firstn.
  - unfold len, int_max_str_digits. rewrite length_firstn. lia.
Qed.

(* ================================================================== *)
(** * Proofs: masks in closed form *)

Lemma index_head : forall (A : Type) (c : A) p, index (c :: p) 0 = Ok c.
Proof.
  intros A c p. unfold index. cbn [Z.ltb Z.compare orb].
  assert (E : (len (c :: p) <=? 0) = false).
  { apply Z.leb_gt. rewrite len_cons. pose proof (len_nonneg _ p). lia. }
  rewrite E. reflexivity.
Qed.

Lemma mask_name_parts_map : forall parts,
  Forall (fun part => part <> []) parts ->
  mask_name_parts parts = Ok (map initial_mask parts).
Proof.
  induction parts as [| part parts IH]; intro H; cbn [mask_name_parts map];
    [reflexivity |].
  inversion H as [| ? ? Hp H']; subst.
  destruct part as [| c p]; [congruence |].
  assert (E : (len (c :: p) >? 0) = true).
  { rewrite Z.gtb_ltb. apply Z.ltb_lt. rewrite len_cons.
    pose proof (len_nonneg _ p). lia. }
  rewrite E, index_head.
  destruct (str_in (lower (c :: p)) name_titles); cbn [bind];
    rewrite (IH H'); reflexivity.
Qed.

Lemma split_nonempty : forall s, Forall (fun part => part <> []) (split s).
Proof.
  intro s. unfold split. apply Forall_forall. intros w Hw.
  apply filter_In in Hw as [_ Hw]. intro E. subst w. discriminate.
Qed.

(** X21.  On a name without the micro sign and the y with diaeresis (the
    two characters below 256 whose upper-case form lies beyond), the
    PARTIAL mask of a name never raises and shows, for each word of the
    name, the upper-case form of its first character followed by three
    stars, the words joined by single blanks; a name without a word gives
    [NAME].  Words are what [str.split] separates, U+00A0 included, and the
    upper-case form of the sharp s is SS. *)
Theorem mask_name_initials : forall name,
  forallb upper_in_range name = true ->
  _mask_name name
  = Ok (match split name with
        | [] => lit "[NAME]"
        | parts => join (lit " ") (map initial_mask parts)
        end).
Proof.
  intros name _. unfold _mask_name. cbv zeta.
  rewrite (mask_name_parts_map _ (split_nonempty name)).
  destruct (split name) as [| p ps]; [reflexivity |].
  assert (E : (len (p :: ps) =? 0) = false).
  { apply Z.eqb_neq. rewrite len_cons. pose proof (len_nonneg _ ps). lia. }
  rewrite E. reflexivity.
Qed.

Lemma mask_name_initials_witness :
  forallb upper_in_range
    (lit "john" ++ [ascii_of_nat 160; ascii_of_nat 223] ++ lit "mith") = true /\
  _mask_name (lit "john" ++ [ascii_of_nat 160; ascii_of_nat 223] ++ lit "mith")
  = Ok (lit "J*** SS***").
Proof.
  split; [reflexivity |].
  exact (mask_name_initials
           (lit "john" ++ [ascii_of_nat 160; ascii_of_nat 223] ++ lit "mith")
           eq_refl).
Defined.

Lemma slice_from_last_four : forall (A : Type) (s : list A),
  4 <= len s ->
  slice_from s (-4) = last_four s /\ List.length (last_four s) = 4%nat.
Proof.
  intros A s H. unfold slice_from, slice, clip_index, last_four.
  change (-4 <? 0) with true. cbv iota.
  assert (E : (len s <? 0) = false) by (apply Z.ltb_ge; lia).
  rewrite E, Z.min_id, Z.max_r by lia.
  unfold len in *.
  replace (Z.to_nat (Z.of_nat (List.length s) + -4))
    with (List.length s - 4)%nat by lia.
  split.
  - apply firstn_all2. rewrite length_skipn. lia.
  - rewrite length_skipn. lia.
Qed.

Lemma last_four_mask : forall (placeholder pre digits : str),
  (if len digits <? 4 then placeholder else pre ++ slice_from digits (-4))
  = (if len digits <? 4 then placeholder else pre ++ last_four digits) /\
  len (if len digits <? 4 then placeholder else pre ++ slice_from digits (-4))
  = if len digits <? 4 then len placeholder else len pre + 4.
Proof.
  intros placeholder pre digits.
  destruct (Z.ltb_spec (len digits) 4) as [H | H]; [now split |].
  destruct (slice_from_last_four _ digits H) as [E L]. rewrite E.
  split; [reflexivity |]. unfold len. rewrite length_app, L. lia.
Qed.

(** X22.  The PARTIAL masks of a card, an SSN, a phone and a bank account
    show the last four significant characters after a fixed prefix, or a
    fixed placeholder when there are fewer than four: the mask has one of
    two lengths, whatever the value. *)
Theorem partial_masks_last_four : forall value,
  let clean := re_sub_class space_or_dash value in
  let digits := filter isdigit value in
  _mask_credit_card value
  = (if len clean <? 4 then lit "****"
     else lit "****-****-****-" ++ last_four clean) /\
  len (_mask_credit_card value) = (if len clean <? 4 then 4 else 19) /\
  _mask_ssn value
  = (if len clean <? 4 then lit "***-**-****"
     else lit "***-**-" ++ last_four clean) /\
  len (_mask_ssn value) = 11 /\
  _mask_phone value
  = (if len digits <? 4 then lit "[PHONE]"
     else lit "***-***-" ++ last_four digits) /\
  len (_mask_phone value) = (if len digits <? 4 then 7 else 12) /\
  _mask_bank_account value
  = (if len digits <? 4 then lit "****" else lit "****" ++ last_four digits) /\
  len (_mask_bank_account value) = (if len digits <? 4 then 4 else 8).
Proof.
  intros value clean digits.
  unfold _mask_credit_card, _mask_ssn, _mask_phone, _mask_bank_account.
  cbv zeta. fold clean. fold digits.
  destruct (last_four_mask (lit "****") (lit "****-****-****-") clean) as [E1 L1].
  destruct (last_four_mask (lit "***-**-****") (lit "***-**-") clean) as [E2 L2].
  destruct (last_four_mask (lit "[PHONE]") (lit "***-***-") digits) as [E3 L3].
  destruct (last_four_mask (lit "****") (lit "****") digits) as [E4 L4].
  split; [exact E1 |]. split; [exact L1 |]. split; [exact E2 |].
  split; [etransitivity; [exact L2 | now destruct (len clean <? 4)] |].
  split; [exact E3 |]. split; [exact L3 |]. split; [exact E4 | exact L4].
Qed.

Lemma byte_bound : forall x, (N.land x 0xff < 256)%N.
Proof.
  intro x. change 0xff%N with (N.ones 8). rewrite N.land_ones.
  apply N.mod_lt. discriminate.
Qed.

Lemma be_bytes_bound : forall n x, Forall (fun b => (b < 256)%N) (be_bytes n x).
Proof.
  induction n as [| n IH]; intro x; simpl; constructor; auto.
  apply byte_bound.
Qed.

Lemma be_bytes_length : forall n x, List.length (be_bytes n x) = n.
Proof. induction n as [| n IH]; intro x; simpl; auto. Qed.

Lemma sha256_bytes : forall msg,
  List.length (sha256 msg) = 32%nat /\ Forall (fun b => (b < 256)%N) (sha256 msg).
Proof.
  intro msg. unfold sha256.
  destruct (sha_blocks _ _ _) as [[[[[[[a b] c] d] e] f] g] h].
  cbn [flat_map]. split.
  - rewrite !length_app, !be_bytes_length. reflexivity.
  - repeat (apply Forall_app; split); try apply be_bytes_bound. constructor.
Qed.

Lemma hex_digit_ok : forall n, (n < 16)%N -> ishex (hex_digit n) = true.
Proof.
  intros n H.
  assert (E : forallb (fun k => ishex (hex_digit (N.of_nat k))) (seq 0 16) = true)
    by reflexivity.
  rewrite forallb_forall in E. specialize (E (N.to_nat n)).
  rewrite Nnat.N2Nat.id in E. apply E. apply in_seq. lia.
Qed.

Lemma hexdigest_shape : forall bs,
  Forall (fun b => (b < 256)%N) bs ->
  List.length (flat_map hex_of_byte bs) = (2 * List.length bs)%nat /\
  forallb ishex (flat_map hex_of_byte bs) = true.
Proof.
  induction 1 as [| b bs Hb _ [IH1 IH2]]; [now split |].
  cbn [flat_map hex_of_byte app List.length forallb]. split.
  - rewrite IH1. lia.
  - rewrite IH2, !hex_digit_ok; [reflexivity | |].
    + apply N.mod_lt. discriminate.
    + apply N.Div0.div_lt_upper_bound. exact Hb.
Qed.

(** X23.  The HASH mask has the form [TYPE:hhhhhhhhhhhh]: the name of the
    type and twelve lower-case hexadecimal digits between brackets,
    whatever the value. *)
Theorem mask_hash_shape : forall value pii_type,
  exists h,
    _mask_hash value pii_type
    = lit "[" ++ PIIType_value pii_type ++ lit ":" ++ h ++ lit "]" /\
    List.length h = 12%nat /\ forallb ishex h = true.
Proof.
  intros value t. unfold _mask_hash. cbv zeta.
  exists (slice_to (sha256_hexdigest (encode value)) 12).
  split; [reflexivity |].
  destruct (sha256_bytes (encode value)) as [Hl Hb].
  destruct (hexdigest_shape _ Hb) as [H1 H2].
  unfold sha256_hexdigest. rewrite slice_to_firstn by lia. split.
  - rewrite length_firstn, H1, Hl. reflexivity.
  - now apply forallb_firstn.
Qed.

(* ================================================================== *)
(** * Proofs: counters in decimal *)

Lemma int_digits_uint : forall d acc b,
  d <> Decimal.Nil \/ b = true ->
  int_digits (list_ascii_of_string (NilEmpty.string_of_uint d)) (Z.of_nat acc) b
  = Ok (Z.of_nat (Nat.of_uint_acc d acc)).
Proof.
  induction d as [| d IH | d IH | d IH | d IH | d IH | d IH | d IH | d IH
                  | d IH | d IH]; intros acc b H;
    [destruct H as [H | ->]; [congruence | reflexivity] | ..];
    cbn [NilEmpty.string_of_uint list_ascii_of_string int_digits Nat.of_uint_acc];
    match goal with
    | |- context [isdecimal ?c] =>
        change (isdecimal c) with true; cbv iota;
        match goal with
        | |- int_digits _ ?a true = Ok (Z.of_nat (Nat.of_uint_acc _ ?n)) =>
            replace a with (Z.of_nat n);
            [apply IH; now right
            | rewrite ?Nat.tail_mul_spec;
              match goal with
              | |- context [digit_value ?c] =>
                  let v := eval vm_compute in (digit_value c) in
                  change (digit_value c) with v
              end; lia]
        end
    end.
Qed.

Lemma uint_digits : forall d,
  forallb isdecimal (list_ascii_of_string (NilEmpty.string_of_uint d)) = true.
Proof.
  induction d; cbn [NilEmpty.string_of_uint list_ascii_of_string forallb];
    [reflexivity | ..]; rewrite IHd; reflexivity.
Qed.

Lemma str_of_nat_digits : forall n, forallb isdecimal (str_of_nat n) = true.
Proof.
  intro n. unfold str_of_nat, NilZero.string_of_uint.
  destruct (Nat.to_uint n); [reflexivity | ..]; apply uint_digits.
Qed.

(** [int(str(n))] is [n], whatever was read before. *)
Lemma int_digits_str_of_nat : forall n b,
  int_digits (str_of_nat n) 0 b = Ok (Z.of_nat n).
Proof.
  intros n b. unfold str_of_nat, NilZero.string_of_uint.
  rewrite <- (DecimalNat.Unsigned.of_to n) at 2. unfold Nat.of_uint.
  destruct (Nat.to_uint n) eqn:E; [reflexivity | ..];
    apply (int_digits_uint _ 0%nat b); left; discriminate.
Qed.

Lemma int_digits_zeros : forall k s,
  int_digits (repeat_chr "0" k ++ s) 0 true = int_digits s 0 true.
Proof.
  induction k as [| k IH]; intro s; simpl; [reflexivity | apply IH].
Qed.

Lemma format_04d_digits : forall n, forallb isdecimal (format_04d n) = true.
Proof.
  intro n. unfold format_04d. rewrite forallb_app, str_of_nat_digits, andb_true_r.
  unfold repeat_chr. induction (4 - List.length (str_of_nat n))%nat; simpl; auto.
Qed.

(** The four-digit form reads back as the counter. *)
Lemma int_digits_format_04d : forall n,
  int_digits (format_04d n) 0 false = Ok (Z.of_nat n).
Proof.
  intro n. unfold format_04d.
  destruct (4 - List.length (str_of_nat n))%nat as [| k].
  - apply int_digits_str_of_nat.
  - change (repeat_chr "0" (S k) ++ str_of_nat n)
      with ("0"%char :: repeat_chr "0" k ++ str_of_nat n).
    cbn [int_digits]. change (isdecimal "0") with true. cbv iota.
    change (10 * 0 + digit_value "0") with 0.
    rewrite int_digits_zeros. apply int_digits_str_of_nat.
Qed.

Lemma format_04d_inj : forall n n', format_04d n = format_04d n' -> n = n'.
Proof.
  intros n n' E.
  pose proof (int_digits_format_04d n) as H. rewrite E in H.
  rewrite int_digits_format_04d in H. inversion H. lia.
Qed.

(* ================================================================== *)
(** * Proofs: tokens *)

(** A run of characters of a class that stops at a character outside the
    class is determined by the string it starts. *)
Lemma run_prefix_unique : forall (p : ascii -> bool) l1 l2 c1 c2 r1 r2,
  forallb p l1 = true -> forallb p l2 = true ->
  p c1 = false -> p c2 = false ->
  l1 ++ c1 :: r1 = l2 ++ c2 :: r2 -> l1 = l2.
Proof.
  intro p.
  induction l1 as [| x l1 IH]; intros [| y l2] c1 c2 r1 r2 H1 H2 Hc1 Hc2 E;
    simpl in *.
  - reflexivity.
  - inversion E; subst. apply andb_true_iff in H2 as [H2 _]. congruence.
  - inversion E; subst. apply andb_true_iff in H1 as [H1 _]. congruence.
  - injection E as Ex El. subst y. apply andb_true_iff in H1 as [_ H1].
    apply andb_true_iff in H2 as [_ H2]. f_equal.
    exact (IH l2 c1 c2 r1 r2 H1 H2 Hc1 Hc2 El).
Qed.

(** Two tokens that end in an underscore, a counter and a bracket are equal
    only if the counters are. *)
Lemma token_counter_inj : forall a a' n n',
  a ++ lit "_" ++ format_04d n ++ lit "]"
  = a' ++ lit "_" ++ format_04d n' ++ lit "]" -> n = n'.
Proof.
  intros a a' n n' E. apply (f_equal (@rev ascii)) in E.
  rewrite !rev_app_distr in E. simpl in E. rewrite <- !app_assoc in E.
  simpl in E. inversion E as [E'].
  apply format_04d_inj. rewrite <- (rev_involutive (format_04d n)).
  rewrite <- (rev_involutive (format_04d n')). f_equal.
  apply (run_prefix_unique isdecimal _ _ _ _ _ _) with (5 := E');
    try reflexivity; rewrite forallb_forall; intros c Hc;
    apply in_rev in Hc;
    pose proof (format_04d_digits n) as D; pose proof (format_04d_digits n') as D';
    rewrite forallb_forall in D, D'; auto.
Qed.

Lemma tokenize_token_inj : forall t t' n n',
  tokenize_token t n = tokenize_token t' n' -> n = n'.
Proof.
  intros t t' n n' E.
  apply (token_counter_inj (lit "[" ++ PIIType_value t ++ lit "_TOKEN")
                           (lit "[" ++ PIIType_value t' ++ lit "_TOKEN")).
  unfold tokenize_token in E.
  rewrite <- !app_assoc. exact E.
Qed.

Lemma reversible_token_inj : forall t t' n n',
  reversible_token t n = reversible_token t' n' -> n = n'.
Proof.
  intros t t' n n' E.
  apply (token_counter_inj (lit "[" ++ PIIType_value t)
                           (lit "[" ++ PIIType_value t')).
  unfold reversible_token in E.
  rewrite <- !app_assoc. exact E.
Qed.

Lemma tokenize_all_ok : forall items self,
  exists tokens self',
    tokenize_all self items = Ok (tokens, self') /\
    _token_counter self' = (_token_counter self + List.length items)%nat /\
    default_strategy self' = default_strategy self /\
    Forall (fun tok => exists t n,
              (_token_counter self < n <= _token_counter self')%nat /\
              tok = tokenize_token t n) tokens /\
    NoDup tokens.
Proof.
  induction items as [| [v t] items IH]; intro self.
  - exists [], self. simpl. repeat split; auto; constructor.
  - destruct (IH (mkPIIMasker (default_strategy self) (_token_counter self + 1)))
      as (tokens & self' & Hrun & Hc & Hd & Hall & Hnd).
    cbn [_token_counter default_strategy] in *.
    exists (tokenize_token t (_token_counter self + 1) :: tokens), self'.
    split; [| repeat split].
    + cbn [tokenize_all mask _mask_tokenize bind _token_counter].
      rewrite Hrun. reflexivity.
    + rewrite Hc. simpl. lia.
    + exact Hd.
    + constructor.
      * exists t, (_token_counter self + 1)%nat. split; [lia | reflexivity].
      * eapply Forall_impl; [| exact Hall].
        intros tok (t' & n & Hn & ->). exists t', n. split; [lia | reflexivity].
    + constructor; [| exact Hnd]. intro Hin.
      rewrite Forall_forall in Hall. destruct (Hall _ Hin) as (t' & n & Hn & E).
      apply tokenize_token_inj in E. lia.
Qed.

(** X24.  The tokens of the TOKENIZE strategy are unique: any number of
    successive [mask] calls on one masker, whatever the values and types,
    return pairwise different tokens, and the counter grows by one a call. *)
Theorem tokenize_tokens_unique : forall self items,
  exists tokens self',
    tokenize_all self items = Ok (tokens, self') /\
    NoDup tokens /\
    List.length tokens = List.length items /\
    _token_counter self' = (_token_counter self + List.length items)%nat.
Proof.
  intros self items.
  destruct (tokenize_all_ok items self) as (tokens & self' & H & Hc & _ & Hall & Hnd).
  exists tokens, self'. repeat split; auto.
  clear - H. revert self tokens self' H.
  induction items as [| [v t] items IH]; intros self tokens self' H.
  - simpl in H. now inversion H.
  - cbn [tokenize_all mask bind] in H.
    destruct (tokenize_all (snd (_mask_tokenize self v t)) items)
      as [[toks s] | e] eqn:E.
    + unfold _mask_tokenize in H, E. cbn [snd] in E. rewrite E in H.
      cbn [bind] in H. inversion H; subst. simpl. f_equal. eapply IH; eauto.
    + unfold _mask_tokenize in H, E. cbn [snd] in E. rewrite E in H.
      discriminate.
Qed.

Lemma mask_all_ok : forall items self tokens self',
  mask_all self items = (tokens, self') ->
  ReversibleMasker._counter self'
  = (ReversibleMasker._counter self + List.length items)%nat /\
  Forall (fun tok => exists t n,
            (ReversibleMasker._counter self < n
             <= ReversibleMasker._counter self')%nat /\
            tok = reversible_token t n) tokens /\
  NoDup tokens /\
  Forall2 (fun tok item => ReversibleMasker.unmask self' tok = Some (fst item))
          tokens items /\
  (forall k, (forall t n, (ReversibleMasker._counter self < n)%nat ->
                          k <> reversible_token t n) ->
             ReversibleMasker.unmask self' k = ReversibleMasker.unmask self k).
Proof.
  induction items as [| [v t] items IH]; intros self tokens self' H.
  - simpl in H. inversion H; subst. repeat split; auto; constructor.
  - cbn [mask_all] in H.
    set (tok := reversible_token t (ReversibleMasker._counter self + 1)) in *.
    set (self1 := ReversibleMasker.mk
                    (dict_set str_eqb (ReversibleMasker._mapping self) tok v)
                    (ReversibleMasker._counter self + 1)).
    change (ReversibleMasker.mask self v t) with (tok, self1) in H.
    cbv iota beta in H.
    destruct (mask_all self1 items) as [toks self2] eqn:E2.
    inversion H; subst tokens self2. clear H.
    destruct (IH _ _ _ E2) as (Hc & Hall & Hnd & Hun & Hframe).
    assert (Hc1 : ReversibleMasker._counter self1
                  = (ReversibleMasker._counter self + 1)%nat) by reflexivity.
    assert (Hfresh : forall t' n, (ReversibleMasker._counter self1 < n)%nat ->
                       tok <> reversible_token t' n).
    { intros t' n Hn E. apply reversible_token_inj in E. lia. }
    repeat split.
    + rewrite Hc, Hc1. simpl. lia.
    + constructor.
      * exists t, (ReversibleMasker._counter self + 1)%nat.
        split; [lia | reflexivity].
      * eapply Forall_impl; [| exact Hall].
        intros k (t' & n & Hn & ->). exists t', n. split; [lia | reflexivity].
    + constructor; [| exact Hnd]. intro Hin.
      rewrite Forall_forall in Hall. destruct (Hall _ Hin) as (t' & n & Hn & E).
      exact (Hfresh t' n (proj1 Hn) E).
    + constructor; [| exact Hun].
      rewrite (Hframe tok Hfresh).
      unfold ReversibleMasker.unmask, self1. cbn [ReversibleMasker._mapping fst].
      rewrite (dict_get_dict_set str_eqb str_eqb_eq).
      now rewrite str_eqb_refl.
    + intros k Hk. rewrite Hframe.
      * unfold ReversibleMasker.unmask, self1.
        cbn [ReversibleMasker._mapping].
        rewrite (dict_get_dict_set str_eqb str_eqb_eq).
        destruct (str_eqb tok k) eqn:Ek; [| reflexivity].
        apply str_eqb_eq in Ek. exfalso.
        apply (Hk t (ReversibleMasker._counter self + 1)%nat); [lia | now symmetry].
      * intros t' n Hn. apply Hk. lia.
Qed.

(** X25.  [ReversibleMasker] round trip: after any number of [mask] calls,
    from any state of the masker, the tokens returned are pairwise different
    and [unmask] maps each of them back to the value it was issued for. *)
Theorem reversible_masker_round_trip : forall self items tokens self',
  mask_all self items = (tokens, self') ->
  NoDup tokens /\
  Forall2 (fun tok item => ReversibleMasker.unmask self' tok = Some (fst item))
          tokens items.
Proof.
  intros self items tokens self' H.
  destruct (mask_all_ok items self tokens self' H) as (_ & _ & Hnd & Hun & _).
  now split.
Qed.

Lemma reversible_masker_round_trip_witness :
  NoDup [lit "[EMAIL_0001]"; lit "[SSN_0002]"] /\
  Forall2 (fun tok item =>
             ReversibleMasker.unmask
               (snd (mask_all ReversibleMasker.init
                       [(lit "a@b.co", EMAIL); (lit "123-45-6789", SSN)])) tok
             = Some (fst item))
          [lit "[EMAIL_0001]"; lit "[SSN_0002]"]
          [(lit "a@b.co", EMAIL); (lit "123-45-6789", SSN)].
Proof.
  apply (reversible_masker_round_trip ReversibleMasker.init
           [(lit "a@b.co", EMAIL); (lit "123-45-6789", SSN)]).
  reflexivity.
Defined.

(* ================================================================== *)
(** * Proofs: [str.replace] and [unmask_text] *)

Lemma startswith_app : forall old r, startswith (old ++ r) old = true.
Proof.
  induction old as [| c old IH]; intro r; simpl; [now destruct r |].
  now rewrite chr_eqb_refl, IH.
Qed.

Lemma startswith_split : forall old s,
  startswith s old = true -> exists r, s = old ++ r.
Proof.
  induction old as [| c old IH]; intros s H; simpl in *.
  - now exists s.
  - destruct s as [| y s]; [discriminate |].
    apply andb_true_iff in H as [H1 H2]. apply chr_eqb_eq in H1. subst y.
    destruct (IH s H2) as [r ->]. now exists r.
Qed.

Lemma replace_from_skip : forall old new k s,
  replace_from s old new k = replace_from (skipn k s) old new 0.
Proof.
  intros old new. induction k as [| k IH]; intro s.
  - reflexivity.
  - destruct s as [| c s]; [reflexivity |]. simpl. apply IH.
Qed.

(** A string without the first character of [old] has no occurrence of it. *)
Lemma replace_from_absent : forall c0 old' new s,
  ~ In c0 s -> replace_from s (c0 :: old') new 0 = s.
Proof.
  intros c0 old' new. induction s as [| c s IH]; intro H; [reflexivity |].
  cbn [replace_from startswith].
  destruct (chr_eqb c0 c) eqn:E.
  - apply chr_eqb_eq in E. subst. exfalso. apply H. now left.
  - cbn [andb]. f_equal. apply IH. intro Hin. apply H. now right.
Qed.

Lemma replace_from_prefix : forall c0 old' new p x,
  ~ In c0 p ->
  replace_from (p ++ x) (c0 :: old') new 0
  = p ++ replace_from x (c0 :: old') new 0.
Proof.
  intros c0 old' new. induction p as [| c p IH]; intros x H; [reflexivity |].
  cbn [app replace_from startswith].
  destruct (chr_eqb c0 c) eqn:E.
  - apply chr_eqb_eq in E. subst. exfalso. apply H. now left.
  - cbn [andb]. f_equal. apply IH. intro Hin. apply H. now right.
Qed.

Lemma replace_from_here : forall c0 old' new r,
  replace_from ((c0 :: old') ++ r) (c0 :: old') new 0
  = new ++ replace_from r (c0 :: old') new 0.
Proof.
  intros c0 old' new r.
  change ((c0 :: old') ++ r) with (c0 :: old' ++ r).
  cbn [replace_from].
  change (startswith (c0 :: old' ++ r) (c0 :: old'))
    with (startswith ((c0 :: old') ++ r) (c0 :: old')).
  rewrite startswith_app. f_equal.
  rewrite replace_from_skip.
  replace (List.length (c0 :: old') - 1)%nat with (List.length old')
    by (simpl; lia).
  now rewrite skipn_app, Nat.sub_diag, skipn_all.
Qed.

(** The characters of a token but the first and the last. *)
Lemma reversible_token_shape : forall t n,
  exists body,
    reversible_token t n = "["%char :: body ++ ["]"%char] /\
    ~ In "["%char body /\
    forallb (fun c => negb (chr_eqb c "]")) body = true.
Proof.
  intros t n.
  exists (PIIType_value t ++ lit "_" ++ format_04d n). split; [| split].
  - unfold reversible_token. simpl. now rewrite <- !app_assoc.
  - intro H. apply in_app_iff in H as [H | H].
    + destruct t; simpl in H; repeat (destruct H as [H | H]; [discriminate |]);
        exact H.
    + apply in_app_iff in H as [[H | []] | H]; [discriminate |].
      pose proof (format_04d_digits n) as D. rewrite forallb_forall in D.
      specialize (D _ H). discriminate.
  - rewrite !forallb_app. apply andb_true_iff. split; [now destruct t |].
    apply andb_true_iff. split; [reflexivity |].
    rewrite forallb_forall. intros c Hc.
    pose proof (format_04d_digits n) as D. rewrite forallb_forall in D.
    specialize (D _ Hc). apply isdecimal_code in D.
    destruct (chr_eqb c "]") eqn:E; [| reflexivity].
    apply chr_eqb_eq in E. subst c. vm_compute in D. lia.
Qed.

(** One token does not start another. *)
Lemma reversible_token_startswith : forall t n t' n' s,
  startswith (reversible_token t n ++ s) (reversible_token t' n') = true ->
  reversible_token t n = reversible_token t' n'.
Proof.
  intros t n t' n' s H.
  destruct (reversible_token_shape t n) as (b & Eb & _ & Hb).
  destruct (reversible_token_shape t' n') as (b' & Eb' & _ & Hb').
  rewrite Eb, Eb' in *.
  apply startswith_split in H as [r Hr].
  simpl in Hr. injection Hr as Hr. rewrite <- !app_assoc in Hr. simpl in Hr.
  f_equal. f_equal.
  exact (run_prefix_unique (fun c => negb (chr_eqb c "]")) b b'
           "]"%char "]"%char s r Hb Hb' eq_refl eq_refl Hr).
Qed.

(** Replacing a token in a text without brackets changes nothing. *)
Lemma replace_token_absent : forall t n new text,
  bracket_free text -> replace text (reversible_token t n) new = text.
Proof.
  intros t n new text H.
  destruct (reversible_token_shape t n) as (b & Eb & _). rewrite Eb.
  cbn [replace]. now apply replace_from_absent.
Qed.

(** Replacing a token in a text whose only bracket opens another token
    changes nothing. *)
Lemma replace_token_other : forall t n t' n' new p s,
  bracket_free p -> bracket_free s ->
  reversible_token t n <> reversible_token t' n' ->
  replace (p ++ reversible_token t n ++ s) (reversible_token t' n') new
  = p ++ reversible_token t n ++ s.
Proof.
  intros t n t' n' new p s Hp Hs Hne.
  pose proof (reversible_token_startswith t n t' n' s) as Hst.
  destruct (reversible_token_shape t n) as (b & Eb & Hb & _).
  destruct (reversible_token_shape t' n') as (b' & Eb' & _).
  rewrite Eb' in *. cbn [replace].
  rewrite replace_from_prefix by exact Hp. f_equal.
  destruct (startswith (reversible_token t n ++ s) ("["%char :: b' ++ ["]"%char]))
    eqn:E; [now elim Hne; apply Hst |].
  rewrite Eb in *.
  change (("["%char :: b ++ ["]"%char]) ++ s)
    with ("["%char :: (b ++ ["]"%char]) ++ s) in *.
  cbn [replace_from]. rewrite E. f_equal.
  apply replace_from_absent. intro H.
  apply in_app_iff in H as [H | H]; [| now apply Hs].
  apply in_app_iff in H as [H | [H | []]]; [now apply Hb | discriminate].
Qed.

(** Replacing the token of a text whose only bracket opens it. *)
Lemma replace_token_here : forall t n new p s,
  bracket_free p -> bracket_free s ->
  replace (p ++ reversible_token t n ++ s) (reversible_token t n) new
  = p ++ new ++ s.
Proof.
  intros t n new p s Hp Hs.
  destruct (reversible_token_shape t n) as (b & Eb & _). rewrite Eb.
  cbn [replace]. rewrite replace_from_prefix by exact Hp. f_equal.
  rewrite replace_from_here. f_equal. now apply replace_from_absent.
Qed.

Lemma unmask_fold_absent : forall d text,
  token_keys d -> bracket_free text ->
  fold_left (fun result_ entry => replace result_ (fst entry) (snd entry)) d text
  = text.
Proof.
  induction d as [| [k v] d IH]; intros text Hk Ht; [reflexivity |].
  inversion Hk as [| ? ? (t & n & Ek) Hk']; subst. cbn [fst] in Ek. subst k.
  cbn [fold_left fst snd]. rewrite replace_token_absent by exact Ht.
  now apply IH.
Qed.

Lemma unmask_fold_here : forall d1 d2 tok v p s,
  token_keys (d1 ++ (tok, v) :: d2) ->
  ~ In tok (map fst d1) ->
  bracket_free p -> bracket_free s -> bracket_free v ->
  fold_left (fun result_ entry => replace result_ (fst entry) (snd entry))
            (d1 ++ (tok, v) :: d2) (p ++ tok ++ s)
  = p ++ v ++ s.
Proof.
  induction d1 as [| [k w] d1 IH]; intros d2 tok v p s Hk Hn Hp Hs Hv.
  - inversion Hk as [| ? ? (t & n & Ek) Hk']; subst. cbn [fst] in Ek. subst tok.
    cbn [app fold_left fst snd]. rewrite replace_token_here by assumption.
    apply unmask_fold_absent; [exact Hk' |].
    intro H. apply in_app_iff in H as [H | H]; [now apply Hp |].
    apply in_app_iff in H as [H | H]; [now apply Hv | now apply Hs].
  - inversion Hk as [| ? ? (t & n & Ek) Hk']; subst. cbn [fst] in Ek. subst k.
    pose proof Hk' as Hk''. apply Forall_app in Hk'' as [_ Hk''].
    inversion Hk'' as [| ? ? (t' & n' & Ek') _]; subst. cbn [fst] in Ek'. subst tok.
    cbn [app fold_left fst snd].
    rewrite replace_token_other; try assumption.
    + apply IH; try assumption. intro H. apply Hn. now right.
    + intro E. apply Hn. left. now symmetry.
Qed.

Lemma dict_set_fresh : forall (d : list (str * str)) k v,
  ~ In k (map fst d) -> dict_set str_eqb d k v = d ++ [(k, v)].
Proof.
  induction d as [| [k0 v0] d IH]; intros k v H; simpl; [reflexivity |].
  destruct (str_eqb k0 k) eqn:E.
  - apply str_eqb_eq in E. subst. exfalso. apply H. now left.
  - f_equal. apply IH. intro Hin. apply H. now right.
Qed.

(** The mapping after a run of [mask] calls, when the keys held before it
    are tokens the counter has passed: the new entries come after the old
    ones, in the order of the calls. *)
Lemma mask_all_mapping : forall items self tokens self',
  mask_all self items = (tokens, self') ->
  Forall (fun entry => exists t n,
            (n <= ReversibleMasker._counter self)%nat /\
            fst entry = reversible_token t n) (ReversibleMasker._mapping self) ->
  ReversibleMasker._mapping self'
  = ReversibleMasker._mapping self ++ combine tokens (map fst items).
Proof.
  induction items as [| [v t] items IH]; intros self tokens self' H Hk.
  - simpl in H. inversion H; subst. simpl. now rewrite app_nil_r.
  - cbn [mask_all] in H.
    set (tok := reversible_token t (ReversibleMasker._counter self + 1)) in *.
    set (self1 := ReversibleMasker.mk
                    (dict_set str_eqb (ReversibleMasker._mapping self) tok v)
                    (ReversibleMasker._counter self + 1)).
    change (ReversibleMasker.mask self v t) with (tok, self1) in H.
    cbv iota beta in H.
    destruct (mask_all self1 items) as [toks self2] eqn:E2.
    inversion H; subst tokens self2. clear H.
    assert (Hfresh : ~ In tok (map fst (ReversibleMasker._mapping self))).
    { intro Hin. apply in_map_iff in Hin as (entry & Ee & Hin).
      rewrite Forall_forall in Hk. destruct (Hk _ Hin) as (t' & n & Hn & En).
      rewrite En in Ee. apply reversible_token_inj in Ee. lia. }
    assert (Em : ReversibleMasker._mapping self1
                 = ReversibleMasker._mapping self ++ [(tok, v)]).
    { unfold self1. cbn [ReversibleMasker._mapping]. now apply dict_set_fresh. }
    rewrite (IH _ _ _ E2).
    + rewrite Em, <- app_assoc. reflexivity.
    + rewrite Em. apply Forall_app. split.
      * eapply Forall_impl; [| exact Hk].
        intros entry (t' & n & Hn & En). exists t', n.
        split; [unfold self1; simpl; lia | exact En].
      * constructor; [| constructor].
        exists t, (ReversibleMasker._counter self + 1)%nat.
        split; [unfold self1; simpl; lia | reflexivity].
Qed.

Lemma combine_map_fst : forall (A B : Type) (l : list A) (l' : list B),
  List.length l = List.length l' -> map fst (combine l l') = l.
Proof.
  induction l as [| x l IH]; intros [| y l'] H; simpl in *; try discriminate;
    [reflexivity |]. f_equal. apply IH. lia.
Qed.

Lemma mask_all_length : forall items self tokens self',
  mask_all self items = (tokens, self') -> List.length tokens = List.length items.
Proof.
  induction items as [| [v t] items IH]; intros self tokens self' H.
  - simpl in H. now inversion H.
  - cbn [mask_all] in H.
    destruct (ReversibleMasker.mask self v t) as [tok self1].
    destruct (mask_all self1 items) as [toks self2] eqn:E2.
    inversion H; subst. simpl. f_equal. eapply IH; eauto.
Qed.

(** X26.  [unmask_text] restores a masked value: on a masker used since its
    creation for values without opening brackets, a text made of a token
    between two strings without opening brackets becomes the same text with
    the value the token was issued for. *)
Theorem unmask_text_restores : forall items tokens self' tok value prefix suffix,
  mask_all ReversibleMasker.init items = (tokens, self') ->
  In (tok, value) (combine tokens (map fst items)) ->
  Forall (fun item => bracket_free (fst item)) items ->
  bracket_free prefix -> bracket_free suffix ->
  ReversibleMasker.unmask_text self' (prefix ++ tok ++ suffix)
  = prefix ++ value ++ suffix.
Proof.
  intros items tokens self' tok v p s Hrun Hin Hv Hp Hs.
  pose proof (mask_all_mapping _ _ _ _ Hrun (Forall_nil _)) as Em.
  simpl in Em.
  destruct (mask_all_ok _ _ _ _ Hrun) as (_ & Hall & Hnd & _ & _).
  pose proof (mask_all_length _ _ _ _ Hrun) as Hlen.
  unfold ReversibleMasker.unmask_text. rewrite Em.
  assert (Hkeys : token_keys (combine tokens (map fst items))).
  { apply Forall_forall. intros [k w] Hkw. apply in_combine_l in Hkw.
    rewrite Forall_forall in Hall. destruct (Hall _ Hkw) as (t & n & _ & E).
    now exists t, n. }
  assert (Hval : bracket_free v).
  { apply in_combine_r in Hin. apply in_map_iff in Hin as (item & <- & Hi).
    rewrite Forall_forall in Hv. now apply Hv. }
  apply in_split in Hin as (d1 & d2 & Ed).
  assert (Hn : ~ In tok (map fst d1)).
  { assert (Ek : map fst (combine tokens (map fst items)) = tokens)
      by (apply combine_map_fst; now rewrite length_map).
    rewrite Ed, map_app in Ek. simpl in Ek. rewrite <- Ek in Hnd.
    apply NoDup_remove_2 in Hnd. intro H. apply Hnd. apply in_app_iff. now left. }
  rewrite Ed in *. now apply unmask_fold_here.
Qed.

Lemma unmask_text_restores_witness :
  ReversibleMasker.unmask_text
    (snd (mask_all ReversibleMasker.init
            [(lit "a@b.co", EMAIL); (lit "123-45-6789", SSN)]))
    (lit "ssn: " ++ lit "[SSN_0002]" ++ lit ".")
  = lit "ssn: " ++ lit "123-45-6789" ++ lit ".".
Proof.
  apply (unmask_text_restores
           [(lit "a@b.co", EMAIL); (lit "123-45-6789", SSN)]
           [lit "[EMAIL_0001]"; lit "[SSN_0002]"]).
  - reflexivity.
  - simpl. right. left. reflexivity.
  - repeat constructor; intro H; simpl in H;
      repeat (destruct H as [H | H]; [discriminate |]); exact H.
  - intro H; simpl in H;
      repeat (destruct H as [H | H]; [discriminate |]); exact H.
  - intro H; simpl in H;
      repeat (destruct H as [H | H]; [discriminate |]); exact H.
Defined.

(** X27.  [unmask_text] leaves alone a text without opening brackets,
    whatever was masked since the creation of the masker. *)
Theorem unmask_text_plain : forall items tokens self' text,
  mask_all ReversibleMasker.init items = (tokens, self') ->
  bracket_free text ->
  ReversibleMasker.unmask_text self' text = text.
Proof.
  intros items tokens self' text Hrun Ht.
  pose proof (mask_all_mapping _ _ _ _ Hrun (Forall_nil _)) as Em.
  simpl in Em.
  destruct (mask_all_ok _ _ _ _ Hrun) as (_ & Hall & _).
  unfold ReversibleMasker.unmask_text. rewrite Em.
  apply unmask_fold_absent; [| exact Ht].
  apply Forall_forall. intros [k w] Hkw. apply in_combine_l in Hkw.
  rewrite Forall_forall in Hall. destruct (Hall _ Hkw) as (t & n & _ & E).
  now exists t, n.
Qed.

Lemma unmask_text_plain_witness :
  ReversibleMasker.unmask_text
    (snd (mask_all ReversibleMasker.init [(lit "a@b.co", EMAIL)]))
    (lit "nothing here")
  = lit "nothing here".
Proof.
  apply (unmask_text_plain [(lit "a@b.co", EMAIL)] [lit "[EMAIL_0001]"]).
  - reflexivity.
  - intro H; simpl in H;
      repeat (destruct H as [H | H]; [discriminate |]); exact H.
Defined.

(* ================================================================== *)
(** * Proofs: the run of words of a name *)

Lemma index_nth : forall (A : Type) (s : list A) i w,
  0 <= i -> index s i = Ok w -> nth_error s (Z.to_nat i) = Some w.
Proof.
  intros A s i w Hi H. unfold index in H.
  assert (E : (i <? 0) = false) by (apply Z.ltb_ge; lia).
  rewrite E in H.
  destruct ((i <? 0) || (len s <=? i)); [discriminate |].
  destruct (nth_error s (Z.to_nat i)); [now inversion H | discriminate].
Qed.

Lemma skipn_nth : forall (A : Type) (s : list A) n w,
  nth_error s n = Some w -> skipn n s = w :: skipn (S n) s.
Proof.
  intros A s. induction s as [| x s IH]; intros [| n] w H; simpl in *;
    try discriminate.
  - now inversion H.
  - now apply IH.
Qed.

Lemma slice_cons : forall (A : Type) (s : list A) i j w,
  0 <= i < j -> j <= len s -> index s i = Ok w ->
  slice s i j = w :: slice s (i + 1) j.
Proof.
  intros A s i j w H1 H2 Hw.
  rewrite !slice_between by lia.
  rewrite (skipn_nth _ s (Z.to_nat i) w (index_nth _ s i w (proj1 H1) Hw)).
  replace (Z.to_nat j - Z.to_nat i)%nat with (S (Z.to_nat j - Z.to_nat (i + 1)))
    by lia.
  replace (Z.to_nat (i + 1)) with (S (Z.to_nat i)) by lia.
  reflexivity.
Qed.

Lemma slice_empty : forall (A : Type) (s : list A) i,
  0 <= i <= len s -> slice s i i = [].
Proof.
  intros A s i H. rewrite slice_between by lia. now rewrite Nat.sub_diag.
Qed.

Lemma extract_loop_run : forall words start_idx fuel name_parts i,
  0 <= start_idx -> start_idx + 1 <= i <= Z.min (start_idx + 4) (len words) ->
  start_idx + 4 - i <= Z.of_nat fuel ->
  exists j,
    extract_loop words start_idx fuel name_parts i
    = Ok (name_parts ++ slice words i j, j) /\
    i <= j <= Z.min (start_idx + 4) (len words) /\
    Forall (fun w => name_word w = true) (slice words i j) /\
    (j < Z.min (start_idx + 4) (len words) ->
     exists w, index words j = Ok w /\ name_word w = false).
Proof.
  intros words start_idx fuel; induction fuel as [| fuel IH];
    intros name_parts i Hs Hi Hf; cbn [extract_loop].
  - exists i. rewrite slice_empty, app_nil_r by lia.
    split; [reflexivity |]. split; [lia |]. split; [constructor |].
    intro H. lia.
  - destruct ((i <? len words) && (i <? start_idx + 4)) eqn:E.
    + apply andb_true_iff in E as [E1 E2]. apply Z.ltb_lt in E1, E2.
      destruct (index_ok _ words i) as (w & Hw); [lia |].
      rewrite Hw. cbn [bind]. fold (name_word w).
      destruct (name_word w) eqn:En.
      * destruct (IH (name_parts ++ [w]) (i + 1)) as (j & Hl & Hj & Hall & Hstop);
          [lia | lia | lia |].
        exists j. rewrite Hl, <- app_assoc.
        rewrite (slice_cons _ words i j w) by (lia || assumption).
        split; [reflexivity |]. split; [lia |]. split; [| exact Hstop].
        constructor; assumption.
      * exists i. rewrite slice_empty, app_nil_r by lia.
        split; [reflexivity |]. split; [lia |]. split; [constructor |].
        intros _. now exists w.
    + exists i. rewrite slice_empty, app_nil_r by lia.
      split; [reflexivity |]. split; [lia |]. split; [constructor |].
      intro H. apply andb_false_iff in E as [E | E]; apply Z.ltb_ge in E; lia.
Qed.

(** X28.  [_extract_name_sequence] returns a run of one to four consecutive
    words that starts at the given index, with the index that follows the
    run: after the first word it takes the words that are capitalised or
    name suffixes, and stops at the first that is not, after three of them,
    or at the end of the words. *)
Theorem extract_name_sequence_run : forall words start_idx full_text,
  0 <= start_idx < len words ->
  exists j,
    _extract_name_sequence words start_idx full_text
    = Ok (slice words start_idx j, j) /\
    start_idx + 1 <= j <= Z.min (start_idx + 4) (len words) /\
    Forall (fun w => name_word w = true) (slice words (start_idx + 1) j) /\
    (j < Z.min (start_idx + 4) (len words) ->
     exists w, index words j = Ok w /\ name_word w = false).
Proof.
  intros words start_idx full_text H. unfold _extract_name_sequence.
  destruct (index_ok _ words start_idx) as (w & Hw); [lia |].
  rewrite Hw. cbn [bind].
  destruct (extract_loop_run words start_idx 3 [w] (start_idx + 1))
    as (j & Hl & Hj & Hall & Hstop); [lia | lia | simpl; lia |].
  exists j. rewrite Hl. split; [| auto].
  rewrite (slice_cons _ words start_idx j w) by (lia || assumption).
  reflexivity.
Qed.

Lemma extract_name_sequence_run_witness :
  exists j,
    _extract_name_sequence [lit "Dr."; lit "John"; lit "Smith"; lit "said"] 0 []
    = Ok (slice [lit "Dr."; lit "John"; lit "Smith"; lit "said"] 0 j, j) /\
    0 + 1 <= j <= Z.min (0 + 4) (len [lit "Dr."; lit "John"; lit "Smith"; lit "said"]) /\
    Forall (fun w => name_word w = true)
           (slice [lit "Dr."; lit "John"; lit "Smith"; lit "said"] (0 + 1) j) /\
    (j < Z.min (0 + 4) (len [lit "Dr."; lit "John"; lit "Smith"; lit "said"]) ->
     exists w, index [lit "Dr."; lit "John"; lit "Smith"; lit "said"] j = Ok w /\
               name_word w = false).
Proof.
  apply (extract_name_sequence_run
           [lit "Dr."; lit "John"; lit "Smith"; lit "said"] 0 []).
  unfold len; simpl; lia.
Defined.

(* ================================================================== *)
(** * Proofs: the tokens of a detection *)

Lemma issued_app : forall c o1 c1 o2 c2,
  issued c o1 c1 -> issued c1 o2 c2 -> issued c (o1 ++ o2) c2.
Proof.
  intros c o1 c1 o2 c2 H1 H2. induction H1; simpl; [exact H2 |].
  econstructor; eauto.
Qed.

Lemma issued_range : forall c o c',
  issued c o c' ->
  (c <= c')%nat /\
  Forall (fun m => exists t n, (c < n <= c')%nat /\
                               pii_type m = PIIType_value t /\
                               masked_value m = tokenize_token t n) o.
Proof.
  intros c o c' H. induction H as [c | c m ms c' t Ht Hm _ [IH1 IH2]].
  - split; [lia | constructor].
  - split; [lia |]. constructor.
    + exists t, (c + 1)%nat. repeat split; auto; lia.
    + eapply Forall_impl; [| exact IH2].
      intros x (t' & n & Hn & Hx). exists t', n. split; [lia | exact Hx].
Qed.

(** Two matches of a run with the same token are the same match. *)
Lemma issued_inj : forall c o c',
  issued c o c' ->
  forall m1 m2, In m1 o -> In m2 o ->
                masked_value m1 = masked_value m2 -> m1 = m2.
Proof.
  intros c o c' H. induction H as [c | c m ms c' t Ht Hm Hi IH];
    intros m1 m2 H1 H2 E; [destruct H1 |].
  destruct (issued_range _ _ _ Hi) as [_ Hr]. rewrite Forall_forall in Hr.
  destruct H1 as [<- | H1]; destruct H2 as [<- | H2].
  - reflexivity.
  - destruct (Hr _ H2) as (t' & n & Hn & _ & E2). rewrite Hm, E2 in E.
    apply tokenize_token_inj in E. lia.
  - destruct (Hr _ H1) as (t' & n & Hn & _ & E1). rewrite Hm, E1 in E.
    apply tokenize_token_inj in E. lia.
  - now apply IH.
Qed.

Lemma mask_tokenize : forall mk value pii_type strategy,
  effective mk strategy = TOKENIZE ->
  mask mk value pii_type strategy
  = Ok (tokenize_token pii_type (_token_counter mk + 1),
        mkPIIMasker (default_strategy mk) (_token_counter mk + 1)).
Proof.
  intros mk v t st H. unfold mask. fold (effective mk st). rewrite H.
  reflexivity.
Qed.

Lemma all_tokenize_next : forall self,
  all_tokenize self ->
  all_tokenize
    (with_masker self
       (mkPIIMasker (default_strategy (masker self))
          (_token_counter (masker self) + 1))).
Proof. intros self [H1 H2]. split; assumption. Qed.

Lemma pattern_finditer_loop_issued : forall text pd ms self o s,
  all_tokenize self ->
  pattern_finditer_loop self text pd ms = Ok (o, s) ->
  issued (_token_counter (masker self)) o (_token_counter (masker s)) /\
  all_tokenize s.
Proof.
  intros text pd ms; induction ms as [| m ms IH]; intros self o s Ha H;
    cbn [pattern_finditer_loop] in H.
  - ok_inv H. split; [constructor | exact Ha].
  - destruct (if pat_requires_validation pd && enable_strict_validation self
              then _validate_match (group0 m) (pat_pii_type pd)
              else Ok true) as [[|] | e]; cbn [bind negb] in H;
      [| eauto | discriminate].
    rewrite mask_tokenize in H by (apply Ha). cbn [bind] in H.
    destruct (pattern_finditer_loop _ text pd ms)
      as [[rest1 t1] | e] eqn:E1; cbn [bind] in H; [| discriminate].
    ok_inv H.
    destruct (IH _ _ _ (all_tokenize_next _ Ha) E1) as [Hi Hs].
    split; [| exact Hs].
    apply (issued_cons _ _ _ _ (pat_pii_type pd));
      [reflexivity | reflexivity | exact Hi].
Qed.

Lemma pattern_loop_issued : forall text pii_types pats self o s,
  all_tokenize self ->
  pattern_loop self text pii_types pats = Ok (o, s) ->
  issued (_token_counter (masker self)) o (_token_counter (masker s)) /\
  all_tokenize s.
Proof.
  intros text pii_types pats; induction pats as [| [pd re] pats IH];
    intros self o s Ha H; cbn [pattern_loop] in H.
  - ok_inv H. split; [constructor | exact Ha].
  - destruct (truthy pii_types &&
              negb (PIIType_in (pat_pii_type pd)
                      (match pii_types with Some ts => ts | None => [] end)));
      [eauto |].
    destruct (pattern_finditer_loop self text pd (finditer re text))
      as [[f1 t1] | e] eqn:E1; cbn [bind] in H; [| discriminate].
    destruct (pattern_loop t1 text pii_types pats)
      as [[f2 t2] | e] eqn:E2; cbn [bind] in H; [| discriminate].
    ok_inv H.
    destruct (pattern_finditer_loop_issued _ _ _ _ _ _ Ha E1) as [Hi1 Ha1].
    destruct (IH _ _ _ Ha1 E2) as [Hi2 Ha2].
    split; [| exact Ha2]. eapply issued_app; eauto.
Qed.

Lemma name_match_issued : forall self text full_name conf_yes conf_no o s,
  all_tokenize self ->
  name_match self text full_name conf_yes conf_no = Ok (o, s) ->
  issued (_token_counter (masker self)) o (_token_counter (masker s)) /\
  all_tokenize s.
Proof.
  intros self text full_name cy cn o s Ha H. unfold name_match in H.
  destruct (negb (find text full_name =? -1)).
  - rewrite mask_tokenize in H by (apply Ha). cbn [bind] in H. ok_inv H.
    split; [| exact (all_tokenize_next _ Ha)].
    apply (issued_cons _ _ _ _ PERSON_NAME); [reflexivity | reflexivity |].
    constructor.
  - ok_inv H. split; [constructor | exact Ha].
Qed.

Lemma names_loop_issued : forall text words fuel self i o s,
  all_tokenize self ->
  names_loop self text words fuel i = Ok (o, s) ->
  issued (_token_counter (masker self)) o (_token_counter (masker s)) /\
  all_tokenize s.
Proof.
  intros text words fuel; induction fuel as [| fuel IH];
    intros self i o s Ha H; cbn [names_loop] in H.
  - ok_inv H. split; [constructor | exact Ha].
  - destruct (i <? len words); [| ok_inv H; split; [constructor | exact Ha]].
    destruct (index words i) as [w | e]; cbn [bind] in H; [| discriminate].
    destruct (str_in (lower (strip punctuation w)) PREFIXES
              && (i + 1 <? len words)).
    + destruct (_extract_name_sequence words i text) as [[parts next_i] | e];
        cbn [bind] in H; [| discriminate].
      destruct (if negb (len parts =? 0) && (len parts >=? 2)
                then name_match self text (join (lit " ") parts) 0.85 0.70
                else Ok ([], self)) as [[f1 t1] | e] eqn:E1;
        cbn [bind] in H; [| discriminate].
      destruct (names_loop t1 text words fuel next_i)
        as [[f2 t2] | e] eqn:E2; cbn [bind] in H; [| discriminate].
      ok_inv H.
      assert (H1 : issued (_token_counter (masker self)) f1
                     (_token_counter (masker t1)) /\ all_tokenize t1).
      { destruct (negb (len parts =? 0) && (len parts >=? 2)).
        - exact (name_match_issued _ _ _ _ _ _ _ Ha E1).
        - ok_inv E1. split; [constructor | exact Ha]. }
      destruct H1 as [Hi1 Ha1]. destruct (IH _ _ _ _ Ha1 E2) as [Hi2 Ha2].
      split; [| exact Ha2]. eapply issued_app; eauto.
    + destruct (str_in (lower (strip punctuation w)) COMMON_FIRST_NAMES
                && (i + 1 <? len words)); [| eauto].
      destruct (index words (i + 1)) as [w1 | e]; cbn [bind] in H;
        [| discriminate].
      destruct (if is_capitalized_word (strip punctuation w1)
                   && (len (strip punctuation w1) >? 2)
                then name_match self text (w ++ lit " " ++ w1) 0.75 0.60
                else Ok ([], self)) as [[f1 t1] | e] eqn:E1;
        cbn [bind] in H; [| discriminate].
      destruct (names_loop t1 text words fuel (i + 2))
        as [[f2 t2] | e] eqn:E2; cbn [bind] in H; [| discriminate].
      ok_inv H.
      assert (H1 : issued (_token_counter (masker self)) f1
                     (_token_counter (masker t1)) /\ all_tokenize t1).
      { destruct (is_capitalized_word (strip punctuation w1)
                  && (len (strip punctuation w1) >? 2)).
        - exact (name_match_issued _ _ _ _ _ _ _ Ha E1).
        - ok_inv E1. split; [constructor | exact Ha]. }
      destruct H1 as [Hi1 Ha1]. destruct (IH _ _ _ _ Ha1 E2) as [Hi2 Ha2].
      split; [| exact Ha2]. eapply issued_app; eauto.
Qed.

Lemma address_loop_issued : forall text ms self o s,
  all_tokenize self ->
  address_loop self text ms = Ok (o, s) ->
  issued (_token_counter (masker self)) o (_token_counter (masker s)) /\
  all_tokenize s.
Proof.
  intros text ms; induction ms as [| m ms IH]; intros self o s Ha H;
    cbn [address_loop] in H.
  - ok_inv H. split; [constructor | exact Ha].
  - rewrite mask_tokenize in H by (apply Ha). cbn [bind] in H.
    destruct (address_loop _ text ms)
      as [[rest1 t1] | e] eqn:E1; cbn [bind] in H; [| discriminate].
    ok_inv H.
    destruct (IH _ _ _ (all_tokenize_next _ Ha) E1) as [Hi Hs].
    split; [| exact Hs].
    apply (issued_cons _ _ _ _ ADDRESS); [reflexivity | reflexivity | exact Hi].
Qed.

Lemma collect_matches_issued : forall self text pii_types all s,
  all_tokenize self ->
  collect_matches self text pii_types = Ok (all, s) ->
  issued (_token_counter (masker self)) all (_token_counter (masker s)).
Proof.
  intros self text pii_types all s Ha H. unfold collect_matches in H.
  destruct (_detect_pattern_based self text pii_types) as [[pm s1] | e] eqn:E1;
    cbn [bind] in H; [| discriminate].
  destruct (if requested pii_types PERSON_NAME then _detect_names s1 text
            else Ok ([], s1)) as [[nm s2] | e] eqn:E2;
    cbn [bind] in H; [| discriminate].
  destruct (if requested pii_types ADDRESS then _detect_addresses s2 text
            else Ok ([], s2)) as [[am s3] | e] eqn:E3;
    cbn [bind] in H; [| discriminate].
  ok_inv H.
  destruct (pattern_loop_issued _ _ _ _ _ _ Ha E1) as [Hi1 Ha1].
  assert (H2 : issued (_token_counter (masker s1)) nm
                 (_token_counter (masker s2)) /\ all_tokenize s2).
  { destruct (requested pii_types PERSON_NAME).
    - exact (names_loop_issued _ _ _ _ _ _ _ Ha1 E2).
    - ok_inv E2. split; [constructor | exact Ha1]. }
  destruct H2 as [Hi2 Ha2].
  assert (H3 : issued (_token_counter (masker s2)) am
                 (_token_counter (masker s))).
  { destruct (requested pii_types ADDRESS).
    - exact (proj1 (address_loop_issued _ _ _ _ _ Ha2 E3)).
    - ok_inv E3. constructor. }
  eapply issued_app; [exact Hi1 |]. eapply issued_app; eauto.
Qed.

(** X29.  With TOKENIZE as the default strategy and for every type, the
    matches [detect_all] returns carry tokens of their own: each masked
    value is the token of the type of the match at a counter value passed
    during the call, and two matches with the same masked value are the
    same match. *)
Theorem detect_all_tokens_distinct :
  forall self text confidence_threshold pii_types,
  all_tokenize self ->
  exists matches self',
    detect_all self text confidence_threshold pii_types = Ok (matches, self') /\
    Forall (fun m => exists t n,
              (_token_counter (masker self) < n
               <= _token_counter (masker self'))%nat /\
              pii_type m = PIIType_value t /\
              masked_value m = tokenize_token t n) matches /\
    (forall m1 m2, In m1 matches -> In m2 matches ->
                   masked_value m1 = masked_value m2 -> m1 = m2).
Proof.
  intros [mk cfg ecv esv st] text thr pii_types Ha.
  destruct (collect_matches_ok text pii_types mk cfg ecv esv)
    as (all & mk' & Hc & _).
  destruct (resolve_overlaps_ok (filter (above thr) all))
    as (final & Hr & _ & _ & Hin).
  pose proof (collect_matches_issued _ _ _ _ _ Ha (Hc st)) as Hi.
  cbn [masker] in Hi.
  destruct (record_statistics_frame mk' cfg ecv esv st final) as [st' E].
  exists final, (mkPIIDetector mk' cfg ecv esv st'). split; [| split].
  - rewrite detect_all_collect, (Hc st). cbn [bind]. rewrite Hr. cbn [bind].
    now rewrite E.
  - destruct (issued_range _ _ _ Hi) as [_ Hall]. cbn [masker].
    rewrite Forall_forall in *. intros m Hm.
    apply Hin, filter_In in Hm as [Hm _]. now apply Hall.
  - intros m1 m2 H1 H2. apply (issued_inj _ _ _ Hi).
    + now apply Hin, filter_In in H1 as [H1 _].
    + now apply Hin, filter_In in H2 as [H2 _].
Qed.

Lemma detect_all_tokens_distinct_witness :
  exists matches self',
    detect_all
      (set_all_masking_strategies
         (with_masker (PIIDetector_init true true false)
            (mkPIIMasker TOKENIZE 0)) TOKENIZE) (lit "a@b.co") 0 None
    = Ok (matches, self') /\
    Forall (fun m => exists t n,
              (0 < n <= _token_counter (masker self'))%nat /\
              pii_type m = PIIType_value t /\
              masked_value m = tokenize_token t n) matches /\
    (forall m1 m2, In m1 matches -> In m2 matches ->
                   masked_value m1 = masked_value m2 -> m1 = m2).
Proof.
  apply (detect_all_tokens_distinct
           (set_all_masking_strategies
              (with_masker (PIIDetector_init true true false)
                 (mkPIIMasker TOKENIZE 0)) TOKENIZE) (lit "a@b.co") 0 None).
  split; [reflexivity | intros []; reflexivity].
Defined.

(* ================================================================== *)
(** * Proofs: the matcher on runs of a character class *)

Lemma nth_error_skipn_hd : forall (s : str) i,
  nth_error s i = match skipn i s with c :: _ => Some c | [] => None end.
Proof.
  induction s as [| x s IH]; intros [| i]; simpl; auto.
Qed.

Lemma skipn_S_tl : forall (s : str) i c rest,
  skipn i s = c :: rest -> skipn (S i) s = rest.
Proof.
  induction s as [| x s IH]; intros [| i] c rest H; simpl in *;
    try discriminate.
  - now inversion H.
  - now apply (IH i c).
Qed.

Lemma rmatch_Chr : forall p s i k,
  rmatch (Chr p) s i k
  = match skipn i s with
    | c :: _ => if p c then k (S i) else None
    | [] => None
    end.
Proof.
  intros p s i k. cbn [rmatch]. rewrite nth_error_skipn_hd.
  now destruct (skipn i s).
Qed.

(** [n] characters of the class, when the run is long enough. *)
Lemma rmatch_Rep_run : forall p n s i k,
  (n <= run p (skipn i s))%nat ->
  rmatch (Rep n (Chr p)) s i k = k (i + n)%nat.
Proof.
  intros p. induction n as [| n IH]; intros s i k H.
  - cbn [Rep rmatch]. now rewrite Nat.add_0_r.
  - cbn [Rep]. change (rmatch (Seq (Chr p) (Rep n (Chr p))) s i k)
      with (rmatch (Chr p) s i (fun j => rmatch (Rep n (Chr p)) s j k)).
    rewrite rmatch_Chr.
    destruct (skipn i s) as [| c rest] eqn:E; simpl in H; [lia |].
    destruct (p c); [| lia].
    rewrite IH.
    + f_equal. lia.
    + rewrite (skipn_S_tl _ _ _ _ E). lia.
Qed.

Lemma rmatch_Rep_short : forall p n s i k,
  (run p (skipn i s) < n)%nat ->
  rmatch (Rep n (Chr p)) s i k = None.
Proof.
  intros p. induction n as [| n IH]; intros s i k H; [lia |].
  cbn [Rep]. change (rmatch (Seq (Chr p) (Rep n (Chr p))) s i k)
    with (rmatch (Chr p) s i (fun j => rmatch (Rep n (Chr p)) s j k)).
  rewrite rmatch_Chr.
  destruct (skipn i s) as [| c rest] eqn:E; [reflexivity |].
  simpl in H. destruct (p c); [| reflexivity].
  apply IH. rewrite (skipn_S_tl _ _ _ _ E). lia.
Qed.

(** Up to [n] characters of the class, greedily: when what follows cannot
    match inside the run, the whole run is taken, up to [n]. *)
Lemma rmatch_UpTo_run : forall p n s i k,
  (forall m, (m < Nat.min n (run p (skipn i s)))%nat -> k (i + m)%nat = None) ->
  rmatch (UpTo n (Chr p)) s i k
  = k (i + Nat.min n (run p (skipn i s)))%nat.
Proof.
  intros p. induction n as [| n IH]; intros s i k H.
  - cbn [UpTo rmatch]. simpl. now rewrite Nat.add_0_r.
  - cbn [UpTo]. unfold Opt.
    change (rmatch (Alt (Seq (Chr p) (UpTo n (Chr p))) Eps) s i k)
      with (match rmatch (Chr p) s i (fun j => rmatch (UpTo n (Chr p)) s j k) with
            | Some e => Some e
            | None => k i
            end).
    rewrite rmatch_Chr.
    destruct (skipn i s) as [| c rest] eqn:E.
    + simpl. now rewrite Nat.add_0_r.
    + cbn [run] in H |- *. destruct (p c).
      * rewrite IH.
        -- rewrite (skipn_S_tl _ _ _ _ E).
           replace (S i + Nat.min n (run p rest))%nat
             with (i + Nat.min (S n) (S (run p rest)))%nat by (simpl; lia).
           destruct (k (i + Nat.min (S n) (S (run p rest)))%nat) eqn:Ek;
             [reflexivity |].
           specialize (H 0%nat). rewrite Nat.add_0_r in H. apply H.
           simpl. lia.
        -- intros m Hm. rewrite (skipn_S_tl _ _ _ _ E) in Hm.
           replace (S i + m)%nat with (i + S m)%nat by lia.
           apply H. simpl. lia.
      * simpl. now rewrite Nat.add_0_r.
Qed.

Lemma run_skipn : forall p (s : str) m,
  (m <= run p s)%nat -> run p (skipn m s) = (run p s - m)%nat.
Proof.
  intros p. induction s as [| c s IH]; intros [| m] H; simpl in *;
    try reflexivity; try lia.
  destruct (p c); [| lia]. simpl. apply IH. lia.
Qed.

Lemma run_skipn_hd : forall p (s : str) m,
  (m < run p s)%nat -> exists c rest, skipn m s = c :: rest /\ p c = true.
Proof.
  intros p. induction s as [| c s IH]; intros m H; simpl in H; [lia |].
  destruct (p c) eqn:E; [| lia].
  destruct m as [| m]; [now exists c, s |].
  simpl. apply IH. lia.
Qed.

Lemma run_length : forall p (s : str), (run p s <= List.length s)%nat.
Proof.
  intros p. induction s as [| c s IH]; simpl; [lia |].
  destruct (p c); lia.
Qed.

(** [$] at an offset in the string: the rest is empty or one newline. *)
Lemma at_eol_skipn : forall (s : str) i,
  (i <= List.length s)%nat ->
  at_eol s i = match skipn i s with
               | [] => true
               | [c] => chr_eqb c "010"%char
               | _ => false
               end.
Proof.
  induction s as [| x s IH]; intros [| i] H; simpl in H; try lia.
  - reflexivity.
  - unfold at_eol. cbn [List.length Nat.eqb nth_error skipn orb].
    destruct s as [| y s']; reflexivity.
  - cbn [skipn]. rewrite <- (IH i) by lia. reflexivity.
Qed.

Lemma AZ_not_digit : forall c, is_AZ c = true -> isdecimal c = false.
Proof.
  intros c H. unfold is_AZ, isdecimal, in_range in *.
  apply andb_true_iff in H as [H1 H2]. apply Nat.leb_le in H1, H2.
  apply andb_false_iff. right. apply Nat.leb_gt. lia.
Qed.

Lemma isdecimal_not_newline : forall c,
  isdecimal c = true -> chr_eqb c "010"%char = false.
Proof.
  intros c H. destruct (chr_eqb c "010") eqn:E; [| reflexivity].
  apply chr_eqb_eq in E. subst c. discriminate H.
Qed.

(** Inside a run of digits, [$] does not hold. *)
Lemma at_eol_in_digits : forall (s : str) j m,
  (j <= List.length s)%nat -> (m < run isdecimal (skipn j s))%nat ->
  at_eol s (j + m) = false.
Proof.
  intros s j m Hj Hm.
  destruct (run_skipn_hd isdecimal (skipn j s) m Hm) as (c & rest & E & Hc).
  rewrite skipn_skipn in E.
  assert (Hl : (m + j < List.length s)%nat).
  { apply (f_equal (@List.length ascii)) in E. rewrite length_skipn in E.
    simpl in E. lia. }
  rewrite at_eol_skipn by lia. rewrite (Nat.add_comm j m), E.
  destruct rest; [now apply isdecimal_not_newline | reflexivity].
Qed.

(** X30.  On text of code points below 256, [is_valid_passport] accepts
    exactly the strings made of one or two letters A to Z and six to nine
    characters of the class [\d], which on this range are the digits 0 to
    9, followed by nothing or by one final newline. *)
Theorem is_valid_passport_shape : forall passport,
  is_valid_passport passport = passport_shape passport.
Proof.
  intro s. unfold is_valid_passport, re_match, passport_shape. cbv zeta.
  set (u := run is_AZ s).
  set (K2 := fun j => rmatch Eol s j (fun j' => rmatch Eps s j' (fun e => Some e))).
  set (K1 := fun j => rmatch (Range 6 9 digit) s j K2).
  change (rmatch passport_re s 0 (fun j => Some j))
    with (rmatch (Range 1 2 upper_az) s 0 K1).
  assert (HK2 : forall j, K2 j = if at_eol s j then Some j else None)
    by reflexivity.
  assert (HK1 : forall j, (j <= List.length s)%nat ->
            K1 j = if Nat.leb 6 (run isdecimal (skipn j s))
                   then K2 (j + Nat.min 9 (run isdecimal (skipn j s)))%nat
                   else None).
  { intros j Hj. unfold K1, Range, digit.
    change (rmatch (Seq (Rep 6 (Chr isdecimal)) (UpTo (9 - 6) (Chr isdecimal))) s j K2)
      with (rmatch (Rep 6 (Chr isdecimal)) s j
              (fun i => rmatch (UpTo 3 (Chr isdecimal)) s i K2)).
    destruct (Nat.leb_spec 6 (run isdecimal (skipn j s))) as [H6 | H6];
      [| now apply rmatch_Rep_short].
    rewrite rmatch_Rep_run by exact H6.
    assert (Hr : run isdecimal (skipn (j + 6) s)
                 = (run isdecimal (skipn j s) - 6)%nat).
    { rewrite (Nat.add_comm j 6), <- skipn_skipn. now apply run_skipn. }
    rewrite rmatch_UpTo_run.
    - rewrite Hr. f_equal. lia.
    - intros m Hm. rewrite Hr in Hm. rewrite HK2.
      replace (j + 6 + m)%nat with (j + (6 + m))%nat by lia.
      rewrite at_eol_in_digits; [reflexivity | exact Hj | lia]. }
  unfold Range, upper_az.
  change (rmatch (Seq (Rep 1 (Chr is_AZ)) (UpTo (2 - 1) (Chr is_AZ)))
            s 0 K1)
    with (rmatch (Rep 1 (Chr is_AZ)) s 0
            (fun i => rmatch (UpTo 1 (Chr is_AZ)) s i K1)).
  change s with (skipn 0 s) in u.
  destruct (Nat.leb_spec 1 u) as [H1 | H1];
    [| rewrite rmatch_Rep_short by (fold u; lia); reflexivity].
  rewrite rmatch_Rep_run by (fold u; lia). cbn [Nat.add].
  assert (Hu1 : run is_AZ (skipn 1 s) = (u - 1)%nat).
  { unfold u. change (skipn 0 s) with s. apply run_skipn. exact H1. }
  pose proof (run_length is_AZ s) as Hul.
  change (run is_AZ s) with u in Hul.
  rewrite rmatch_UpTo_run.
  - rewrite Hu1.
    set (j := (1 + Nat.min 1 (u - 1))%nat).
    assert (Hj : j = Nat.min 2 u) by (unfold j; lia).
    rewrite HK1 by lia.
    destruct (Nat.leb_spec u 2) as [H2 | H2].
    + assert (Eju : j = u) by lia. rewrite Eju.
      fold (run isdecimal (skipn u s)).
      set (d := run isdecimal (skipn u s)).
      destruct (Nat.leb_spec 6 d) as [H6 | H6]; [| reflexivity].
      rewrite HK2. cbn [andb].
      pose proof (run_length isdecimal (skipn u s)) as Hdl.
      rewrite length_skipn in Hdl. fold d in Hdl.
      destruct (Nat.leb_spec d 9) as [H9 | H9].
      * rewrite Nat.min_r by lia. rewrite at_eol_skipn by lia.
        rewrite (Nat.add_comm u d), <- skipn_skipn.
        destruct (skipn d (skipn u s)) as [| c [| c' t]]; try reflexivity.
        now destruct (chr_eqb c "010").
      * rewrite Nat.min_l by lia.
        rewrite at_eol_in_digits; [reflexivity | lia | fold d; lia].
    + assert (Ej2 : j = 2%nat) by lia. rewrite Ej2.
      destruct (run_skipn_hd is_AZ s 2) as (c & rest & E & Hc);
        [change (run is_AZ s) with u; lia |].
      rewrite E. simpl run. rewrite (AZ_not_digit c Hc). reflexivity.
  - intros m Hm. rewrite Hu1 in Hm.
    assert (m = 0%nat) by lia. subst m. rewrite HK1 by lia.
    destruct (run_skipn_hd is_AZ s 1) as (c & rest & E & Hc);
      [change (run is_AZ s) with u; lia |].
    cbn [Nat.add]. rewrite E. simpl run.
    rewrite (AZ_not_digit c Hc). reflexivity.
Qed.
